(** * xsql: named-parameter rebinding and row mapping

    A shallow embedding of [named.go] (SQL skipper, named-parameter
    extractor, parameter lookup, placeholder rewriter, [Rebind]) and of
    the mapping engine of [doc.go] (column normalisation, struct index,
    conversion picker, scan plans, row scanner), followed by the
    properties checked against them.

    Go strings are immutable byte sequences: they are modelled as
    [list ascii], with string literals injected through [str]. *)

From Stdlib Require Import ZArith Ascii String DecimalString Lia.
From stdpp Require Import base option list strings gmap.

#[local] Set Warnings "-register-all".
Local Open Scope Z_scope.

(** ** Go strings *)

Abbreviation gostring := (list ascii) (only parsing).

Definition str (s : string) : gostring := list_ascii_of_string s.
Coercion str : string >-> list.

(** The double quote, byte 34. *)
Definition dquote : ascii := "034"%char.

(** The numeric value of a byte, and of an ASCII character seen as a rune. *)
Definition byteZ (c : ascii) : Z := Z.of_N (N_of_ascii c).
Definition rune (c : ascii) : Z := byteZ c.

(** [s[i] == c] under the guard [i < len(s)] that every call site has. *)
Definition byteIs (s : gostring) (i : nat) (c : ascii) : bool :=
  match s !! i with
  | Some c' => bool_decide (c' = c)
  | None => false
  end.

(** [s[i:j]]; Go panics unless [i <= j <= len(s)], rendered as [None]. *)
Definition slice (s : gostring) (i j : nat) : option gostring :=
  if bool_decide (i ≤ j ≤ length s)%nat then Some (take (j - i) (drop i s))
  else None.

(** [hasPrefix]: [len(s) >= len(p) && s[:len(p)] == p]. *)
Definition hasPrefix (s p : gostring) : bool :=
  bool_decide (length p ≤ length s)%nat && bool_decide (take (length p) s = p).

(** [strings.Index]: the first index of [sub] in [s], [None] for [-1]. *)
Fixpoint strings_Index (s sub : gostring) : option nat :=
  if hasPrefix s sub then Some 0%nat
  else match s with
       | [] => None
       | _ :: t => S <$> strings_Index t sub
       end.

(** [strings.ToLower] on the ASCII range (bytes above 0x7F are kept). *)
Definition lowerByte (c : ascii) : ascii :=
  if (65 <=? byteZ c) && (byteZ c <=? 90)
  then ascii_of_N (N_of_ascii c + 32) else c.

(** ** unicode/utf8 *)

Definition RuneError : Z := 0xFFFD.
Definition locb : Z := 0x80.
Definition hicb : Z := 0xBF.
Definition maskx : Z := 0x3F.
Definition mask2 : Z := 0x1F.
Definition mask3 : Z := 0x0F.
Definition mask4 : Z := 0x07.

(** The information of utf8's [first] table joined with [acceptRanges]:
    what a leading byte announces. *)
Inductive firstInfo :=
| FAscii
| FInvalid
| FLead (sz : nat) (lo hi : Z).

Definition first (b : Z) : firstInfo :=
  if b <? 0x80 then FAscii
  else if b <? 0xC2 then FInvalid
  else if b <? 0xE0 then FLead 2 locb hicb
  else if b =? 0xE0 then FLead 3 0xA0 hicb
  else if b <? 0xED then FLead 3 locb hicb
  else if b =? 0xED then FLead 3 locb 0x9F
  else if b <? 0xF0 then FLead 3 locb hicb
  else if b =? 0xF0 then FLead 4 0x90 hicb
  else if b <? 0xF4 then FLead 4 locb hicb
  else if b =? 0xF4 then FLead 4 locb 0x8F
  else FInvalid.

Definition contByte (lo hi b : Z) : bool := (lo <=? b) && (b <=? hi).

(** [utf8.DecodeRuneInString]: the rune at the head of [s] and its width. *)
Definition DecodeRuneInString (s : gostring) : Z * nat :=
  match s with
  | [] => (RuneError, 0%nat)
  | c0 :: t =>
    let s0 := byteZ c0 in
    match first s0 with
    | FAscii => (s0, 1%nat)
    | FInvalid => (RuneError, 1%nat)
    | FLead sz lo hi =>
      if bool_decide (length s < sz)%nat then (RuneError, 1%nat)
      else match t with
      | [] => (RuneError, 1%nat)
      | c1 :: t1 =>
        let s1 := byteZ c1 in
        if negb (contByte lo hi s1) then (RuneError, 1%nat)
        else if bool_decide (sz ≤ 2)%nat
        then (Z.lor (Z.shiftl (Z.land s0 mask2) 6) (Z.land s1 maskx), 2%nat)
        else match t1 with
        | [] => (RuneError, 1%nat)
        | c2 :: t2 =>
          let s2 := byteZ c2 in
          if negb (contByte locb hicb s2) then (RuneError, 1%nat)
          else if bool_decide (sz ≤ 3)%nat
          then (Z.lor (Z.lor (Z.shiftl (Z.land s0 mask3) 12)
                             (Z.shiftl (Z.land s1 maskx) 6))
                      (Z.land s2 maskx), 3%nat)
          else match t2 with
          | [] => (RuneError, 1%nat)
          | c3 :: _ =>
            let s3 := byteZ c3 in
            if negb (contByte locb hicb s3) then (RuneError, 1%nat)
            else (Z.lor (Z.lor (Z.lor (Z.shiftl (Z.land s0 mask4) 18)
                                      (Z.shiftl (Z.land s1 maskx) 12))
                               (Z.shiftl (Z.land s2 maskx) 6))
                        (Z.land s3 maskx), 4%nat)
          end
        end
      end
    end
  end.

(** ** unicode

    [unicode.IsLetter] and [unicode.IsDigit] answer from a fixed table for
    runes up to U+00FF; above, they consult the Unicode range tables of the
    Go standard library, which are taken here as a parameter.  So is what
    [strings.ToLower] returns for a string that holds a byte above 0x7F
    (it maps [unicode.ToLower] over the decoded runes). *)
Record UnicodeTables := {
  wideLetter : Z -> bool;
  wideDigit : Z -> bool;
  lowerWide : gostring -> gostring
}.

Definition latin1Letter (r : Z) : bool :=
  ((0x41 <=? r) && (r <=? 0x5A)) || ((0x61 <=? r) && (r <=? 0x7A))
  || (r =? 0xAA) || (r =? 0xB5) || (r =? 0xBA)
  || ((0xC0 <=? r) && (r <=? 0xD6)) || ((0xD8 <=? r) && (r <=? 0xF6))
  || ((0xF8 <=? r) && (r <=? 0xFF)).

Definition latin1Digit (r : Z) : bool := (0x30 <=? r) && (r <=? 0x39).

(** An instance to evaluate ASCII text with: there no entry is
    consulted, so every instance gives the same result. *)
Definition asciiTables : UnicodeTables :=
  {| wideLetter := fun _ => false; wideDigit := fun _ => false;
     lowerWide := fun s => s |}.

(** ** named.go: dialects, errors, outcomes *)

(** [Placeholder] is an [int] with four named values; any other integer
    is a legal value of the type and takes the [default] branches. *)
Inductive Placeholder :=
| PlaceholderQuestion
| PlaceholderDollar
| PlaceholderAtP
| PlaceholderColonNum
| PlaceholderOther (n : Z).

Inductive bindError :=
| ErrNilParams
| ErrUnsupportedArg
| ErrDuplicateKeyTag (key : gostring)
| ErrMissingValue (name : gostring)
| ErrUnterminatedSingle
| ErrUnterminatedDouble
| ErrUnterminatedBacktick
| ErrUnterminatedBlockComment
| ErrUnterminatedDollar.

(** How a call ends: it returns, it panics (a run-time error of Go such as
    a slice out of range), or the iteration budget given to a loop that
    need not terminate was used up. *)
Inductive run (A : Type) :=
| Returns (a : A)
| Panics
| OutOfFuel.
Arguments Returns {A} a.
Arguments Panics {A}.
Arguments OutOfFuel {A}.

(** How one iteration of a [for] loop ends: with the state of the next
    iteration, or with what the function returns. *)
Inductive loopStep (S R : Type) :=
| Continue (s : S)
| Break (r : R).
Arguments Continue {S R} s.
Arguments Break {S R} r.

Definition run_bind {A B} (m : run A) (k : A -> run B) : run B :=
  match m with
  | Returns a => k a
  | Panics => Panics
  | OutOfFuel => OutOfFuel
  end.

Record nameToken := {
  name : gostring;
  start : nat;
  end_ : nat
}.

(** ** named.go: the skippers *)

(** The loop shared by [skipSingleQuoted], [skipDoubleQuoted] and
    [skipBacktickQuoted], which differ in the quote and the error only.
    Every iteration advances [i], so [len(s)] iterations are enough. *)
Fixpoint skipQuoted_loop (q : ascii) (e : bindError) (fuel : nat)
    (s : gostring) (i : nat) : nat * option bindError :=
  match fuel with
  | O => (0%nat, Some e)
  | S fuel' =>
    if bool_decide (i < length s)%nat then
      let '(r, w) := DecodeRuneInString (drop i s) in
      let i := (i + w)%nat in
      if r =? rune q then
        if bool_decide (i < length s)%nat && byteIs s i q
        then skipQuoted_loop q e fuel' s (i + 1)%nat
        else (i, None)
      else skipQuoted_loop q e fuel' s i
    else (0%nat, Some e)
  end.

Definition skipSingleQuoted (s : gostring) (i : nat) : nat * option bindError :=
  skipQuoted_loop "'" ErrUnterminatedSingle (length s) s i.

Definition skipDoubleQuoted (s : gostring) (i : nat) : nat * option bindError :=
  skipQuoted_loop dquote ErrUnterminatedDouble (length s) s i.

Definition skipBacktickQuoted (s : gostring) (i : nat) : nat * option bindError :=
  skipQuoted_loop "`" ErrUnterminatedBacktick (length s) s i.

Fixpoint skipLineComment_loop (fuel : nat) (s : gostring) (i : nat) : nat :=
  match fuel with
  | O => i
  | S fuel' =>
    if bool_decide (i < length s)%nat then
      if byteIs s i "010" then (i + 1)%nat
      else skipLineComment_loop fuel' s (i + 1)%nat
    else i
  end.

Definition skipLineComment (s : gostring) (i : nat) : nat :=
  skipLineComment_loop (length s) s i.

(** [for i < len(s)-1]: on signed integers, so an empty [s] does not loop. *)
Fixpoint skipBlockComment_loop (fuel : nat) (s : gostring) (i : nat)
    : nat * option bindError :=
  match fuel with
  | O => (0%nat, Some ErrUnterminatedBlockComment)
  | S fuel' =>
    if bool_decide (i + 1 < length s)%nat then
      if byteIs s i "*" && byteIs s (i + 1) "/" then ((i + 2)%nat, None)
      else skipBlockComment_loop fuel' s (i + 1)%nat
    else (0%nat, Some ErrUnterminatedBlockComment)
  end.

Definition skipBlockComment (s : gostring) (i : nat) : nat * option bindError :=
  skipBlockComment_loop (length s) s i.

(** [isTagChar(rune(s[j]))]: the argument is one byte, so the Latin-1
    tables decide. *)
Definition isTagByte (c : ascii) : bool :=
  (byteZ c =? rune "_") || latin1Letter (byteZ c) || latin1Digit (byteZ c).

(** [for j < len(s) && s[j] != '$' && isTagChar(rune(s[j])) { j++ }] *)
Fixpoint tagEnd_loop (fuel : nat) (s : gostring) (j : nat) : nat :=
  match fuel with
  | O => j
  | S fuel' =>
    match s !! j with
    | Some c =>
      if negb (bool_decide (c = "$"%char)) && isTagByte c
      then tagEnd_loop fuel' s (j + 1)%nat
      else j
    | None => j
    end
  end.

(** [skipDollarQuoted]; the [for] around the search returns in its first
    iteration.  Callers pass [i < len(s)]. *)
Definition skipDollarQuoted (s : gostring) (i : nat)
    : nat * bool * option bindError :=
  if negb (byteIs s i "$") then (0%nat, false, None)
  else
    let j := tagEnd_loop (length s) s (i + 1)%nat in
    if bool_decide (length s ≤ j)%nat || negb (byteIs s j "$")
    then (0%nat, false, None)
    else
      let tag := take (j + 1 - i) (drop i s) in
      let k := (j + 1)%nat in
      match strings_Index (drop k s) tag with
      | None => (0%nat, true, Some ErrUnterminatedDollar)
      | Some idx => ((k + idx + length tag)%nat, true, None)
      end.

(** [strconv.AppendInt(out, int64(arg), 10)] for the counter [arg]. *)
Definition itoa (n : nat) : gostring :=
  str (NilZero.string_of_uint (Nat.to_uint n)).

Section Scanner.
Context (U : UnicodeTables).

Definition unicode_IsLetter (r : Z) : bool :=
  if (0 <=? r) && (r <=? 0xFF) then latin1Letter r else wideLetter U r.

Definition unicode_IsDigit (r : Z) : bool :=
  if (0 <=? r) && (r <=? 0xFF) then latin1Digit r else wideDigit U r.

Definition isIdentRune (r : Z) : bool :=
  (r =? rune "_") || unicode_IsLetter r || unicode_IsDigit r.

Fixpoint parseIdent_loop (fuel : nat) (s : gostring) (i : nat) : nat :=
  match fuel with
  | O => i
  | S fuel' =>
    if bool_decide (i < length s)%nat then
      let '(r, w) := DecodeRuneInString (drop i s) in
      if negb (isIdentRune r) then i
      else parseIdent_loop fuel' s (i + w)%nat
    else i
  end.

Definition parseIdent (s : gostring) (i : nat) : gostring * nat :=
  let start := i in
  let i := parseIdent_loop (length s) s i in
  if bool_decide (i = start) then ([], i)
  else (take (i - start) (drop start s), i).

(** ** named.go: the named-parameter extractor *)

(** One iteration of [for i < len(query)] in [findNamedParams]: where the
    next one starts and with which tokens, or what the function returns. *)
Definition findNamedParams_body (query : gostring) (i : nat)
    (out : list nameToken)
    : loopStep (nat * list nameToken) (list nameToken * option bindError) :=
  if bool_decide (i < length query)%nat then
    let '(r, w) := DecodeRuneInString (drop i query) in
    let skipped (res : nat * option bindError) :=
      match res with
      | (_, Some err) => Break ([], Some err)
      | (j, None) => Continue (j, out)
      end in
    if r =? rune "'" then skipped (skipSingleQuoted query (i + w))
    else if r =? rune dquote then skipped (skipDoubleQuoted query (i + w))
    else if r =? rune "`" then skipped (skipBacktickQuoted query (i + w))
    else if (r =? rune "-") && hasPrefix (drop i query) "--" then
      Continue (skipLineComment query (i + 2), out)
    else if (r =? rune "/") && hasPrefix (drop i query) "/*" then
      skipped (skipBlockComment query (i + 2))
    else if r =? rune "$" then
      match skipDollarQuoted query i with
      | (_, _, Some err) => Break ([], Some err)
      | (j, true, None) => Continue (j, out)
      | (_, false, None) => Continue ((i + w)%nat, out)
      end
    else if r =? rune ":" then
      if hasPrefix (drop i query) "::" then Continue ((i + 2)%nat, out)
      else
        let start := i in
        let '(name, end_) := parseIdent query (i + 1) in
        if negb (bool_decide (name = []))
        then Continue (end_, out ++ [{| name := name; start := start; end_ := end_ |}])
        else Continue ((i + w)%nat, out)
    else Continue ((i + w)%nat, out)
  else Break (out, None).

(** The loop; every iteration advances [i], so [len(query)] iterations
    are enough. *)
Fixpoint findNamedParams_loop (fuel : nat) (query : gostring) (i : nat)
    (out : list nameToken) : list nameToken * option bindError :=
  match fuel with
  | O => (out, None)
  | S fuel' =>
    match findNamedParams_body query i out with
    | Continue (i, out) => findNamedParams_loop fuel' query i out
    | Break res => res
    end
  end.

Definition findNamedParams (query : gostring)
    : list nameToken * option bindError :=
  findNamedParams_loop (length query) query 0 [].

(** ** named.go: the placeholder rewriter

    The skippers' errors are discarded ([j, _ := ...]): after a failed skip
    [j] is 0, and the loop then slices [query[i:0]] and sets [i] back to 0.
    The loop therefore takes its iteration budget as an argument. *)

Definition marker (ph : Placeholder) (arg : nat) : gostring :=
  match ph with
  | PlaceholderDollar => "$"%char :: itoa arg
  | PlaceholderAtP => "@"%char :: "p"%char :: itoa arg
  | PlaceholderColonNum => ":"%char :: itoa arg
  | _ => ["?"%char]
  end.

(** One iteration of [for i < len(query)] in [rewritePlaceholders], on the
    state [(i, arg, out)]. *)
Definition rewritePlaceholders_body (query : gostring) (ph : Placeholder)
    (i arg : nat) (out : gostring)
    : loopStep (nat * nat * gostring) (run gostring) :=
  if bool_decide (i < length query)%nat then
    let '(r, w) := DecodeRuneInString (drop i query) in
    (* [out = append(out, query[i:j]...); i = j; continue] *)
    let copyTo (j : nat) :=
      match slice query i j with
      | Some seg => Continue (j, arg, out ++ seg)
      | None => Break Panics
      end in
    if r =? rune "'" then copyTo (skipSingleQuoted query (i + w)).1
    else if r =? rune dquote then copyTo (skipDoubleQuoted query (i + w)).1
    else if r =? rune "`" then copyTo (skipBacktickQuoted query (i + w)).1
    else if (r =? rune "-") && hasPrefix (drop i query) "--" then
      copyTo (skipLineComment query (i + 2))
    else if (r =? rune "/") && hasPrefix (drop i query) "/*" then
      copyTo (skipBlockComment query (i + 2)).1
    else if (r =? rune "$") && (skipDollarQuoted query i).1.2 then
      copyTo (skipDollarQuoted query i).1.1
    else if r =? rune "?" then
      Continue ((i + w)%nat, (arg + 1)%nat, out ++ marker ph arg)
    else copyTo (i + w)%nat
  else Break (Returns out).

Fixpoint rewritePlaceholders_loop (fuel : nat) (query : gostring)
    (ph : Placeholder) (i arg : nat) (out : gostring) : run gostring :=
  match fuel with
  | O => OutOfFuel
  | S fuel' =>
    match rewritePlaceholders_body query ph i arg out with
    | Continue (i, arg, out) => rewritePlaceholders_loop fuel' query ph i arg out
    | Break res => res
    end
  end.

Definition rewritePlaceholders (fuel : nat) (query : gostring)
    (ph : Placeholder) : run gostring :=
  match ph with
  | PlaceholderQuestion => Returns query
  | _ => rewritePlaceholders_loop fuel query ph 0 1 []
  end.

End Scanner.

(** ** reflect: kinds, types and values *)

Module reflect.
Inductive Kind :=
| Invalid | Bool
| Int | Int8 | Int16 | Int32 | Int64
| Uint | Uint8 | Uint16 | Uint32 | Uint64 | Uintptr
| Float32 | Float64 | Complex64 | Complex128
| Array | Chan | Func | Interface | Map | Pointer | Slice | String | Struct
| UnsafePointer.

Definition eqb (a b : Kind) : bool :=
  match a, b with
  | Invalid, Invalid | Bool, Bool | Int, Int | Int8, Int8 | Int16, Int16
  | Int32, Int32 | Int64, Int64 | Uint, Uint | Uint8, Uint8
  | Uint16, Uint16 | Uint32, Uint32 | Uint64, Uint64 | Uintptr, Uintptr
  | Float32, Float32 | Float64, Float64 | Complex64, Complex64
  | Complex128, Complex128 | Array, Array | Chan, Chan | Func, Func
  | Interface, Interface | Map, Map | Pointer, Pointer | Slice, Slice
  | String, String | Struct, Struct | UnsafePointer, UnsafePointer => true
  | _, _ => false
  end.
End reflect.

(** What [reflect.StructField] tells about a field besides its type:
    [PkgPath] is empty exactly for exported names, and [Tag_db] is
    [Tag.Get("db")]. *)
Record StructField := {
  Name : gostring;
  PkgPath : gostring;
  Anonymous : bool;
  Tag_db : gostring
}.

(** Go types as finite trees (a type that refers to itself through a
    pointer has no such tree and is outside the model).  [TNamed] is a
    defined type; its flag tells whether the method set of its pointer
    type holds [Scan], that is whether it implements [sql.Scanner]. *)
Inductive gotype :=
| TBasic (k : reflect.Kind)
| TNamed (n : gostring) (under : gotype) (scanner : bool)
| TPtr (elem : gotype)
| TSlice (elem : gotype)
| TArray (len : nat) (elem : gotype)
| TMap (key elem : gotype)
| TStruct (fields : list (StructField * gotype))
| TInterface.

Fixpoint Kind (t : gotype) : reflect.Kind :=
  match t with
  | TBasic k => k
  | TNamed _ u _ => Kind u
  | TPtr _ => reflect.Pointer
  | TSlice _ => reflect.Slice
  | TArray _ _ => reflect.Array
  | TMap _ _ => reflect.Map
  | TStruct _ => reflect.Struct
  | TInterface => reflect.Interface
  end.

(** [t.Elem()], defined on pointer, slice, array and map types. *)
Fixpoint Elem (t : gotype) : option gotype :=
  match t with
  | TNamed _ u _ => Elem u
  | TPtr e | TSlice e | TArray _ e | TMap _ e => Some e
  | _ => None
  end.

(** [t.Key()], defined on map types. *)
Fixpoint Key (t : gotype) : option gotype :=
  match t with
  | TNamed _ u _ => Key u
  | TMap k _ => Some k
  | _ => None
  end.

(** The fields of a struct type, in declaration order. *)
Fixpoint Fields (t : gotype) : list (StructField * gotype) :=
  match t with
  | TNamed _ u _ => Fields u
  | TStruct fs => fs
  | _ => []
  end.

(** Go values, each with its dynamic type.  A pointer is nil or holds its
    target; a map lists its entries in the order in which this run
    iterates over them; an interface-typed slot holds the dynamic value
    ([VNil] for the nil interface and the invalid [reflect.Value]). *)
Inductive value :=
| VNil
| VBool (t : gotype) (b : bool)
| VInt (t : gotype) (z : Z)
| VString (t : gotype) (s : gostring)
| VPtr (t : gotype) (target : option value)
| VSlice (t : gotype) (elems : list value)
| VArray (t : gotype) (elems : list value)
| VMap (t : gotype) (entries : list (value * value))
| VStruct (t : gotype) (fields : list value)
| VOther (t : gotype) (id : nat).

Definition typeOf (v : value) : option gotype :=
  match v with
  | VNil => None
  | VBool t _ | VInt t _ | VString t _ | VPtr t _ | VSlice t _
  | VArray t _ | VMap t _ | VStruct t _ | VOther t _ => Some t
  end.

(** [reflect.ValueOf(v).Kind()] *)
Definition kindOf (v : value) : reflect.Kind :=
  match typeOf v with
  | Some t => Kind t
  | None => reflect.Invalid
  end.

Definition tInt : gotype := TBasic reflect.Int.
Definition tInt32 : gotype := TBasic reflect.Int32.
Definition tInt64 : gotype := TBasic reflect.Int64.
Definition tUint8 : gotype := TBasic reflect.Uint8.
Definition tUint64 : gotype := TBasic reflect.Uint64.
Definition tFloat64 : gotype := TBasic reflect.Float64.
Definition tString : gotype := TBasic reflect.String.
Definition tBytes : gotype := TSlice tUint8.

(** ** named.go: parameter lookup and binding *)

Fixpoint looksBindable (v : value) : bool :=
  match v with
  | VPtr _ None => false
  | VPtr t (Some x) =>
    match Elem t with
    | Some e => negb (reflect.eqb (Kind e) reflect.Interface) && looksBindable x
    | None => false
    end
  | VMap t _ =>
    match Key t with
    | Some k => reflect.eqb (Kind k) reflect.String
    | None => false
    end
  | VStruct _ _ => true
  | _ => false
  end.

Definition isSliceOrArray (v : value) : bool :=
  match v with
  | VSlice t _ =>
    match Elem t with
    | Some e => negb (reflect.eqb (Kind e) reflect.Uint8)
    | None => false
    end
  | VArray _ _ => true
  | _ => false
  end.

(** [rv.Len()] and the elements [rv.Index(i).Interface()] of a slice or
    array value. *)
Definition elemsOf (v : value) : list value :=
  match v with
  | VSlice _ xs | VArray _ xs => xs
  | _ => []
  end.

Section Binding.
Context (U : UnicodeTables).

Definition strings_ToLower (s : gostring) : gostring :=
  if forallb (fun c => byteZ c <? 0x80) s then lowerByte <$> s
  else lowerWide U s.

(** [paramLookup.m]: lowercase name -> value. *)
Definition lookup_ (m : gmap gostring value) (name : gostring) : option value :=
  m !! strings_ToLower name.

(** [addStructFields(dst, v)]: [dst] is the map being filled, handed on
    from field to field; the result is the map and the error.  For an
    embedded field, [embedded] is the walk
    [for ft.Kind() == reflect.Pointer] followed by the recursive call: it
    answers [None] when a pointer of the chain is nil or the type behind
    the pointers is no struct, and the field is then treated like any
    other.  [v.Field(i).Interface()] panics on a field with a non-empty
    [PkgPath], which at that point can only be an embedded one. *)
Fixpoint addStructFields (dst : gmap gostring value) (v : value) {struct v}
    : run (gmap gostring value * option bindError) :=
  match v with
  | VStruct t vals =>
    (fix fields (dst : gmap gostring value)
         (fs : list (StructField * gotype)) (vals : list value)
         {struct vals} : run (gmap gostring value * option bindError) :=
       match fs, vals with
       | (f, ft) :: fs', fv :: vals' =>
         let register (_ : unit) :=
           let tag := Tag_db f in
           if bool_decide (tag = str "-") then fields dst fs' vals'
           else
             let name := if bool_decide (tag = []) then Name f else tag in
             let key := strings_ToLower name in
             match dst !! key with
             | Some _ => Returns (dst, Some (ErrDuplicateKeyTag key))
             | None =>
               if negb (bool_decide (PkgPath f = [])) then Panics
               else fields (<[key := fv]> dst) fs' vals'
             end in
         if negb (bool_decide (PkgPath f = [])) && negb (Anonymous f)
         then fields dst fs' vals'
         else if Anonymous f then
           match
             (fix embedded (ft : gotype) (fv : value) {struct fv}
                  : option (run (gmap gostring value * option bindError)) :=
                if reflect.eqb (Kind ft) reflect.Pointer then
                  match fv, Elem ft with
                  | VPtr _ (Some x), Some e => embedded e x
                  | _, _ => None
                  end
                else if reflect.eqb (Kind ft) reflect.Struct then
                  match fv with
                  | VStruct _ _ => Some (addStructFields dst fv)
                  | _ => None
                  end
                else None) ft fv
           with
           | Some (Returns (dst', None)) => fields dst' fs' vals'
           | Some other => other
           | None => register tt
           end
         else register tt
       | _, _ => Returns (dst, None)
       end) dst (Fields t) vals
  | _ => Panics
  end.

(** A pointer whose element type is an interface type: [rv.Elem()] then
    has kind [Interface], and the walks below stop there. *)
Definition pointsToInterface (t : gotype) : bool :=
  match Elem t with
  | Some e => reflect.eqb (Kind e) reflect.Interface
  | None => false
  end.

Fixpoint buildParamLookup (params : value)
    : run (gmap gostring value * option bindError) :=
  match params with
  | VPtr _ None => Returns (∅, Some ErrNilParams)
  | VPtr t (Some x) =>
    if pointsToInterface t then Returns (∅, Some ErrUnsupportedArg)
    else buildParamLookup x
  | VMap t entries =>
    match Key t with
    | Some k =>
      if negb (reflect.eqb (Kind k) reflect.String)
      then Returns (∅, Some ErrUnsupportedArg)
      else
        Returns (foldl (fun (m : gmap gostring value) (kv : value * value) =>
                          match kv.1 with
                          | VString _ key => <[strings_ToLower key := kv.2]> m
                          | _ => m
                          end) ∅ entries, None)
    | None => Returns (∅, Some ErrUnsupportedArg)
    end
  | VStruct _ _ =>
    match addStructFields ∅ params with
    | Returns (_, Some err) => Returns (∅, Some err)
    | other => other
    end
  | _ => Returns (∅, Some ErrUnsupportedArg)
  end.

(** The inner loop of [bindNamedParams] over the [n > 0] elements of a
    sequence: [?] per element, [,] before all but the first. *)
Fixpoint expandSeq (i : nat) (xs : list value) (b : gostring)
    (args : list value) : gostring * list value :=
  match xs with
  | [] => (b, args)
  | x :: xs' =>
    let b := if bool_decide (0 < i)%nat then b ++ str "," else b in
    expandSeq (S i) xs' (b ++ str "?") (args ++ [x])
  end.

(** The loop [for _, t := range toks] of [bindNamedParams] and the
    statements after it. *)
Fixpoint bindTokens (query : gostring) (lut : gmap gostring value)
    (toks : list nameToken) (b : gostring) (args : list value) (last : nat)
    : run (gostring * list value * option bindError) :=
  match toks with
  | [] =>
    match slice query last (length query) with
    | Some seg => Returns (b ++ seg, args, None)
    | None => Panics
    end
  | t :: toks' =>
    match slice query last (start t) with
    | None => Panics
    | Some seg =>
      let b := b ++ seg in
      match lookup_ lut (name t) with
      | None => Returns ([], [], Some (ErrMissingValue (name t)))
      | Some val =>
        if isSliceOrArray val then
          if bool_decide (length (elemsOf val) = 0%nat)
          then bindTokens query lut toks' (b ++ str "NULL") args (end_ t)
          else
            let '(b, args) := expandSeq 0 (elemsOf val) b args in
            bindTokens query lut toks' b args (end_ t)
        else bindTokens query lut toks' (b ++ str "?") (args ++ [val]) (end_ t)
      end
    end
  end.

Definition bindNamedParams (query : gostring) (params : value)
    : run (gostring * list value * option bindError) :=
  match params with
  | VNil => Returns ([], [], Some ErrNilParams)
  | _ =>
    match findNamedParams U query with
    | (_, Some err) => Returns ([], [], Some err)
    | (toks, None) =>
      if bool_decide (length toks = 0%nat) then Returns (query, [], None)
      else
        run_bind (buildParamLookup params) (fun r =>
          match r with
          | (_, Some err) => Returns ([], [], Some err)
          | (lut, None) => bindTokens query lut toks [] [] 0
          end)
    end
  end.

(** [Rebind(query, ph, params...)]; [fuel] is the iteration budget of the
    rewriter's loop. *)
Definition Rebind (fuel : nat) (query : gostring) (ph : Placeholder)
    (params : list value) : run (gostring * list value * option bindError) :=
  let positional :=
    run_bind (rewritePlaceholders fuel query ph) (fun s =>
      Returns (s, params, None)) in
  match params with
  | [p] =>
    if looksBindable p then
      run_bind (bindNamedParams query p) (fun r =>
        match r with
        | (_, _, Some err) => Returns ([], [], Some err)
        | (qPos, args, None) =>
          run_bind (rewritePlaceholders fuel qPos ph) (fun s =>
            Returns (s, args, None))
        end)
    else positional
  | _ => positional
  end.

End Binding.

(** ** doc.go: column normalisation *)

Definition isUpperByte (c : ascii) : bool := (65 <=? byteZ c) && (byteZ c <=? 90).

(** [toLowerAscii]: the first loop looks for an upper-case letter, the
    second maps [c + ('a' - 'A')] over the upper-case letters. *)
Definition toLowerAscii (s : gostring) : gostring :=
  if existsb isUpperByte s then lowerByte <$> s else s.

Definition normalizeColAscii (s : gostring) : gostring :=
  let l := length s in
  let inner := take (l - 1 - 1) (drop 1 s) in
  let s :=
    if bool_decide (2 ≤ l)%nat then
      if byteIs s 0 dquote then
        if byteIs s (l - 1) dquote then inner else s
      else if byteIs s 0 "`" then
        if byteIs s (l - 1) "`" then inner else s
      else if byteIs s 0 "[" then
        if byteIs s (l - 1) "]" then inner else s
      else s
    else s in
  toLowerAscii s.

(** ** doc.go: tags and the struct index *)

Fixpoint parseTag_loop (fuel : nat) (tag : gostring) (i start : nat)
    (name : gostring) (inline : bool) : gostring * bool :=
  match fuel with
  | O => (name, inline)
  | S fuel' =>
    if bool_decide (i ≤ length tag)%nat then
      if bool_decide (i = length tag) || byteIs tag i "," then
        let part := take (i - start) (drop start tag) in
        if bool_decide (part = str "inline")
        then parseTag_loop fuel' tag (i + 1) (i + 1) name true
        else if negb (bool_decide (part = [])) && bool_decide (name = [])
        then parseTag_loop fuel' tag (i + 1) (i + 1) part inline
        else parseTag_loop fuel' tag (i + 1) (i + 1) name inline
      else parseTag_loop fuel' tag (i + 1) start name inline
    else (name, inline)
  end.

(** [parseTag]: name, inline, omit. *)
Definition parseTag (tag : gostring) : gostring * bool * bool :=
  if bool_decide (tag = str "-") then ([], false, true)
  else if bool_decide (tag = []) then ([], false, false)
  else (parseTag_loop (S (length tag)) tag 0 0 [] false, false).

(** [derefPtr]: [for t.Kind() == reflect.Ptr { t = t.Elem() }]. *)
Fixpoint derefPtr (t : gotype) : gotype :=
  match t with
  | TPtr e => derefPtr e
  | TNamed _ u _ =>
    if reflect.eqb (Kind u) reflect.Pointer then derefPtr u else t
  | _ => t
  end.

Definition isStruct (t : gotype) : bool :=
  reflect.eqb (Kind (derefPtr t)) reflect.Struct.

(** [implementsScanner]: whether [*t] has the method [Scan]; only a
    defined type has methods of its own (methods promoted to an unnamed
    struct type from an embedded field are outside the model). *)
Definition implementsScanner (t : gotype) : bool :=
  match t with
  | TNamed _ _ s => s
  | _ => false
  end.

(** [fieldIndex.byName]: lower-case column name -> index path.  The set
    [seen] of [buildStructIndex] always has the keys of [byName]. *)
Definition fieldIndex := gmap gostring (list nat).

(** The closure [walk] of [buildStructIndex].  Its first statements,
    [t = derefPtr(t)] and the test of the kind, are the cases of the
    match: pointers and defined types are looked through, and only a
    struct type has fields to visit.  The recursion is on the tree of
    the type.  The closure of the code has no bound on its depth and
    no set of visited types: on a struct type that embeds or inlines a
    pointer to itself it does not return, and such a type has no
    [gotype], so that [walk] and [buildStructIndex] say what the code
    computes when it does return and nothing about whether it does. *)
Fixpoint walk (t : gotype) (base : list nat) (forceInline : bool)
    (idx : fieldIndex) {struct t} : fieldIndex :=
  match t with
  | TPtr e => walk e base forceInline idx
  | TNamed _ u _ => walk u base forceInline idx
  | TStruct fs =>
    (fix fields (fs : list (StructField * gotype)) (i : nat)
         (idx : fieldIndex) {struct fs} : fieldIndex :=
       match fs with
       | [] => idx
       | (sf, ft) :: fs' =>
         if negb (bool_decide (PkgPath sf = [])) && negb (Anonymous sf)
         then fields fs' (S i) idx
         else
           let tag := Tag_db sf in
           let '(name, inline, omit) := parseTag tag in
           if omit then fields fs' (S i) idx
           else
             let path := base ++ [i] in
             if (inline || (Anonymous sf && (forceInline || bool_decide (tag = []))))
                && isStruct ft
             then fields fs' (S i) (walk ft path inline idx)
             else
               let name := if bool_decide (name = []) then Name sf else name in
               let lc := toLowerAscii name in
               match idx !! lc with
               | None => fields fs' (S i) (<[lc := path]> idx)
               | Some _ => fields fs' (S i) idx
               end
       end) fs 0%nat idx
  | _ => idx
  end.

Definition buildStructIndex (rt : gotype) : fieldIndex :=
  walk rt [] false ∅.

(** ** doc.go: identity of types *)

Global Instance StructField_eq_dec : EqDecision StructField.
Proof. solve_decision. Defined.

(** [==] on [reflect.Type]. *)
Fixpoint gotype_eqb (a b : gotype) {struct a} : bool :=
  match a, b with
  | TBasic k, TBasic k' => reflect.eqb k k'
  | TNamed n u s, TNamed n' u' s' =>
    bool_decide (n = n') && gotype_eqb u u' && bool_decide (s = s')
  | TPtr e, TPtr e' => gotype_eqb e e'
  | TSlice e, TSlice e' => gotype_eqb e e'
  | TArray n e, TArray n' e' => bool_decide (n = n') && gotype_eqb e e'
  | TMap k e, TMap k' e' => gotype_eqb k k' && gotype_eqb e e'
  | TStruct fs, TStruct fs' =>
    (fix all (fs fs' : list (StructField * gotype)) {struct fs} : bool :=
       match fs, fs' with
       | [], [] => true
       | (f, t) :: r, (f', t') :: r' =>
         bool_decide (f = f') && gotype_eqb t t' && all r r'
       | _, _ => false
       end) fs fs'
  | TInterface, TInterface => true
  | _, _ => false
  end.

(** ** doc.go: the conversion picker *)

(** The closures that [pickIndirect] returns as [post], by the branch
    that builds them; [applyPost] below runs them. *)
Inductive postFn :=
| PostBytesToString
| PostSetInt
| PostSetUint
| PostSetFloat
| PostNamedInt (under dt : gotype) (ptrCount : nat)
| PostNamedUint (under dt : gotype) (ptrCount : nat)
| PostNamedFloat (under dt : gotype) (ptrCount : nat)
| PostNamedString (under dt : gotype) (ptrCount : nat).

Definition isIntKind (k : reflect.Kind) : bool :=
  match k with
  | reflect.Int | reflect.Int8 | reflect.Int16 | reflect.Int32
  | reflect.Int64 => true
  | _ => false
  end.

Definition isUintKind (k : reflect.Kind) : bool :=
  match k with
  | reflect.Uint | reflect.Uint8 | reflect.Uint16 | reflect.Uint32
  | reflect.Uint64 => true
  | _ => false
  end.

Definition isFloatKind (k : reflect.Kind) : bool :=
  match k with
  | reflect.Float32 | reflect.Float64 => true
  | _ => false
  end.

(** The loop [for under.Kind() == reflect.Ptr] of [pickIndirect]: the
    type behind the pointers and their number. *)
Fixpoint peelPointers (t : gotype) : gotype * nat :=
  match t with
  | TPtr e => let '(u, n) := peelPointers e in (u, S n)
  | TNamed _ u _ =>
    if reflect.eqb (Kind u) reflect.Pointer
    then peelPointers u
    else (t, 0%nat)
  | _ => (t, 0%nat)
  end.

Definition pickIndirect (dstType : gotype) : option (gotype * postFn) :=
  let dt := dstType in
  let base := derefPtr dstType in
  if gotype_eqb base tString && negb (reflect.eqb (Kind dt) reflect.Pointer)
  then Some (tBytes, PostBytesToString)
  else if gotype_eqb dt base && isIntKind (Kind base)
  then Some (tInt64, PostSetInt)
  else if gotype_eqb dt base && isUintKind (Kind base)
  then Some (tUint64, PostSetUint)
  else if gotype_eqb dt base && isFloatKind (Kind base)
  then Some (tFloat64, PostSetFloat)
  else
    let '(under, ptrCount) := peelPointers dt in
    if negb (reflect.eqb (Kind under) reflect.Struct) then
      if isIntKind (Kind under)
      then Some (tInt64, PostNamedInt under dt ptrCount)
      else if isUintKind (Kind under)
      then Some (tUint64, PostNamedUint under dt ptrCount)
      else if isFloatKind (Kind under)
      then Some (tFloat64, PostNamedFloat under dt ptrCount)
      else if reflect.eqb (Kind under) reflect.String
      then Some (tString, PostNamedString under dt ptrCount)
      else None
    else None.

(** ** doc.go: steps and plans *)

Inductive stepKind := stepDrop | stepDirect | stepIndirect | stepWhole.

Record step := {
  kind : stepKind;
  fpath : list nat;
  convTo : option gotype;
  post : option postFn
}.

Record plan := {
  rt : gotype;
  steps : list step;
  plan_isStruct : bool;
  plan_isScan : bool
}.

(** [fieldTypeByPath]; [None] where [t.Field(i)] would panic. *)
Fixpoint fieldTypeByPath (root : gotype) (fpath : list nat) : option gotype :=
  match fpath with
  | [] => Some root
  | i :: rest =>
    match Fields (derefPtr root) !! i with
    | Some (_, t) => fieldTypeByPath t rest
    | None => None
    end
  end.

(** [makeFieldStep]; its steps 3 and 4 return the same direct step
    whatever [isDirectlyScannable] answers. *)
Definition makeFieldStep (rootType : gotype) (fpath : list nat) : option step :=
  match fieldTypeByPath rootType fpath with
  | None => None
  | Some ft =>
    if implementsScanner ft
    then Some {| kind := stepDirect; fpath := fpath; convTo := None; post := None |}
    else match pickIndirect ft with
         | Some (convTo, post) =>
           Some {| kind := stepIndirect; fpath := fpath;
                   convTo := Some convTo; post := Some post |}
         | None =>
           Some {| kind := stepDirect; fpath := fpath; convTo := None; post := None |}
         end
  end.

Definition makeWholeStep (t : gotype) : step :=
  match pickIndirect t with
  | Some (convTo, post) =>
    {| kind := stepIndirect; fpath := []; convTo := Some convTo; post := Some post |}
  | None => {| kind := stepDirect; fpath := []; convTo := None; post := None |}
  end.

(** ** doc.go: the plan cache *)

Inductive scanError :=
| ErrColumns                                  (* [rows.Columns()] failed *)
| ErrZeroColumns                              (* "query returned zero columns" *)
| ErrScannerColumns (rt : gotype) (n : nat)   (* "scanning %s requires exactly 1 column; got %d" *)
| ErrCannotMap (n : nat) (rt : gotype)        (* "cannot map %d columns into %s; use a struct" *)
| ErrRowsScan.                                (* [rows.Scan] failed *)

Record planKey := {
  key_rt : gotype;
  key_hash : Z;
  key_ncols : nat
}.

Definition planKey_eqb (a b : planKey) : bool :=
  gotype_eqb (key_rt a) (key_rt b) && (key_hash a =? key_hash b)
  && bool_decide (key_ncols a = key_ncols b).

(** [Mapper]: the two [sync.Map] caches, newest entry first. *)
Record Mapper := {
  planCache : list (planKey * plan);
  structIndexCache : list (gotype * fieldIndex)
}.

Definition NewMapper : Mapper := {| planCache := []; structIndexCache := [] |}.

(** [sync.Map.Load] on a cache. *)
Fixpoint load {K V : Type} (eqb : K -> K -> bool) (cache : list (K * V))
    (k : K) : option V :=
  match cache with
  | [] => None
  | (k', v) :: rest => if eqb k' k then Some v else load eqb rest k
  end.

Definition loadPlan (m : Mapper) (k : planKey) : option plan :=
  load planKey_eqb (planCache m) k.

Definition loadIndex (m : Mapper) (t : gotype) : option fieldIndex :=
  load gotype_eqb (structIndexCache m) t.

Definition structIndex (m : Mapper) (rt : gotype) : Mapper * fieldIndex :=
  match loadIndex m rt with
  | Some fi => (m, fi)
  | None =>
    let fi := buildStructIndex rt in
    ({| planCache := planCache m;
        structIndexCache := (rt, fi) :: structIndexCache m |}, fi)
  end.

(** The loop [for i, c := range cols] of [getPlan] for a struct type;
    [None] where [makeFieldStep] would panic. *)
Fixpoint fieldSteps (rt : gotype) (byName : fieldIndex) (cols : list gostring)
    : option (list step) :=
  match cols with
  | [] => Some []
  | c :: cols' =>
    match byName !! c with
    | Some fp =>
      match makeFieldStep rt fp, fieldSteps rt byName cols' with
      | Some st, Some sts => Some (st :: sts)
      | _, _ => None
      end
    | None =>
      match fieldSteps rt byName cols' with
      | Some sts =>
        Some ({| kind := stepDrop; fpath := []; convTo := None; post := None |} :: sts)
      | None => None
      end
    end
  end.

Definition getPlan (m : Mapper) (rt : gotype) (cols : list gostring)
    (colHash : Z) : run (Mapper * (plan + scanError)) :=
  let key := {| key_rt := rt; key_hash := colHash; key_ncols := length cols |} in
  match loadPlan m key with
  | Some p => Returns (m, inl p)
  | None =>
    let store (m : Mapper) (sts : list step) :=
      let p := {| rt := rt; steps := sts; plan_isStruct := isStruct rt;
                  plan_isScan := implementsScanner rt |} in
      Returns ({| planCache := (key, p) :: planCache m;
                  structIndexCache := structIndexCache m |}, inl p) in
    if isStruct rt then
      let '(m, indexer) := structIndex m rt in
      match fieldSteps rt indexer cols with
      | Some sts => store m sts
      | None => Panics
      end
    else if implementsScanner rt then
      if negb (bool_decide (length cols = 1%nat))
      then Returns (m, inr (ErrScannerColumns rt (length cols)))
      else store m [{| kind := stepWhole; fpath := []; convTo := None; post := None |}]
    else
      if negb (bool_decide (length cols = 1%nat))
      then Returns (m, inr (ErrCannotMap (length cols) rt))
      else store m [makeWholeStep rt]
  end.

(** [hash/fnv]'s 64-bit FNV-1a, as [scanWithMapper] feeds it: every
    normalised column followed by a zero byte. *)
Definition fnvOffset64 : Z := 14695981039346656037.
Definition fnvPrime64 : Z := 1099511628211.

Definition fnvWrite (h : Z) (bs : gostring) : Z :=
  foldl (fun h c => (Z.lxor h (byteZ c) * fnvPrime64) mod 2 ^ 64) h bs.

Definition hashColumns (cols : list gostring) : Z :=
  foldl (fun h c => fnvWrite (fnvWrite h c) ["000"%char]) fnvOffset64 cols.

(** ** doc.go: destinations of a scan *)

(** [reflect.Zero(t)], tagged with the type [tag] that the value is of. *)
Fixpoint zeroAs (tag t : gotype) {struct t} : value :=
  match t with
  | TBasic k =>
    if isIntKind k || isUintKind k then VInt tag 0
    else match k with
         | reflect.Bool => VBool tag false
         | reflect.String => VString tag []
         | _ => VOther tag 0
         end
  | TNamed _ u _ => zeroAs tag u
  | TPtr _ => VPtr tag None
  | TSlice _ => VSlice tag []
  | TArray n e => VArray tag (replicate n (zeroAs e e))
  | TMap _ _ => VMap tag []
  | TStruct fs =>
    VStruct tag
      ((fix zeros (fs : list (StructField * gotype)) : list value :=
          match fs with
          | [] => []
          | (_, ft) :: r => zeroAs ft ft :: zeros r
          end) fs)
  | TInterface => VNil
  end.

Definition zeroValue (t : gotype) : value := zeroAs t t.

(** [reflect.New(v.Type().Elem())] for a nil pointer [v] of type [t]. *)
Definition newTarget (t : gotype) : option value :=
  zeroValue <$> Elem t.

(** The memory effect of [fieldByPathAlloc(root, fpath)] and of what is
    then done with the field it returns: the walk allocates the nil
    pointers it meets, and [f] gives the new content of the field
    reached.  [None] where [Field] or [Elem] would panic.  Whether
    [reflect] allows the writes is decided apart, by [flagsByPath]
    below; [rows.Scan] writes through the pointers it was given with no
    such check. *)
Fixpoint updatePath (fpath : list nat) (f : value -> option value)
    (v : value) {struct fpath} : option value :=
  match fpath with
  | [] => f v
  | i :: rest =>
    let inStruct (s : value) : option value :=
      match s with
      | VStruct t vals =>
        x ← vals !! i;
        x' ← updatePath rest f x;
        Some (VStruct t (<[i := x']> vals))
      | _ => None
      end in
    match v with
    | VPtr t None => s ← newTarget t; s' ← inStruct s; Some (VPtr t (Some s'))
    | VPtr t (Some s) => s' ← inStruct s; Some (VPtr t (Some s'))
    | _ => inStruct v
    end
  end.

(** The last statement of [fieldByPathAlloc]: a nil pointer reached at
    the end of the path is allocated too. *)
Definition allocLast (v : value) : option value :=
  match v with
  | VPtr t None => x ← newTarget t; Some (VPtr t (Some x))
  | _ => Some v
  end.

(** The read-only flags of a [reflect.Value]: [flagStickyRO], got
    through an unexported field that is not embedded, and [flagEmbedRO],
    got through an unexported embedded field.  [Set], [SetInt] and the
    like, and [Interface], panic on a value with either. *)
Record roFlags := {
  stickyRO : bool;
  embedRO : bool
}.

Definition noRO : roFlags := {| stickyRO := false; embedRO := false |}.

Definition isRO (fl : roFlags) : bool := stickyRO fl || embedRO fl.

(** [v.Field(i)]: the sticky flag of [v] is kept, its embedded flag is
    not, and an unexported field adds its own.  [v.Elem()] and
    [v.Addr()] keep both. *)
Definition fieldFlags (fl : roFlags) (sf : StructField) : roFlags :=
  let unexported := negb (bool_decide (PkgPath sf = [])) in
  {| stickyRO := stickyRO fl || (unexported && negb (Anonymous sf));
     embedRO := unexported && Anonymous sf |}.

(** The flags of the value that [fieldByPathAlloc(root, fpath)]
    returns, [root] having the flags [fl]; [None] where the walk
    panics, which besides the cases of [updatePath] is in
    [v.Set(reflect.New(...))] on a nil pointer that is read-only. *)
Fixpoint flagsByPath (fl : roFlags) (fpath : list nat) (v : value)
    {struct fpath} : option roFlags :=
  match fpath with
  | [] =>
    match v with
    | VPtr _ None => if isRO fl then None else Some fl
    | _ => Some fl
    end
  | i :: rest =>
    let inStruct (s : value) : option roFlags :=
      match s with
      | VStruct t vals =>
        '(sf, _) ← Fields t !! i;
        x ← vals !! i;
        flagsByPath (fieldFlags fl sf) rest x
      | _ => None
      end in
    match v with
    | VPtr t None => if isRO fl then None else s ← newTarget t; inStruct s
    | VPtr t (Some s) => inStruct s
    | _ => inStruct v
    end
  end.

Definition fieldByPathAlloc (root : value) (fpath : list nat) : option value :=
  match flagsByPath noRO fpath root with
  | Some _ => updatePath fpath allocLast root
  | None => None
  end.

(** Whether the field that [fieldByPathAlloc(root, fpath)] returned is
    read-only, [root] being the value after that call. *)
Definition readOnlyAt (root : value) (fpath : list nat) : bool :=
  match flagsByPath noRO fpath root with
  | Some fl => isRO fl
  | None => true
  end.

(** The field that [fieldByPathAlloc] returns, read. *)
Fixpoint readPath (fpath : list nat) (v : value) : option value :=
  match fpath with
  | [] => Some v
  | i :: rest =>
    let inStruct (s : value) : option value :=
      match s with
      | VStruct _ vals => x ← vals !! i; readPath rest x
      | _ => None
      end in
    match v with
    | VPtr _ (Some s) => inStruct s
    | VPtr _ None => None
    | _ => inStruct v
    end
  end.

(** ** doc.go: running the conversions *)

Definition intBits (k : reflect.Kind) : Z :=
  match k with
  | reflect.Int8 | reflect.Uint8 => 8
  | reflect.Int16 | reflect.Uint16 => 16
  | reflect.Int32 | reflect.Uint32 => 32
  | _ => 64
  end.

(** The conversions [int8(x)] ... [int64(x)] and [uint8(x)] ... of Go. *)
Definition wrapSigned (bits z : Z) : Z :=
  (z + 2 ^ (bits - 1)) mod 2 ^ bits - 2 ^ (bits - 1).

Definition wrapUnsigned (bits z : Z) : Z := z mod 2 ^ bits.

(** [v.SetInt(x)], [v.SetUint(x)], [v.SetString(s)] on a value of type
    [t]; they panic on another kind.  [SetFloat] moves the number, which
    the model keeps opaque. *)
Definition setInt (t : gotype) (x : Z) : option value :=
  if isIntKind (Kind t) then Some (VInt t (wrapSigned (intBits (Kind t)) x))
  else None.

Definition setUint (t : gotype) (x : Z) : option value :=
  if isUintKind (Kind t) then Some (VInt t (wrapUnsigned (intBits (Kind t)) x))
  else None.

Definition setString (t : gotype) (s : gostring) : option value :=
  if reflect.eqb (Kind t) reflect.String then Some (VString t s) else None.

Definition setFloat (t : gotype) (id : nat) : option value :=
  if isFloatKind (Kind t) then Some (VOther t id) else None.

(** [string(src.Bytes())] *)
Definition bytesOf (elems : list value) : gostring :=
  omap (fun v => match v with
                 | VInt _ z => Some (ascii_of_N (Z.to_N z))
                 | _ => None
                 end) elems.

(** The pointer layers of [assignWithPointers]: [val.Addr()], then
    [ptrCount - 1] more pointers. *)
Fixpoint addPointers (n : nat) (t : gotype) (v : value) : gotype * value :=
  match n with
  | O => (t, v)
  | S n' => addPointers n' (TPtr t) (VPtr (TPtr t) (Some v))
  end.

(** [x.Convert(dt)] between types of one underlying type: the value
    under the type [dt]. *)
Definition retype (dt : gotype) (v : value) : value :=
  match v with
  | VNil => VNil
  | VBool _ b => VBool dt b
  | VInt _ z => VInt dt z
  | VString _ s => VString dt s
  | VPtr _ x => VPtr dt x
  | VSlice _ xs => VSlice dt xs
  | VArray _ xs => VArray dt xs
  | VMap _ es => VMap dt es
  | VStruct _ fs => VStruct dt fs
  | VOther _ id => VOther dt id
  end.

Definition assignWithPointers (val : value) (under dt : gotype)
    (ptrCount : nat) : value :=
  retype dt (addPointers ptrCount under val).2.

(** [post(dst, src)]: the new content of [dst], a slot of type [t];
    [None] where the closure panics. *)
Definition applyPost (f : postFn) (t : gotype) (src : value) : option value :=
  match f, src with
  | PostBytesToString, VSlice _ bs => setString t (bytesOf bs)
  | PostSetInt, VInt _ z => setInt t z
  | PostSetUint, VInt _ z => setUint t z
  | PostSetFloat, VOther _ id => setFloat t id
  | PostNamedInt under dt n, VInt _ z =>
    val ← setInt under z; Some (assignWithPointers val under dt n)
  | PostNamedUint under dt n, VInt _ z =>
    val ← setUint under z; Some (assignWithPointers val under dt n)
  | PostNamedFloat under dt n, VOther _ id =>
    val ← setFloat under id; Some (assignWithPointers val under dt n)
  | PostNamedString under dt n, VString _ s =>
    val ← setString under s; Some (assignWithPointers val under dt n)
  | _, _ => None
  end.

(** ** doc.go: the row scanner *)

(** What a pointer handed to [rows.Scan] points to: the destination
    itself ([rv.Interface()]), a field of it, the temporary of a column,
    or the discard sink. *)
Inductive dest :=
| DWhole
| DField (fpath : list nat)
| DTemp (col : nat)
| DSink.

(** The memory of one scan: the destination value behind [rv], the
    temporaries by column, and the one [sink]. *)
Record store := {
  s_root : value;
  s_temps : gmap nat value;
  s_sink : value
}.

(** A conversion left for [cleanup]: the column of its temporary, the
    field to reach with [fieldByPathAlloc] ([None] for [rv.Elem()]
    itself), and [post]. *)
Record final := {
  fin_col : nat;
  fin_path : option (list nat);
  fin_post : postFn
}.

Definition tRawBytes : gotype := TNamed (str "sql.RawBytes") tBytes false.

Definition setRoot (st : store) (v : value) : store :=
  {| s_root := v; s_temps := s_temps st; s_sink := s_sink st |}.

(** The loop of [destPtrs] over the steps of a struct plan, from column
    [i] on: the pointers, the conversions for [cleanup], and the store
    in which the fields scanned directly have been allocated.  [None]
    where it panics: in [fieldByPathAlloc], or in
    [fv.Addr().Interface()] on a field that is read-only. *)
Fixpoint structDests (sts : list step) (i : nat) (st : store)
    : option (list dest * list final * store) :=
  match sts with
  | [] => Some ([], [], st)
  | s :: sts' =>
    match kind s with
    | stepDirect =>
      root ← fieldByPathAlloc (s_root st) (fpath s);
      (* fv.Addr().Interface() *)
      if readOnlyAt root (fpath s) then None
      else
        '(ds, fs, st') ← structDests sts' (S i) (setRoot st root);
        Some (DField (fpath s) :: ds, fs, st')
    | stepIndirect =>
      convTo ← convTo s;
      post ← post s;
      let st :=
        {| s_root := s_root st;
           s_temps := <[i := zeroValue convTo]> (s_temps st);
           s_sink := s_sink st |} in
      '(ds, fs, st') ← structDests sts' (S i) st;
      Some (DTemp i :: ds,
            {| fin_col := i; fin_path := Some (fpath s); fin_post := post |} :: fs,
            st')
    | _ =>
      '(ds, fs, st') ← structDests sts' (S i) st;
      Some (DSink :: ds, fs, st')
    end
  end.

(** [p.destPtrs(rv)], with [rv = reflect.New(rt)] pointing to [root];
    [None] where it panics. *)
Definition destPtrs (p : plan) (root : value)
    : option (list dest * list final * store) :=
  let st := {| s_root := root; s_temps := ∅; s_sink := zeroValue tRawBytes |} in
  match plan_isStruct p, steps p with
  | false, [] => None
  | false, s :: rest =>
    match kind s, rest with
    | stepWhole, _ => Some ([DWhole], [], st)
    | stepDirect, [] => Some ([DWhole], [], st)
    | stepIndirect, [] =>
      convTo ← convTo s;
      post ← post s;
      Some ([DTemp 0],
            [{| fin_col := 0%nat; fin_path := None; fin_post := post |}],
            {| s_root := root; s_temps := {[ 0%nat := zeroValue convTo ]};
               s_sink := s_sink st |})
    | _, [] => Some ([DSink], [], st)
    | _, _ => structDests (steps p) 0 st
    end
  | true, _ => structDests (steps p) 0 st
  end.

Section RowScanner.
(** [rows.Scan] belongs to [database/sql]: for every column it converts
    the driver's value into what the pointer points to, or fails.  The
    conversion is a parameter: the content of the slot and the driver's
    value give the new content. *)
Context (convertAssign : value -> value -> option value).

(** What [rows.Scan] does for one column: [convertAssign] of the
    driver's value into what the pointer points to. *)
Definition scanInto (d : dest) (src : value) (st : store) : option store :=
  match d with
  | DWhole => setRoot st <$> convertAssign (s_root st) src
  | DField fp =>
    setRoot st <$> updatePath fp (fun cur => convertAssign cur src) (s_root st)
  | DTemp i =>
    cur ← s_temps st !! i;
    new ← convertAssign cur src;
    Some {| s_root := s_root st; s_temps := <[i := new]> (s_temps st);
            s_sink := s_sink st |}
  | DSink =>
    new ← convertAssign (s_sink st) src;
    Some {| s_root := s_root st; s_temps := s_temps st; s_sink := new |}
  end.

(** [rows.Scan(dests...)] on the current row. *)
Fixpoint rowsScan (dests : list dest) (row : list value) (st : store)
    : option store :=
  match dests, row with
  | [], [] => Some st
  | d :: dests', src :: row' =>
    st' ← scanInto d src st;
    rowsScan dests' row' st'
  | _, _ => None
  end.

(** [cleanup()]: the conversions in column order.  No [post] of
    [pickIndirect] returns an error, so the only way out of the loop
    early is a panic ([None]); every [post] ends in a [Set] of [dst],
    which panics on a field that is read-only. *)
Fixpoint cleanup (finals : list final) (st : store) : option store :=
  match finals with
  | [] => Some st
  | f :: finals' =>
    tmp ← s_temps st !! fin_col f;
    root ← match fin_path f with
           | None =>
             t ← typeOf (s_root st);
             applyPost (fin_post f) t tmp
           | Some fp =>
             root ← fieldByPathAlloc (s_root st) fp;
             (* the Set, SetInt, ... of post *)
             if readOnlyAt root fp then None
             else
               updatePath fp
                 (fun dst => t ← typeOf dst; applyPost (fin_post f) t tmp) root
           end;
    cleanup finals' (setRoot st root)
  end.

(** What [scanWithMapper] reads of [rows]: the column names, unless
    [rows.Columns()] fails, and the values of the current row. *)
Record Rows := {
  Columns : option (list gostring);
  Values : list value
}.

(** [scanWithMapper[T](m, rows)] for [T = rt]: the mapper with its
    caches after the call, the value and the error. *)
Definition scanWithMapper (m : Mapper) (rt : gotype) (rows : Rows)
    : run (Mapper * (value * option scanError)) :=
  let zero := zeroValue rt in
  match Columns rows with
  | None => Returns (m, (zero, Some ErrColumns))
  | Some cols =>
    if bool_decide (length cols = 0%nat)
    then Returns (m, (zero, Some ErrZeroColumns))
    else
      let cols := normalizeColAscii <$> cols in
      let colHash := hashColumns cols in
      run_bind (getPlan m rt cols colHash) (fun r =>
        match r with
        | (m, inr err) => Returns (m, (zero, Some err))
        | (m, inl pl) =>
          match destPtrs pl (zeroValue rt) with
          | None => Panics
          | Some (dests, finals, st) =>
            match rowsScan dests (Values rows) st with
            | None => Returns (m, (zero, Some ErrRowsScan))
            | Some st =>
              match cleanup finals st with
              | None => Panics
              | Some st => Returns (m, (s_root st, None))
              end
            end
          end
        end)
  end.

End RowScanner.

(** What the loop [for i := range cols] of [scanWithMapper] leaves in the
    slice that [rows.Columns()] has returned, [cols[i] =
    normalizeColAscii(cols[i])], as the next call of [rows.Columns()]
    shows it: the names as written when the driver hands out its own
    slice, its labels as before when it makes a slice at every call. *)
Definition columnsAfterScan (own : bool) (cols : option (list gostring))
    : option (list gostring) :=
  if own then (fun cs : list gostring => normalizeColAscii <$> cs) <$> cols
  else cols.

(** ** named.go: the dialect of a driver *)

(** [PlaceholderFor(driverName)]: the [switch] on
    [strings.ToLower(driverName)]. *)
Definition PlaceholderFor (U : UnicodeTables) (driverName : gostring)
    : Placeholder :=
  let s := strings_ToLower U driverName in
  if bool_decide (s = str "pgx") || bool_decide (s = str "postgres")
     || bool_decide (s = str "postgresql") || bool_decide (s = str "lib/pq")
     || bool_decide (s = str "pg")
  then PlaceholderDollar
  else if bool_decide (s = str "sqlserver") || bool_decide (s = str "mssql")
  then PlaceholderAtP
  else if bool_decide (s = str "godror") || bool_decide (s = str "oracle")
          || bool_decide (s = str "goracle")
  then PlaceholderColonNum
  else PlaceholderQuestion.

(** ** xsql.go, query.go, get.go: running statements

    [database/sql] is the environment of these functions.  A [*sql.Rows]
    is what it shows them: the column names (unless [Columns] fails), the
    rows that [Next] steps through, the error that [Err] reports once
    [Next] has answered false, and the error of [Close], which may depend
    on how many rows have been stepped through.  [Columns] hands out the
    slice of names that the driver gives it, uncopied: [rows_own_names]
    tells whether the driver gives its own slice at every call, so that
    what has been written into it is there at the next call, or makes a
    slice of its labels at every call.  The context argument is handed
    on to the database and has no other part. *)

Inductive sqlError :=
| ErrDatabase (id : nat)        (* an error that [database/sql] hands back *)
| ErrNoRows                     (* [sql.ErrNoRows] *)
| ErrScanning (e : scanError)   (* an error of [scanWithMapper] *)
| ErrBinding (e : bindError).   (* an error of [Rebind] *)

Record sqlRows := {
  rows_columns : option (list gostring);
  rows_own_names : bool;
  rows_data : list (list value);
  rows_err : option sqlError;
  rows_close : nat -> option sqlError
}.

(** [Querier] and [Execer] over a database in the state [S]: the call
    leaves the database in a new state and answers with rows, or a
    result, or an error. *)
Record Querier (S : Type) := {
  QueryContext : S -> gostring -> list value -> S * (sqlRows + sqlError)
}.
Arguments QueryContext {S} _ _ _ _.

Record Execer (S R : Type) := {
  ExecContext : S -> gostring -> list value -> S * (R + sqlError)
}.
Arguments ExecContext {S R} _ _ _ _.

(** [getMapper()]: the package variable [mapper] is [nil] ([None]) until
    the first call; [mapperOnce] sets it to a new mapper.  The mapper is
    shared by pointer, so the variable shows what the scans leave in its
    caches. *)
Definition getMapper (mapper : option Mapper) : Mapper :=
  match mapper with
  | Some m => m
  | None => NewMapper
  end.

Section Running.
Context {S : Type} (convertAssign : value -> value -> option value).

(** The loop [for rows.Next()] of [Query]: [scanWithMapper] on every
    row; its error ends the loop with [nil] for the values.  Every call
    of [scanWithMapper] asks for the columns again, and [cols] is what
    it is shown: after a scan these are the names as the scan has
    written them when the driver keeps the slice ([own]). *)
Fixpoint scanRows (m : Mapper) (rt : gotype) (own : bool)
    (cols : option (list gostring)) (data : list (list value))
    (out : list value) : run (Mapper * (list value * option scanError)) :=
  match data with
  | [] => Returns (m, (out, None))
  | row :: data' =>
    run_bind (scanWithMapper convertAssign m rt
                {| Columns := cols; Values := row |}) (fun r =>
      match r with
      | (m, (_, Some scanErr)) => Returns (m, ([], Some scanErr))
      | (m, (v, None)) =>
        scanRows m rt own (columnsAfterScan own cols) data' (out ++ [v])
      end)
  end.

(** [Query[T](ctx, q, query, args...)] for [T = rt]: the database, the
    package variable [mapper], the values and the error after the call.
    The deferred function puts the error of [rows.Close()] in the place
    of [err] when [err] is [nil]; the values are then left as they are. *)
Definition Query (q : Querier S) (mapper : option Mapper) (rt : gotype)
    (db : S) (query : gostring) (args : list value)
    : run (S * option Mapper * (list value * option sqlError)) :=
  match QueryContext q db query args with
  | (db, inr err) => Returns (db, mapper, ([], Some err))
  | (db, inl rows) =>
    let m := getMapper mapper in
    run_bind (scanRows m rt (rows_own_names rows) (rows_columns rows)
                (rows_data rows) []) (fun r =>
      match r with
      | (m, (_, Some scanErr)) =>
        Returns (db, Some m, ([], Some (ErrScanning scanErr)))
      | (m, (out, None)) =>
        match rows_err rows with
        | Some ne => Returns (db, Some m, ([], Some ne))
        | None =>
          Returns (db, Some m, (out, rows_close rows (length (rows_data rows))))
        end
      end)
  end.

(** [Get[T](ctx, q, query, args...)] for [T = rt]. *)
Definition Get (q : Querier S) (mapper : option Mapper) (rt : gotype)
    (db : S) (query : gostring) (args : list value)
    : run (S * option Mapper * (value * option sqlError)) :=
  let out := zeroValue rt in
  match QueryContext q db query args with
  | (db, inr err) => Returns (db, mapper, (out, Some err))
  | (db, inl rows) =>
    match rows_data rows with
    | [] =>
      match rows_err rows with
      | Some ne => Returns (db, mapper, (out, Some ne))
      | None => Returns (db, mapper, (out, Some ErrNoRows))
      end
    | row :: _ =>
      let m := getMapper mapper in
      run_bind (scanWithMapper convertAssign m rt
                  {| Columns := rows_columns rows; Values := row |}) (fun r =>
        match r with
        | (m, (_, Some scanErr)) =>
          Returns (db, Some m, (out, Some (ErrScanning scanErr)))
        | (m, (v, None)) => Returns (db, Some m, (v, rows_close rows 1))
        end)
    end
  end.

(** [Exec(ctx, e, query, args...)] *)
Definition Exec {R : Type} (e : Execer S R) (db : S) (query : gostring)
    (args : list value) : S * (R + sqlError) :=
  ExecContext e db query args.

(** [NamedExec] and [NamedQuery]: [Rebind], then the statement as bound.
    [fuel] is the iteration budget of the rewriter's loop. *)
Definition NamedExec {R : Type} (U : UnicodeTables) (fuel : nat)
    (e : Execer S R) (ph : Placeholder) (db : S) (query : gostring)
    (params : list value) : run (S * (R + sqlError)) :=
  run_bind (Rebind U fuel query ph params) (fun r =>
    match r with
    | (_, _, Some err) => Returns (db, inr (ErrBinding err))
    | (bound, args, None) => Returns (ExecContext e db bound args)
    end).

Definition NamedQuery (U : UnicodeTables) (fuel : nat) (q : Querier S)
    (mapper : option Mapper) (rt : gotype) (ph : Placeholder) (db : S)
    (query : gostring) (params : list value)
    : run (S * option Mapper * (list value * option sqlError)) :=
  run_bind (Rebind U fuel query ph params) (fun r =>
    match r with
    | (_, _, Some err) => Returns (db, mapper, ([], Some (ErrBinding err)))
    | (bound, args, None) => Query q mapper rt db bound args
    end).

End Running.

(** * Notions of the properties *)

(** ** Column normalisation (C5) *)

(** The rule of the specification: a label is wrapped in a quote pair
    when it has at least two bytes and its first and last bytes are the
    two ends of one of the three pairs. *)
Definition isQuotePair (s : gostring) : bool :=
  bool_decide (2 ≤ length s)%nat
  && ((byteIs s 0 dquote && byteIs s (length s - 1) dquote)
      || (byteIs s 0 "`" && byteIs s (length s - 1) "`")
      || (byteIs s 0 "[" && byteIs s (length s - 1) "]")).

(** A label between an opening and a closing byte. *)
Definition quoted (o c : ascii) (X : gostring) : gostring := o :: X ++ [c].

(** ** Identity of types and the plan cache *)

(** Induction on types that reaches the field types of a struct. *)
Section gotype_induction.
Variable P : gotype -> Prop.
Hypothesis HBasic : forall k, P (TBasic k).
Hypothesis HNamed : forall n u s, P u -> P (TNamed n u s).
Hypothesis HPtr : forall e, P e -> P (TPtr e).
Hypothesis HSlice : forall e, P e -> P (TSlice e).
Hypothesis HArray : forall n e, P e -> P (TArray n e).
Hypothesis HMap : forall k e, P k -> P e -> P (TMap k e).
Hypothesis HStruct : forall fs, Forall (fun ft => P ft.2) fs -> P (TStruct fs).
Hypothesis HInterface : P TInterface.

Fixpoint gotype_fields_ind (t : gotype) : P t :=
  match t with
  | TBasic k => HBasic k
  | TNamed n u s => HNamed n u s (gotype_fields_ind u)
  | TPtr e => HPtr e (gotype_fields_ind e)
  | TSlice e => HSlice e (gotype_fields_ind e)
  | TArray n e => HArray n e (gotype_fields_ind e)
  | TMap k e => HMap k e (gotype_fields_ind k) (gotype_fields_ind e)
  | TStruct fs =>
    HStruct fs
      ((fix all (fs : list (StructField * gotype)) : Forall (fun ft => P ft.2) fs :=
          match fs with
          | [] => List.Forall_nil _
          | (f, t) :: r => List.Forall_cons _ (f, t) r (gotype_fields_ind t) (all r)
          end) fs)
  | TInterface => HInterface
  end.
End gotype_induction.

(** ** Column counts (C6) *)

(** The mappers a program can hold: [NewMapper()], and what [getPlan]
    and [structIndex] leave behind (the caches are unexported fields). *)
Inductive reachable : Mapper -> Prop :=
| reach_new : reachable NewMapper
| reach_getPlan m rt cols h m' r :
    reachable m -> getPlan m rt cols h = Returns (m', r) -> reachable m'
| reach_structIndex m rt :
    reachable m -> reachable (structIndex m rt).1.

(** The plan that [getPlan] builds for a type that is no struct. *)
Definition scalarPlan (rt : gotype) : plan :=
  {| rt := rt;
     steps := [if implementsScanner rt
               then {| kind := stepWhole; fpath := []; convTo := None; post := None |}
               else makeWholeStep rt];
     plan_isStruct := false;
     plan_isScan := implementsScanner rt |}.

(** Every cached plan of a non-struct type was built for one column, and
    is the plan of that type. *)
Definition scalarPlansHaveOneColumn (m : Mapper) : Prop :=
  forall k p, (k, p) ∈ planCache m ->
    isStruct (key_rt k) = false ->
    key_ncols k = 1%nat /\ p = scalarPlan (key_rt k).

(** The two errors of [getPlan] about the number of columns. *)
Definition isColumnCountMismatch (rt : gotype) (n : nat) (e : scanError) : Prop :=
  e = ErrScannerColumns rt n \/ e = ErrCannotMap n rt.

(** ** Narrow integer destinations (C8) *)

(** A [rows.Scan] that stores a driver value of the slot's own type. *)
Definition scanSameType (cur src : value) : option value :=
  match typeOf cur, typeOf src with
  | Some t, Some t' => if gotype_eqb t t' then Some src else None
  | _, _ => None
  end.

(** ** Embedded pointers in the parameter lookup (C9) *)

(** An exported field with a [db] tag, and an embedded field. *)
Definition exportedField (n tag : string) : StructField :=
  {| Name := str n; PkgPath := []; Anonymous := false; Tag_db := str tag |}.

Definition embeddedField (n pkg : string) : StructField :=
  {| Name := str n; PkgPath := str pkg; Anonymous := true; Tag_db := [] |}.

(** The types of [TestAddStructFields_PointerChainNonNil_AndNilSkip]:
    [type E struct { Z int `db:"z"` }] and
    [type OuterPtr struct { *E; Y int `db:"y"` }]. *)
Definition tE : gotype :=
  TNamed (str "E") (TStruct [(exportedField "Z" "z", tInt)]) false.

Definition tOuterPtr : gotype :=
  TNamed (str "OuterPtr")
    (TStruct [(embeddedField "E" EmptyString, TPtr tE); (exportedField "Y" "y", tInt)])
    false.

(** [type Clash struct { *E; X int `db:"e"` }]: a field whose key is
    the lower-cased name of the embedded field. *)
Definition tClash : gotype :=
  TNamed (str "Clash")
    (TStruct [(embeddedField "E" EmptyString, TPtr tE); (exportedField "X" "e", tInt)])
    false.

(** [type hidden struct { Z int `db:"z"` }] embedded by pointer in
    [type Outer struct { *hidden; Y int `db:"y"` }]: the embedded field is
    unexported. *)
Definition tHidden : gotype :=
  TNamed (str "hidden") (TStruct [(exportedField "Z" "z", tInt)]) false.

Definition tOuterHidden : gotype :=
  TNamed (str "Outer")
    (TStruct [(embeddedField "hidden" "xsql", TPtr tHidden);
              (exportedField "Y" "y", tInt)])
    false.

Definition lookupKeys (r : run (gmap gostring value * option bindError))
    : run (list (gostring * value) * option bindError) :=
  run_bind r (fun '(m, e) => Returns (map_to_list m, e)).

(** ** Bytes and runes *)

(** What [first] and [acceptRanges] say of a leading byte. *)
Definition leadFacts (sz : nat) (lo hi b : Z) : Prop :=
  0x80 <= lo /\ hi <= 0xBF /\
  ((sz = 2%nat /\ 2 <= Z.land b mask2)
   \/ (sz = 3%nat /\ (1 <= Z.land b mask3 \/ 0xA0 <= lo))
   \/ (sz = 4%nat /\ (1 <= Z.land b mask4 \/ 0x90 <= lo))).

(** ** The extractor's loop *)

(** The states [(i, out)] that the extractor's loop goes through. *)
Inductive extractorAt (U : UnicodeTables) (q : gostring)
    : nat -> list nameToken -> Prop :=
| extractor_start : extractorAt U q 0 []
| extractor_step i out j out' :
    extractorAt U q i out ->
    findNamedParams_body U q i out = Continue (j, out') ->
    extractorAt U q j out'.

(** Tokens in query order between two offsets: each one is a colon and
    a non-empty name read off the query, after the end of the one
    before. *)
Fixpoint tokensBetween (q : gostring) (lo hi : nat) (toks : list nameToken)
    : Prop :=
  match toks with
  | [] => (lo <= hi)%nat
  | t :: r =>
    (lo <= start t)%nat /\ (start t + 1 < end_ t)%nat
    /\ name t = take (end_ t - (start t + 1)) (drop (start t + 1) q)
    /\ tokensBetween q (end_ t) hi r
  end.

(** ** What binding does with the tokens (C2, C7) *)

(** [n] question marks with commas between them. *)
Definition placeholders (n : nat) : gostring :=
  match n with
  | O => []
  | S k => "?"%char :: concat (replicate k (str ",?"))
  end.

(** The text and the arguments that a token bound to [val] becomes. *)
Definition tokenText (val : value) : gostring :=
  if isSliceOrArray val then
    if bool_decide (length (elemsOf val) = 0%nat) then str "NULL"
    else placeholders (length (elemsOf val))
  else str "?".

Definition tokenArgs (val : value) : list value :=
  if isSliceOrArray val then elemsOf val else [val].

(** The query from offset [last] on, with every token replaced by its
    text. *)
Fixpoint render (q : gostring) (vals : nameToken -> value)
    (toks : list nameToken) (last : nat) : gostring :=
  match toks with
  | [] => drop last q
  | t :: r =>
    take (start t - last) (drop last q) ++ tokenText (vals t)
    ++ render q vals r (end_ t)
  end.

(** The scenario of the specification:
    [type P struct { X int `db:"x"`; Arr []int `db:"arr"` }] with
    [P{X: 9, Arr: []int{1}}]. *)
Definition tP : gotype :=
  TNamed (str "P")
    (TStruct [(exportedField "X" "x", tInt); (exportedField "Arr" "arr", TSlice tInt)])
    false.

Definition scenarioParams : value :=
  VStruct tP [VInt tInt 9; VSlice (TSlice tInt) [VInt tInt 1]].

Definition scenarioQuery : gostring :=
  str "WHERE a=:x OR b=:x OR c IN (:arr) OR d=:x".

(** The tokens, the lookup and the values of the scenario. *)
Definition scenarioTokens : list nameToken :=
  [ {| name := str "x"; start := 8; end_ := 10 |};
    {| name := str "x"; start := 16; end_ := 18 |};
    {| name := str "arr"; start := 28; end_ := 32 |};
    {| name := str "x"; start := 39; end_ := 41 |} ].

Definition scenarioLookup : gmap gostring value :=
  {[ str "x" := VInt tInt 9; str "arr" := VSlice (TSlice tInt) [VInt tInt 1] ]}.

Definition scenarioValues (t : nameToken) : value :=
  if bool_decide (name t = str "x") then VInt tInt 9
  else VSlice (TSlice tInt) [VInt tInt 1].

(** ** Empty sequences (C7) *)

(** The query up to offset [hi], with every token replaced by its text. *)
Fixpoint renderTo (q : gostring) (vals : nameToken -> value)
    (toks : list nameToken) (last hi : nat) : gostring :=
  match toks with
  | [] => take (hi - last) (drop last q)
  | t :: r =>
    take (start t - last) (drop last q) ++ tokenText (vals t)
    ++ renderTo q vals r (end_ t) hi
  end.

(** A map parameter that binds [a] to an empty [[]int]. *)
Definition emptySliceParams : value :=
  VMap (TMap tString TInterface)
    [(VString tString (str "a"), VSlice (TSlice tInt) [])].

(** ** Unterminated regions (C1) *)

(** A quoted body that is not closed: bytes other than the quote, and
    doubled quotes. *)
Inductive unclosed (qc : ascii) : gostring -> Prop :=
| unclosed_nil : unclosed qc []
| unclosed_other c body : c <> qc -> unclosed qc body -> unclosed qc (c :: body)
| unclosed_doubled body : unclosed qc body -> unclosed qc (qc :: qc :: body).

(** [sub] occurs nowhere in [s]. *)
Definition absent (sub s : gostring) : Prop :=
  forall a b, s <> a ++ sub ++ b.

(** A byte of a dollar-quote tag. *)
Definition tagByte (c : ascii) : Prop := c <> "$"%char /\ isTagByte c = true.

(** At offset [i] of [q] a region opens that the rest of the query does
    not close; [e] is the error of its skipper. *)
Inductive opensUnterminated (q : gostring) (i : nat) : bindError -> Prop :=
| opens_quote qc e body :
    (qc, e) ∈ [("'"%char, ErrUnterminatedSingle);
               (dquote, ErrUnterminatedDouble);
               ("`"%char, ErrUnterminatedBacktick)] ->
    drop i q = qc :: body -> unclosed qc body ->
    opensUnterminated q i e
| opens_block body :
    drop i q = str "/*" ++ body -> absent (str "*/") body ->
    opensUnterminated q i ErrUnterminatedBlockComment
| opens_dollar tag body :
    drop i q = "$"%char :: tag ++ "$"%char :: body ->
    Forall tagByte tag -> absent ("$"%char :: tag ++ [ "$"%char ]) body ->
    opensUnterminated q i ErrUnterminatedDollar.

(** The positional path: any arguments other than one bindable value. *)
Definition positionalArgs (params : list value) : Prop :=
  match params with
  | [p] => looksBindable p = false
  | _ => True
  end.

(** ** The rewriter after the extractor (C3) *)

(** The runes at which the rewriter does something else than copy. *)
Definition rewriterTrigger (r : Z) : bool :=
  (r =? rune "'") || (r =? rune dquote) || (r =? rune "`") || (r =? rune "-")
  || (r =? rune "/") || (r =? rune "$") || (r =? rune "?").

(** Iterations of the rewriter that go on, each one moving forward. *)
Inductive rewriterRun (q : gostring) (ph : Placeholder)
    : nat * nat * gostring -> nat * nat * gostring -> Prop :=
| run_refl st : rewriterRun q ph st st
| run_step i arg out j arg' out' st :
    rewritePlaceholders_body q ph i arg out = Continue (j, arg', out') ->
    (i < j)%nat ->
    rewriterRun q ph (j, arg', out') st ->
    rewriterRun q ph (i, arg, out) st.

(** ** Unmatched columns and unmatched fields (C10) *)

(** Two index paths that part at some position: they lead to different
    fields, none of them inside the other. *)
Fixpoint disjointPaths (p q : list nat) : bool :=
  match p, q with
  | i :: p', j :: q' =>
    if bool_decide (i = j) then disjointPaths p' q' else true
  | _, _ => false
  end.

(** The content of the field at an index path, where a nil pointer on
    the way stands for the zero struct that [fieldByPathAlloc] would
    allocate there. *)
Fixpoint fieldAt (fpath : list nat) (v : value) : option value :=
  match fpath with
  | [] => Some v
  | i :: rest =>
    let inStruct (s : value) : option value :=
      match s with
      | VStruct _ vals => x ← vals !! i; fieldAt rest x
      | _ => None
      end in
    match v with
    | VPtr t None => s ← newTarget t; inStruct s
    | VPtr _ (Some s) => inStruct s
    | _ => inStruct v
    end
  end.


(** The pointer that [destPtrs] hands to [rows.Scan] for a step of a
    struct plan at column [i]. *)
Definition destOf (i : nat) (s : step) : dest :=
  match kind s with
  | stepDirect => DField (fpath s)
  | stepIndirect => DTemp i
  | _ => DSink
  end.

(** A step that writes into the field at [fpath s]. *)
Definition writesField (s : step) : bool :=
  match kind s with
  | stepDirect | stepIndirect => true
  | _ => false
  end.

(** No step of the list writes into the field at [p], into a field
    inside it, or into a field around it. *)
Definition untouched (sts : list step) (p : list nat) : Prop :=
  forall s, s ∈ sts -> writesField s = true -> disjointPaths (fpath s) p = true.

(** *** The paths of the field index lead to different fields *)

(** The loop over the fields in [walk], from field [i] on. *)
Definition walkFields (base : list nat) (forceInline : bool) :=
  fix fields (fs : list (StructField * gotype)) (i : nat)
      (idx : fieldIndex) {struct fs} : fieldIndex :=
    match fs with
    | [] => idx
    | (sf, ft) :: fs' =>
      if negb (bool_decide (PkgPath sf = [])) && negb (Anonymous sf)
      then fields fs' (S i) idx
      else
        let tag := Tag_db sf in
        let '(name, inline, omit) := parseTag tag in
        if omit then fields fs' (S i) idx
        else
          let path := base ++ [i] in
          if (inline || (Anonymous sf && (forceInline || bool_decide (tag = []))))
             && isStruct ft
          then fields fs' (S i) (walk ft path inline idx)
          else
            let name := if bool_decide (name = []) then Name sf else name in
            let lc := toLowerAscii name in
            match idx !! lc with
            | None => fields fs' (S i) (<[lc := path]> idx)
            | Some _ => fields fs' (S i) idx
            end
    end.

(** The paths registered under different names part somewhere. *)
Definition pathsApart (idx : fieldIndex) : Prop :=
  forall n1 n2 p1 p2,
    idx !! n1 = Some p1 -> idx !! n2 = Some p2 -> n1 <> n2 ->
    disjointPaths p1 p2 = true.

(** Every path of the index parts from [base], or goes through [base]
    and then a field before [lo]. *)
Definition clearOf (base : list nat) (lo : nat) (idx : fieldIndex) : Prop :=
  forall n p, idx !! n = Some p ->
    disjointPaths p base = true
    \/ exists j rest, p = base ++ j :: rest /\ (j < lo)%nat.

(** *** The plan of a struct type *)

(** The step that [getPlan] gives the column [c] of a struct type. *)
Definition stepFor (rt : gotype) (idx : fieldIndex) (c : gostring) (s : step)
    : Prop :=
  match idx !! c with
  | Some fp => makeFieldStep rt fp = Some s
  | None => s = {| kind := stepDrop; fpath := []; convTo := None; post := None |}
  end.

(** The plan that the cache holds for these columns, if it holds one,
    is the plan of these columns.  The key of the cache has the hash of
    the column names in their place: a plan stored for other columns of
    the same number and the same hash would be found too. *)
Definition cachedPlanFits (m : Mapper) (rt : gotype) (cols : list gostring)
    : Prop :=
  forall p,
    loadPlan m {| key_rt := rt; key_hash := hashColumns cols;
                  key_ncols := length cols |} = Some p ->
    plan_isStruct p = true
    /\ fieldSteps rt (buildStructIndex rt) cols = Some (steps p).

(** ** Stability of the rewriter (C4) *)

(** [r] is the text [t] in which question marks have been replaced by
    the markers of the dialect, numbered from [arg] on in their order;
    every other byte is in its place. *)
Inductive renumbered (ph : Placeholder) : nat -> gostring -> gostring -> Prop :=
| renumbered_nil arg : renumbered ph arg [] []
| renumbered_copy arg c t r :
    renumbered ph arg t r -> renumbered ph arg (c :: t) (c :: r)
| renumbered_mark arg t r :
    renumbered ph (S arg) t r ->
    renumbered ph arg ("?"%char :: t) (marker ph arg ++ r).

(** The first byte of the markers that are no dollar markers. *)
Definition plainHead (h : ascii) : Prop :=
  h = "@"%char \/ h = ":"%char \/ h = "?"%char.

(** Two texts with the same bytes up to a place where the first has a
    question mark and the second the head of such a marker. *)
Inductive alike : gostring -> gostring -> Prop :=
| alike_nil : alike [] []
| alike_same c x y : alike x y -> alike (c :: x) (c :: y)
| alike_mark h x y : plainHead h -> alike ("?"%char :: x) (h :: y).

(** *** Dollar quotes *)

(** The tag bytes at the head of a text: the bytes that the loop of
    [skipDollarQuoted] steps over. *)
Fixpoint tagLen (t : gostring) : nat :=
  match t with
  | c :: t' =>
    if negb (bool_decide (c = "$"%char)) && isTagByte c then S (tagLen t') else 0%nat
  | [] => 0%nat
  end.

(** [skipDollarQuoted] at the head of a text. *)
Definition dollarQuoted (t : gostring) : nat * bool * option bindError :=
  match t with
  | c :: t' =>
    if negb (bool_decide (c = "$"%char)) then (0%nat, false, None)
    else
      let n := tagLen t' in
      if negb (byteIs t' n "$") then (0%nat, false, None)
      else
        let tag := take (n + 2) t in
        match strings_Index (drop (n + 2) t) tag with
        | None => (0%nat, true, Some ErrUnterminatedDollar)
        | Some idx => ((n + 2 + idx + length tag)%nat, true, None)
        end
  | [] => (0%nat, false, None)
  end.

(** *** A second pass over the output *)

(** The rewriter copies the text [r], wherever it stands at the end of
    a text. *)
Definition stable (ph : Placeholder) (r : gostring) : Prop :=
  forall pre arg out fuel,
    (length r < fuel)%nat ->
    rewritePlaceholders_loop fuel (pre ++ r) ph (length pre) arg out
      = Returns (out ++ r).

(** A byte that the rewriter copies whatever comes next. *)
Definition inertByte (c : ascii) : Prop :=
  byteZ c < 0x80 /\ rewriterTrigger (byteZ c) = false.

Definition digitByte (c : ascii) : Prop := 48 <= byteZ c <= 57.

(** *** A plan cached for other columns *)

(** A [rows.Scan] that takes every value. *)
Definition scanAny (cur src : value) : option value := Some src.

(** [type AC struct { A int64 `db:"a"`; C int64 `db:"c"` }] *)
Definition tAC : gotype :=
  TNamed (str "AC")
    (TStruct [(exportedField "A" "a", tInt64); (exportedField "C" "c", tInt64)])
    false.

(** Two lists of two column names each that give the hash the same
    bytes: [a 00 b 00 c 00]. *)
Definition nul : ascii := "000"%char.

Definition columnsA_B0C : list gostring := [str "a"; str "b" ++ nul :: str "c"].

Definition columnsA0B_C : list gostring := [str "a" ++ nul :: str "b"; str "c"].

(** ** Scanning the rows of a result *)

(** With the caches [m], the row [row] of a result with the columns
    [cols] scans to [v], and the caches stay as they are. *)
Definition scansTo (conv : value -> value -> option value) (m : Mapper)
    (rt : gotype) (cols : option (list gostring)) (row : list value)
    (v : value) : Prop :=
  scanWithMapper conv m rt {| Columns := cols; Values := row |}
  = Returns (m, (v, None)).

(** A database that answers every query with the same rows. *)
Definition constantRows (rows : sqlRows) : Querier unit :=
  {| QueryContext := fun db _ _ => (db, inl rows) |}.

(** ** The errors of [Rebind] *)

(** Induction on values that reaches the values inside a value. *)
Section value_induction.
Variable P : value -> Prop.
Hypothesis HNil : P VNil.
Hypothesis HBool : forall t b, P (VBool t b).
Hypothesis HInt : forall t z, P (VInt t z).
Hypothesis HString : forall t s, P (VString t s).
Hypothesis HPtrNil : forall t, P (VPtr t None).
Hypothesis HPtr : forall t x, P x -> P (VPtr t (Some x)).
Hypothesis HSlice : forall t xs, Forall P xs -> P (VSlice t xs).
Hypothesis HArray : forall t xs, Forall P xs -> P (VArray t xs).
Hypothesis HMap : forall t es, P (VMap t es).
Hypothesis HStruct : forall t fs, Forall P fs -> P (VStruct t fs).
Hypothesis HOther : forall t id, P (VOther t id).

Fixpoint value_fields_ind (v : value) : P v :=
  let all :=
    fix all (xs : list value) : Forall P xs :=
      match xs with
      | [] => List.Forall_nil _
      | x :: r => List.Forall_cons _ x r (value_fields_ind x) (all r)
      end in
  match v with
  | VNil => HNil
  | VBool t b => HBool t b
  | VInt t z => HInt t z
  | VString t s => HString t s
  | VPtr t None => HPtrNil t
  | VPtr t (Some x) => HPtr t x (value_fields_ind x)
  | VSlice t xs => HSlice t xs (all xs)
  | VArray t xs => HArray t xs (all xs)
  | VMap t es => HMap t es
  | VStruct t fs => HStruct t fs (all fs)
  | VOther t id => HOther t id
  end.
End value_induction.

(** The errors of the skippers. *)
Definition isUnterminated (e : bindError) : Prop :=
  e = ErrUnterminatedSingle \/ e = ErrUnterminatedDouble
  \/ e = ErrUnterminatedBacktick \/ e = ErrUnterminatedBlockComment
  \/ e = ErrUnterminatedDollar.

(** The walk through the pointers of an embedded field in
    [addStructFields], and the loop over the fields. *)
Definition embeddedWalk (U : UnicodeTables) (dst : gmap gostring value) :=
  fix embedded (ft : gotype) (fv : value) {struct fv}
      : option (run (gmap gostring value * option bindError)) :=
    if reflect.eqb (Kind ft) reflect.Pointer then
      match fv, Elem ft with
      | VPtr _ (Some x), Some e => embedded e x
      | _, _ => None
      end
    else if reflect.eqb (Kind ft) reflect.Struct then
      match fv with
      | VStruct _ _ => Some (addStructFields U dst fv)
      | _ => None
      end
    else None.

Definition structFields (U : UnicodeTables) :=
  fix fields (dst : gmap gostring value)
      (fs : list (StructField * gotype)) (vals : list value)
      {struct vals} : run (gmap gostring value * option bindError) :=
    match fs, vals with
    | (f, ft) :: fs', fv :: vals' =>
      let register (_ : unit) :=
        let tag := Tag_db f in
        if bool_decide (tag = str "-") then fields dst fs' vals'
        else
          let name := if bool_decide (tag = []) then Name f else tag in
          let key := strings_ToLower U name in
          match dst !! key with
          | Some _ => Returns (dst, Some (ErrDuplicateKeyTag key))
          | None =>
            if negb (bool_decide (PkgPath f = [])) then Panics
            else fields (<[key := fv]> dst) fs' vals'
          end in
      if negb (bool_decide (PkgPath f = [])) && negb (Anonymous f)
      then fields dst fs' vals'
      else if Anonymous f then
        match embeddedWalk U dst ft fv with
        | Some (Returns (dst', None)) => fields dst' fs' vals'
        | Some other => other
        | None => register tt
        end
      else register tt
    | _, _ => Returns (dst, None)
    end.

(** ** The tokens of the extractor *)

(** A token as the extractor makes it: at its start is a colon that no
    second colon follows, and its name and end are what [parseIdent]
    reads behind the colon, the name not empty. *)
Definition colonToken (U : UnicodeTables) (q : gostring) (t : nameToken) : Prop :=
  q !! start t = Some ":"%char
  /\ byteIs q (start t + 1) ":" = false
  /\ parseIdent U q (start t + 1) = (name t, end_ t)
  /\ name t <> [].

(** The number of question marks in a text. *)
Definition countQuestion (s : gostring) : nat :=
  length (filter (fun c => c = "?"%char) s).

(** ** The lookup of a map parameter *)

(** The keys of the entries as the lookup holds them. *)
Definition entryKeys (U : UnicodeTables) (entries : list (value * value))
    : list gostring :=
  omap (fun kv : value * value =>
          match kv.1 with
          | VString _ key => Some (strings_ToLower U key)
          | _ => None
          end) entries.

(** The value of the last entry whose key in lower case is [k]. *)
Fixpoint lastEntry (U : UnicodeTables) (k : gostring)
    (entries : list (value * value)) : option value :=
  match entries with
  | [] => None
  | kv :: r =>
    match lastEntry U k r with
    | Some v => Some v
    | None =>
      match kv.1 with
      | VString _ key =>
        if bool_decide (strings_ToLower U key = k) then Some kv.2 else None
      | _ => None
      end
    end
  end.

(** ** The field index of a struct type *)

(** An index of the type [root]: no key holds an upper-case ASCII
    letter, and every path is not empty and leads to a field of
    [root]. *)
Definition indexOf (root : gotype) (idx : fieldIndex) : Prop :=
  forall n p, idx !! n = Some p ->
    existsb isUpperByte n = false
    /\ p <> [] /\ is_Some (fieldTypeByPath root p).

(** The facts about a plan that its key in the cache records. *)
Definition planOf (k : planKey) (p : plan) : Prop :=
  rt p = key_rt k
  /\ length (steps p) = key_ncols k
  /\ plan_isStruct p = isStruct (key_rt k)
  /\ plan_isScan p = implementsScanner (key_rt k).

(** ** Allocation along a path *)

Definition isNilPointer (v : value) : bool :=
  match v with
  | VPtr _ None => true
  | _ => false
  end.

(** [v.Field(i)] in [updatePath] and [readPath]: the field [i] of a
    struct value, changed by [g] or read by [g]. *)
Definition fieldUpdate (i : nat) (g : value -> option value) (s : value)
    : option value :=
  match s with
  | VStruct t vals =>
    x ← vals !! i; x' ← g x; Some (VStruct t (<[i := x']> vals))
  | _ => None
  end.

Definition fieldRead (i : nat) (g : value -> option value) (s : value)
    : option value :=
  match s with
  | VStruct _ vals => x ← vals !! i; g x
  | _ => None
  end.

(** ** The parts of a tag *)

(** The parts of a tag between its commas. *)
Fixpoint splitComma (s : gostring) : list gostring :=
  match s with
  | [] => [[]]
  | c :: r =>
    if bool_decide (c = ","%char) then [] :: splitComma r
    else match splitComma r with
         | p :: ps => (c :: p) :: ps
         | [] => [[c]]
         end
  end.

(** A part that can be the name of the column. *)
Definition namePart (p : gostring) : Prop := p <> [] /\ p <> str "inline".

Global Instance namePart_dec (p : gostring) : Decision (namePart p).
Proof. unfold namePart. apply _. Defined.

(** What [parseTag] does with one part. *)
Definition tagPart (st : gostring * bool) (part : gostring) : gostring * bool :=
  if bool_decide (part = str "inline") then (st.1, true)
  else if negb (bool_decide (part = [])) && bool_decide (st.1 = [])
  then (part, st.2)
  else st.

(** ** The bytes behind the hash of the columns *)

(** The bytes that [scanWithMapper] writes to the hash: every column
    followed by a zero byte. *)
Definition hashedBytes (cols : list gostring) : gostring :=
  flat_map (fun c => c ++ [nul]) cols.

(** ** The lookup of a struct parameter *)

(** The key of a field that is not embedded: none for an unexported
    field and for the tag [-], else the tag, or the name when there is
    no tag, in lower case. *)
Definition paramKey (U : UnicodeTables) (f : StructField) : option gostring :=
  if negb (bool_decide (PkgPath f = [])) then None
  else if bool_decide (Tag_db f = str "-") then None
  else Some (strings_ToLower U
               (if bool_decide (Tag_db f = []) then Name f else Tag_db f)).

(** The keys of the fields with the values of the fields, in the order
    of the fields. *)
Fixpoint flatEntries (U : UnicodeTables) (fs : list (StructField * gotype))
    (vals : list value) : list (gostring * value) :=
  match fs, vals with
  | (f, _) :: fs', fv :: vals' =>
    match paramKey U f with
    | Some k => (k, fv) :: flatEntries U fs' vals'
    | None => flatEntries U fs' vals'
    end
  | _, _ => []
  end.

(** ** Comments *)

(** The line feed that ends a line comment. *)
Definition lf : ascii := "010"%char.

(** ** One column into one field *)

(** The zero values of the fields of a struct type. *)
Definition zeroFields (t : gotype) : list value :=
  (fun ft : StructField * gotype => zeroValue ft.2) <$> Fields t.

(** ** The rows of a result in turn *)

(** The caches [m'] hold what the caches [m] hold. *)
Definition extends (m m' : Mapper) : Prop :=
  (forall k p, loadPlan m k = Some p -> loadPlan m' k = Some p)
  /\ (forall t fi, loadIndex m t = Some fi -> loadIndex m' t = Some fi).

(** With the caches [m], the rows [data] scan to the values [vs] one
    after the other, each row under the column names as the scans before
    it have left them. *)
Fixpoint scansInTurn (conv : value -> value -> option value) (m : Mapper)
    (rt : gotype) (own : bool) (cols : option (list gostring))
    (data : list (list value)) (vs : list value) : Prop :=
  match data, vs with
  | [], [] => True
  | row :: data', v :: vs' =>
    scansTo conv m rt cols row v
    /\ scansInTurn conv m rt own (columnsAfterScan own cols) data' vs'
  | _, _ => False
  end.

(** The names that a scan reads are the names that the scan before it
    has read: the driver makes a slice at every call, or normalising the
    normalised names changes nothing (no label is wrapped twice). *)
Definition stableNames (own : bool) (cols : option (list gostring)) : Prop :=
  own = false
  \/ forall cs, cols = Some cs ->
       normalizeColAscii <$> (normalizeColAscii <$> cs) = normalizeColAscii <$> cs.

(** [type N struct { N int64 `db:"n"` }], and two rows of one column
    whose label is wrapped twice, from a driver that keeps its slice of
    names. *)
Definition tN : gotype :=
  TNamed (str "N") (TStruct [(exportedField "N" "n", tInt64)]) false.

Definition twiceWrappedRows : sqlRows :=
  {| rows_columns := Some [str "[[n]]"];
     rows_own_names := true;
     rows_data := [[VInt tInt64 1]; [VInt tInt64 2]];
     rows_err := None;
     rows_close := fun _ => None |}.

(** ** What the rewriter makes of a text *)

Definition quoteByte (c : ascii) : Prop :=
  c = "'"%char \/ c = dquote \/ c = "`"%char.

(** [skipRegion reg rest]: the text [reg], followed by [rest], is one
    whole region that the rewriter steps over: a quoted literal up to
    its closing quote (a doubled quote inside it stands for a quote, so
    no quote follows the closing one), a line comment up to its line
    feed or to the end of the text, a block comment up to the first
    [*/], or a dollar-quoted body up to the first return of its tag. *)
Inductive skipRegion : gostring -> gostring -> Prop :=
| region_quoted qc body rest :
    quoteByte qc -> unclosed qc body -> head rest <> Some qc ->
    skipRegion (qc :: body ++ [qc]) rest
| region_line body rest :
    lf ∉ body ->
    skipRegion ("-"%char :: "-"%char :: body ++ [lf]) rest
| region_line_last body :
    lf ∉ body ->
    skipRegion ("-"%char :: "-"%char :: body) []
| region_block body rest :
    absent (str "*/") (body ++ ["*"%char]) ->
    skipRegion ("/"%char :: "*"%char :: body ++ ["*"%char; "/"%char]) rest
| region_dollar tag body rest :
    Forall tagByte tag ->
    absent ("$"%char :: tag ++ ["$"%char]) (body ++ "$"%char :: tag) ->
    skipRegion ("$"%char :: tag ++ "$"%char :: body
                ++ "$"%char :: tag ++ ["$"%char]) rest.

(** The text begins as a region does, closed or not. *)
Definition opensRegion (t : gostring) : Prop :=
  (exists qc rest, quoteByte qc /\ t = qc :: rest)
  \/ (exists rest, t = "-"%char :: "-"%char :: rest)
  \/ (exists rest, t = "/"%char :: "*"%char :: rest)
  \/ (exists tag rest,
        Forall tagByte tag /\ t = "$"%char :: tag ++ "$"%char :: rest).

(** [rewritten ph arg t r]: [r] is the text [t] read from the left, in
    which every region is copied as it stands, every question mark
    outside the regions has become the marker of the dialect, numbered
    from [arg] on, and every other byte is copied. *)
Inductive rewritten (ph : Placeholder) : nat -> gostring -> gostring -> Prop :=
| rewritten_nil arg : rewritten ph arg [] []
| rewritten_region arg reg t r :
    skipRegion reg t -> rewritten ph arg t r ->
    rewritten ph arg (reg ++ t) (reg ++ r)
| rewritten_mark arg t r :
    rewritten ph (S arg) t r ->
    rewritten ph arg ("?"%char :: t) (marker ph arg ++ r)
| rewritten_plain arg c t r :
    c <> "?"%char -> ~ opensRegion (c :: t) ->
    rewritten ph arg t r ->
    rewritten ph arg (c :: t) (c :: r).

(** * Properties *)

(** ** Column normalisation (C5) *)

Lemma toLowerAscii_map (s : gostring) : toLowerAscii s = lowerByte <$> s.
Proof.
  unfold toLowerAscii. destruct (existsb isUpperByte s) eqn:E; [done|].
  induction s as [|c s IH]; [done|].
  simpl in E. apply orb_false_iff in E as [Ec Es].
  rewrite fmap_cons, <- IH by done. f_equal.
  unfold lowerByte. unfold isUpperByte in Ec. by rewrite Ec.
Qed.

Lemma lowerByte_other (c : ascii) :
  isUpperByte c = false -> lowerByte c = c.
Proof. unfold lowerByte, isUpperByte. by intros ->. Qed.

Lemma byteIs_head (c : ascii) (s : gostring) (d : ascii) :
  byteIs (c :: s) 0 d = bool_decide (c = d).
Proof. done. Qed.

Lemma byteIs_last (s : gostring) (c d : ascii) :
  byteIs (s ++ [c]) (length s) d = bool_decide (c = d).
Proof.
  unfold byteIs. by rewrite lookup_app_r, Nat.sub_diag by lia.
Qed.

Lemma normalizeColAscii_spec (s : gostring) :
  normalizeColAscii s =
  toLowerAscii (if isQuotePair s then take (length s - 2) (drop 1 s) else s).
Proof.
  unfold normalizeColAscii, isQuotePair.
  replace (length s - 1 - 1)%nat with (length s - 2)%nat by lia.
  destruct (bool_decide (2 ≤ length s)%nat) eqn:El; simpl; [|done].
  destruct (byteIs s 0 dquote) eqn:E1; simpl.
  { by destruct (byteIs s (length s - 1) dquote) eqn:E2; simpl;
      [| assert (byteIs s 0 "`" = false) as ->
           by (unfold byteIs in *; destruct (s !! 0%nat); [|done];
               apply bool_decide_eq_true in E1 as ->; done);
         assert (byteIs s 0 "[" = false) as ->
           by (unfold byteIs in *; destruct (s !! 0%nat); [|done];
               apply bool_decide_eq_true in E1 as ->; done)]. }
  destruct (byteIs s 0 "`") eqn:E3; simpl.
  { by destruct (byteIs s (length s - 1) "`") eqn:E4; simpl;
      [| assert (byteIs s 0 "[" = false) as ->
           by (unfold byteIs in *; destruct (s !! 0%nat); [|done];
               apply bool_decide_eq_true in E3 as ->; done)]. }
  destruct (byteIs s 0 "[") eqn:E5; simpl; [|done].
  by destruct (byteIs s (length s - 1) "]").
Qed.

Lemma isQuotePair_quoted (o c : ascii) (X : gostring) :
  (o, c) ∈ [(dquote, dquote); ("`"%char, "`"%char); ("["%char, "]"%char)] ->
  isQuotePair (quoted o c X) = true
  ∧ take (length (quoted o c X) - 2) (drop 1 (quoted o c X)) = X.
Proof.
  intros Hin. unfold isQuotePair, quoted.
  assert (length (o :: X ++ [c]) = S (S (length X))) as Hl
    by (simpl; rewrite length_app; simpl; lia).
  rewrite Hl. split.
  - rewrite bool_decide_true by lia. simpl.
    replace (length X - 0)%nat with (length X) by lia.
    change (byteIs (o :: X ++ [c]) (S (length X)))
      with (byteIs (X ++ [c]) (length X)).
    rewrite !byteIs_head, !byteIs_last.
    set_unfold in Hin.
    destruct Hin as [[= -> ->]|[[= -> ->]|[[= -> ->]|[]]]]; done.
  - simpl. rewrite Nat.sub_0_r, drop_0, take_app_length. done.
Qed.

Lemma normalizeColAscii_quoted (o c : ascii) (X : gostring) :
  (o, c) ∈ [(dquote, dquote); ("`"%char, "`"%char); ("["%char, "]"%char)] ->
  normalizeColAscii (quoted o c X) = toLowerAscii X.
Proof.
  intros Hin. rewrite normalizeColAscii_spec.
  by destruct (isQuotePair_quoted o c X Hin) as [-> ->].
Qed.

(** A scan reads the column labels through [normalizeColAscii] only. *)
Lemma scanWithMapper_normalized conv (m : Mapper) (rt : gotype)
    (cols cols' : list gostring) (vals : list value) :
  normalizeColAscii <$> cols = normalizeColAscii <$> cols' ->
  scanWithMapper conv m rt {| Columns := Some cols; Values := vals |}
  = scanWithMapper conv m rt {| Columns := Some cols'; Values := vals |}.
Proof.
  intros H. unfold scanWithMapper. simpl.
  assert (length cols = length cols') as ->
    by (rewrite <- (length_fmap normalizeColAscii cols), H, length_fmap; done).
  by rewrite H.
Qed.

(** C5 (as amended): [normalizeColAscii] lower-cases the label without its
    quote pair when it has one (both ends matching, at least two bytes)
    and the label itself otherwise, changing the letters A-Z only.  So for
    a label [X] that is not itself wrapped in a quote pair, the labels
    X, "X", `X` and [X] all normalise to [toLowerAscii X], and a scan
    gives the same result whichever of them names the column. *)
Theorem C5_normalize_quoted_forms (X : gostring) :
  isQuotePair X = false ->
  (forall s, normalizeColAscii s =
             toLowerAscii (if isQuotePair s
                           then take (length s - 2) (drop 1 s) else s))
  ∧ (forall s, toLowerAscii s = lowerByte <$> s)
  ∧ (forall c, isUpperByte c = false -> lowerByte c = c)
  ∧ (forall l, l ∈ [X; quoted dquote dquote X; quoted "`" "`" X; quoted "[" "]" X] ->
       normalizeColAscii l = toLowerAscii X)
  ∧ (forall conv m rt pre post vals l l',
       l ∈ [X; quoted dquote dquote X; quoted "`" "`" X; quoted "[" "]" X] ->
       l' ∈ [X; quoted dquote dquote X; quoted "`" "`" X; quoted "[" "]" X] ->
       scanWithMapper conv m rt {| Columns := Some (pre ++ l :: post); Values := vals |}
       = scanWithMapper conv m rt {| Columns := Some (pre ++ l' :: post); Values := vals |}).
Proof.
  intros HX.
  assert (forall l, l ∈ [X; quoted dquote dquote X; quoted "`" "`" X; quoted "[" "]" X] ->
            normalizeColAscii l = toLowerAscii X) as Hfour.
  { intros l Hl. set_unfold in Hl.
    destruct Hl as [->|[->|[->|[->|[]]]]].
    - by rewrite normalizeColAscii_spec, HX.
    - apply normalizeColAscii_quoted. set_solver.
    - apply normalizeColAscii_quoted. set_solver.
    - apply normalizeColAscii_quoted. set_solver. }
  split; [apply normalizeColAscii_spec|].
  split; [apply toLowerAscii_map|].
  split; [apply lowerByte_other|].
  split; [exact Hfour|].
  intros conv m rt pre post vals l l' Hl Hl'.
  apply scanWithMapper_normalized.
  by rewrite !fmap_app, !fmap_cons, (Hfour l Hl), (Hfour l' Hl').
Qed.

Lemma C5_normalize_quoted_forms_witness :
  isQuotePair (str "Name") = false
  ∧ normalizeColAscii (quoted "[" "]" (str "Name")) = str "name".
Proof.
  split; [reflexivity|].
  apply (C5_normalize_quoted_forms (str "Name")); [reflexivity|].
  set_solver.
Defined.

(** C5, the claim as stated fails for a label that is itself wrapped in
    a quote pair: [[a]] normalises to [a], and ["[a]"] to [[a]]. *)
Lemma C5_counterexample_wrapped_label :
  normalizeColAscii (str "[a]") = str "a"
  ∧ normalizeColAscii (quoted dquote dquote (str "[a]")) = str "[a]"
  ∧ normalizeColAscii (str "[a]") <> toLowerAscii (str "[a]").
Proof. split; [reflexivity|]. split; [reflexivity|]. discriminate. Qed.

(** ** Identity of types and the plan cache *)

Lemma reflect_eqb_eq (a b : reflect.Kind) : reflect.eqb a b = true <-> a = b.
Proof. split; [by destruct a, b|intros ->; by destruct b]. Qed.

Lemma gotype_eqb_eq (a b : gotype) : gotype_eqb a b = true -> a = b.
Proof.
  revert b. induction a as [k|n u s IHu|e IHe|e IHe|n e IHe|k e IHk IHe|fs IHfs|]
    using gotype_fields_ind; intros [] H; simpl in H; try discriminate.
  - by apply reflect_eqb_eq in H as ->.
  - apply andb_true_iff in H as [H Hs]. apply andb_true_iff in H as [Hn Hu].
    apply bool_decide_eq_true in Hn as ->. apply bool_decide_eq_true in Hs as ->.
    by rewrite (IHu _ Hu).
  - by rewrite (IHe _ H).
  - by rewrite (IHe _ H).
  - apply andb_true_iff in H as [Hn He].
    apply bool_decide_eq_true in Hn as ->. by rewrite (IHe _ He).
  - apply andb_true_iff in H as [Hk He]. by rewrite (IHk _ Hk), (IHe _ He).
  - f_equal. revert fields H.
    induction IHfs as [|[f t] r IHt _ IHr]; intros [|[f' t'] r'] H;
      try done.
    apply andb_true_iff in H as [H Hr]. apply andb_true_iff in H as [Hf Ht].
    apply bool_decide_eq_true in Hf as ->. simpl in IHt.
    by rewrite (IHt _ Ht), (IHr _ Hr).
  - done.
Qed.

Lemma gotype_eqb_refl (a : gotype) : gotype_eqb a a = true.
Proof.
  induction a as [k|n u s IHu|e IHe|e IHe|n e IHe|k e IHk IHe|fs IHfs|]
    using gotype_fields_ind; simpl; rewrite ?bool_decide_true by done;
    rewrite ?IHu, ?IHe, ?IHk; try done.
  - by apply reflect_eqb_eq.
  - induction IHfs as [|[f t] r IHt _ IHr]; [done|].
    simpl in IHt. by rewrite bool_decide_true, IHt, IHr by done.
Qed.

Lemma planKey_eqb_eq (a b : planKey) : planKey_eqb a b = true -> a = b.
Proof.
  destruct a as [t h n], b as [t' h' n']. unfold planKey_eqb. simpl.
  intros H. apply andb_true_iff in H as [H Hn]. apply andb_true_iff in H as [Ht Hh].
  apply gotype_eqb_eq in Ht as ->. apply Z.eqb_eq in Hh as ->.
  by apply bool_decide_eq_true in Hn as ->.
Qed.

Lemma load_Some {K V} (eqb : K -> K -> bool) (cache : list (K * V)) k v :
  (forall a b, eqb a b = true -> a = b) ->
  load eqb cache k = Some v -> (k, v) ∈ cache.
Proof.
  intros Heq. induction cache as [|[k' v'] rest IH]; simpl; [done|].
  destruct (eqb k' k) eqn:E.
  - intros [= ->]. apply Heq in E as ->. left.
  - intros H. right. by apply IH.
Qed.

(** ** Column counts (C6) *)

Lemma structIndex_planCache (m : Mapper) (rt : gotype) :
  planCache (structIndex m rt).1 = planCache m.
Proof. unfold structIndex. by destruct (loadIndex m rt). Qed.

Lemma getPlan_planCache (m m' : Mapper) rt cols h r k p :
  getPlan m rt cols h = Returns (m', r) ->
  (k, p) ∈ planCache m' ->
  (k, p) ∈ planCache m
  \/ (k = {| key_rt := rt; key_hash := h; key_ncols := length cols |}
      /\ (isStruct rt = false -> length cols = 1%nat /\ p = scalarPlan rt)).
Proof.
  unfold getPlan. destruct (loadPlan m _); [by intros [= <- <-]; left|].
  destruct (isStruct rt) eqn:Es.
  - pose proof (structIndex_planCache m rt) as Hc.
    destruct (structIndex m rt) as [m1 fi]. simpl in Hc.
    destruct (fieldSteps rt fi cols); [|done].
    intros [= <- <-]. simpl. rewrite Hc. intros [[= -> ->]|?]%elem_of_cons.
    + right. by split.
    + by left.
  - destruct (implementsScanner rt) eqn:Ei;
      destruct (bool_decide (length cols = 1%nat)) eqn:El; simpl;
      try (by intros [= <- <-]; left);
      apply bool_decide_eq_true in El;
      intros [= <- <-]; simpl; intros [[= -> ->]|?]%elem_of_cons;
      (by left) || (right; split; [done|]; intros _; split; [done|];
                    unfold scalarPlan; by rewrite ?Es, ?Ei).
Qed.

Lemma reachable_scalarPlans (m : Mapper) :
  reachable m -> scalarPlansHaveOneColumn m.
Proof.
  induction 1 as [|m rt cols h m' r _ IH Hg|m rt _ IH]; intros k p Hin Hs.
  - by apply elem_of_nil in Hin.
  - destruct (getPlan_planCache _ _ _ _ _ _ _ _ Hg Hin) as [?|[-> Hone]].
    + by apply (IH k p).
    + simpl in *. by apply Hone.
  - rewrite structIndex_planCache in Hin. by apply (IH k p).
Qed.

(** C6: with no column, the scan fails with the zero-columns error
    whatever the destination type; into a type that is no struct, more
    than one column fails with a column-count error of [getPlan]. *)
Theorem C6_column_count_errors conv (m : Mapper) (rt : gotype)
    (cols : list gostring) (vals : list value) :
  reachable m ->
  scanWithMapper conv m rt {| Columns := Some []; Values := vals |}
  = Returns (m, (zeroValue rt, Some ErrZeroColumns))
  ∧ (isStruct rt = false -> (1 < length cols)%nat ->
     exists e,
       isColumnCountMismatch rt (length cols) e
       ∧ scanWithMapper conv m rt {| Columns := Some cols; Values := vals |}
         = Returns (m, (zeroValue rt, Some e))).
Proof.
  intros Hm. split; [done|]. intros Hs Hlen.
  unfold scanWithMapper. simpl.
  rewrite bool_decide_false by lia.
  unfold getPlan. rewrite length_fmap.
  destruct (loadPlan m _) as [p|] eqn:Hload.
  { apply (load_Some planKey_eqb _ _ _ planKey_eqb_eq) in Hload.
    pose proof (reachable_scalarPlans m Hm _ _ Hload Hs) as [Hone _].
    simpl in Hone. lia. }
  rewrite Hs, bool_decide_false by lia. simpl.
  destruct (implementsScanner rt); simpl.
  - exists (ErrScannerColumns rt (length cols)). split; [by left|done].
  - exists (ErrCannotMap (length cols) rt). split; [by right|done].
Qed.

(** The scenario of the specification: two columns into [int64]. *)
Lemma C6_column_count_errors_witness :
  exists e,
    isColumnCountMismatch tInt64 2 e
    ∧ scanWithMapper (fun _ src => Some src) NewMapper tInt64
        {| Columns := Some [str "a"; str "b"];
           Values := [VInt tInt64 1; VInt tInt64 2] |}
      = Returns (NewMapper, (zeroValue tInt64, Some e)).
Proof.
  apply (C6_column_count_errors (fun _ src => Some src) NewMapper tInt64
           [str "a"; str "b"] [VInt tInt64 1; VInt tInt64 2] reach_new);
    [reflexivity|simpl; lia].
Defined.

(** ** Narrow integer destinations (C8) *)

Lemma wrapSigned_small (bits x : Z) :
  0 < bits -> - 2 ^ (bits - 1) <= x < 2 ^ (bits - 1) -> wrapSigned bits x = x.
Proof.
  intros Hb Hx. unfold wrapSigned.
  assert (2 ^ bits = 2 * 2 ^ (bits - 1)) as Hp.
  { rewrite <- Z.pow_succ_r by lia. f_equal. lia. }
  rewrite Z.mod_small by lia. lia.
Qed.

(** The plan of a non-struct type, from the cache or built. *)
Lemma getPlan_scalar (m : Mapper) (rt : gotype) (c : gostring) (h : Z) :
  reachable m -> isStruct rt = false ->
  exists m', getPlan m rt [c] h = Returns (m', inl (scalarPlan rt)).
Proof.
  intros Hm Hs. unfold getPlan.
  destruct (loadPlan m _) as [p|] eqn:Hload.
  - apply (load_Some planKey_eqb _ _ _ planKey_eqb_eq) in Hload.
    destruct (reachable_scalarPlans m Hm _ _ Hload Hs) as [_ ->]. by eexists.
  - rewrite Hs. unfold scalarPlan.
    destruct (implementsScanner rt); simpl; by eexists.
Qed.

(** C8: a 64-bit integer scanned into an [int32] destination goes through
    a temporary of type [int64], which [cleanup] narrows with [SetInt]:
    the destination receives [int32(x)], which is [x] itself for every
    [x] that an [int32] holds, 7 among them. *)
Theorem C8_int64_into_int32 conv (m : Mapper) (col : gostring) (x : Z) :
  reachable m ->
  conv (zeroValue tInt64) (VInt tInt64 x) = Some (VInt tInt64 x) ->
  makeWholeStep tInt32
  = {| kind := stepIndirect; fpath := []; convTo := Some tInt64;
       post := Some PostSetInt |}
  ∧ (exists m',
       scanWithMapper conv m tInt32
         {| Columns := Some [col]; Values := [VInt tInt64 x] |}
       = Returns (m', (VInt tInt32 (wrapSigned 32 x), None)))
  ∧ (- 2 ^ 31 <= x < 2 ^ 31 -> wrapSigned 32 x = x).
Proof.
  intros Hm Hconv. split; [done|]. split.
  - unfold scanWithMapper. simpl.
    destruct (getPlan_scalar m tInt32 (normalizeColAscii col)
                (hashColumns [normalizeColAscii col]) Hm eq_refl) as [m' ->].
    exists m'. simpl. rewrite lookup_singleton_eq. simpl.
    rewrite Hconv. simpl. rewrite lookup_insert_eq. done.
  - intros Hx. by apply wrapSigned_small.
Qed.

Lemma C8_int64_into_int32_witness :
  exists m',
    scanWithMapper scanSameType NewMapper tInt32
      {| Columns := Some [str "n"]; Values := [VInt tInt64 7] |}
    = Returns (m', (VInt tInt32 7, None)).
Proof.
  destruct (C8_int64_into_int32 scanSameType NewMapper (str "n") 7 reach_new)
    as (_ & [m' H] & Hsmall); [reflexivity|].
  exists m'. rewrite H. rewrite Hsmall; [reflexivity|lia].
Defined.

(** ** Embedded pointers in the parameter lookup (C9) *)

(** C9: with a non-nil embedded [*E] the fields of [E] are flattened into
    the lookup.  With a nil one the keys of [E] are left out, but the loop
    does not go on to the next field: it registers the embedded field
    itself under its lower-cased name.  So the same struct type can be
    bound with a non-nil pointer and fail with a duplicate key with a nil
    one, and a nil pointer to an unexported embedded type panics. *)
Theorem C9_nil_embedded_pointer_is_registered :
  lookupKeys (buildParamLookup asciiTables
     (VStruct tOuterPtr [VPtr (TPtr tE) (Some (VStruct tE [VInt tInt 7])); VInt tInt 42]))
  = Returns ([(str "z", VInt tInt 7); (str "y", VInt tInt 42)], None)
  ∧ lookupKeys (buildParamLookup asciiTables
       (VStruct tOuterPtr [VPtr (TPtr tE) None; VInt tInt 99]))
    = Returns ([(str "y", VInt tInt 99); (str "e", VPtr (TPtr tE) None)], None)
  ∧ lookupKeys (buildParamLookup asciiTables
       (VStruct tClash [VPtr (TPtr tE) (Some (VStruct tE [VInt tInt 7])); VInt tInt 1]))
    = Returns ([(str "z", VInt tInt 7); (str "e", VInt tInt 1)], None)
  ∧ buildParamLookup asciiTables (VStruct tClash [VPtr (TPtr tE) None; VInt tInt 1])
    = Returns (∅, Some (ErrDuplicateKeyTag (str "e")))
  ∧ buildParamLookup asciiTables
      (VStruct tOuterHidden [VPtr (TPtr tHidden) None; VInt tInt 1])
    = Panics.
Proof. repeat split; vm_compute; reflexivity. Qed.

(** ** Bytes and runes *)

Lemma byteZ_range (c : ascii) : 0 <= byteZ c < 256.
Proof.
  unfold byteZ. pose proof (N_ascii_bounded c) as H. lia.
Qed.

Lemma byteZ_inj (c d : ascii) : byteZ c = byteZ d -> c = d.
Proof.
  unfold byteZ. intros H. apply N2Z.inj in H.
  by rewrite <- (ascii_N_embedding c), <- (ascii_N_embedding d), H.
Qed.

Lemma lor_ge_l (a b : Z) : 0 <= a -> 0 <= b -> a <= Z.lor a b.
Proof.
  intros Ha Hb. pose proof (Z.add_lor_land a b) as H.
  assert (Z.land a b <= b); [|lia].
  rewrite <- (Z2N.id a), <- (Z2N.id b) by done.
  rewrite <- N2Z.inj_land. apply N2Z.inj_le, N.land_le_r.
Qed.

Lemma land_mask_small (a m : Z) : 0 <= a -> 0 <= m -> 0 <= Z.land a m.
Proof. intros. apply Z.land_nonneg. by left. Qed.

(** What a leading byte of a multi-byte sequence contributes. *)
Lemma lead2_ge (s0 : Z) : 0xC2 <= s0 < 0xE0 -> 2 <= Z.land s0 mask2.
Proof.
  intros H. change mask2 with (Z.ones 5). rewrite Z.land_ones by lia.
  change (2 ^ 5) with 32. Z.to_euclidean_division_equations. lia.
Qed.

Lemma lead3_ge (s0 : Z) : 0xE1 <= s0 < 0xF0 -> 1 <= Z.land s0 mask3.
Proof.
  intros H. change mask3 with (Z.ones 4). rewrite Z.land_ones by lia.
  change (2 ^ 4) with 16. Z.to_euclidean_division_equations. lia.
Qed.

Lemma lead4_ge (s0 : Z) : 0xF1 <= s0 < 0xF5 -> 1 <= Z.land s0 mask4.
Proof.
  intros H. change mask4 with (Z.ones 3). rewrite Z.land_ones by lia.
  change (2 ^ 3) with 8. Z.to_euclidean_division_equations. lia.
Qed.

Lemma cont_ge (lo s1 : Z) : lo <= s1 < 0xC0 -> 0x80 <= lo -> lo - 0x80 <= Z.land s1 maskx.
Proof.
  intros H Hlo. change maskx with (Z.ones 6). rewrite Z.land_ones by lia.
  change (2 ^ 6) with 64. Z.to_euclidean_division_equations. lia.
Qed.

Lemma lor_ge (c a b : Z) :
  0 <= a -> 0 <= b -> c <= a \/ c <= b -> c <= Z.lor a b.
Proof.
  intros Ha Hb [H|H].
  - pose proof (lor_ge_l a b Ha Hb). lia.
  - rewrite Z.lor_comm. pose proof (lor_ge_l b a Hb Ha). lia.
Qed.

Lemma first_cases (b : Z) :
  0 <= b < 256 ->
  (b < 0x80 /\ first b = FAscii)
  \/ (0x80 <= b /\ first b = FInvalid)
  \/ (0x80 <= b /\ exists sz lo hi, first b = FLead sz lo hi /\ leadFacts sz lo hi b).
Proof.
  intros Hb. unfold first, leadFacts, locb, hicb.
  repeat (match goal with
          | |- context [?x <? ?y] => destruct (Z.ltb_spec x y)
          | |- context [?x =? ?y] => destruct (Z.eqb_spec x y)
          end); try (left; split; [lia|done]);
    try (right; left; split; [lia|done]);
    right; right; (split; [lia|]); do 3 eexists; (split; [done|]);
    (split; [lia|]); (split; [lia|]).
  all: try (left; split; [done|]; apply lead2_ge; lia).
  all: try (right; left; split; [done|]; right; lia).
  all: try (right; left; split; [done|]; left; apply lead3_ge; lia).
  all: try (right; right; split; [done|]; right; lia).
  all: try (right; right; split; [done|]; left; apply lead4_ge; lia).
Qed.

(** [utf8.DecodeRuneInString] on a non-empty string: the width is within
    the string; an ASCII byte is its own rune; a byte from 0x80 on gives
    a rune from 0x80 on, made of bytes from 0x80 on. *)
Lemma DecodeRune_spec (c0 : ascii) (t : gostring) :
  (1 <= (DecodeRuneInString (c0 :: t)).2 <= length (c0 :: t))%nat
  /\ (byteZ c0 < 0x80 -> DecodeRuneInString (c0 :: t) = (byteZ c0, 1%nat))
  /\ (0x80 <= byteZ c0 ->
      0x80 <= (DecodeRuneInString (c0 :: t)).1
      /\ Forall (fun c => 0x80 <= byteZ c)
                (take (DecodeRuneInString (c0 :: t)).2 (c0 :: t))).
Proof.
  pose proof (byteZ_range c0) as H0.
  unfold DecodeRuneInString.
  destruct (first_cases (byteZ c0) H0)
    as [[Hlt ->]|[[Hge ->]|[Hge (sz & lo & hi & -> & Hlo & Hhi & Hsz)]]].
  - simpl. split; [lia|]. split; [done|lia].
  - simpl. split; [lia|]. split; [lia|]. intros _. split; [done|].
    by repeat constructor.
  - assert (forall r : Z, (r = RuneError -> 0x80 <= r)) as HRE by (intros ? ->; done).
    assert (Forall (fun c => 0x80 <= byteZ c) (take 1 (c0 :: t))) as H1
      by (by repeat constructor).
    case_bool_decide as Hlen; [simpl; split; [lia|]; split; [lia|]; by intros _|].
    destruct t as [|c1 t1]; [simpl; split; [lia|]; split; [lia|]; by intros _|].
    pose proof (byteZ_range c1) as Hc1.
    unfold contByte.
    destruct (Z.leb_spec lo (byteZ c1)); simpl;
      [|split; [lia|]; split; [lia|]; by intros _].
    destruct (Z.leb_spec (byteZ c1) hi); simpl;
      [|split; [lia|]; split; [lia|]; by intros _].
    assert (0 <= Z.land (byteZ c0) mask2 /\ 0 <= Z.land (byteZ c0) mask3
            /\ 0 <= Z.land (byteZ c0) mask4 /\ 0 <= Z.land (byteZ c1) maskx)
      as (Hm2 & Hm3 & Hm4 & Hx1)
      by (repeat split; apply Z.land_nonneg; left; lia).
    pose proof (cont_ge lo (byteZ c1) ltac:(lia) Hlo) as Hc1x.
    case_bool_decide as Hsz2.
    { simpl. split; [simpl in *; lia|]. split; [lia|]. intros _. split.
      - destruct Hsz as [[_ Hl2]|[[-> _]|[-> _]]]; [|lia|lia].
        apply lor_ge; [rewrite Z.shiftl_mul_pow2 by lia; lia|lia|].
        left. rewrite Z.shiftl_mul_pow2 by lia. lia.
      - repeat constructor; lia. }
    destruct t1 as [|c2 t2]; [simpl; split; [lia|]; split; [lia|]; by intros _|].
    pose proof (byteZ_range c2) as Hc2.
    unfold locb, hicb in *.
    destruct (Z.leb_spec 0x80 (byteZ c2)); simpl;
      [|split; [lia|]; split; [lia|]; by intros _].
    destruct (Z.leb_spec (byteZ c2) 0xBF); simpl;
      [|split; [lia|]; split; [lia|]; by intros _].
    assert (0 <= Z.land (byteZ c2) maskx) as Hx2
      by (apply Z.land_nonneg; left; lia).
    case_bool_decide as Hsz3.
    { simpl. split; [simpl in *; lia|]. split; [lia|]. intros _. split.
      - destruct Hsz as [[-> _]|[[_ Hl3]|[-> _]]]; [lia| |lia].
        apply lor_ge; [|lia|left].
        + apply Z.lor_nonneg. split; rewrite Z.shiftl_mul_pow2 by lia; lia.
        + apply lor_ge; [rewrite Z.shiftl_mul_pow2 by lia; lia
                        |rewrite Z.shiftl_mul_pow2 by lia; lia|].
          rewrite !Z.shiftl_mul_pow2 by lia. destruct Hl3; [left|right]; lia.
      - repeat constructor; lia. }
    destruct t2 as [|c3 t3]; [simpl; split; [lia|]; split; [lia|]; by intros _|].
    pose proof (byteZ_range c3) as Hc3.
    destruct (Z.leb_spec 0x80 (byteZ c3)); simpl;
      [|split; [lia|]; split; [lia|]; by intros _].
    destruct (Z.leb_spec (byteZ c3) 0xBF); simpl;
      [|split; [lia|]; split; [lia|]; by intros _].
    assert (0 <= Z.land (byteZ c3) maskx) as Hx3
      by (apply Z.land_nonneg; left; lia).
    split; [simpl; lia|]. split; [lia|]. intros _. split.
    + destruct Hsz as [[-> _]|[[-> _]|[_ Hl4]]]; [lia|lia|].
      apply lor_ge; [|lia|left].
      { repeat (apply Z.lor_nonneg; split); rewrite Z.shiftl_mul_pow2 by lia; lia. }
      apply lor_ge; [|rewrite Z.shiftl_mul_pow2 by lia; lia|left].
      { repeat (apply Z.lor_nonneg; split); rewrite Z.shiftl_mul_pow2 by lia; lia. }
      apply lor_ge; [rewrite Z.shiftl_mul_pow2 by lia; lia
                    |rewrite Z.shiftl_mul_pow2 by lia; lia|].
      rewrite !Z.shiftl_mul_pow2 by lia. destruct Hl4; [left|right]; lia.
    + repeat constructor; lia.
Qed.

(** ** The skippers stay inside the string *)

Lemma DecodeRune_drop (s : gostring) (i : nat) :
  (i < length s)%nat ->
  (1 <= (DecodeRuneInString (drop i s)).2 /\ i + (DecodeRuneInString (drop i s)).2 <= length s)%nat.
Proof.
  intros Hi. destruct (drop i s) as [|c0 t] eqn:E.
  { apply (f_equal length) in E. rewrite length_drop in E. simpl in E. lia. }
  destruct (DecodeRune_spec c0 t) as [Hw _].
  assert (length (c0 :: t) = (length s - i)%nat) as Hl
    by (rewrite <- E, length_drop; done).
  lia.
Qed.

Lemma skipQuoted_loop_bounds q e fuel s i j :
  skipQuoted_loop q e fuel s i = (j, None) -> (i < j <= length s)%nat.
Proof.
  revert i. induction fuel as [|fuel IH]; intros i; simpl; [done|].
  case_bool_decide as Hi; [|done].
  pose proof (DecodeRune_drop s i Hi) as [Hw1 Hw2].
  destruct (DecodeRuneInString (drop i s)) as [r w]. simpl in *.
  destruct (r =? rune q).
  - destruct (bool_decide (i + w < length s)%nat && byteIs s (i + w) q) eqn:Eq.
    + apply andb_true_iff in Eq as [Hlt%bool_decide_eq_true _].
      intros H%IH. lia.
    + intros [= <-]. lia.
  - intros H%IH. lia.
Qed.

Lemma skipLineComment_loop_bounds fuel s i :
  (i <= length s)%nat ->
  (i <= skipLineComment_loop fuel s i <= length s)%nat.
Proof.
  revert i. induction fuel as [|fuel IH]; intros i Hi; simpl; [lia|].
  case_bool_decide as Hlt; [|lia].
  destruct (byteIs s i "010"); [lia|].
  specialize (IH (i + 1)%nat ltac:(lia)). lia.
Qed.

Lemma skipBlockComment_loop_bounds fuel s i j :
  skipBlockComment_loop fuel s i = (j, None) -> (i + 2 <= j <= length s)%nat.
Proof.
  revert i. induction fuel as [|fuel IH]; intros i; simpl; [done|].
  case_bool_decide as Hi; [|done].
  destruct (byteIs s i "*" && byteIs s (i + 1) "/").
  - intros [= <-]. lia.
  - intros H%IH. lia.
Qed.

Lemma hasPrefix_length (s p : gostring) :
  hasPrefix s p = true -> (length p <= length s)%nat.
Proof.
  unfold hasPrefix. intros [H _]%andb_true_iff. by apply bool_decide_eq_true in H.
Qed.

Lemma hasPrefix_app (s p : gostring) :
  hasPrefix s p = true <-> exists t, s = p ++ t.
Proof.
  unfold hasPrefix. rewrite andb_true_iff, !bool_decide_eq_true. split.
  - intros [Hl Ht]. exists (drop (length p) s).
    by rewrite <- Ht at 1; rewrite take_drop.
  - intros [t ->]. rewrite length_app, take_app_length. split; [lia|done].
Qed.

Lemma strings_Index_bounds (s sub : gostring) idx :
  strings_Index s sub = Some idx -> (idx + length sub <= length s)%nat.
Proof.
  revert idx. induction s as [|c s IH]; intros idx; simpl.
  - destruct (hasPrefix [] sub) eqn:E; [|done].
    intros [= <-]. apply hasPrefix_length in E. simpl in *. lia.
  - destruct (hasPrefix (c :: s) sub) eqn:E.
    + intros [= <-]. apply hasPrefix_length in E. simpl in *. lia.
    + destruct (strings_Index s sub) as [k|]; [|done].
      simpl. intros [= <-]. specialize (IH k eq_refl). simpl. lia.
Qed.

Lemma tagEnd_loop_ge fuel s j : (j <= tagEnd_loop fuel s j)%nat.
Proof.
  revert j. induction fuel as [|fuel IH]; intros j; simpl; [lia|].
  destruct (s !! j) as [c|]; [|lia].
  destruct (negb (bool_decide (c = "$"%char)) && isTagByte c); [|lia].
  specialize (IH (j + 1)%nat). lia.
Qed.

Lemma skipDollarQuoted_bounds s i j :
  skipDollarQuoted s i = (j, true, None) -> (i + 2 <= j <= length s)%nat.
Proof.
  unfold skipDollarQuoted.
  destruct (byteIs s i "$"); simpl; [|done].
  pose proof (tagEnd_loop_ge (length s) s (i + 1)) as Hj.
  set (k := tagEnd_loop (length s) s (i + 1)) in *.
  destruct (bool_decide (length s ≤ k)%nat || negb (byteIs s k "$")) eqn:E; [done|].
  apply orb_false_iff in E as [Hk%bool_decide_eq_false _].
  destruct (strings_Index _ _) as [idx|] eqn:Eidx; [|done].
  intros [= <-]. apply strings_Index_bounds in Eidx.
  rewrite length_drop, length_take, length_drop in Eidx.
  rewrite length_take, length_drop. lia.
Qed.

Lemma parseIdent_loop_bounds U fuel s i :
  (i <= length s)%nat -> (i <= parseIdent_loop U fuel s i <= length s)%nat.
Proof.
  revert i. induction fuel as [|fuel IH]; intros i Hi; simpl; [lia|].
  case_bool_decide as Hlt; [|lia].
  pose proof (DecodeRune_drop s i Hlt) as [Hw1 Hw2].
  destruct (DecodeRuneInString (drop i s)) as [r w]. simpl in *.
  destruct (negb (isIdentRune U r)); [lia|].
  specialize (IH (i + w)%nat ltac:(lia)). lia.
Qed.

Lemma parseIdent_spec U s i nm e :
  parseIdent U s i = (nm, e) -> (i <= length s)%nat ->
  (i <= e <= length s)%nat
  /\ nm = take (e - i) (drop i s)
  /\ (nm <> [] -> (i < e)%nat).
Proof.
  unfold parseIdent. intros H Hi.
  pose proof (parseIdent_loop_bounds U (length s) s i Hi) as Hb.
  case_bool_decide as He; injection H as <- <-.
  - rewrite He, Nat.sub_diag. by split; [lia|].
  - split; [lia|]. split; [done|]. lia.
Qed.

(** An iteration of the extractor that goes on moves forward inside the
    query, and adds at most the token that starts where it stood. *)
Lemma findNamedParams_body_progress U q i out j out' :
  findNamedParams_body U q i out = Continue (j, out') ->
  (i < j <= length q)%nat
  /\ (out' = out
      \/ exists nm, nm <> [] /\ nm = take (j - (i + 1)) (drop (i + 1) q)
                    /\ out' = out ++ [{| name := nm; start := i; end_ := j |}]).
Proof.
  unfold findNamedParams_body.
  case_bool_decide as Hi; [|done].
  pose proof (DecodeRune_drop q i Hi) as [Hw1 Hw2].
  destruct (DecodeRuneInString (drop i q)) as [r w]. simpl in *.
  set (G := (i < j <= length q)%nat /\ _).
  assert (forall res : nat * option bindError,
            (forall k, res = (k, None) -> (i < k <= length q)%nat) ->
            match res with
            | (_, Some err) =>
              Break ([], Some err)
              : loopStep (nat * list nameToken) (list nameToken * option bindError)
            | (k, None) => Continue (k, out)
            end = Continue (j, out') -> G) as Hskipped.
  { intros [k [err|]] Hk; [done|]. intros [= <- <-].
    split; [by apply Hk|by left]. }
  subst G.
  repeat match goal with
         | |- context [if ?b then _ else _] => destruct b eqn:?
         end.
  - apply Hskipped. intros k Hk%skipQuoted_loop_bounds. lia.
  - apply Hskipped. intros k Hk%skipQuoted_loop_bounds. lia.
  - apply Hskipped. intros k Hk%skipQuoted_loop_bounds. lia.
  - intros [= <- <-]. split; [|by left].
    match goal with H : _ && hasPrefix _ _ = true |- _ =>
      apply andb_true_iff in H as [_ Hp%hasPrefix_length] end.
    rewrite length_drop in Hp. simpl in Hp.
    pose proof (skipLineComment_loop_bounds (length q) q (i + 2) ltac:(lia)).
    unfold skipLineComment. lia.
  - apply Hskipped. intros k Hk%skipBlockComment_loop_bounds. lia.
  - destruct (skipDollarQuoted q i) as [[k [|]] [err|]] eqn:Ed; try done;
      intros [= <- <-]; (split; [|by left]).
    + apply skipDollarQuoted_bounds in Ed. lia.
    + lia.
  - intros [= <- <-]. split; [|by left].
    match goal with H : hasPrefix _ _ = true |- _ =>
      apply hasPrefix_length in H; rewrite length_drop in H; simpl in H end.
    lia.
  - destruct (parseIdent U q (i + 1)) as [nm e] eqn:Ep.
    apply parseIdent_spec in Ep as (Hb & Hnm & Hne); [|lia].
    case_bool_decide as Hn; simpl.
    + intros [= <- <-]. split; [lia|by left].
    + intros [= <- <-]. specialize (Hne Hn). split; [lia|].
      right. exists nm. by subst.
  - intros [= <- <-]. split; [lia|by left].
Qed.

(** ** The extractor's loop *)

Lemma findNamedParams_body_end U q i out :
  (length q <= i)%nat -> findNamedParams_body U q i out = Break (out, None).
Proof.
  intros Hi. unfold findNamedParams_body. by rewrite bool_decide_false by lia.
Qed.

(** The budget [len(query)] of the loop is never used up: any budget that
    covers the bytes left gives the same result. *)
Lemma findNamedParams_loop_fuel U q f1 f2 i out :
  (length q - i <= f1)%nat -> (length q - i <= f2)%nat ->
  findNamedParams_loop U f1 q i out = findNamedParams_loop U f2 q i out.
Proof.
  revert f2 i out. induction f1 as [|f1 IH]; intros [|f2] i out H1 H2; simpl; try done.
  - by rewrite findNamedParams_body_end by lia.
  - by rewrite findNamedParams_body_end by lia.
  - destruct (findNamedParams_body U q i out) as [[j out']|res] eqn:Eb; [|done].
    apply findNamedParams_body_progress in Eb as [Hj _].
    apply IH; lia.
Qed.

Lemma findNamedParams_loop_unfold U q f i out :
  (length q - i <= f)%nat ->
  findNamedParams_loop U f q i out
  = match findNamedParams_body U q i out with
    | Continue (j, out') => findNamedParams_loop U f q j out'
    | Break res => res
    end.
Proof.
  intros Hf. rewrite (findNamedParams_loop_fuel U q f (S f)) by lia. simpl.
  done.
Qed.

Lemma extractorAt_loop U q i out :
  extractorAt U q i out ->
  findNamedParams U q = findNamedParams_loop U (length q) q i out.
Proof.
  induction 1 as [|i out j out' _ IH Hb]; [done|].
  rewrite IH, findNamedParams_loop_unfold by lia. by rewrite Hb.
Qed.

Lemma tokensBetween_le q lo hi toks :
  tokensBetween q lo hi toks -> (lo <= hi)%nat.
Proof.
  revert lo. induction toks as [|t r IH]; intros lo; simpl; [done|].
  intros (? & ? & _ & H%IH). lia.
Qed.

Lemma tokensBetween_weaken q lo hi hi' toks :
  tokensBetween q lo hi toks -> (hi <= hi')%nat -> tokensBetween q lo hi' toks.
Proof.
  revert lo. induction toks as [|t r IH]; intros lo; simpl; [lia|].
  intros (? & ? & ? & H) Hh. repeat split; try done. by apply IH.
Qed.

Lemma tokensBetween_snoc q lo hi hi' toks t :
  tokensBetween q lo hi toks ->
  (hi <= start t)%nat -> (start t + 1 < end_ t)%nat -> (end_ t <= hi')%nat ->
  name t = take (end_ t - (start t + 1)) (drop (start t + 1) q) ->
  tokensBetween q lo hi' (toks ++ [t]).
Proof.
  revert lo. induction toks as [|t' r IH]; intros lo; simpl.
  - intros. repeat split; try done; lia.
  - intros (? & ? & ? & H) ? ? ? ?. repeat split; try done. by apply IH.
Qed.

Lemma extractorAt_tokens U q i out :
  extractorAt U q i out -> (i <= length q)%nat /\ tokensBetween q 0 i out.
Proof.
  induction 1 as [|i out j out' _ [IHi IH] Hb]; [simpl; split; lia|].
  apply findNamedParams_body_progress in Hb
    as [Hj [->|(nm & Hne & Hnm & ->)]].
  - split; [lia|]. apply (tokensBetween_weaken q 0 i); [done|lia].
  - split; [lia|]. apply (tokensBetween_snoc q 0 i); simpl; try done; try lia.
    assert (j - (i + 1) <> 0)%nat; [|lia].
    intros Hz. rewrite Hz in Hnm. by rewrite take_0 in Hnm.
Qed.

(** The loop is left at the end of the query, or with an error and no
    token. *)
Lemma findNamedParams_body_break U q i out res :
  findNamedParams_body U q i out = Break res ->
  (res = (out, None) /\ (length q <= i)%nat) \/ (exists e, res = ([], Some e)).
Proof.
  unfold findNamedParams_body.
  case_bool_decide as Hi; [|intros [= <-]; left; split; [done|lia]].
  destruct (DecodeRuneInString (drop i q)) as [r w].
  assert (forall r0 : nat * option bindError,
            match r0 with
            | (_, Some err) =>
              Break ([], Some err)
              : loopStep (nat * list nameToken) (list nameToken * option bindError)
            | (k, None) => Continue (k, out)
            end = Break res -> exists e, res = ([], Some e)) as Hskipped.
  { intros [k [err|]]; [|done]. intros [= <-]. by eexists. }
  repeat match goal with
         | |- context [if ?b then _ else _] => destruct b eqn:?
         end; try done; try (by intros H%Hskipped; right).
  - destruct (skipDollarQuoted q i) as [[k [|]] [err|]]; try done;
      intros [= <-]; right; by eexists.
  - destruct (parseIdent U q (i + 1)) as [nm e].
    by destruct (negb (bool_decide (nm = []))).
Qed.

Lemma findNamedParams_loop_result U q f i out toks :
  (length q - i <= f)%nat -> extractorAt U q i out ->
  findNamedParams_loop U f q i out = (toks, None) ->
  exists j, (length q <= j)%nat /\ extractorAt U q j toks.
Proof.
  revert i out. induction f as [|f IH]; intros i out Hf Hat; simpl.
  - intros [= <-]. exists i. split; [lia|done].
  - destruct (findNamedParams_body U q i out) as [[j out']|res] eqn:Eb.
    + pose proof (findNamedParams_body_progress _ _ _ _ _ _ Eb) as [Hj _].
      apply IH; [lia|]. by eapply extractor_step.
    + intros ->. apply findNamedParams_body_break in Eb as [[[= <-] Hi]|[e [=]]].
      by exists i.
Qed.

(** The tokens that [findNamedParams] returns lie in the query, in
    order and without overlap. *)
Lemma findNamedParams_tokens U q toks :
  findNamedParams U q = (toks, None) -> tokensBetween q 0 (length q) toks.
Proof.
  intros H. apply findNamedParams_loop_result in H as (j & Hj & Hat);
    [|lia|constructor].
  apply extractorAt_tokens in Hat as [Hle Ht].
  by replace (length q) with j by lia.
Qed.

(** ** What binding does with the tokens (C2, C7) *)

Lemma expandSeq_spec (i : nat) (xs : list value) (b : gostring) (args : list value) :
  expandSeq i xs b args
  = (b ++ (if bool_decide (0 < i)%nat
           then concat (replicate (length xs) (str ",?"))
           else placeholders (length xs)),
     args ++ xs).
Proof.
  revert i b args. induction xs as [|x xs IH]; intros i b args; simpl.
  - case_bool_decide; simpl; by rewrite !app_nil_r.
  - rewrite IH. rewrite (bool_decide_true (0 < S i)%nat) by lia.
    rewrite <- !app_assoc. f_equal.
    case_bool_decide; simpl; by rewrite <- ?app_assoc.
Qed.

Lemma slice_Some (q : gostring) (i j : nat) :
  (i <= j <= length q)%nat -> slice q i j = Some (take (j - i) (drop i q)).
Proof. intros H. unfold slice. by rewrite bool_decide_true. Qed.

(** The loop over the tokens: it cannot slice out of range on tokens in
    query order, and it gives every token its text and arguments. *)
Lemma bindTokens_spec (U : UnicodeTables) (q : gostring) (lut : gmap gostring value)
    (vals : nameToken -> value) (toks : list nameToken)
    (b : gostring) (args : list value) (last : nat) :
  tokensBetween q last (length q) toks ->
  Forall (fun t => lookup_ U lut (name t) = Some (vals t)) toks ->
  bindTokens U q lut toks b args last
  = Returns (b ++ render q vals toks last,
             args ++ flat_map (fun t => tokenArgs (vals t)) toks, None).
Proof.
  revert b args last. induction toks as [|t r IH]; intros b args last; simpl.
  - intros Hl _. rewrite slice_Some by lia.
    rewrite take_ge by (rewrite length_drop; lia). by rewrite app_nil_r.
  - intros (Hs & He & _ & Hr) Hall. inversion Hall as [|? ? Ht Hall']; subst.
    pose proof (tokensBetween_le _ _ _ _ Hr) as Hle.
    rewrite slice_Some by lia. rewrite Ht.
    unfold tokenText, tokenArgs.
    destruct (isSliceOrArray (vals t)).
    + case_bool_decide as Hn.
      * rewrite IH by done.
        destruct (elemsOf (vals t)); [|done]. simpl.
        by rewrite <- !app_assoc.
      * rewrite expandSeq_spec, bool_decide_false by lia.
        rewrite IH by done. by rewrite <- !app_assoc.
    + rewrite IH by done. by rewrite <- !app_assoc.
Qed.

Lemma bindNamedParams_spec (U : UnicodeTables) (q : gostring) (p : value)
    (lut : gmap gostring value) (vals : nameToken -> value)
    (toks : list nameToken) :
  looksBindable p = true ->
  findNamedParams U q = (toks, None) -> toks <> [] ->
  buildParamLookup U p = Returns (lut, None) ->
  Forall (fun t => lookup_ U lut (name t) = Some (vals t)) toks ->
  bindNamedParams U q p
  = Returns (render q vals toks 0,
             flat_map (fun t => tokenArgs (vals t)) toks, None).
Proof.
  intros Hp Hf Hne Hlut Hall. unfold bindNamedParams.
  assert (match p with VNil => False | _ => True end) as Hnil
    by (by destruct p).
  assert (length toks <> 0%nat) as Hlen by (by destruct toks).
  pose proof (findNamedParams_tokens U q toks Hf) as Htoks.
  destruct p; try done; rewrite Hf, bool_decide_false, Hlut by done; simpl;
    by rewrite (bindTokens_spec U q lut vals toks [] [] 0 Htoks Hall).
Qed.

Lemma Rebind_named (U : UnicodeTables) (fuel : nat) (q : gostring)
    (ph : Placeholder) (p : value) (text : gostring) (args : list value) :
  looksBindable p = true ->
  bindNamedParams U q p = Returns (text, args, None) ->
  Rebind U fuel q ph [p]
  = run_bind (rewritePlaceholders fuel text ph)
      (fun s => Returns (s, args, None)).
Proof. intros Hp Hb. unfold Rebind. by rewrite Hp, Hb. Qed.

(** C2 (as amended): in the named path every token resolves its name in
    the lookup again and contributes the arguments of its value at its
    place, left to right: the value itself when it is no sequence, so K
    uses of such a name give K entries, and the elements of a sequence
    (none when it is empty).  [Rebind] returns these arguments with the
    text that the rewriter makes of the bound query.  In the scenario of
    the specification the result is the one stated. *)
Theorem C2_each_use_binds_again (U : UnicodeTables) (fuel : nat)
    (q : gostring) (ph : Placeholder) (p : value)
    (lut : gmap gostring value) (vals : nameToken -> value)
    (toks : list nameToken) :
  looksBindable p = true ->
  findNamedParams U q = (toks, None) -> toks <> [] ->
  buildParamLookup U p = Returns (lut, None) ->
  Forall (fun t => lookup_ U lut (name t) = Some (vals t)) toks ->
  Rebind U fuel q ph [p]
  = run_bind (rewritePlaceholders fuel (render q vals toks 0) ph)
      (fun s => Returns (s, flat_map (fun t => tokenArgs (vals t)) toks, None))
  ∧ (Forall (fun t => isSliceOrArray (vals t) = false) toks ->
     flat_map (fun t => tokenArgs (vals t)) toks = vals <$> toks)
  ∧ Rebind asciiTables 64 scenarioQuery PlaceholderDollar [scenarioParams]
    = Returns (str "WHERE a=$1 OR b=$2 OR c IN ($3) OR d=$4",
               [VInt tInt 9; VInt tInt 9; VInt tInt 1; VInt tInt 9], None).
Proof.
  intros Hp Hf Hne Hlut Hall. split; [|split].
  - apply Rebind_named; [done|]. by apply (bindNamedParams_spec U q p lut).
  - clear. induction 1 as [|t r Ht _ IH]; [done|]. rewrite fmap_cons. simpl.
    unfold tokenArgs at 1. rewrite Ht. simpl. by f_equal.
  - vm_compute. reflexivity.
Qed.

Lemma C2_each_use_binds_again_witness :
  Rebind asciiTables 0 scenarioQuery PlaceholderQuestion [scenarioParams]
  = Returns (str "WHERE a=? OR b=? OR c IN (?) OR d=?",
             [VInt tInt 9; VInt tInt 9; VInt tInt 1; VInt tInt 9], None).
Proof.
  assert (looksBindable scenarioParams = true) as Hp by reflexivity.
  assert (findNamedParams asciiTables scenarioQuery = (scenarioTokens, None))
    as Hf by (vm_compute; reflexivity).
  assert (scenarioTokens <> []) as Hne by discriminate.
  assert (buildParamLookup asciiTables scenarioParams
          = Returns (scenarioLookup, None)) as Hlut by (vm_compute; reflexivity).
  assert (Forall (fun t => lookup_ asciiTables scenarioLookup (name t)
                           = Some (scenarioValues t)) scenarioTokens) as Hall
    by (repeat constructor).
  destruct (C2_each_use_binds_again asciiTables 0 scenarioQuery
              PlaceholderQuestion scenarioParams scenarioLookup
              scenarioValues scenarioTokens Hp Hf Hne Hlut Hall) as [H _].
  rewrite H. vm_compute. reflexivity.
Defined.

(** C2, the claim as stated fails for a name bound to a sequence: the
    two uses of [a], bound to [[]int{5, 6}], contribute four entries. *)
Lemma C2_counterexample_sequence_uses :
  Rebind asciiTables 64 (str ":a :a") PlaceholderDollar
    [VMap (TMap tString TInterface)
       [(VString tString (str "a"),
         VSlice (TSlice tInt) [VInt tInt 5; VInt tInt 6])]]
  = Returns (str "$1,$2 $3,$4",
             [VInt tInt 5; VInt tInt 6; VInt tInt 5; VInt tInt 6], None).
Proof. vm_compute. reflexivity. Qed.

(** ** Empty sequences (C7) *)

Lemma render_app (q : gostring) (vals : nameToken -> value)
    (pre post : list nameToken) (t : nameToken) (last : nat) :
  render q vals (pre ++ t :: post) last
  = renderTo q vals pre last (start t) ++ tokenText (vals t)
    ++ render q vals post (end_ t).
Proof.
  revert last. induction pre as [|t' r IH]; intros last; simpl; [done|].
  by rewrite IH, <- !app_assoc.
Qed.

(** C7 fails on the code for the query [$:a$]: binding [a] to an empty
    sequence gives the text [$NULL$], which the rewriter reads as the
    opening of a dollar-quoted block that is never closed; it discards
    the skipper's error, stays at offset 0 and never returns, whatever
    the iteration budget. *)
Theorem C7_rebind_never_returns (fuel : nat) :
  bindNamedParams asciiTables (str "$:a$") emptySliceParams
  = Returns (str "$NULL$", [], None)
  ∧ Rebind asciiTables fuel (str "$:a$") PlaceholderDollar [emptySliceParams]
    = OutOfFuel.
Proof.
  assert (bindNamedParams asciiTables (str "$:a$") emptySliceParams
          = Returns (str "$NULL$", [], None)) as Hb by (vm_compute; reflexivity).
  split; [done|].
  rewrite (Rebind_named asciiTables fuel (str "$:a$") PlaceholderDollar
             emptySliceParams _ _ eq_refl Hb).
  unfold rewritePlaceholders.
  assert (rewritePlaceholders_loop fuel (str "$NULL$") PlaceholderDollar 0 1 []
          = OutOfFuel) as ->; [|done].
  induction fuel as [|fuel IH]; [done|].
  simpl. exact IH.
Qed.

(** X1, what the code does do for an empty sequence: in the text that
    [bindNamedParams] hands to the rewriter, a token bound to a slice or
    array without elements stands as [NULL] at its place, and it adds no
    argument; [Rebind] returns what the rewriter makes of that text, with
    these arguments. *)
Theorem bind_empty_sequence_NULL (U : UnicodeTables) (fuel : nat)
    (q : gostring) (ph : Placeholder) (p : value)
    (lut : gmap gostring value) (vals : nameToken -> value)
    (pre post : list nameToken) (t : nameToken) :
  looksBindable p = true ->
  findNamedParams U q = (pre ++ t :: post, None) ->
  buildParamLookup U p = Returns (lut, None) ->
  Forall (fun t => lookup_ U lut (name t) = Some (vals t)) (pre ++ t :: post) ->
  isSliceOrArray (vals t) = true -> elemsOf (vals t) = [] ->
  bindNamedParams U q p
  = Returns (renderTo q vals pre 0 (start t) ++ str "NULL"
             ++ render q vals post (end_ t),
             flat_map (fun t => tokenArgs (vals t)) pre
             ++ flat_map (fun t => tokenArgs (vals t)) post, None)
  ∧ Rebind U fuel q ph [p]
    = run_bind (rewritePlaceholders fuel
                  (renderTo q vals pre 0 (start t) ++ str "NULL"
                   ++ render q vals post (end_ t)) ph)
        (fun s => Returns (s, flat_map (fun t => tokenArgs (vals t)) pre
                              ++ flat_map (fun t => tokenArgs (vals t)) post,
                           None)).
Proof.
  intros Hp Hf Hlut Hall Hseq Hempty.
  assert (bindNamedParams U q p
          = Returns (renderTo q vals pre 0 (start t) ++ str "NULL"
                     ++ render q vals post (end_ t),
                     flat_map (fun t => tokenArgs (vals t)) pre
                     ++ flat_map (fun t => tokenArgs (vals t)) post, None)) as Hb.
  { rewrite (bindNamedParams_spec U q p lut vals (pre ++ t :: post))
      by (done || by destruct pre).
    rewrite render_app, flat_map_app. simpl.
    unfold tokenText at 1, tokenArgs at 2. by rewrite Hseq, Hempty. }
  split; [done|]. by apply Rebind_named.
Qed.

Lemma bind_empty_sequence_NULL_witness :
  Rebind asciiTables 64 (str "id IN (:a)") PlaceholderAtP [emptySliceParams]
  = Returns (str "id IN (NULL)", [], None).
Proof.
  assert (findNamedParams asciiTables (str "id IN (:a)")
          = ([] ++ {| name := str "a"; start := 7; end_ := 9 |} :: [], None))
    as Hf by (vm_compute; reflexivity).
  assert (buildParamLookup asciiTables emptySliceParams
          = Returns ({[ str "a" := VSlice (TSlice tInt) [] ]}, None))
    as Hlut by (vm_compute; reflexivity).
  destruct (bind_empty_sequence_NULL asciiTables 64 (str "id IN (:a)")
              PlaceholderAtP emptySliceParams _
              (fun _ => VSlice (TSlice tInt) []) [] [] _
              (eq_refl : looksBindable emptySliceParams = true) Hf Hlut)
    as [_ H]; [by repeat constructor|done|done|].
  rewrite H. vm_compute. reflexivity.
Defined.

(** ** Unterminated regions (C1) *)

Lemma drop_cons_lookup {A} (s : list A) (i : nat) (c : A) (t : list A) :
  drop i s = c :: t ->
  s !! i = Some c /\ drop (S i) s = t /\ (i < length s)%nat.
Proof.
  intros H. split; [|split].
  - assert (drop i s !! 0%nat = Some c) as H0 by (by rewrite H).
    rewrite lookup_drop in H0. by rewrite Nat.add_0_r in H0.
  - replace (S i) with (i + 1)%nat by lia. by rewrite <- drop_drop, H.
  - apply (f_equal length) in H. rewrite length_drop in H. simpl in H. lia.
Qed.

Lemma unclosed_drop (qc : ascii) (bs rest : gostring) :
  Forall (fun c => c <> qc) bs -> unclosed qc (bs ++ rest) -> unclosed qc rest.
Proof.
  induction 1 as [|c bs Hc _ IH]; [done|]. simpl.
  inversion 1; subst; [by apply IH|done].
Qed.

Lemma skipQuoted_unclosed (qc : ascii) (e : bindError) (fuel : nat)
    (s : gostring) (i : nat) :
  byteZ qc < 0x80 -> unclosed qc (drop i s) ->
  skipQuoted_loop qc e fuel s i = (0%nat, Some e).
Proof.
  intros Hq. revert i. induction fuel as [|fuel IH]; intros i Hu; simpl; [done|].
  case_bool_decide as Hi; [|done].
  destruct (drop i s) as [|c0 t] eqn:Ed.
  { apply (f_equal length) in Ed. rewrite length_drop in Ed. simpl in Ed. lia. }
  destruct (DecodeRune_spec c0 t) as (Hw & Hascii & Hhigh).
  destruct (decide (byteZ c0 < 0x80)) as [Hlow|Hge].
  - rewrite (Hascii Hlow).
    inversion Hu as [|c body Hne Hbody|body Hbody]; subst.
    + pose proof (drop_cons_lookup _ _ _ _ Ed) as (Hl0 & Hd1 & _).
      assert ((byteZ c0 =? rune qc) = false) as ->.
      { apply Z.eqb_neq. intros Heq. by apply byteZ_inj in Heq. }
      apply IH. replace (i + 1)%nat with (S i) by lia. by rewrite Hd1.
    + pose proof (drop_cons_lookup _ _ _ _ Ed) as (Hl0 & Hd1 & _).
      unfold rune. rewrite Z.eqb_refl.
      pose proof (drop_cons_lookup _ _ _ _ Hd1) as (Hl1 & Hd2 & Hlt).
      replace (i + 1)%nat with (S i) by lia.
      unfold byteIs. rewrite Hl1.
      rewrite !bool_decide_true by first [done|lia]. simpl.
      apply IH.
      match goal with |- unclosed _ (drop ?n s) =>
        replace n with (S (S i)) by lia end.
      by rewrite Hd2.
  - destruct (Hhigh ltac:(lia)) as [Hr Hall].
    destruct (DecodeRuneInString (c0 :: t)) as [r w]. simpl in *.
    assert ((r =? rune qc) = false) as -> by (apply Z.eqb_neq; unfold rune; lia).
    apply IH. rewrite <- drop_drop, Ed.
    apply (unclosed_drop qc (take w (c0 :: t))).
    + eapply Forall_impl; [exact Hall|]. simpl. intros c Hc ->. lia.
    + by rewrite take_drop.
Qed.

Lemma absent_tail (sub : gostring) (c : ascii) (s : gostring) :
  absent sub (c :: s) -> absent sub s.
Proof. intros H a b ->. by apply (H (c :: a) b). Qed.

Lemma strings_Index_absent (sub s : gostring) :
  absent sub s -> strings_Index s sub = None.
Proof.
  induction s as [|c s IH]; intros Ha; simpl.
  - destruct (hasPrefix [] sub) eqn:E; [|done].
    apply hasPrefix_app in E as [t E]. by destruct (Ha [] t).
  - destruct (hasPrefix (c :: s) sub) eqn:E.
    + apply hasPrefix_app in E as [t E]. by destruct (Ha [] t).
    + by rewrite IH by (by eapply absent_tail).
Qed.

Lemma skipBlockComment_absent (fuel : nat) (s : gostring) (k : nat) :
  absent (str "*/") (drop k s) ->
  skipBlockComment_loop fuel s k = (0%nat, Some ErrUnterminatedBlockComment).
Proof.
  revert k. induction fuel as [|fuel IH]; intros k Ha; simpl; [done|].
  case_bool_decide as Hk; [|done].
  destruct (drop k s) as [|c0 t] eqn:Ed.
  { apply (f_equal length) in Ed. rewrite length_drop in Ed. simpl in Ed. lia. }
  pose proof (drop_cons_lookup _ _ _ _ Ed) as (Hl0 & Hd1 & _).
  destruct (byteIs s k "*" && byteIs s (k + 1) "/") eqn:E.
  - apply andb_true_iff in E as [E0 E1]. unfold byteIs in E0, E1.
    rewrite Hl0 in E0. apply bool_decide_eq_true in E0 as ->.
    destruct t as [|c1 t1].
    { apply (f_equal length) in Hd1. rewrite length_drop in Hd1. simpl in Hd1. lia. }
    pose proof (drop_cons_lookup _ _ _ _ Hd1) as (Hl1 & _ & _).
    replace (k + 1)%nat with (S k) in E1 by lia. rewrite Hl1 in E1.
    apply bool_decide_eq_true in E1 as ->. by destruct (Ha [] t1).
  - apply IH. replace (k + 1)%nat with (S k) by lia. rewrite Hd1.
    by eapply absent_tail.
Qed.

Lemma tagEnd_loop_run (fuel : nat) (s : gostring) (j : nat)
    (tag rest : gostring) :
  drop j s = tag ++ "$"%char :: rest -> Forall tagByte tag ->
  (length tag < fuel)%nat ->
  tagEnd_loop fuel s j = (j + length tag)%nat.
Proof.
  revert fuel j. induction tag as [|c tag IH]; intros [|fuel] j Hd Ht Hf;
    simpl in *; try lia.
  - apply drop_cons_lookup in Hd as (-> & _ & _). simpl. lia.
  - apply drop_cons_lookup in Hd as (-> & Hd & _).
    inversion Ht as [|? ? [Hc1 Hc2] Ht']; subst.
    rewrite bool_decide_false, Hc2 by done. simpl.
    replace (j + 1)%nat with (S j) by lia.
    rewrite (IH fuel (S j)); [lia|done|done|lia].
Qed.

Lemma skipDollarQuoted_absent (s : gostring) (i : nat) (tag body : gostring) :
  drop i s = "$"%char :: tag ++ "$"%char :: body ->
  Forall tagByte tag -> absent ("$"%char :: tag ++ [ "$"%char ]) body ->
  skipDollarQuoted s i = (0%nat, true, Some ErrUnterminatedDollar).
Proof.
  intros Hd Ht Ha. unfold skipDollarQuoted.
  pose proof (drop_cons_lookup _ _ _ _ Hd) as (Hl0 & Hd1 & Hlt).
  unfold byteIs at 1. rewrite Hl0, bool_decide_true by done. simpl.
  assert (length s = (i + (2 + length tag + length body))%nat) as Hlen.
  { apply (f_equal length) in Hd. rewrite length_drop in Hd. simpl in Hd.
    rewrite length_app in Hd. simpl in Hd. lia. }
  replace (i + 1)%nat with (S i) by lia.
  rewrite (tagEnd_loop_run (length s) s (S i) tag body Hd1 Ht) by lia.
  assert (drop (S i + length tag) s = "$"%char :: body) as Hd2.
  { rewrite <- drop_drop, Hd1, drop_app_length. done. }
  pose proof (drop_cons_lookup _ _ _ _ Hd2) as (Hl2 & Hd3 & _).
  unfold byteIs. rewrite Hl2.
  rewrite bool_decide_false, bool_decide_true by first [done|lia]. simpl.
  replace (S (i + length tag + 1)) with (S (S i + length tag)) by lia.
  assert (take (S (S i + length tag) - i) (drop i s)
          = "$"%char :: tag ++ [ "$"%char ]) as ->.
  { rewrite Hd. replace (S (S i + length tag) - i)%nat
      with (S (length tag + 1)) by lia.
    simpl. f_equal. rewrite take_app_ge by lia.
    replace (length tag + 1 - length tag)%nat with 1%nat by lia.
    simpl. by rewrite take_0. }
  rewrite Hd3. by rewrite strings_Index_absent.
Qed.

(** Evaluates the comparisons of a known rune in a loop body. *)
Ltac eval_rune_tests :=
  repeat match goal with
         | |- context [Z.eqb ?a ?b] =>
           let v := eval vm_compute in (Z.eqb a b) in
           change (Z.eqb a b) with v
         end;
  cbn [andb orb negb].

Lemma decode_ascii_drop (s : gostring) (i : nat) (c : ascii) (t : gostring) :
  drop i s = c :: t -> byteZ c < 0x80 ->
  DecodeRuneInString (drop i s) = (byteZ c, 1%nat).
Proof. intros -> H. by apply DecodeRune_spec. Qed.

(** Where such a region opens, the extractor's iteration fails. *)
Lemma findNamedParams_body_unterminated (U : UnicodeTables) (q : gostring)
    (i : nat) (out : list nameToken) (e : bindError) :
  opensUnterminated q i e ->
  findNamedParams_body U q i out = Break ([], Some e).
Proof.
  intros Ho. unfold findNamedParams_body.
  destruct Ho as [qc e body Hin Hd Hu|body Hd Ha|tag body Hd Ht Ha].
  - pose proof (drop_cons_lookup _ _ _ _ Hd) as (_ & Hd1 & Hlt).
    rewrite bool_decide_true by done.
    replace (i + 1)%nat with (S i) in * by lia.
    set_unfold in Hin.
    destruct Hin as [[= -> ->]|[[= -> ->]|[[= -> ->]|[]]]];
      rewrite (decode_ascii_drop q i _ body Hd) by done;
      eval_rune_tests;
      unfold skipSingleQuoted, skipDoubleQuoted, skipBacktickQuoted;
      replace (i + 1)%nat with (S i) by lia;
      by rewrite skipQuoted_unclosed by (done || by rewrite Hd1).
  - pose proof (drop_cons_lookup _ _ _ _ Hd) as (_ & Hd1 & Hlt).
    pose proof (drop_cons_lookup _ _ _ _ Hd1) as (_ & Hd2 & _).
    rewrite bool_decide_true by done.
    rewrite (decode_ascii_drop q i _ _ Hd) by done.
    eval_rune_tests.
    assert (hasPrefix (drop i q) (str "/*") = true) as ->
      by (apply hasPrefix_app; by eexists).
    unfold skipBlockComment.
    replace (i + 2)%nat with (S (S i)) by lia.
    by rewrite skipBlockComment_absent by (by rewrite Hd2).
  - pose proof (drop_cons_lookup _ _ _ _ Hd) as (_ & _ & Hlt).
    rewrite bool_decide_true by done.
    rewrite (decode_ascii_drop q i _ _ Hd) by done.
    eval_rune_tests.
    by rewrite (skipDollarQuoted_absent q i tag body).
Qed.

(** C1 (as amended): when the extractor's scan of the query comes to
    an offset where a single-quoted literal, a double-quoted or
    backtick-quoted identifier, a block comment or a dollar-quoted block
    opens and is not closed, [Rebind] in the named path returns the
    skipper's error with empty text and no arguments, for every dialect.
    In the positional path under the question dialect [Rebind] does not
    scan: it returns the text unchanged with the caller's arguments. *)
Theorem C1_named_path_fails_unterminated (U : UnicodeTables) (fuel : nat)
    (q : gostring) (ph : Placeholder) (p : value)
    (i : nat) (out : list nameToken) (e : bindError) :
  looksBindable p = true ->
  extractorAt U q i out -> opensUnterminated q i e ->
  findNamedParams U q = ([], Some e)
  ∧ Rebind U fuel q ph [p] = Returns ([], [], Some e)
  ∧ (forall params, positionalArgs params ->
       Rebind U fuel q PlaceholderQuestion params = Returns (q, params, None)).
Proof.
  intros Hp Hat Ho.
  assert (findNamedParams U q = ([], Some e)) as Hf.
  { rewrite (extractorAt_loop U q i out Hat).
    rewrite findNamedParams_loop_unfold by lia.
    by rewrite (findNamedParams_body_unterminated U q i out e Ho). }
  split; [done|]. split.
  - unfold Rebind, bindNamedParams. rewrite Hp, Hf. by destruct p.
  - intros params Hpos. unfold Rebind.
    destruct params as [|p' [|? ?]]; simpl in *; try done. by rewrite Hpos.
Qed.

Lemma C1_named_path_fails_unterminated_witness :
  Rebind asciiTables 0 (str "'abc") PlaceholderDollar [emptySliceParams]
  = Returns ([], [], Some ErrUnterminatedSingle).
Proof.
  apply (C1_named_path_fails_unterminated asciiTables 0 (str "'abc")
           PlaceholderDollar emptySliceParams 0 [] ErrUnterminatedSingle).
  - reflexivity.
  - constructor.
  - apply (opens_quote _ _ "'"%char _ (str "abc")); [set_solver|reflexivity|].
    repeat (apply unclosed_other; [discriminate|]). constructor.
Defined.

(** C1, the claim as stated fails in the positional path: under the
    question dialect the unterminated literal comes back as the text,
    without error. *)
Lemma C1_counterexample_positional_question :
  Rebind asciiTables 0 (str "'abc") PlaceholderQuestion []
  = Returns (str "'abc", [], None).
Proof. reflexivity. Qed.

(** ** The rewriter after the extractor (C3) *)

Lemma rewritePlaceholders_body_end (q : gostring) (ph : Placeholder)
    (i arg : nat) (out : gostring) :
  (length q <= i)%nat ->
  rewritePlaceholders_body q ph i arg out = Break (Returns out).
Proof.
  intros Hi. unfold rewritePlaceholders_body. by rewrite bool_decide_false by lia.
Qed.

(** Any other rune is copied. *)
Lemma rewritePlaceholders_body_plain (q : gostring) (ph : Placeholder)
    (i arg : nat) (out : gostring) :
  (i < length q)%nat ->
  rewriterTrigger (DecodeRuneInString (drop i q)).1 = false ->
  rewritePlaceholders_body q ph i arg out
  = Continue ((i + (DecodeRuneInString (drop i q)).2)%nat, arg,
              out ++ take (DecodeRuneInString (drop i q)).2 (drop i q)).
Proof.
  intros Hi Ht. unfold rewritePlaceholders_body.
  rewrite bool_decide_true by done.
  pose proof (DecodeRune_drop q i Hi) as [Hw1 Hw2].
  destruct (DecodeRuneInString (drop i q)) as [r w]. simpl in *.
  unfold rewriterTrigger in Ht.
  repeat (apply orb_false_iff in Ht as [Ht ?]).
  repeat match goal with H : (_ =? _) = false |- _ => rewrite H; clear H end.
  simpl. rewrite slice_Some by lia.
  by replace (i + w - i)%nat with w by lia.
Qed.

Lemma rewriterRun_trans (q : gostring) (ph : Placeholder) st1 st2 st3 :
  rewriterRun q ph st1 st2 -> rewriterRun q ph st2 st3 -> rewriterRun q ph st1 st3.
Proof.
  induction 1 as [|i arg out j arg' out' st Hb Hlt _ IH]; [done|].
  intros H. eapply run_step; [done|done|]. by apply IH.
Qed.

Lemma rewriterRun_returns (q : gostring) (ph : Placeholder)
    (st st' : nat * nat * gostring) :
  rewriterRun q ph st st' ->
  (forall fuel, (length q - st'.1.1 < fuel)%nat ->
     exists s, rewritePlaceholders_loop fuel q ph st'.1.1 st'.1.2 st'.2 = Returns s) ->
  forall fuel, (length q - st.1.1 < fuel)%nat ->
    exists s, rewritePlaceholders_loop fuel q ph st.1.1 st.1.2 st.2 = Returns s.
Proof.
  induction 1 as [|i arg out j arg' out' st Hb Hlt _ IH]; [done|].
  intros Hend fuel Hf. simpl in *.
  destruct fuel as [|fuel]; [lia|]. simpl. rewrite Hb.
  assert (i < length q)%nat.
  { destruct (decide (length q <= i)%nat) as [Hge|]; [|lia].
    by rewrite rewritePlaceholders_body_end in Hb. }
  apply (IH Hend). lia.
Qed.

Lemma isIdentRune_not_trigger (U : UnicodeTables) (r : Z) :
  isIdentRune U r = true -> rewriterTrigger r = false.
Proof.
  intros H. unfold rewriterTrigger.
  repeat match goal with
         | |- context [r =? ?c] =>
           destruct (Z.eqb_spec r c) as [->|_]; [by vm_compute in H|]
         end.
  done.
Qed.

(** The rewriter copies an identifier rune by rune. *)
Lemma rewriterRun_ident (U : UnicodeTables) (q : gostring) (ph : Placeholder)
    (fuel k arg : nat) (out : gostring) :
  exists out',
    rewriterRun q ph (k, arg, out) (parseIdent_loop U fuel q k, arg, out').
Proof.
  revert k out. induction fuel as [|fuel IH]; intros k out; simpl.
  { eexists. apply run_refl. }
  case_bool_decide as Hk; [|eexists; apply run_refl].
  pose proof (DecodeRune_drop q k Hk) as [Hw1 Hw2].
  pose proof (rewritePlaceholders_body_plain q ph k arg out Hk) as Hplain.
  destruct (DecodeRuneInString (drop k q)) as [r w]. simpl in *.
  destruct (isIdentRune U r) eqn:Er; simpl; [|eexists; apply run_refl].
  destruct (IH (k + w)%nat (out ++ take w (drop k q))) as [out' Hrun].
  exists out'.
  eapply run_step;
    [apply Hplain; by eapply isIdentRune_not_trigger|lia|exact Hrun].
Qed.

Lemma decode_ascii_rune (s : gostring) (i : nat) :
  (i < length s)%nat -> (DecodeRuneInString (drop i s)).1 < 0x80 ->
  exists c t, drop i s = c :: t /\ byteZ c < 0x80
              /\ DecodeRuneInString (drop i s) = (byteZ c, 1%nat).
Proof.
  intros Hi Hr. destruct (drop i s) as [|c t] eqn:Ed.
  { apply (f_equal length) in Ed. rewrite length_drop in Ed. simpl in Ed. lia. }
  destruct (DecodeRune_spec c t) as (_ & Hascii & Hhigh).
  destruct (decide (byteZ c < 0x80)) as [Hlow|Hge].
  - exists c, t. by rewrite Hascii.
  - destruct (Hhigh ltac:(lia)) as [Hge' _]. lia.
Qed.

(** One iteration that copies [query[i:j]]. *)
Lemma rewriterRun_copy (q : gostring) (ph : Placeholder) (i arg : nat)
    (out : gostring) (j : nat) :
  (i < j <= length q)%nat ->
  (forall seg, slice q i j = Some seg ->
     rewritePlaceholders_body q ph i arg out = Continue (j, arg, out ++ seg)) ->
  exists arg' out', rewriterRun q ph (i, arg, out) (j, arg', out').
Proof.
  intros Hj Hb. exists arg. eexists.
  eapply run_step; [apply Hb, slice_Some; lia|lia|apply run_refl].
Qed.

(** Where the extractor goes on from [i] to [j], the rewriter gets from
    [i] to [j] too. *)
Lemma rewriterRun_extractor_step (U : UnicodeTables) (q : gostring)
    (ph : Placeholder) (i : nat) (out : list nameToken) (j : nat)
    (out' : list nameToken) (arg : nat) (o : gostring) :
  findNamedParams_body U q i out = Continue (j, out') ->
  exists arg' o', rewriterRun q ph (i, arg, o) (j, arg', o').
Proof.
  intros Hb.
  pose proof (findNamedParams_body_progress U q i out j out' Hb) as [Hj _].
  revert Hb. unfold findNamedParams_body.
  case_bool_decide as Hi; [|done].
  pose proof (DecodeRune_drop q i Hi) as [Hw1 Hw2].
  pose proof (rewritePlaceholders_body_plain q ph i arg o Hi) as Hplain.
  pose proof (decode_ascii_rune q i Hi) as Hascii.
  assert (forall res : nat * option bindError,
            match res with
            | (_, Some err) =>
              Break ([], Some err)
              : loopStep (nat * list nameToken) (list nameToken * option bindError)
            | (k, None) => Continue (k, out)
            end = Continue (j, out') -> res = (j, None)) as Hskipped.
  { intros [k [err|]]; [done|]. by intros [= <- <-]. }
  destruct (DecodeRuneInString (drop i q)) as [r w] eqn:Edec.
  cbn [fst snd] in *.
  assert (forall P : Prop,
            (rewritePlaceholders_body q ph i arg o
             = (let copyTo (j : nat) :=
                  match slice q i j with
                  | Some seg => Continue (j, arg, o ++ seg)
                  | None => Break Panics
                  end in
                if r =? rune "'" then copyTo (skipSingleQuoted q (i + w)).1
                else if r =? rune dquote then copyTo (skipDoubleQuoted q (i + w)).1
                else if r =? rune "`" then copyTo (skipBacktickQuoted q (i + w)).1
                else if (r =? rune "-") && hasPrefix (drop i q) (str "--") then
                  copyTo (skipLineComment q (i + 2))
                else if (r =? rune "/") && hasPrefix (drop i q) (str "/*") then
                  copyTo (skipBlockComment q (i + 2)).1
                else if (r =? rune "$") && (skipDollarQuoted q i).1.2 then
                  copyTo (skipDollarQuoted q i).1.1
                else if r =? rune "?" then
                  Continue ((i + w)%nat, (arg + 1)%nat, o ++ marker ph arg)
                else copyTo (i + w)%nat) -> P) -> P) as Hunfold.
  { intros P HP. apply HP. unfold rewritePlaceholders_body.
    by rewrite bool_decide_true, Edec by done. }
  apply Hunfold. clear Hunfold. intros Hrw. cbv zeta in Hrw.
  destruct (r =? rune "'") eqn:E1.
  { intros Hs%Hskipped. apply rewriterRun_copy; [done|]. intros seg Hseg.
    rewrite Hrw, Hs. cbn [fst]. by rewrite Hseg. }
  destruct (r =? rune dquote) eqn:E2.
  { intros Hs%Hskipped. apply rewriterRun_copy; [done|]. intros seg Hseg.
    rewrite Hrw, Hs. cbn [fst]. by rewrite Hseg. }
  destruct (r =? rune "`") eqn:E3.
  { intros Hs%Hskipped. apply rewriterRun_copy; [done|]. intros seg Hseg.
    rewrite Hrw, Hs. cbn [fst]. by rewrite Hseg. }
  destruct ((r =? rune "-") && hasPrefix (drop i q) (str "--")) eqn:E4.
  { intros [= <- <-]. apply rewriterRun_copy; [done|]. intros seg Hseg.
    by rewrite Hrw, Hseg. }
  destruct ((r =? rune "/") && hasPrefix (drop i q) (str "/*")) eqn:E5.
  { intros Hs%Hskipped. apply rewriterRun_copy; [done|]. intros seg Hseg.
    rewrite Hrw, Hs. cbn [fst]. by rewrite Hseg. }
  destruct (r =? rune "$") eqn:E6.
  { destruct (skipDollarQuoted q i) as [[k [|]] [err|]] eqn:Ed; try done;
      intros [= <- <-]; (apply rewriterRun_copy; [done|]); intros seg Hseg;
      cbn [andb fst snd] in Hrw; rewrite Hrw.
    - by rewrite Hseg.
    - apply Z.eqb_eq in E6 as ->. simpl. by rewrite Hseg. }
  cbn [andb] in Hrw.
  destruct (r =? rune ":") eqn:E7.
  - apply Z.eqb_eq in E7 as ->.
    destruct (Hascii ltac:(done)) as (c & t & Hd & Hc & [= Hrc ->]).
    assert (c = ":"%char) as -> by (by apply byteZ_inj).
    specialize (Hplain eq_refl).
    destruct (hasPrefix (drop i q) (str "::")) eqn:E8.
    + intros [= <- <-].
      apply hasPrefix_app in E8 as [t' E8]. rewrite Hd in E8.
      injection E8 as ->.
      pose proof (drop_cons_lookup _ _ _ _ Hd) as (_ & Hd1 & _).
      assert (rewritePlaceholders_body q ph (i + 1) arg (o ++ take 1 (drop i q))
              = Continue ((i + 2)%nat, arg,
                          (o ++ take 1 (drop i q)) ++ take 1 (drop (i + 1) q)))
        as Hplain2.
      { rewrite rewritePlaceholders_body_plain by
          (first [lia|replace (i + 1)%nat with (S i) by lia; by rewrite Hd1]).
        replace (i + 1)%nat with (S i) by lia. rewrite Hd1. simpl.
        do 3 f_equal. lia. }
      exists arg. eexists.
      eapply run_step; [exact Hplain|lia|].
      eapply run_step; [exact Hplain2|lia|apply run_refl].
    + destruct (parseIdent U q (i + 1)) as [nm e] eqn:Ep.
      unfold parseIdent in Ep.
      destruct (rewriterRun_ident U q ph (length q) (i + 1) arg
                  (o ++ take 1 (drop i q))) as [o' Hrun].
      destruct (decide (nm = [])) as [Hn|Hn];
        [rewrite (bool_decide_true (nm = [])) by done
        |rewrite (bool_decide_false (nm = [])) by done]; cbn [negb].
      * intros [= <- <-]. exists arg, (o ++ take 1 (drop i q)).
        eapply run_step; [exact Hplain|lia|apply run_refl].
      * intros [= <- <-]. exists arg, o'.
        eapply run_step; [exact Hplain|lia|].
        case_bool_decide; by injection Ep as <- <-.
  - intros [= <- <-].
    destruct (r =? rune "?") eqn:E9.
    + do 2 eexists. eapply run_step; [exact Hrw|lia|apply run_refl].
    + apply rewriterRun_copy; [lia|]. intros seg Hseg. by rewrite Hrw, Hseg.
Qed.

(** On a query that the extractor reads to its end the rewriter returns,
    within one iteration per byte. *)
Lemma rewriter_returns_after_extractor (U : UnicodeTables) (q : gostring)
    (ph : Placeholder) (toks : list nameToken) (n i : nat)
    (out : list nameToken) (arg : nat) (o : gostring) (fuel : nat) :
  (length q - i <= n)%nat ->
  findNamedParams_loop U n q i out = (toks, None) ->
  (length q - i < fuel)%nat ->
  exists s, rewritePlaceholders_loop fuel q ph i arg o = Returns s.
Proof.
  revert i out arg o fuel. induction n as [|n IH]; intros i out arg o fuel Hn Hf Hfuel.
  - destruct fuel as [|fuel]; [lia|]. simpl.
    rewrite rewritePlaceholders_body_end by lia. by eexists.
  - simpl in Hf.
    destruct (findNamedParams_body U q i out) as [[j out']|res] eqn:Eb.
    + pose proof (findNamedParams_body_progress U q i out j out' Eb) as [Hj _].
      destruct (rewriterRun_extractor_step U q ph i out j out' arg o Eb)
        as (arg' & o' & Hrun).
      apply (rewriterRun_returns q ph (i, arg, o) (j, arg', o') Hrun); [|done].
      intros fuel' Hfuel'. simpl in *. eapply IH; [|exact Hf|done]. lia.
    + subst res. apply findNamedParams_body_break in Eb as [[_ Hi]|[e [=]]].
      destruct fuel as [|fuel]; [lia|]. simpl.
      rewrite rewritePlaceholders_body_end by lia. by eexists.
Qed.

(** When it returns, the rewriter has copied the query up to [i] unless
    it met a question mark. *)
Lemma rewriter_without_question_mark (q : gostring) (ph : Placeholder)
    (fuel i arg : nat) (s : gostring) :
  "?"%char ∉ q -> (i <= length q)%nat ->
  rewritePlaceholders_loop fuel q ph i arg (take i q) = Returns s -> s = q.
Proof.
  intros Hq. revert i arg. induction fuel as [|fuel IH]; intros i arg Hi; simpl; [done|].
  destruct (decide (length q <= i)%nat) as [Hge|Hlt].
  { rewrite rewritePlaceholders_body_end by done. intros [= <-].
    by rewrite take_ge. }
  assert (forall j, match slice q i j with
                    | Some seg =>
                      Continue (j, arg, take i q ++ seg)
                      : loopStep (nat * nat * gostring) (run gostring)
                    | None => Break Panics
                    end = match slice q i j with
                          | Some _ => Continue (j, arg, take j q)
                          | None => Break Panics
                          end) as Hcopy.
  { intros j. unfold slice. case_bool_decide as Hj; [|done].
    do 2 f_equal. rewrite take_take_drop. f_equal. lia. }
  unfold rewritePlaceholders_body. rewrite bool_decide_true by lia.
  pose proof (decode_ascii_rune q i ltac:(lia)) as Hascii.
  destruct (DecodeRuneInString (drop i q)) as [r w]. cbn [fst snd] in *.
  cbv zeta.
  assert (forall j, match (match slice q i j with
                           | Some _ => Continue (j, arg, take j q)
                           | None => Break Panics
                           end : loopStep (nat * nat * gostring) (run gostring))
                    with
                    | Continue (i0, arg0, out0) =>
                      rewritePlaceholders_loop fuel q ph i0 arg0 out0
                    | Break res => res
                    end = Returns s -> s = q) as Hnext.
  { intros j. unfold slice. case_bool_decide as Hj; [|done].
    apply IH. lia. }
  repeat match goal with
         | |- context [if ?b then _ else _] => destruct b eqn:?
         end; rewrite ?Hcopy; try apply Hnext.
  match goal with H : (r =? rune "?") = true |- _ =>
    apply Z.eqb_eq in H as -> end.
  destruct (Hascii ltac:(done)) as (c & t & Hd & _ & [= Hc _]).
  apply byteZ_inj in Hc as <-.
  apply drop_cons_lookup in Hd as (Hl & _ & _).
  by apply list_elem_of_lookup_2 in Hl.
Qed.

(** C3 (as amended): in the named path, when the extractor finds no
    token, [bindNamedParams] hands the query back unchanged with no
    argument and the lookup is never built; [Rebind] then returns, with
    zero arguments and no error, the text that the rewriter makes of the
    query for the dialect: the query itself under the question dialect,
    and whenever it holds no question mark. *)
Theorem C3_no_tokens_rewritten_text (U : UnicodeTables) (fuel : nat)
    (q : gostring) (ph : Placeholder) (p : value) :
  looksBindable p = true ->
  findNamedParams U q = ([], None) ->
  (length q < fuel)%nat ->
  bindNamedParams U q p = Returns (q, [], None)
  ∧ (exists s, rewritePlaceholders fuel q ph = Returns s
               ∧ Rebind U fuel q ph [p] = Returns (s, [], None)
               ∧ ("?"%char ∉ q -> s = q))
  ∧ Rebind U fuel q PlaceholderQuestion [p] = Returns (q, [], None).
Proof.
  intros Hp Hf Hfuel.
  assert (bindNamedParams U q p = Returns (q, [], None)) as Hb.
  { unfold bindNamedParams. rewrite Hf. by destruct p. }
  split; [done|]. split.
  - assert (exists s, rewritePlaceholders fuel q ph = Returns s
                      ∧ ("?"%char ∉ q -> s = q)) as (s & Hs & Hsame).
    { assert (forall ph', exists s,
                rewritePlaceholders_loop fuel q ph' 0 1 [] = Returns s
                ∧ ("?"%char ∉ q -> s = q)) as Hloop.
      { intros ph'.
        destruct (rewriter_returns_after_extractor U q ph' [] (length q) 0 []
                    1 [] fuel ltac:(lia) Hf ltac:(lia)) as [s Hs].
        exists s. split; [done|]. intros Hq.
        by apply (rewriter_without_question_mark q ph' fuel 0 1 s Hq ltac:(lia)). }
      destruct ph; simpl; try apply Hloop. by exists q. }
    exists s. split; [done|]. split; [|done].
    by rewrite (Rebind_named U fuel q ph p q [] Hp Hb), Hs.
  - by rewrite (Rebind_named U fuel q PlaceholderQuestion p q [] Hp Hb).
Qed.

Lemma C3_no_tokens_rewritten_text_witness :
  Rebind asciiTables 64 (str "SELECT 1") PlaceholderDollar [emptySliceParams]
  = Returns (str "SELECT 1", [], None).
Proof.
  destruct (C3_no_tokens_rewritten_text asciiTables 64 (str "SELECT 1")
              PlaceholderDollar emptySliceParams)
    as (_ & (s & _ & Hr & Hsame) & _);
    [reflexivity|vm_compute; reflexivity|simpl; lia|].
  rewrite Hr, Hsame; [reflexivity|].
  intros Hin. set_unfold in Hin. by repeat destruct Hin as [|Hin].
Defined.

(** C3, the claim as stated fails when the query holds a question mark
    and the dialect numbers its markers: the text comes back rewritten. *)
Lemma C3_counterexample_text_rewritten :
  findNamedParams asciiTables (str "SELECT ?") = ([], None)
  ∧ Rebind asciiTables 64 (str "SELECT ?") PlaceholderDollar [emptySliceParams]
    = Returns (str "SELECT $1", [], None).
Proof. split; vm_compute; reflexivity. Qed.

(** ** Unmatched columns and unmatched fields (C10) *)

Lemma disjointPaths_sym (p q : list nat) :
  disjointPaths p q = disjointPaths q p.
Proof.
  revert q. induction p as [|i p IH]; intros [|j q]; simpl; try done.
  rewrite IH. repeat case_bool_decide; congruence.
Qed.

Lemma updatePath_frame (fp p : list nat) (f : value -> option value)
    (v v' : value) :
  disjointPaths fp p = true ->
  updatePath fp f v = Some v' ->
  fieldAt p v' = fieldAt p v.
Proof.
  revert p v v'. induction fp as [|i rest IH]; intros [|j prest] v v' Hd Hu;
    simpl in Hd; try done.
  assert (Hin : forall t vals s',
    (x ← vals !! i; x' ← updatePath rest f x;
     Some (VStruct t (<[i := x']> vals))) = Some s' ->
    exists vals', s' = VStruct t vals'
      /\ (x ← vals' !! j; fieldAt prest x) = (x ← vals !! j; fieldAt prest x)).
  { intros t vals s' H.
    destruct (vals !! i) as [x|] eqn:E; simpl in H; [|done].
    destruct (updatePath rest f x) as [x'|] eqn:E2; simpl in H; [|done].
    injection H as <-. eexists; split; [done|]. case_bool_decide as Hij.
    - subst j. rewrite list_lookup_insert_eq by by eapply lookup_lt_Some.
      rewrite E. simpl. by eapply IH.
    - by rewrite list_lookup_insert_ne. }
  destruct v as [| | | |t o| | | |ts vals|]; try (simpl in Hu |- *; done).
  - destruct o as [s|]; simpl in Hu |- *.
    + apply bind_Some in Hu as (s' & E & [= <-]).
      destruct s; try done. apply Hin in E as (vals' & -> & E). exact E.
    + destruct (newTarget t) as [s|]; simpl in Hu |- *; [|done].
      apply bind_Some in Hu as (s' & E & [= <-]).
      destruct s; try done. apply Hin in E as (vals' & -> & E). exact E.
  - simpl in Hu. apply Hin in Hu as (vals' & -> & E). exact E.
Qed.

Lemma fieldByPathAlloc_updatePath (root root' : value) (fp : list nat) :
  fieldByPathAlloc root fp = Some root' ->
  updatePath fp allocLast root = Some root'.
Proof.
  unfold fieldByPathAlloc. by destruct (flagsByPath noRO fp root).
Qed.

Lemma untouched_cons (s : step) (sts : list step) (p : list nat) :
  untouched (s :: sts) p ->
  (writesField s = true -> disjointPaths (fpath s) p = true) /\ untouched sts p.
Proof.
  intros H. split; [apply H; left|]. intros s' Hs'. apply H. by right.
Qed.

Lemma structDests_spec (sts : list step) (i : nat) (st : store) ds fs st' :
  structDests sts i st = Some (ds, fs, st') ->
  (forall k s, sts !! k = Some s -> ds !! k = Some (destOf (i + k) s))
  /\ length ds = length sts
  /\ (forall f, f ∈ fs ->
        exists s, s ∈ sts /\ writesField s = true /\ fin_path f = Some (fpath s))
  /\ s_sink st' = s_sink st
  /\ (forall p, untouched sts p ->
        fieldAt p (s_root st') = fieldAt p (s_root st)).
Proof.
  revert i st ds fs st'. induction sts as [|s sts IH]; intros i st ds fs st' H.
  { injection H as <- <- <-. split_and!; try done.
    intros f Hf. by apply elem_of_nil in Hf. }
  simpl in H.
  assert (Hlk : forall d ds0, 
    (forall k s0, sts !! k = Some s0 -> ds0 !! k = Some (destOf (S i + k) s0)) ->
    d = destOf i s ->
    forall k s0, (s :: sts) !! k = Some s0 ->
      (d :: ds0) !! k = Some (destOf (i + k) s0)).
  { intros d ds0 Hds -> [|k] s0; simpl.
    - intros [= <-]. by rewrite Nat.add_0_r.
    - intros Hk. rewrite (Hds _ _ Hk). do 2 f_equal. lia. }
  destruct (kind s) eqn:Ek.
  - (* stepDrop *)
    destruct (structDests sts (S i) st) as [[[ds0 fs0] st0]|] eqn:E; [|done].
    simpl in H. injection H as <- <- <-.
    destruct (IH _ _ _ _ _ E) as (Hds & Hlen & Hfs & Hsink & Hframe).
    split_and!; simpl; try done.
    + apply Hlk; [done|]. unfold destOf. by rewrite Ek.
    + by rewrite Hlen.
    + intros f Hf. destruct (Hfs f Hf) as (s0 & ? & ? & ?).
      exists s0. split_and!; try done. by right.
    + intros p [_ Hp]%untouched_cons. by apply Hframe.
  - (* stepDirect *)
    destruct (fieldByPathAlloc (s_root st) (fpath s)) as [root|] eqn:Ea;
      simpl in H; [|done].
    destruct (readOnlyAt root (fpath s)); [done|].
    destruct (structDests sts (S i) (setRoot st root)) as [[[ds0 fs0] st0]|] eqn:E;
      [|done].
    simpl in H. injection H as <- <- <-.
    destruct (IH _ _ _ _ _ E) as (Hds & Hlen & Hfs & Hsink & Hframe).
    split_and!; simpl; try done.
    + apply Hlk; [done|]. unfold destOf. by rewrite Ek.
    + by rewrite Hlen.
    + intros f Hf. destruct (Hfs f Hf) as (s0 & ? & ? & ?).
      exists s0. split_and!; try done. by right.
    + intros p [Hs Hp]%untouched_cons. rewrite (Hframe p Hp). simpl.
      eapply updatePath_frame; [|exact (fieldByPathAlloc_updatePath _ _ _ Ea)].
      apply Hs.
      unfold writesField. by rewrite Ek.
  - (* stepIndirect *)
    destruct (convTo s) as [ct|]; simpl in H; [|done].
    destruct (post s) as [po|]; simpl in H; [|done].
    destruct (structDests sts (S i) _) as [[[ds0 fs0] st0]|] eqn:E; [|done].
    simpl in H. injection H as <- <- <-.
    destruct (IH _ _ _ _ _ E) as (Hds & Hlen & Hfs & Hsink & Hframe).
    split_and!; simpl; try done.
    + apply Hlk; [done|]. unfold destOf. by rewrite Ek.
    + by rewrite Hlen.
    + intros f [->|Hf]%elem_of_cons.
      * exists s. split_and!; [left| |done]. unfold writesField. by rewrite Ek.
      * destruct (Hfs f Hf) as (s0 & ? & ? & ?).
        exists s0. split_and!; try done. by right.
    + intros p [_ Hp]%untouched_cons. by rewrite (Hframe p Hp).
  - (* stepWhole *)
    destruct (structDests sts (S i) st) as [[[ds0 fs0] st0]|] eqn:E; [|done].
    simpl in H. injection H as <- <- <-.
    destruct (IH _ _ _ _ _ E) as (Hds & Hlen & Hfs & Hsink & Hframe).
    split_and!; simpl; try done.
    + apply Hlk; [done|]. unfold destOf. by rewrite Ek.
    + by rewrite Hlen.
    + intros f Hf. destruct (Hfs f Hf) as (s0 & ? & ? & ?).
      exists s0. split_and!; try done. by right.
    + intros p [_ Hp]%untouched_cons. by apply Hframe.
Qed.

Section ScanFrame.
Context (convertAssign : value -> value -> option value).






End ScanFrame.



(** *** The paths of the field index lead to different fields *)

Lemma walk_TStruct fs base forceInline idx :
  walk (TStruct fs) base forceInline idx = walkFields base forceInline fs 0 idx.
Proof. reflexivity. Qed.

Lemma disjointPaths_app_r (p q x : list nat) :
  disjointPaths p q = true -> disjointPaths p (q ++ x) = true.
Proof.
  revert q. induction p as [|i p IH]; intros [|j q]; simpl; try done.
  case_bool_decide; [apply IH|done].
Qed.

Lemma disjointPaths_app (b p q : list nat) :
  disjointPaths (b ++ p) (b ++ q) = disjointPaths p q.
Proof.
  induction b as [|i b IH]; simpl; [done|]. by rewrite bool_decide_true.
Qed.

Lemma clearOf_field (base : list nat) (i : nat) (idx : fieldIndex) n p x :
  clearOf base i idx -> idx !! n = Some p ->
  disjointPaths p (base ++ i :: x) = true.
Proof.
  intros Hc Hn. destruct (Hc n p Hn) as [Hd|(j & rest & -> & Hj)].
  - by apply disjointPaths_app_r.
  - rewrite disjointPaths_app. simpl. rewrite bool_decide_false by lia. done.
Qed.

Lemma clearOf_S (base : list nat) (i : nat) (idx : fieldIndex) :
  clearOf base i idx -> clearOf base (S i) idx.
Proof.
  intros Hc n p Hn. destruct (Hc n p Hn) as [Hd|(j & rest & -> & Hj)];
    [by left|right]. exists j, rest. split; [done|lia].
Qed.

Lemma walk_pathsApart (t : gotype) :
  forall base fl idx,
    pathsApart idx ->
    (forall n p, idx !! n = Some p -> disjointPaths p base = true) ->
    pathsApart (walk t base fl idx)
    /\ (forall n p, walk t base fl idx !! n = Some p ->
          idx !! n = Some p \/ exists j rest, p = base ++ j :: rest).
Proof.
  induction t as [k|n u s IHu|e IHe|e IHe|n e IHe|k e IHk IHe|fs IHfs|]
    using gotype_fields_ind; intros base fl idx Ha Hb;
    try (simpl; split; [done|by left]).
  - by apply IHu.
  - by apply IHe.
  - rewrite walk_TStruct.
    assert (Hc : clearOf base 0 idx) by (intros n p Hn; left; by eapply Hb).
    clear Hb. revert Ha Hc. generalize 0%nat. revert idx.
    induction IHfs as [|[sf ft] fs IHft _ IH]; intros idx i Ha Hc; simpl.
    { split; [done|by left]. }
    assert (Hskip : pathsApart (walkFields base fl fs (S i) idx)
      /\ (forall n p, walkFields base fl fs (S i) idx !! n = Some p ->
            idx !! n = Some p \/ exists j rest, p = base ++ j :: rest)).
    { apply IH; [done|by apply clearOf_S]. }
    destruct (negb (bool_decide (PkgPath sf = [])) && negb (Anonymous sf));
      [done|].
    destruct (parseTag (Tag_db sf)) as [[name inline] omit].
    destruct omit; [done|].
    destruct ((inline || _) && isStruct ft).
    + simpl in IHft.
      destruct (IHft (base ++ [i]) inline idx Ha) as [Ha1 Hnew1].
      { intros n p Hn. by eapply clearOf_field. }
      destruct (IH (walk ft (base ++ [i]) inline idx) (S i) Ha1) as [Ha2 Hnew2].
      { intros n p Hn. destruct (Hnew1 n p Hn) as [Hold|(j & rest & ->)].
        - by apply (clearOf_S _ _ _ Hc n p).
        - right. exists i, (j :: rest). rewrite <- app_assoc. split; [done|lia]. }
      split; [done|]. intros n p Hn.
      destruct (Hnew2 n p Hn) as [Hold|?]; [|by right].
      destruct (Hnew1 n p Hold) as [?|(j & rest & ->)]; [by left|right].
      exists i, (j :: rest). by rewrite <- app_assoc.
    + set (lc := toLowerAscii _). destruct (idx !! lc) eqn:Elc; [done|].
      unfold fieldIndex in *.
      destruct (IH (<[lc := base ++ [i]]> idx) (S i)) as [Ha2 Hnew2].
      { intros n1 n2 p1 p2 H1 H2 Hne. unfold fieldIndex in *.
        destruct (decide (n1 = lc)) as [->|N1]; destruct (decide (n2 = lc)) as [->|N2];
          try done.
        - rewrite lookup_insert_eq in H1. injection H1 as <-.
          rewrite lookup_insert_ne in H2 by done.
          rewrite disjointPaths_sym. by eapply clearOf_field.
        - rewrite lookup_insert_eq in H2. injection H2 as <-.
          rewrite lookup_insert_ne in H1 by done. by eapply clearOf_field.
        - rewrite lookup_insert_ne in H1, H2 by done. by eapply Ha. }
      { intros n p Hn. unfold fieldIndex in *.
        destruct (decide (n = lc)) as [->|N].
        - rewrite lookup_insert_eq in Hn. injection Hn as <-. right.
          exists i, []. split; [done|lia].
        - rewrite lookup_insert_ne in Hn by done.
          by apply (clearOf_S _ _ _ Hc n p). }
      split; [done|]. intros n p Hn.
      destruct (Hnew2 n p Hn) as [Hold|?]; [|by right]. unfold fieldIndex in *.
      destruct (decide (n = lc)) as [->|N].
      * rewrite lookup_insert_eq in Hold. injection Hold as <-. right.
        by exists i, [].
      * rewrite lookup_insert_ne in Hold by done. by left.
Qed.

Lemma buildStructIndex_pathsApart (rt : gotype) : pathsApart (buildStructIndex rt).
Proof.
  apply walk_pathsApart.
  - intros n1 n2 p1 p2 H. unfold fieldIndex in *. by rewrite lookup_empty in H.
  - intros n p H. unfold fieldIndex in *. by rewrite lookup_empty in H.
Qed.

(** *** The plan of a struct type *)

Lemma fieldSteps_stepFor rt idx cols sts :
  fieldSteps rt idx cols = Some sts -> Forall2 (stepFor rt idx) cols sts.
Proof.
  revert sts. induction cols as [|c cols IH]; intros sts H; simpl in H.
  { injection H as <-. constructor. }
  destruct (idx !! c) as [fp|] eqn:Ec.
  - destruct (makeFieldStep rt fp) as [s|] eqn:Es; [|done].
    destruct (fieldSteps rt idx cols) as [sts'|]; [|done].
    injection H as <-. constructor; [|by apply IH].
    unfold stepFor. by rewrite Ec.
  - destruct (fieldSteps rt idx cols) as [sts'|]; [|done].
    injection H as <-. constructor; [|by apply IH].
    unfold stepFor. by rewrite Ec.
Qed.


(** The indexes in the cache of a mapper are those that
    [buildStructIndex] gives. *)
Lemma structIndex_indexCache (m : Mapper) (rt t : gotype) (fi : fieldIndex) :
  (t, fi) ∈ structIndexCache (structIndex m rt).1 ->
  (t, fi) ∈ structIndexCache m \/ fi = buildStructIndex t.
Proof.
  unfold structIndex. destruct (loadIndex m rt); simpl; [by left|].
  intros [[= -> ->]|?]%elem_of_cons; [by right|by left].
Qed.

Lemma getPlan_indexCache (m m' : Mapper) rt cols h r t fi :
  getPlan m rt cols h = Returns (m', r) ->
  (t, fi) ∈ structIndexCache m' ->
  (t, fi) ∈ structIndexCache m \/ fi = buildStructIndex t.
Proof.
  unfold getPlan. destruct (loadPlan m _); [by intros [= <- <-]; left|].
  destruct (isStruct rt).
  - pose proof (structIndex_indexCache m rt t fi) as Hc.
    destruct (structIndex m rt) as [m1 idx]. simpl in Hc.
    destruct (fieldSteps rt idx cols); [|done]. by intros [= <- <-].
  - destruct (implementsScanner rt);
      destruct (negb (bool_decide (length cols = 1%nat)));
      intros [= <- <-]; by left.
Qed.

Lemma reachable_indexCache (m : Mapper) :
  reachable m ->
  forall t fi, (t, fi) ∈ structIndexCache m -> fi = buildStructIndex t.
Proof.
  induction 1 as [|m rt cols h m' r Hm IH Hg|m rt Hm IH]; intros t fi Hin.
  - by apply elem_of_nil in Hin.
  - destruct (getPlan_indexCache _ _ _ _ _ _ _ _ Hg Hin); [by apply IH|done].
  - destruct (structIndex_indexCache _ _ _ _ Hin); [by apply IH|done].
Qed.

Lemma structIndex_reachable (m : Mapper) (rt : gotype) :
  reachable m -> (structIndex m rt).2 = buildStructIndex rt.
Proof.
  intros Hm. unfold structIndex. destruct (loadIndex m rt) as [fi|] eqn:E; [|done].
  apply (load_Some gotype_eqb _ _ _ gotype_eqb_eq) in E.
  by apply (reachable_indexCache m Hm).
Qed.

Lemma planKey_eqb_refl (k : planKey) : planKey_eqb k k = true.
Proof.
  unfold planKey_eqb. rewrite gotype_eqb_refl, Z.eqb_refl.
  by rewrite bool_decide_true.
Qed.





(** ** Stability of the rewriter (C4) *)

Lemma alike_app (seg x y : gostring) : alike x y -> alike (seg ++ x) (seg ++ y).
Proof. intros H. induction seg as [|c seg IH]; [done|]. by constructor. Qed.

Lemma renumbered_app (ph : Placeholder) (arg : nat) (seg t r : gostring) :
  renumbered ph arg t r -> renumbered ph arg (seg ++ t) (seg ++ r).
Proof. intros H. induction seg as [|c seg IH]; [done|]. by constructor. Qed.

Lemma renumbered_alike (ph : Placeholder) (arg : nat) (t r : gostring) :
  ph <> PlaceholderDollar -> renumbered ph arg t r -> alike t r.
Proof.
  intros Hph. induction 1 as [arg|arg c t r _ IH|arg t r _ IH].
  - constructor.
  - by constructor.
  - destruct ph; try done; simpl; constructor; unfold plainHead; auto.
Qed.

Lemma alike_nil_l (y : gostring) : alike [] y -> y = [].
Proof. by inversion 1. Qed.

(** A byte that is no question mark and no head of a marker is at the
    head of both texts or of none. *)
Lemma alike_byteIs (x y : gostring) (c : ascii) :
  alike x y -> c <> "?"%char -> ~ plainHead c ->
  byteIs x 0 c = byteIs y 0 c.
Proof.
  intros H Hq Hp. destruct H as [|c' x y _|h x y Hh]; [done|done|].
  unfold byteIs. simpl. rewrite !bool_decide_false; [done| |congruence].
  intros ->. done.
Qed.

Lemma contByte_ascii (lo hi b : Z) : 0x80 <= lo -> b < 0x80 -> contByte lo hi b = false.
Proof. intros. unfold contByte. apply andb_false_iff. left. lia. Qed.

Lemma plainHead_ascii (h : ascii) : plainHead h -> byteZ h < 0x80.
Proof. by intros [-> | [-> | ->]]. Qed.

(** [utf8.DecodeRuneInString] reads the same rune at the head of two
    such texts behind one byte: the bytes it reads past an ASCII byte
    play no part. *)
Lemma decode_alike (c : ascii) (x y : gostring) :
  alike x y -> DecodeRuneInString (c :: x) = DecodeRuneInString (c :: y).
Proof.
  intros H. unfold DecodeRuneInString.
  destruct (first_cases (byteZ c) (byteZ_range c))
    as [[_ ->]|[[_ ->]|[_ (sz & lo & hi & -> & Hlo & _ & Hsz)]]]; [done|done|].
  assert (Hq : forall lo', 0x80 <= lo' -> contByte lo' hi (byteZ "?") = false
                           /\ contByte lo' hicb (byteZ "?") = false).
  { intros lo' Hl'. split; by apply contByte_ascii. }
  assert (Hh : forall h lo' hi', plainHead h -> 0x80 <= lo' ->
                 contByte lo' hi' (byteZ h) = false).
  { intros h lo' hi' Hp Hl'. apply contByte_ascii; [done|by apply plainHead_ascii]. }
  assert (Hlocb : 0x80 <= locb) by done.
  assert (Hsz' : sz = 2%nat \/ sz = 3%nat \/ sz = 4%nat)
    by (destruct Hsz as [[-> _]|[[-> _]|[-> _]]]; auto).
  clear Hsz.
  assert (Hq2 := proj2 (Hq locb Hlocb)). assert (Hq1 := proj1 (Hq lo Hlo)).
  assert (Hh1 := fun h Hp => Hh h lo hi Hp Hlo).
  assert (Hh2 := fun h Hp => Hh h locb hicb Hp Hlocb).
  clear Hq Hh.
  destruct H as [|c1 x y H|h x y Hp]; [done| |];
    [destruct H as [|c2 x y H|h x y Hp]; [done| |];
     [destruct H as [|c3 x y H|h x y Hp]; [done| |]| ]| ];
    try rewrite Hq1; try rewrite Hq2; try rewrite (Hh1 h Hp);
    try rewrite (Hh2 h Hp);
    destruct Hsz' as [-> | [-> | ->]]; simpl length;
    repeat case_bool_decide; try lia; simpl; try done;
    repeat match goal with |- context [negb ?b] => destruct (negb b) end;
    done.
Qed.

(** *** The skippers on two texts with a common segment *)

Lemma drop_pre {A} (pre t : list A) (k : nat) :
  drop (length pre + k) (pre ++ t) = drop k t.
Proof. by rewrite drop_app_add. Qed.

Lemma lookup_pre {A} (pre t : list A) (k : nat) :
  (pre ++ t) !! (length pre + k)%nat = t !! k.
Proof. by rewrite lookup_app_r, Nat.add_comm, Nat.add_sub by lia. Qed.

Lemma byteIs_pre (pre t : gostring) (k : nat) (c : ascii) :
  byteIs (pre ++ t) (length pre + k) c = byteIs t k c.
Proof. unfold byteIs. by rewrite lookup_pre. Qed.

Lemma byteIs_seg (seg x : gostring) (k : nat) (c : ascii) :
  (k < length seg)%nat -> byteIs (seg ++ x) k c = byteIs seg k c.
Proof. intros. unfold byteIs. by rewrite lookup_app_l. Qed.

Lemma byteIs_end (seg x : gostring) (c : ascii) :
  byteIs (seg ++ x) (length seg) c = byteIs x 0 c.
Proof.
  rewrite <- (Nat.add_0_r (length seg)) at 1. apply byteIs_pre.
Qed.

Lemma byteIs_guard (s : gostring) (i : nat) (c : ascii) :
  bool_decide (i < length s)%nat && byteIs s i c = byteIs s i c.
Proof.
  unfold byteIs. destruct (s !! i) eqn:E; [|by rewrite andb_false_r].
  apply lookup_lt_Some in E. by rewrite bool_decide_true.
Qed.

Lemma skipQuoted_transfer (qc : ascii) (e : bindError)
    (pre1 pre2 seg x y : gostring) :
  qc <> "?"%char -> ~ plainHead qc -> alike x y ->
  forall fuel1 fuel2 k,
    (length seg - k <= fuel2)%nat ->
    skipQuoted_loop qc e fuel1 (pre1 ++ seg ++ x) (length pre1 + k)
      = ((length pre1 + length seg)%nat, None) ->
    skipQuoted_loop qc e fuel2 (pre2 ++ seg ++ y) (length pre2 + k)
      = ((length pre2 + length seg)%nat, None).
Proof.
  intros Hq Hp Hxy. induction fuel1 as [|fuel1 IH]; intros fuel2 k Hf H; [done|].
  pose proof (skipQuoted_loop_bounds _ _ _ _ _ _ H) as [Hk _].
  assert (Hk' : (k < length seg)%nat) by lia. clear Hk.
  destruct fuel2 as [|fuel2]; [lia|]. simpl in H |- *.
  rewrite bool_decide_true in H by (rewrite !length_app; lia).
  rewrite bool_decide_true by (rewrite !length_app; lia).
  rewrite drop_pre, drop_app_le in H |- * by lia.
  destruct (drop k seg) as [|c rest] eqn:Ed.
  { apply (f_equal length) in Ed. rewrite length_drop in Ed. simpl in Ed. lia. }
  simpl app in H |- *.
  rewrite <- (decode_alike c (rest ++ x) (rest ++ y)) by by apply alike_app.
  pose proof (DecodeRune_spec c (rest ++ x)) as [[Hw _] _].
  destruct (DecodeRuneInString (c :: rest ++ x)) as [r w]. simpl in Hw.
  rewrite byteIs_guard in H |- *.
  replace (length pre1 + k + w)%nat with (length pre1 + (k + w))%nat in H by lia.
  replace (length pre2 + k + w)%nat with (length pre2 + (k + w))%nat by lia.
  assert (Hover : forall f i,
    (length pre1 + length seg < i)%nat ->
    skipQuoted_loop qc e f (pre1 ++ seg ++ x) i
      <> ((length pre1 + length seg)%nat, None)).
  { intros f i Hi Hc. apply skipQuoted_loop_bounds in Hc. lia. }
  destruct (r =? rune qc).
  - rewrite byteIs_pre in H |- *.
    destruct (Nat.lt_trichotomy (k + w) (length seg)) as [Hlt|[Heq|Hgt]].
    + rewrite byteIs_seg in H |- * by done.
      destruct (byteIs seg (k + w) qc).
      * replace (length pre1 + (k + w) + 1)%nat
          with (length pre1 + (k + w + 1))%nat in H by lia.
        replace (length pre2 + (k + w) + 1)%nat
          with (length pre2 + (k + w + 1))%nat by lia.
        apply (IH fuel2 (k + w + 1)%nat); [lia|done].
      * injection H as H. lia.
    + rewrite Heq in H |- *. rewrite byteIs_end in H |- *.
      rewrite <- (alike_byteIs x y qc Hxy Hq Hp).
      destruct (byteIs x 0 qc); [|done].
      exfalso. by apply Hover in H; [|lia].
    + exfalso. destruct (byteIs (seg ++ x) (k + w) qc).
      * by apply Hover in H; [|lia].
      * injection H as H. lia.
  - destruct (decide (k + w <= length seg)%nat) as [Hle|Hgt].
    + apply (IH fuel2 (k + w)%nat); [lia|done].
    + exfalso. by apply Hover in H; [|lia].
Qed.

Lemma skipLineComment_end (fuel : nat) (s : gostring) (i : nat) :
  (length s <= i)%nat -> skipLineComment_loop fuel s i = i.
Proof.
  intros Hi. destruct fuel; simpl; [done|]. by rewrite bool_decide_false by lia.
Qed.

Lemma skipLineComment_transfer (pre1 pre2 seg x y : gostring) :
  alike x y ->
  forall fuel1 fuel2 k,
    (k <= length seg)%nat ->
    (length (seg ++ x) - k <= fuel1)%nat ->
    (length (seg ++ y) - k <= fuel2)%nat ->
    skipLineComment_loop fuel1 (pre1 ++ seg ++ x) (length pre1 + k)
      = (length pre1 + length seg)%nat ->
    skipLineComment_loop fuel2 (pre2 ++ seg ++ y) (length pre2 + k)
      = (length pre2 + length seg)%nat.
Proof.
  intros Hxy.
  assert (Hend : forall fuel2, x = [] ->
    skipLineComment_loop fuel2 (pre2 ++ seg ++ y) (length pre2 + length seg)
      = (length pre2 + length seg)%nat).
  { intros fuel2 ->. apply alike_nil_l in Hxy as ->.
    apply skipLineComment_end. rewrite !length_app. simpl. lia. }
  induction fuel1 as [|fuel1 IH]; intros fuel2 k Hk Hf1 Hf2 H.
  - rewrite length_app in Hf1. assert (k = length seg) as -> by lia.
    apply Hend. apply length_zero_iff_nil. lia.
  - simpl in H. rewrite length_app in Hf1, Hf2.
    destruct (decide (k < length seg)%nat) as [Hlt|Hge].
    + destruct fuel2 as [|fuel2]; [lia|]. simpl.
      rewrite bool_decide_true in H by (rewrite !length_app; lia).
      rewrite bool_decide_true by (rewrite !length_app; lia).
      rewrite byteIs_pre, byteIs_seg in H |- * by done.
      destruct (byteIs seg k "010"); [lia|].
      replace (length pre1 + k + 1)%nat
        with (length pre1 + (k + 1))%nat in H by lia.
      replace (length pre2 + k + 1)%nat
        with (length pre2 + (k + 1))%nat by lia.
      apply (IH fuel2 (k + 1)%nat); rewrite ?length_app; try lia; done.
    + assert (k = length seg) as -> by lia.
      destruct x as [|c x]; [by apply Hend|]. exfalso.
      rewrite bool_decide_true in H by (rewrite !length_app; simpl; lia).
      destruct (byteIs _ _ _); [lia|].
      pose proof (skipLineComment_loop_bounds fuel1 (pre1 ++ seg ++ c :: x)
                    (length pre1 + length seg + 1)) as Hb.
      rewrite !length_app in Hb. simpl in Hb. lia.
Qed.

Lemma skipBlockComment_transfer (pre1 pre2 seg x y : gostring) :
  forall fuel1 fuel2 k,
    (length seg - k <= fuel2)%nat ->
    skipBlockComment_loop fuel1 (pre1 ++ seg ++ x) (length pre1 + k)
      = ((length pre1 + length seg)%nat, None) ->
    skipBlockComment_loop fuel2 (pre2 ++ seg ++ y) (length pre2 + k)
      = ((length pre2 + length seg)%nat, None).
Proof.
  induction fuel1 as [|fuel1 IH]; intros fuel2 k Hf H; [done|].
  pose proof (skipBlockComment_loop_bounds _ _ _ _ H) as [Hk _].
  destruct fuel2 as [|fuel2]; [lia|]. simpl in H |- *.
  rewrite bool_decide_true in H by (rewrite !length_app; lia).
  rewrite bool_decide_true by (rewrite !length_app; lia).
  replace (length pre1 + k + 1)%nat with (length pre1 + (k + 1))%nat in H by lia.
  replace (length pre2 + k + 1)%nat with (length pre2 + (k + 1))%nat by lia.
  rewrite !byteIs_pre, !byteIs_seg in H |- * by lia.
  destruct (byteIs seg k "*" && byteIs seg (k + 1) "/").
  - injection H as H. f_equal. lia.
  - apply (IH fuel2 (k + 1)%nat); [lia|done].
Qed.

(** *** Dollar quotes *)

Lemma tagLen_le (t : gostring) : (tagLen t <= length t)%nat.
Proof.
  induction t as [|c t IH]; simpl; [done|].
  destruct (negb _ && _); lia.
Qed.

Lemma tagEnd_loop_tagLen (fuel : nat) (s : gostring) (j : nat) :
  (tagLen (drop j s) <= fuel)%nat ->
  tagEnd_loop fuel s j = (j + tagLen (drop j s))%nat.
Proof.
  revert j. induction fuel as [|fuel IH]; intros j Hf; simpl.
  { lia. }
  destruct (s !! j) as [c|] eqn:E.
  - apply drop_S in E as Ed. rewrite Ed in Hf |- *. simpl in Hf |- *.
    destruct (negb _ && _); [|lia].
    replace (j + 1)%nat with (S j) by lia. rewrite IH by lia. lia.
  - rewrite drop_ge by by apply lookup_ge_None. simpl. lia.
Qed.

Lemma byteIs_lt (s : gostring) (j : nat) (c : ascii) :
  byteIs s j c = true -> (j < length s)%nat.
Proof.
  unfold byteIs. destruct (s !! j) eqn:E; [|done]. intros _.
  by eapply lookup_lt_Some.
Qed.

Lemma skipDollarQuoted_dollarQuoted (pre t : gostring) :
  skipDollarQuoted (pre ++ t) (length pre)
  = match dollarQuoted t with
    | (j, true, None) => ((length pre + j)%nat, true, None)
    | r => r
    end.
Proof.
  unfold skipDollarQuoted, dollarQuoted.
  rewrite <- (Nat.add_0_r (length pre)) at 1. rewrite byteIs_pre.
  destruct t as [|c t]; [done|]. unfold byteIs at 1. simpl lookup.
  cbv beta iota.
  destruct (bool_decide (c = "$"%char)) eqn:Ec; simpl negb; cbv iota; [|done].
  rewrite tagEnd_loop_tagLen;
    rewrite (drop_pre pre (c :: t) 1); change (drop 1 (c :: t)) with (drop 0 t);
    rewrite drop_0;
    [|rewrite length_app; pose proof (tagLen_le t); simpl; lia].
  set (n := tagLen t).
  replace (length pre + 1 + n)%nat with (length pre + S n)%nat by lia.
  rewrite byteIs_pre.
  change (byteIs (c :: t) (S n) "$") with (byteIs t n "$").
  destruct (byteIs t n "$") eqn:En.
  - apply byteIs_lt in En as Hn.
    rewrite bool_decide_false by (rewrite length_app; simpl; lia).
    simpl negb. cbv iota. simpl orb. cbv iota.
    replace (length pre + S n + 1 - length pre)%nat with (n + 2)%nat by lia.
    rewrite !drop_app_length.
    replace (length pre + S n + 1)%nat with (length pre + (n + 2))%nat by lia.
    rewrite drop_pre.
    destruct (strings_Index _ _); [|done]. do 2 f_equal. lia.
  - by rewrite orb_true_r.
Qed.

Lemma plainHead_not_tag (h : ascii) :
  plainHead h -> negb (bool_decide (h = "$"%char)) && isTagByte h = false.
Proof. by intros [-> | [-> | ->]]. Qed.

(** The loop over the tag bytes stops at the same place in two such
    texts, and at a dollar sign in both or in none. *)
Lemma alike_tagLen (x y : gostring) :
  alike x y ->
  tagLen x = tagLen y /\ byteIs x (tagLen x) "$" = byteIs y (tagLen x) "$".
Proof.
  induction 1 as [|c x y _ [IH1 IH2]|h x y Hh]; cbn [tagLen].
  - done.
  - destruct (negb _ && _); [|done]. split; [by rewrite IH1|].
    unfold byteIs in *. simpl. exact IH2.
  - rewrite (plainHead_not_tag h Hh).
    rewrite (plainHead_not_tag "?"%char) by (unfold plainHead; auto).
    split; [done|]. by destruct Hh as [-> | [-> | ->]].
Qed.

Lemma hasPrefix_local (a x y sub : gostring) :
  (length sub <= length a)%nat ->
  hasPrefix (a ++ x) sub = hasPrefix (a ++ y) sub.
Proof.
  intros Hl. unfold hasPrefix.
  rewrite (bool_decide_true (_ <= length (a ++ x))%nat) by (rewrite length_app; lia).
  rewrite (bool_decide_true (_ <= length (a ++ y))%nat) by (rewrite length_app; lia).
  by rewrite !take_app_le by done.
Qed.

Lemma strings_Index_unfold (s sub : gostring) :
  strings_Index s sub
  = if hasPrefix s sub then Some 0%nat
    else match s with
         | [] => None
         | _ :: t => S <$> strings_Index t sub
         end.
Proof. by destruct s. Qed.

(** [strings.Index] looks at the text up to the end of the first match
    only. *)
Lemma strings_Index_local (a x y sub : gostring) (idx : nat) :
  strings_Index (a ++ x) sub = Some idx ->
  (idx + length sub <= length a)%nat ->
  strings_Index (a ++ y) sub = Some idx.
Proof.
  revert idx. induction a as [|c a IH]; intros idx H Hl.
  - simpl in Hl. assert (sub = []) as -> by (apply length_zero_iff_nil; lia).
    assert (idx = 0%nat) as -> by lia. by destruct y.
  - rewrite strings_Index_unfold in H |- *.
    rewrite <- (hasPrefix_local (c :: a) x y sub) by lia.
    destruct (hasPrefix _ sub); [done|]. simpl in H |- *.
    destruct (strings_Index (a ++ x) sub) as [idx'|] eqn:E; [|done].
    injection H as <-. simpl in Hl. by rewrite (IH idx') by (done || lia).
Qed.

(** A dollar sign that opens no dollar quote opens none in the other
    text. *)
Lemma dollarQuoted_not (c : ascii) (x y : gostring) :
  alike x y ->
  (dollarQuoted (c :: x)).1.2 = false ->
  dollarQuoted (c :: y) = (0%nat, false, None).
Proof.
  intros Hxy. unfold dollarQuoted.
  destruct (negb (bool_decide (c = "$"%char))); [done|].
  destruct (alike_tagLen x y Hxy) as [<- <-].
  destruct (negb (byteIs x (tagLen x) "$")); [done|].
  by destruct (strings_Index _ _).
Qed.

(** A dollar quote is the same dollar quote before another text. *)
Lemma dollarQuoted_transfer (seg x y : gostring) :
  alike x y ->
  dollarQuoted (seg ++ x) = (length seg, true, None) ->
  dollarQuoted (seg ++ y) = (length seg, true, None).
Proof.
  intros Hxy. destruct seg as [|c seg].
  { simpl. unfold dollarQuoted. destruct x as [|c x]; [done|].
    destruct (negb _); [done|]. destruct (negb _); [done|].
    destruct (strings_Index _ _); [|done]. intros [= H]. lia. }
  simpl app. unfold dollarQuoted.
  destruct (negb (bool_decide (c = "$"%char))); [done|].
  destruct (alike_tagLen (seg ++ x) (seg ++ y) (alike_app seg x y Hxy)) as [<- <-].
  set (n := tagLen (seg ++ x)).
  destruct (negb (byteIs (seg ++ x) n "$")); [done|].
  destruct (strings_Index (drop (n + 2) (c :: seg ++ x)) _) as [idx|] eqn:E;
    [|done].
  intros [= H]. simpl length in H.
  assert (Hn : (n + 2 <= S (length seg))%nat) by lia.
  assert (Htag : take (n + 2) (c :: seg ++ y) = take (n + 2) (c :: seg ++ x)).
  { rewrite !app_comm_cons, !take_app_le by (simpl; lia). done. }
  rewrite Htag.
  rewrite !app_comm_cons, drop_app_le in E |- * by (simpl; lia).
  change (take (n + 2) ((c :: seg) ++ x)) with (take (n + 2) (c :: seg ++ x)) in E.
  rewrite (strings_Index_local _ x y _ idx E).
  - simpl length. f_equal. f_equal. lia.
  - rewrite length_drop. simpl length. lia.
Qed.

(** *** One iteration of the rewriter on two texts with a common segment *)

Lemma decode_head_ascii (c : ascii) (t : gostring) (r : Z) (w : nat) :
  DecodeRuneInString (c :: t) = (r, w) -> r < 0x80 -> r = byteZ c /\ w = 1%nat.
Proof.
  intros H Hr. destruct (DecodeRune_spec c t) as (_ & Hlow & Hhigh).
  destruct (Z.lt_ge_cases (byteZ c) 0x80) as [Hc|Hc].
  - rewrite (Hlow Hc) in H. by injection H as <- <-.
  - destruct (Hhigh Hc) as [Hge _]. rewrite H in Hge. simpl in Hge. lia.
Qed.

Lemma skipQuoted_loop_err q e fuel s i j e' :
  skipQuoted_loop q e fuel s i = (j, Some e') -> j = 0%nat.
Proof.
  revert i. induction fuel as [|fuel IH]; intros i; simpl; [by intros [= <-]|].
  case_bool_decide; [|by intros [= <-]].
  destruct (DecodeRuneInString (drop i s)) as [r w].
  destruct (r =? rune q); [|apply IH].
  destruct (_ && _); [apply IH|done].
Qed.

Lemma skipBlockComment_loop_err fuel s i j e' :
  skipBlockComment_loop fuel s i = (j, Some e') -> j = 0%nat.
Proof.
  revert i. induction fuel as [|fuel IH]; intros i; simpl; [by intros [= <-]|].
  case_bool_decide; [|by intros [= <-]].
  destruct (_ && _); [done|apply IH].
Qed.

Lemma slice_mid (pre seg y : gostring) :
  slice (pre ++ seg ++ y) (length pre) (length pre + length seg) = Some seg.
Proof.
  unfold slice. rewrite bool_decide_true by (rewrite !length_app; lia).
  rewrite drop_app_length. f_equal.
  replace (length pre + length seg - length pre)%nat with (length seg) by lia.
  by rewrite take_app_length.
Qed.

Lemma hasPrefix_two (c a b : ascii) (x : gostring) :
  hasPrefix (c :: x) [a; b] = bool_decide (c = a) && byteIs x 0 b.
Proof.
  unfold hasPrefix, byteIs. destruct x as [|d x]; simpl; rewrite ?take_0;
    repeat case_bool_decide; simplify_eq; simpl in *; try done; lia.
Qed.

(** What [copyTo] says of the index it is given. *)
Lemma copyTo_inv (s : gostring) (i j arg : nat) (out : gostring)
    (j' arg' : nat) (out' : gostring) :
  match slice s i j with
  | Some seg => Continue (j, arg, out ++ seg)
  | None => @Break (nat * nat * gostring) (run gostring) Panics
  end = Continue (j', arg', out') ->
  j = j'.
Proof. destruct (slice s i j); [by intros [= <- _ _]|done]. Qed.

Lemma hasPrefix_alike (c a b : ascii) (seg' x y : gostring) :
  alike x y -> b <> "?"%char -> ~ plainHead b ->
  hasPrefix ((c :: seg') ++ y) [a; b] = hasPrefix ((c :: seg') ++ x) [a; b].
Proof.
  intros Hxy Hb Hp. destruct seg' as [|d seg'].
  - simpl. rewrite !hasPrefix_two. by rewrite (alike_byteIs x y b).
  - apply hasPrefix_local. simpl. lia.
Qed.

Lemma dollarQuoted_err (t : gostring) j ok e :
  dollarQuoted t = (j, ok, Some e) -> j = 0%nat.
Proof.
  unfold dollarQuoted. destruct t as [|c t]; [done|].
  destruct (negb _); [done|]. destruct (negb _); [done|].
  destruct (strings_Index _ _); [done|]. by intros [= <- _ _].
Qed.

Ltac quote_case H Hxy pre1 pre2 seg x y w :=
  apply copyTo_inv in H;
  match type of H with
  | (?f ?s ?i).1 = _ =>
    let j1 := fresh "j" in let e1 := fresh "e" in let Es := fresh "Es" in
    destruct (f s i) as [j1 e1] eqn:Es; simpl in H; subst j1;
    destruct e1 as [e1|]; [apply skipQuoted_loop_err in Es; lia|];
    unfold f in Es |- *;
    rewrite (fun a b => skipQuoted_transfer _ _ pre1 pre2 seg x y a b Hxy
                          _ (length (pre2 ++ seg ++ y)) w
                          ltac:(rewrite !length_app; lia) Es);
    [simpl; by rewrite slice_mid|done|by intros [?|[?|?]]]
  end.

(** An iteration that copies the segment [seg] copies it as well where
    the text behind the segment is another one of the same kind. *)
Lemma body_transfer (ph : Placeholder) (pre1 pre2 seg x y : gostring)
    (arg arg' arg2 : nat) (out out' out2 : gostring) (c : ascii)
    (seg' : gostring) :
  alike x y -> seg = c :: seg' -> c <> "?"%char ->
  rewritePlaceholders_body (pre1 ++ seg ++ x) ph (length pre1) arg out
    = Continue ((length pre1 + length seg)%nat, arg', out') ->
  rewritePlaceholders_body (pre2 ++ seg ++ y) ph (length pre2) arg2 out2
    = Continue ((length pre2 + length seg)%nat, arg2, out2 ++ seg).
Proof.
  intros Hxy Hseg Hc H.
  assert (Hlen : (1 <= length seg)%nat) by (subst seg; simpl; lia).
  unfold rewritePlaceholders_body in H |- *.
  rewrite bool_decide_true in H by (rewrite !length_app; lia).
  rewrite bool_decide_true by (rewrite !length_app; lia).
  rewrite !drop_app_length in H |- *.
  assert (Hdec : DecodeRuneInString (seg ++ y) = DecodeRuneInString (seg ++ x)).
  { subst seg. simpl. symmetry. apply decode_alike. by apply alike_app. }
  rewrite Hdec.
  assert (Hp1 : hasPrefix (seg ++ y) "--" = hasPrefix (seg ++ x) "--").
  { subst seg. apply hasPrefix_alike; [done|done|by intros [?|[?|?]]]. }
  assert (Hp2 : hasPrefix (seg ++ y) "/*" = hasPrefix (seg ++ x) "/*").
  { subst seg. apply hasPrefix_alike; [done|done|by intros [?|[?|?]]]. }
  rewrite Hp1, Hp2. clear Hp1 Hp2.
  rewrite !skipDollarQuoted_dollarQuoted in H |- *.
  destruct (DecodeRuneInString (seg ++ x)) as [r w] eqn:Ed.
  assert (Hascii : r < 0x80 -> r = byteZ c /\ w = 1%nat).
  { subst seg. apply (decode_head_ascii _ _ _ _ Ed). }
  cbv zeta in H |- *.
  destruct (r =? rune "'"); [quote_case H Hxy pre1 pre2 seg x y w|].
  destruct (r =? rune dquote); [quote_case H Hxy pre1 pre2 seg x y w|].
  destruct (r =? rune "`"); [quote_case H Hxy pre1 pre2 seg x y w|].
  destruct ((r =? rune "-") && hasPrefix (seg ++ x) "--") eqn:E4.
  { apply andb_true_iff in E4 as [_ E4]. apply hasPrefix_length in E4.
    rewrite length_app in E4. simpl in E4.
    apply copyTo_inv in H. unfold skipLineComment in H |- *.
    pose proof (skipLineComment_loop_bounds (length (pre1 ++ seg ++ x))
                  (pre1 ++ seg ++ x) (length pre1 + 2)) as Hb.
    rewrite H, !length_app in Hb.
    rewrite (skipLineComment_transfer pre1 pre2 seg x y Hxy
               (length (pre1 ++ seg ++ x)) _ 2); rewrite ?length_app; try lia.
    - by rewrite slice_mid.
    - rewrite <- H. by rewrite !length_app. }
  destruct ((r =? rune "/") && hasPrefix (seg ++ x) "/*") eqn:E5.
  { apply copyTo_inv in H. unfold skipBlockComment in H |- *.
    destruct (skipBlockComment_loop _ (pre1 ++ seg ++ x) _) as [j1 e1] eqn:Es.
    simpl in H. subst j1.
    destruct e1 as [e1|]; [apply skipBlockComment_loop_err in Es; lia|].
    rewrite (skipBlockComment_transfer pre1 pre2 seg x y _
               (length (pre2 ++ seg ++ y)) 2 ltac:(rewrite !length_app; lia) Es).
    simpl. by rewrite slice_mid. }
  assert (Hplain : forall w', w' = w ->
    match slice (pre1 ++ seg ++ x) (length pre1) (length pre1 + w') with
    | Some seg0 => Continue ((length pre1 + w')%nat, arg, out ++ seg0)
    | None => @Break (nat * nat * gostring) (run gostring) Panics
    end = Continue ((length pre1 + length seg)%nat, arg', out') ->
    match slice (pre2 ++ seg ++ y) (length pre2) (length pre2 + w) with
    | Some seg0 => Continue ((length pre2 + w)%nat, arg2, out2 ++ seg0)
    | None => @Break (nat * nat * gostring) (run gostring) Panics
    end = Continue ((length pre2 + length seg)%nat, arg2, out2 ++ seg)).
  { intros w' -> Hw. apply copyTo_inv in Hw.
    assert (w = length seg) as -> by lia. by rewrite slice_mid. }
  assert (Hquest : (r =? rune "?") = false).
  { apply Z.eqb_neq. intros Hr. destruct Hascii as [Hrc _]; [by rewrite Hr|].
    apply Hc. apply byteZ_inj. by rewrite <- Hrc, Hr. }
  rewrite Hquest in H |- *.
  destruct (Z.eqb_spec r (rune "$")) as [Hr|Hr]; simpl andb in H |- *;
    [|by apply (Hplain w)].
  destruct Hascii as [Hrc ->]; [by rewrite Hr|].
  assert (c = "$"%char) as -> by (apply byteZ_inj; by rewrite <- Hrc, Hr).
  destruct (dollarQuoted (seg ++ x)) as [[j1 ok1] e1] eqn:ED1.
  destruct ok1.
  - destruct e1 as [e1|].
    + apply dollarQuoted_err in ED1 as ->. simpl in H.
      apply copyTo_inv in H. lia.
    + simpl in H. apply copyTo_inv in H.
      assert (j1 = length seg) as -> by lia.
      rewrite (dollarQuoted_transfer seg x y Hxy ED1). simpl.
      by rewrite slice_mid.
  - subst seg. simpl app in ED1 |- *.
    rewrite (dollarQuoted_not "$" (seg' ++ x) (seg' ++ y)); 
      [|by apply alike_app|by rewrite ED1].
    simpl. simpl in H. by apply (Hplain 1%nat).
Qed.

(** *** A second pass over the output *)

Lemma stable_nil (ph : Placeholder) : stable ph [].
Proof.
  intros pre arg out fuel Hf. destruct fuel as [|fuel]; [simpl in Hf; lia|].
  simpl. rewrite rewritePlaceholders_body_end by (rewrite length_app; simpl; lia).
  by rewrite app_nil_r.
Qed.

Lemma stable_seg (ph : Placeholder) (seg r : gostring) :
  seg <> [] ->
  (forall pre arg out, exists arg',
     rewritePlaceholders_body (pre ++ seg ++ r) ph (length pre) arg out
       = Continue ((length pre + length seg)%nat, arg', out ++ seg)) ->
  stable ph r -> stable ph (seg ++ r).
Proof.
  intros Hseg Hbody Hr pre arg out fuel Hf.
  destruct fuel as [|fuel]; [lia|]. simpl.
  destruct (Hbody pre arg out) as [arg' ->].
  rewrite length_app in Hf.
  assert (0 < length seg)%nat by (destruct seg; [done|simpl; lia]).
  rewrite (app_assoc pre seg r), <- (length_app pre seg), (app_assoc out seg r).
  apply Hr. lia.
Qed.

Lemma stable_inert (ph : Placeholder) (c : ascii) (r : gostring) :
  inertByte c -> stable ph r -> stable ph (c :: r).
Proof.
  intros [Hc Ht] Hr. apply (stable_seg ph [c] r); [done| |done].
  intros pre arg out. exists arg.
  destruct (DecodeRune_spec c r) as (_ & Hlow & _).
  assert (Hd : DecodeRuneInString (drop (length pre) (pre ++ [c] ++ r))
               = (byteZ c, 1%nat)).
  { rewrite drop_app_length. by apply Hlow. }
  rewrite rewritePlaceholders_body_plain; rewrite ?Hd; cbn [fst snd].
  - rewrite drop_app_length. simpl. by rewrite take_0.
  - rewrite length_app. simpl. lia.
  - done.
Qed.

Lemma stable_inert_app (ph : Placeholder) (seg r : gostring) :
  Forall inertByte seg -> stable ph r -> stable ph (seg ++ r).
Proof.
  intros Hs Hr. induction Hs as [|c seg Hc _ IH]; [done|].
  by apply stable_inert.
Qed.

Lemma digitByte_inert (c : ascii) : digitByte c -> inertByte c.
Proof.
  unfold digitByte, inertByte, rewriterTrigger. intros H. split; [lia|].
  repeat match goal with
         | |- context [byteZ c =? ?k] =>
           destruct (Z.eqb_spec (byteZ c) k) as [E|_];
             [exfalso; let v := eval vm_compute in k in change k with v in E; lia|]
         end.
  done.
Qed.

Lemma string_of_uint_digits (d : Decimal.uint) :
  Forall digitByte (str (NilZero.string_of_uint d)).
Proof.
  assert (Hd : forall c r, (48 <=? byteZ c) = true -> (byteZ c <=? 57) = true ->
                 Forall digitByte r -> Forall digitByte (c :: r)).
  { intros c r H1 H2 Hr. constructor; [|done]. unfold digitByte. lia. }
  assert (H : Forall digitByte (str (NilEmpty.string_of_uint d))).
  { induction d; simpl; [constructor|..]; by apply Hd. }
  destruct d; try exact H. apply Hd; [done|done|constructor].
Qed.

Lemma itoa_inert (n : nat) : Forall inertByte (itoa n).
Proof.
  eapply Forall_impl; [apply string_of_uint_digits|]. apply digitByte_inert.
Qed.

Lemma body_question (q : gostring) (ph : Placeholder) (i arg : nat)
    (out t : gostring) :
  drop i q = "?"%char :: t ->
  rewritePlaceholders_body q ph i arg out
  = Continue ((i + 1)%nat, (arg + 1)%nat, out ++ marker ph arg).
Proof.
  intros Hd. unfold rewritePlaceholders_body.
  destruct (drop_cons_lookup _ _ _ _ Hd) as (_ & _ & Hi).
  rewrite bool_decide_true by done.
  rewrite (decode_ascii_drop q i "?" t Hd) by done.
  eval_rune_tests. reflexivity.
Qed.

(** The markers that are no dollar markers are copied by the rewriter. *)
Lemma stable_marker (ph : Placeholder) (arg : nat) (r : gostring) :
  ph <> PlaceholderDollar -> stable ph r -> stable ph (marker ph arg ++ r).
Proof.
  intros Hph Hr.
  assert (Hq : stable ph r -> marker ph arg = ["?"%char] ->
               stable ph (marker ph arg ++ r)).
  { intros _ Hm. rewrite Hm. apply (stable_seg ph ["?"%char] r); [done| |done].
    intros pre arg0 out. exists (arg0 + 1)%nat.
    rewrite (body_question _ ph _ arg0 out r) by by rewrite drop_app_length.
    assert (marker ph arg0 = ["?"%char]) as -> by by destruct ph.
    done. }
  destruct ph; try done; try (by apply Hq).
  - (* @p1 *)
    simpl. apply stable_inert; [done|]. apply stable_inert; [done|].
    apply stable_inert_app; [apply itoa_inert|done].
  - (* :1 *)
    simpl. apply stable_inert; [done|].
    apply stable_inert_app; [apply itoa_inert|done].
Qed.

(** The two kinds of iterations that go on: a question mark gives a
    marker, anything else is copied up to some index. *)
Lemma body_cases (q : gostring) (ph : Placeholder) (i arg : nat)
    (out : gostring) (j arg' : nat) (out' : gostring) :
  rewritePlaceholders_body q ph i arg out = Continue (j, arg', out') ->
  (exists t, drop i q = "?"%char :: t /\ j = (i + 1)%nat /\ arg' = (arg + 1)%nat
             /\ out' = out ++ marker ph arg)
  \/ (exists c t, drop i q = c :: t /\ c <> "?"%char /\ arg' = arg
                  /\ (i <= j <= length q)%nat
                  /\ out' = out ++ take (j - i) (drop i q)).
Proof.
  intros H. destruct (decide (i < length q)%nat) as [Hi|Hi];
    [|by rewrite rewritePlaceholders_body_end in H by lia].
  destruct (drop i q) as [|c t] eqn:Hd.
  { apply (f_equal length) in Hd. rewrite length_drop in Hd. simpl in Hd. lia. }
  destruct (decide (c = "?"%char)) as [->|Hc].
  { left. rewrite (body_question q ph i arg out t Hd) in H.
    injection H as <- <- <-. by exists t. }
  right. exists c, t. split; [done|]. split; [done|].
  unfold rewritePlaceholders_body in H. rewrite bool_decide_true in H by done.
  rewrite Hd in H.
  destruct (DecodeRuneInString (c :: t)) as [r w] eqn:Ed.
  assert (Hquest : (r =? rune "?") = false).
  { apply Z.eqb_neq. intros Hr.
    destruct (decode_head_ascii _ _ _ _ Ed) as [Hrc _]; [by rewrite Hr|].
    apply Hc. apply byteZ_inj. by rewrite <- Hrc, Hr. }
  rewrite Hquest in H. cbv zeta in H.
  assert (Hcopy : forall j0,
    match slice q i j0 with
    | Some seg => Continue (j0, arg, out ++ seg)
    | None => @Break (nat * nat * gostring) (run gostring) Panics
    end = Continue (j, arg', out') ->
    arg' = arg /\ (i <= j <= length q)%nat
    /\ out' = out ++ take (j - i) (c :: t)).
  { intros j0. unfold slice. case_bool_decide; [|done].
    intros [= <- <- <-]. by rewrite Hd. }
  repeat match type of H with
         | (if ?b then _ else _) = _ => destruct b
         end; by apply Hcopy in H.
Qed.

Lemma renumbered_refl (ph : Placeholder) (arg : nat) (t : gostring) :
  renumbered ph arg t t.
Proof. induction t; by constructor. Qed.

(** What the rewriter adds to [out] from the index [i] on: the rest of
    the query with its question marks replaced, a text that the rewriter
    copies unless the dialect is the dollar dialect. *)
Lemma rewritePlaceholders_loop_stable (q : gostring) (ph : Placeholder)
    (fuel i arg : nat) (out res : gostring) :
  (i <= length q)%nat ->
  rewritePlaceholders_loop fuel q ph i arg out = Returns res ->
  exists r, res = out ++ r
    /\ renumbered ph arg (drop i q) r
    /\ (ph <> PlaceholderDollar -> stable ph r).
Proof.
  revert i arg out. induction fuel as [|fuel IH]; intros i arg out Hi H; [done|].
  simpl in H.
  destruct (rewritePlaceholders_body q ph i arg out) as [[[j arg'] out']|r0] eqn:Hb.
  - destruct (body_cases _ _ _ _ _ _ _ _ Hb)
      as [(t & Hd & -> & -> & ->)|(c & t & Hd & Hc & -> & Hj & ->)].
    + destruct (drop_cons_lookup _ _ _ _ Hd) as (_ & Hd' & Hlt).
      assert (Hi' : (i + 1 <= length q)%nat) by lia.
      destruct (IH _ _ _ Hi' H) as (r & -> & Hren & Hst).
      exists (marker ph arg ++ r). split; [by rewrite app_assoc|].
      rewrite Hd. replace (i + 1)%nat with (S i) in Hren by lia.
      rewrite Hd' in Hren. replace (arg + 1)%nat with (S arg) in Hren by lia.
      split; [by constructor|]. intros Hph. by apply stable_marker; [|apply Hst].
    + destruct (IH _ _ _ (proj2 Hj) H) as (r & -> & Hren & Hst).
      set (seg := take (j - i) (drop i q)) in *.
      assert (Hsplit : drop i q = seg ++ drop j q).
      { unfold seg. rewrite <- (take_drop (j - i) (drop i q)) at 1.
        rewrite drop_drop. by replace (i + (j - i))%nat with j by lia. }
      assert (Hlen : length seg = (j - i)%nat).
      { unfold seg. rewrite length_take, length_drop. lia. }
      exists (seg ++ r). split; [by rewrite app_assoc|].
      rewrite Hsplit. split; [by apply renumbered_app|].
      intros Hph. destruct seg as [|c' seg'] eqn:Eseg; [by apply Hst|].
      rewrite <- Eseg in *. apply stable_seg; [by rewrite Eseg| |by apply Hst].
      intros pre2 arg2 out2. exists arg2.
      assert (c' = c) as ->.
      { rewrite Hd, Eseg in Hsplit. by injection Hsplit as ->. }
      apply (body_transfer ph (take i q) pre2 seg (drop j q) r arg arg arg2
               out (out ++ seg) out2 c seg'); [|done|done|].
      * by eapply renumbered_alike.
      * rewrite <- Hsplit, take_drop, length_take_le, Hlen by lia.
        replace (i + (j - i))%nat with j by lia. exact Hb.
  - destruct (decide (i < length q)%nat) as [Hlt|Hge].
    + exfalso. unfold rewritePlaceholders_body in Hb.
      rewrite bool_decide_true in Hb by done.
      destruct (DecodeRuneInString (drop i q)) as [r w]. cbv zeta in Hb.
      subst r0.
      repeat match type of Hb with
             | (if ?b then _ else _) = _ => destruct b
             | match slice ?s ?a ?b with _ => _ end = _ => destruct (slice s a b)
             end; discriminate.
    + rewrite rewritePlaceholders_body_end in Hb by lia. injection Hb as <-.
      injection H as <-. exists []. rewrite app_nil_r, drop_ge by lia.
      split; [done|]. split; [constructor|]. intros _. apply stable_nil.
Qed.

(** *** A plan cached for other columns *)


(** ** The plan cache between scans *)

(** What [getPlan] has answered it answers again, and the caches stay
    as the first call left them. *)
Lemma getPlan_again (m m' : Mapper) rt cols h r :
  getPlan m rt cols h = Returns (m', r) ->
  getPlan m' rt cols h = Returns (m', r).
Proof.
  unfold getPlan.
  destruct (loadPlan m _) as [p|] eqn:Hl.
  { intros [= <- <-]. by rewrite Hl. }
  assert (Hput : forall m0 p,
    loadPlan {| planCache := ({| key_rt := rt; key_hash := h;
                                 key_ncols := length cols |}, p) :: planCache m0;
                structIndexCache := structIndexCache m0 |}
             {| key_rt := rt; key_hash := h; key_ncols := length cols |} = Some p).
  { intros m0 p. unfold loadPlan. simpl. by rewrite planKey_eqb_refl. }
  destruct (isStruct rt).
  - destruct (structIndex m rt) as [m1 idx].
    destruct (fieldSteps rt idx cols) as [sts|]; [|done].
    intros [= <- <-]. by rewrite Hput.
  - destruct (implementsScanner rt).
    + destruct (negb _) eqn:E; intros [= <- <-]; [by rewrite Hl|].
      by rewrite Hput.
    + destruct (negb _) eqn:E; intros [= <- <-]; [by rewrite Hl|].
      by rewrite Hput.
Qed.

Lemma scanWithMapper_again conv (m m' : Mapper) rt cols vals x :
  scanWithMapper conv m rt {| Columns := cols; Values := vals |}
    = Returns (m', x) ->
  scanWithMapper conv m' rt {| Columns := cols; Values := vals |}
    = Returns (m', x)
  /\ forall vals' m'' y,
       scanWithMapper conv m' rt {| Columns := cols; Values := vals' |}
         = Returns (m'', y) -> m'' = m'.
Proof.
  unfold scanWithMapper. simpl. destruct cols as [cols|].
  2:{ intros [= <- <-]. split; [done|]. by intros vals' m'' y [= <- _]. }
  case_bool_decide.
  { intros [= <- <-]. split; [done|]. by intros vals' m'' y [= <- _]. }
  destruct (getPlan m rt _ _) as [[m1 r]| |] eqn:Hg; simpl; [|done|done].
  pose proof (getPlan_again _ _ _ _ _ _ Hg) as Hg'.
  destruct r as [pl|err].
  - destruct (destPtrs pl (zeroValue rt)) as [[[dests finals] st]|] eqn:Hd; [|done].
    assert (Hlater : forall vals' m'' y,
      match rowsScan conv dests vals' st with
      | Some st0 =>
        match cleanup finals st0 with
        | Some st1 => Returns (m1, (s_root st1, None))
        | None => Panics
        end
      | None => Returns (m1, (zeroValue rt, Some ErrRowsScan))
      end = Returns (m'', y) -> m'' = m1).
    { intros vals' m'' y. destruct (rowsScan conv dests vals' st); [|by intros [= <- _]].
      destruct (cleanup finals _); [by intros [= <- _]|done]. }
    intros Hs. assert (m1 = m') as -> by (symmetry; by eapply Hlater).
    rewrite Hg'. simpl. rewrite Hd. split; [done|]. apply Hlater.
  - intros [= <- <-]. rewrite Hg'. simpl. split; [done|].
    by intros vals' m'' y [= <- _].
Qed.

(** ** The errors of [Rebind] *)

Lemma addStructFields_VStruct (U : UnicodeTables) dst t vals :
  addStructFields U dst (VStruct t vals) = structFields U dst (Fields t) vals.
Proof. reflexivity. Qed.

(** [addStructFields] has one error: the duplicate key. *)
Lemma addStructFields_error (U : UnicodeTables) (v : value) :
  (forall dst dst' e,
     addStructFields U dst v = Returns (dst', Some e) ->
     exists k, e = ErrDuplicateKeyTag k)
  /\ (forall dst ft dst' e,
        embeddedWalk U dst ft v = Some (Returns (dst', Some e)) ->
        exists k, e = ErrDuplicateKeyTag k).
Proof.
  induction v as [| | | | |t x [_ IHx]|t xs _|t xs _|t es|t vals IH|]
    using value_fields_ind; try (split; [done|]; intros dst ft dst' e; simpl;
      by repeat case_match).
  - split; [done|]. intros dst ft dst' e. simpl.
    destruct (reflect.eqb (Kind ft) reflect.Pointer).
    + destruct (Elem ft) as [el|]; [apply IHx|done].
    + by destruct (reflect.eqb (Kind ft) reflect.Struct).
  - assert (HP : forall dst dst' e,
      addStructFields U dst (VStruct t vals) = Returns (dst', Some e) ->
      exists k, e = ErrDuplicateKeyTag k).
    { intros dst dst' e. rewrite addStructFields_VStruct.
      generalize (Fields t). intros fs. revert fs dst.
      induction IH as [|fv vals [_ Hfv] _ IHvals]; intros fs dst.
      { by destruct fs as [|[f ft] fs]. }
      destruct fs as [|[f ft] fs]; [done|]. simpl.
      assert (Hreg :
        (if bool_decide (Tag_db f = str "-") then structFields U dst fs vals
         else
           match dst !! strings_ToLower U
                   (if bool_decide (Tag_db f = []) then Name f else Tag_db f) with
           | Some _ =>
             Returns (dst, Some (ErrDuplicateKeyTag
               (strings_ToLower U
                  (if bool_decide (Tag_db f = []) then Name f else Tag_db f))))
           | None =>
             if negb (bool_decide (PkgPath f = [])) then Panics
             else structFields U
                    (<[strings_ToLower U
                         (if bool_decide (Tag_db f = []) then Name f
                          else Tag_db f) := fv]> dst) fs vals
           end) = Returns (dst', Some e) -> exists k, e = ErrDuplicateKeyTag k).
      { destruct (bool_decide (Tag_db f = str "-")); [apply IHvals|].
        destruct (dst !! _); [intros [= <- <-]; by eexists|].
        destruct (negb _); [done|apply IHvals]. }
      destruct (negb (bool_decide (PkgPath f = [])) && negb (Anonymous f));
        [apply IHvals|].
      destruct (Anonymous f); [|exact Hreg].
      destruct (embeddedWalk U dst ft fv) as [[[d1 [e1|]]| |]|] eqn:Hw;
        try done; [|apply IHvals].
      intros [= <- <-]. by eapply Hfv. }
    split; [exact HP|]. intros dst ft dst' e. simpl.
    destruct (reflect.eqb (Kind ft) reflect.Pointer); [by destruct (Elem ft)|].
    destruct (reflect.eqb (Kind ft) reflect.Struct); [|done].
    intros [= H]. by eapply HP.
Qed.

Lemma buildParamLookup_error (U : UnicodeTables) (p : value) m e :
  looksBindable p = true ->
  buildParamLookup U p = Returns (m, Some e) ->
  exists k, e = ErrDuplicateKeyTag k.
Proof.
  revert m e.
  induction p using value_fields_ind; intros m e;
    cbn [looksBindable buildParamLookup]; try done.
  - unfold pointsToInterface. destruct (Elem t) as [el|]; [|done].
    destruct (reflect.eqb (Kind el) reflect.Interface); [done|]. apply IHp.
  - destruct (Key t) as [k|]; [|done]. intros ->. by simpl.
  - intros _. pose proof (proj1 (addStructFields_error U (VStruct t fs)) ∅) as H0.
    destruct (addStructFields U ∅ (VStruct t fs)) as [[d [e1|]]| |];
      try done. intros [= _ <-]. by eapply H0.
Qed.

Lemma skipQuoted_loop_error q e fuel s i j e' :
  skipQuoted_loop q e fuel s i = (j, Some e') -> e' = e.
Proof.
  revert i. induction fuel as [|fuel IH]; intros i; simpl; [by intros [= _ <-]|].
  case_bool_decide; [|by intros [= _ <-]].
  destruct (DecodeRuneInString (drop i s)) as [r w].
  destruct (r =? rune q); [|apply IH].
  destruct (_ && _); [apply IH|done].
Qed.

Lemma skipBlockComment_loop_error fuel s i j e' :
  skipBlockComment_loop fuel s i = (j, Some e') ->
  e' = ErrUnterminatedBlockComment.
Proof.
  revert i. induction fuel as [|fuel IH]; intros i; simpl; [by intros [= _ <-]|].
  case_bool_decide; [|by intros [= _ <-]].
  destruct (_ && _); [done|apply IH].
Qed.

Lemma findNamedParams_body_error (U : UnicodeTables) q i out toks e :
  findNamedParams_body U q i out = Break (toks, Some e) -> isUnterminated e.
Proof.
  unfold findNamedParams_body, isUnterminated. case_bool_decide; [|done].
  destruct (DecodeRuneInString (drop i q)) as [r w]. cbv zeta.
  destruct (r =? rune "'").
  { unfold skipSingleQuoted.
    destruct (skipQuoted_loop _ _ _ _ _) as [j [e'|]] eqn:E; [|done].
    apply skipQuoted_loop_error in E as ->. intros [= _ <-]. auto. }
  destruct (r =? rune dquote).
  { unfold skipDoubleQuoted.
    destruct (skipQuoted_loop _ _ _ _ _) as [j [e'|]] eqn:E; [|done].
    apply skipQuoted_loop_error in E as ->. intros [= _ <-]. auto. }
  destruct (r =? rune "`").
  { unfold skipBacktickQuoted.
    destruct (skipQuoted_loop _ _ _ _ _) as [j [e'|]] eqn:E; [|done].
    apply skipQuoted_loop_error in E as ->. intros [= _ <-]. auto. }
  destruct (_ && _); [done|].
  destruct (_ && _).
  { unfold skipBlockComment.
    destruct (skipBlockComment_loop _ _ _) as [j [e'|]] eqn:E; [|done].
    apply skipBlockComment_loop_error in E as ->. intros [= _ <-]. auto 6. }
  destruct (r =? rune "$").
  { unfold skipDollarQuoted. destruct (negb _); [done|].
    destruct (_ || _); [done|]. destruct (strings_Index _ _); [done|].
    intros [= _ <-]. auto 6. }
  destruct (r =? rune ":"); [|done].
  destruct (hasPrefix _ _); [done|]. destruct (parseIdent U q (i + 1)).
  by destruct (negb _).
Qed.

Lemma findNamedParams_error (U : UnicodeTables) q toks e :
  findNamedParams U q = (toks, Some e) -> isUnterminated e.
Proof.
  unfold findNamedParams. generalize (length q) at 1. intros fuel.
  generalize 0%nat, (@nil nameToken). induction fuel as [|fuel IH];
    intros i out; simpl; [done|].
  destruct (findNamedParams_body U q i out) as [[j out']|[toks' e']] eqn:Hb.
  - apply IH.
  - intros [= -> ->]. by eapply findNamedParams_body_error.
Qed.

Lemma bindTokens_error (U : UnicodeTables) q lut toks b args last s args' e :
  bindTokens U q lut toks b args last = Returns (s, args', Some e) ->
  exists n, e = ErrMissingValue n.
Proof.
  revert b args last. induction toks as [|t toks IH]; intros b args last; simpl.
  { by destruct (slice q last (length q)). }
  destruct (slice q last (start t)); [|done].
  destruct (lookup_ U lut (name t)) as [val|]; [|intros [= _ _ <-]; by eexists].
  destruct (isSliceOrArray val); [|apply IH].
  case_bool_decide; [apply IH|].
  destruct (expandSeq 0 (elemsOf val) _ args). apply IH.
Qed.

(** X5, the errors of [Rebind]: it reports an error in the named path
    only, with empty text and no arguments, and the error is that of an
    unterminated region, a duplicate key or a missing value.  It never
    reports [ErrNilParams] or [ErrUnsupportedArg]: a single argument that
    is nil, a nil pointer, or no struct and no map with string keys makes
    the call positional. *)
Theorem Rebind_errors (U : UnicodeTables) (fuel : nat) (q : gostring)
    (ph : Placeholder) (params : list value) (s : gostring)
    (args : list value) (e : bindError) :
  Rebind U fuel q ph params = Returns (s, args, Some e) ->
  (isUnterminated e \/ (exists k, e = ErrDuplicateKeyTag k)
   \/ (exists n, e = ErrMissingValue n))
  /\ e <> ErrNilParams /\ e <> ErrUnsupportedArg
  /\ s = [] /\ args = []
  /\ exists p, params = [p] /\ looksBindable p = true.
Proof.
  intros H.
  assert (Hkinds : (isUnterminated e \/ (exists k, e = ErrDuplicateKeyTag k)
                    \/ (exists n, e = ErrMissingValue n))
                   /\ s = [] /\ args = []
                   /\ exists p, params = [p] /\ looksBindable p = true).
  { unfold Rebind in H.
    assert (Hpos : run_bind (rewritePlaceholders fuel q ph)
                     (fun s0 => Returns (s0, params, None))
                   <> Returns (s, args, Some e)).
    { by destruct (rewritePlaceholders fuel q ph). }
    destruct params as [|p [|p' params]]; [done| |done].
    destruct (looksBindable p) eqn:Hb; [|done].
    destruct (bindNamedParams U q p) as [[[qPos args0] [err|]]| |] eqn:Hbind;
      simpl in H; [| |done|done].
    2:{ by destruct (rewritePlaceholders fuel qPos ph). }
    injection H as <- <- <-. split; [|by eauto].
    unfold bindNamedParams in Hbind.
    assert (Hrest :
      match findNamedParams U q with
      | (_, Some err0) => Returns ([], [], Some err0)
      | (toks, None) =>
        if bool_decide (length toks = 0%nat) then Returns (q, [], None)
        else
          run_bind (buildParamLookup U p) (fun r =>
            match r with
            | (_, Some err0) => Returns ([], [], Some err0)
            | (lut, None) => bindTokens U q lut toks [] [] 0
            end)
      end = Returns (qPos, args0, Some err)).
    { by destruct p. }
    clear Hbind.
    destruct (findNamedParams U q) as [toks [e0|]] eqn:Hf.
    { injection Hrest as _ _ <-. left. by eapply findNamedParams_error. }
    case_bool_decide; [done|].
    destruct (buildParamLookup U p) as [[lut [e0|]]| |] eqn:Hl; simpl in Hrest;
      [| |done|done].
    - injection Hrest as _ _ <-. right. left.
      by eapply buildParamLookup_error.
    - right. right. by eapply bindTokens_error. }
  destruct Hkinds as (Hk & -> & -> & Hp). split; [done|].
  split; [|split; [|done]].
  - intros ->. destruct Hk as [[?|[?|[?|[?|?]]]]|[[k ?]|[n ?]]]; done.
  - intros ->. destruct Hk as [[?|[?|[?|[?|?]]]]|[[k ?]|[n ?]]]; done.
Qed.

Lemma Rebind_errors_witness :
  Rebind asciiTables 64 (str "a = :x") PlaceholderDollar
    [VMap (TMap tString TInterface) []]
  = Returns ([], [], Some (ErrMissingValue (str "x")))
  /\ (exists p, [VMap (TMap tString TInterface) []] = [p]
                /\ looksBindable p = true).
Proof.
  assert (H : Rebind asciiTables 64 (str "a = :x") PlaceholderDollar
                [VMap (TMap tString TInterface) []]
              = Returns ([], [], Some (ErrMissingValue (str "x"))))
    by (vm_compute; reflexivity).
  split; [exact H|].
  exact (proj2 (proj2 (proj2 (proj2 (proj2 (Rebind_errors _ _ _ _ _ _ _ _ H)))))).
Defined.

(** ** The tokens of the extractor *)

Lemma findNamedParams_body_token U q i out j out' :
  findNamedParams_body U q i out = Continue (j, out') ->
  out' = out
  \/ exists t, out' = out ++ [t] /\ colonToken U q t /\ start t = i /\ end_ t = j.
Proof.
  unfold findNamedParams_body. case_bool_decide as Hi; [|done].
  destruct (drop i q) as [|c x] eqn:Hd.
  { apply (f_equal length) in Hd. rewrite length_drop in Hd. simpl in Hd. lia. }
  destruct (DecodeRuneInString (c :: x)) as [r w] eqn:Ed. cbv zeta.
  assert (Hskipped : forall res : nat * option bindError,
    match res with
    | (_, Some err) =>
      Break ([], Some err)
      : loopStep (nat * list nameToken) (list nameToken * option bindError)
    | (k, None) => Continue (k, out)
    end = Continue (j, out') -> out' = out).
  { intros [k [err|]]; [done|]. by intros [= _ <-]. }
  destruct (r =? rune "'"); [intros H; left; by eapply Hskipped|].
  destruct (r =? rune dquote); [intros H; left; by eapply Hskipped|].
  destruct (r =? rune "`"); [intros H; left; by eapply Hskipped|].
  destruct (_ && _); [intros [= _ <-]; by left|].
  destruct (_ && _); [intros H; left; by eapply Hskipped|].
  destruct (r =? rune "$").
  { destruct (skipDollarQuoted q i) as [[k [|]] [err|]]; try done;
      intros [= _ <-]; by left. }
  destruct (Z.eqb_spec r (rune ":")) as [Hr|Hr]; [|intros [= _ <-]; by left].
  destruct (decode_head_ascii _ _ _ _ Ed) as [Hrc ->]; [by rewrite Hr|].
  assert (c = ":"%char) as -> by (apply byteZ_inj; by rewrite <- Hrc, Hr).
  destruct (hasPrefix _ _) eqn:Hp; [intros [= _ <-]; by left|].
  destruct (parseIdent U q (i + 1)) as [nm e] eqn:Ep.
  case_bool_decide as Hn; simpl; [intros [= _ <-]; by left|].
  intros [= <- <-]. right. eexists. split; [done|]. split; [|done].
  destruct (drop_cons_lookup _ _ _ _ Hd) as (Hl & Hx & _).
  unfold colonToken. simpl. split; [done|]. split; [|done].
  change (hasPrefix (":"%char :: x) [":"%char; ":"%char] = false) in Hp.
  rewrite hasPrefix_two in Hp. rewrite bool_decide_true in Hp by done.
  simpl in Hp. unfold byteIs in Hp |- *.
  replace (i + 1)%nat with (S i) by lia.
  by rewrite <- (Nat.add_0_r (S i)), <- lookup_drop, Hx.
Qed.

Lemma extractorAt_colonTokens U q i out :
  extractorAt U q i out -> Forall (colonToken U q) out.
Proof.
  induction 1 as [|i out j out' _ IH Hb]; [constructor|].
  destruct (findNamedParams_body_token _ _ _ _ _ _ Hb)
    as [->|(t & -> & Ht & _)]; [done|].
  apply Forall_app. split; [done|]. by constructor.
Qed.

Lemma findNamedParams_colonTokens U q toks :
  findNamedParams U q = (toks, None) -> Forall (colonToken U q) toks.
Proof.
  intros H. unfold findNamedParams in H.
  destruct (findNamedParams_loop_result U q (length q) 0 [] toks
              ltac:(lia) (extractor_start U q) H) as (j & _ & Hat).
  by eapply extractorAt_colonTokens.
Qed.

(** The bytes that [parseIdent] steps over hold no question mark. *)
Lemma parseIdent_loop_no_question U fuel s i :
  Forall (fun c => c <> "?"%char)
         (take (parseIdent_loop U fuel s i - i) (drop i s)).
Proof.
  revert i. induction fuel as [|fuel IH]; intros i; simpl.
  { rewrite Nat.sub_diag. by rewrite take_0. }
  case_bool_decide as Hi; [|rewrite Nat.sub_diag; by rewrite take_0].
  destruct (drop i s) as [|c x] eqn:Hd.
  { apply (f_equal length) in Hd. rewrite length_drop in Hd. simpl in Hd. lia. }
  pose proof (DecodeRune_spec c x) as (Hw & Hlow & Hhigh).
  destruct (DecodeRuneInString (c :: x)) as [r w] eqn:Ed. simpl in Hw.
  destruct (isIdentRune U r) eqn:Hid; simpl;
    [|rewrite Nat.sub_diag; by rewrite take_0].
  pose proof (parseIdent_loop_bounds U fuel s (i + w)) as Hb.
  assert (Hlen : (i + w <= length s)%nat).
  { apply (f_equal length) in Hd. rewrite length_drop in Hd.
    simpl in Hd, Hw. lia. }
  specialize (Hb Hlen).
  replace (parseIdent_loop U fuel s (i + w) - i)%nat
    with (w + (parseIdent_loop U fuel s (i + w) - (i + w)))%nat by lia.
  rewrite <- Hd, <- take_take_drop, drop_drop. apply Forall_app. split; [|apply IH].
  rewrite Hd. destruct (Z.lt_ge_cases (byteZ c) 0x80) as [Hc|Hc].
  - injection (Hlow Hc) as -> ->. simpl. rewrite take_0.
    constructor; [|constructor]. intros ->. by vm_compute in Hid.
  - destruct (Hhigh Hc) as [_ Hall]. simpl in Hall.
    eapply Forall_impl; [exact Hall|]. intros a Ha ->. by vm_compute in Ha.
Qed.

Lemma countQuestion_app (a b : gostring) :
  countQuestion (a ++ b) = (countQuestion a + countQuestion b)%nat.
Proof. unfold countQuestion. by rewrite filter_app, length_app. Qed.

Lemma countQuestion_zero (s : gostring) :
  Forall (fun c => c <> "?"%char) s -> countQuestion s = 0%nat.
Proof.
  unfold countQuestion. induction 1 as [|c s Hc _ IH]; [done|].
  rewrite filter_cons, decide_False by done. exact IH.
Qed.

Lemma colonToken_span U q t :
  colonToken U q t ->
  (start t + 1 < end_ t <= length q)%nat
  /\ name t = take (end_ t - (start t + 1)) (drop (start t + 1) q)
  /\ drop (start t) q = ":"%char :: name t ++ drop (end_ t) q
  /\ countQuestion (":"%char :: name t) = 0%nat.
Proof.
  intros (Hc & _ & Hp & Hne).
  assert (Hlt : (start t < length q)%nat) by by eapply lookup_lt_Some.
  pose proof Hp as Hp'.
  apply parseIdent_spec in Hp' as (Hb & Hnm & Hpos); [|lia].
  specialize (Hpos Hne). split; [lia|]. split; [done|]. split.
  - rewrite (drop_S _ _ _ Hc). f_equal.
    replace (S (start t)) with (start t + 1)%nat by lia.
    rewrite Hnm.
    replace (drop (end_ t) q)
      with (drop (end_ t - (start t + 1)) (drop (start t + 1) q))
      by (rewrite drop_drop; f_equal; lia).
    by rewrite take_drop.
  - apply countQuestion_zero. constructor; [done|].
    unfold parseIdent in Hp. case_bool_decide as He; [by injection Hp as <-|].
    injection Hp as _ He1. rewrite Hnm, <- He1.
    apply (parseIdent_loop_no_question U (length q) q (start t + 1)).
Qed.

(** X6, the tokens of the extractor: when [findNamedParams] accepts a
    query, its tokens stand in query order without overlap, and each one
    is a colon in the query that no second colon follows, with the
    longest identifier behind it as its name: the name is not empty, it
    holds no question mark, and the query goes on after it at the
    token's end. *)
Theorem extractor_tokens_wellformed (U : UnicodeTables) (q : gostring)
    (toks : list nameToken) :
  findNamedParams U q = (toks, None) ->
  tokensBetween q 0 (length q) toks
  /\ Forall (fun t =>
       drop (start t) q = ":"%char :: name t ++ drop (end_ t) q
       /\ name t <> []
       /\ ("?"%char ∉ name t)
       /\ byteIs q (start t + 1) ":" = false
       /\ parseIdent U q (start t + 1) = (name t, end_ t)) toks.
Proof.
  intros H. split; [by apply (findNamedParams_tokens U)|].
  eapply Forall_impl; [by apply findNamedParams_colonTokens|].
  intros t Ht. simpl.
  destruct (colonToken_span U q t Ht) as (_ & _ & Hd & Hq).
  destruct Ht as (_ & Hcc & Hp & Hne).
  repeat split; try done.
  intros Hin. unfold countQuestion in Hq. simpl in Hq.
  rewrite filter_cons, decide_False in Hq by done.
  apply length_zero_iff_nil in Hq.
  assert (Hf : "?"%char ∈ filter (fun c => c = "?"%char) (name t))
    by (by apply list_elem_of_filter).
  rewrite Hq in Hf. by apply elem_of_nil in Hf.
Qed.

Lemma extractor_tokens_wellformed_witness :
  tokensBetween scenarioQuery 0 (length scenarioQuery) scenarioTokens
  /\ Forall (fun t =>
       drop (start t) scenarioQuery
       = ":"%char :: name t ++ drop (end_ t) scenarioQuery
       /\ name t <> []
       /\ ("?"%char ∉ name t)
       /\ byteIs scenarioQuery (start t + 1) ":" = false
       /\ parseIdent asciiTables scenarioQuery (start t + 1)
          = (name t, end_ t)) scenarioTokens.
Proof.
  apply (extractor_tokens_wellformed asciiTables scenarioQuery scenarioTokens).
  vm_compute. reflexivity.
Defined.

(** ** Question marks and arguments *)

Lemma countQuestion_placeholders (n : nat) : countQuestion (placeholders n) = n.
Proof.
  destruct n as [|n]; [done|]. unfold countQuestion. cbn [placeholders].
  rewrite filter_cons, decide_True by done. cbn [length]. f_equal.
  induction n as [|n IH]; [done|].
  change (concat (replicate (S n) (str ",?")))
    with (","%char :: "?"%char :: concat (replicate n (str ",?"))).
  rewrite filter_cons, decide_False by done.
  rewrite filter_cons, decide_True by done. cbn [length]. by f_equal.
Qed.

Lemma bindTokens_questions (U : UnicodeTables) (q : gostring)
    (lut : gmap gostring value) (toks : list nameToken)
    (b : gostring) (args : list value) (last : nat)
    (text : gostring) (args' : list value) :
  tokensBetween q last (length q) toks ->
  Forall (colonToken U q) toks ->
  bindTokens U q lut toks b args last = Returns (text, args', None) ->
  (countQuestion text + length args
   = countQuestion b + countQuestion (drop last q) + length args')%nat.
Proof.
  revert b args last. induction toks as [|t r IH]; intros b args last; simpl.
  - intros Hl _. rewrite slice_Some by lia.
    rewrite take_ge by (rewrite length_drop; lia).
    intros [= <- <-]. rewrite countQuestion_app. lia.
  - intros (Hs & He & _ & Hr) Hall. inversion Hall as [|? ? Ht Hall']; subst.
    pose proof (tokensBetween_le _ _ _ _ Hr) as Hle.
    destruct (colonToken_span U q t Ht) as (_ & _ & Hd & Hq).
    rewrite slice_Some by lia.
    assert (Hrest : countQuestion (drop last q)
                    = (countQuestion (take (start t - last) (drop last q))
                       + countQuestion (drop (end_ t) q))%nat).
    { rewrite <- (take_drop (start t - last) (drop last q)) at 1.
      rewrite drop_drop. replace (last + (start t - last))%nat with (start t) by lia.
      rewrite Hd. change (":"%char :: name t ++ drop (end_ t) q)
        with ((":"%char :: name t) ++ drop (end_ t) q).
      rewrite !countQuestion_app, Hq. lia. }
    destruct (lookup_ U lut (name t)) as [val|]; [|done].
    destruct (isSliceOrArray val).
    + case_bool_decide as Hn.
      * intros H. apply (IH _ _ _ Hr Hall') in H.
        rewrite !countQuestion_app in H.
        match type of H with
        | context [countQuestion ("N"%char :: ?l)] =>
          change (countQuestion ("N"%char :: l)) with 0%nat in H
        end.
        lia.
      * rewrite expandSeq_spec, bool_decide_false by lia.
        intros H. apply (IH _ _ _ Hr Hall') in H.
        rewrite !countQuestion_app, countQuestion_placeholders, length_app in H.
        lia.
    + intros H. apply (IH _ _ _ Hr Hall') in H.
      rewrite !countQuestion_app, length_app in H.
      match type of H with
      | context [countQuestion ("?"%char :: ?l)] =>
        change (countQuestion ("?"%char :: l)) with 1%nat in H
      end.
      simpl in H. lia.
Qed.

(** X7, one question mark for each argument: the text that
    [bindNamedParams] returns without an error holds the question marks
    of the query and one more for each argument it returns.  A token
    stands for as many question marks as it gives arguments (none for an
    empty sequence), and a question mark of the query stays where it
    is. *)
Theorem bound_text_question_marks (U : UnicodeTables) (q : gostring)
    (p : value) (text : gostring) (args : list value) :
  bindNamedParams U q p = Returns (text, args, None) ->
  countQuestion text = (countQuestion q + length args)%nat.
Proof.
  intros H. unfold bindNamedParams in H.
  assert (Hrest :
    match findNamedParams U q with
    | (_, Some err0) => Returns ([], [], Some err0)
    | (toks, None) =>
      if bool_decide (length toks = 0%nat) then Returns (q, [], None)
      else
        run_bind (buildParamLookup U p) (fun r =>
          match r with
          | (_, Some err0) => Returns ([], [], Some err0)
          | (lut, None) => bindTokens U q lut toks [] [] 0
          end)
    end = Returns (text, args, None)).
  { by destruct p. }
  clear H. destruct (findNamedParams U q) as [toks [e0|]] eqn:Hf; [done|].
  case_bool_decide; [injection Hrest as <- <-; simpl; lia|].
  destruct (buildParamLookup U p) as [[lut [e0|]]| |]; simpl in Hrest; try done.
  apply (bindTokens_questions U q lut toks [] [] 0 text args) in Hrest;
    [|by apply (findNamedParams_tokens U)|by apply findNamedParams_colonTokens].
  rewrite drop_0 in Hrest. change (countQuestion []) with 0%nat in Hrest.
  simpl in Hrest. lia.
Qed.

Lemma bound_text_question_marks_witness :
  countQuestion (str "WHERE a=? OR b=? OR c IN (?) OR d=?")
  = (countQuestion scenarioQuery + 4)%nat.
Proof.
  apply (bound_text_question_marks asciiTables scenarioQuery scenarioParams
           (str "WHERE a=? OR b=? OR c IN (?) OR d=?")
           [VInt tInt 9; VInt tInt 9; VInt tInt 1; VInt tInt 9]).
  vm_compute. reflexivity.
Defined.

(** ** The first name without a value *)

Lemma bindTokens_missing (U : UnicodeTables) (q : gostring)
    (lut : gmap gostring value) (pre : list nameToken) (t : nameToken)
    (post : list nameToken) (b : gostring) (args : list value) (last : nat) :
  tokensBetween q last (length q) (pre ++ t :: post) ->
  Forall (fun t' => is_Some (lookup_ U lut (name t'))) pre ->
  lookup_ U lut (name t) = None ->
  bindTokens U q lut (pre ++ t :: post) b args last
  = Returns ([], [], Some (ErrMissingValue (name t))).
Proof.
  revert b args last. induction pre as [|t' pre IH]; intros b args last; simpl.
  - intros (Hs & He & _ & Hr) _ Hn.
    pose proof (tokensBetween_le _ _ _ _ Hr) as Hle.
    rewrite slice_Some by lia. by rewrite Hn.
  - intros (Hs & He & _ & Hr) Hall Hn.
    inversion Hall as [|? ? [val Hv] Hall']; subst.
    pose proof (tokensBetween_le _ _ _ _ Hr) as Hle.
    rewrite slice_Some by lia. rewrite Hv.
    destruct (isSliceOrArray val); [|by apply IH].
    case_bool_decide; [by apply IH|].
    destruct (expandSeq 0 (elemsOf val) _ args). by apply IH.
Qed.

(** X8, the first name without a value: when the query is accepted and
    the lookup is built, and some token's name has no value in the
    lookup, [Rebind] reports [ErrMissingValue] with the name of the first
    such token in query order, as the token spells it, with empty text
    and no arguments, whatever the dialect and the tokens after it. *)
Theorem Rebind_first_missing_value (U : UnicodeTables) (fuel : nat)
    (q : gostring) (ph : Placeholder) (p : value)
    (lut : gmap gostring value) (pre : list nameToken) (t : nameToken)
    (post : list nameToken) :
  looksBindable p = true ->
  findNamedParams U q = (pre ++ t :: post, None) ->
  buildParamLookup U p = Returns (lut, None) ->
  Forall (fun t' => is_Some (lookup_ U lut (name t'))) pre ->
  lookup_ U lut (name t) = None ->
  Rebind U fuel q ph [p] = Returns ([], [], Some (ErrMissingValue (name t))).
Proof.
  intros Hp Hf Hl Hpre Hn. unfold Rebind. rewrite Hp.
  assert (Hb : bindNamedParams U q p
               = Returns ([], [], Some (ErrMissingValue (name t)))).
  { unfold bindNamedParams.
    assert (Hlen : length (pre ++ t :: post) <> 0%nat)
      by (rewrite length_app; simpl; lia).
    pose proof (findNamedParams_tokens U q _ Hf) as Htoks.
    destruct p; try done; rewrite Hf, bool_decide_false, Hl by done; simpl;
      by apply bindTokens_missing. }
  by rewrite Hb.
Qed.

Lemma Rebind_first_missing_value_witness :
  Rebind asciiTables 0 (str "a = :x AND b = :Gone AND c = :gone2")
    PlaceholderDollar
    [VMap (TMap tString TInterface) [(VString tString (str "X"), VInt tInt 1)]]
  = Returns ([], [], Some (ErrMissingValue (str "Gone"))).
Proof.
  apply (Rebind_first_missing_value asciiTables 0
           (str "a = :x AND b = :Gone AND c = :gone2") PlaceholderDollar
           (VMap (TMap tString TInterface)
              [(VString tString (str "X"), VInt tInt 1)])
           {[ str "x" := VInt tInt 1 ]}
           [ {| name := str "x"; start := 4; end_ := 6 |} ]
           {| name := str "Gone"; start := 15; end_ := 20 |}
           [ {| name := str "gone2"; start := 29; end_ := 35 |} ]).
  - reflexivity.
  - vm_compute. reflexivity.
  - vm_compute. reflexivity.
  - repeat constructor. vm_compute. by eexists.
  - vm_compute. reflexivity.
Defined.

(** ** The lookup of a map parameter *)

Lemma foldl_entries_lookup (U : UnicodeTables) (entries : list (value * value))
    (m : gmap gostring value) (k : gostring) :
  foldl (fun (m : gmap gostring value) (kv : value * value) =>
           match kv.1 with
           | VString _ key => <[strings_ToLower U key := kv.2]> m
           | _ => m
           end) m entries !! k
  = match lastEntry U k entries with
    | Some v => Some v
    | None => m !! k
    end.
Proof.
  revert m. induction entries as [|[ek ev] r IH]; intros m; [done|].
  cbn [foldl lastEntry]. rewrite IH.
  destruct (lastEntry U k r); [done|]. simpl.
  destruct ek; try done. case_bool_decide as Hk.
  - subst k. by rewrite lookup_insert_eq.
  - by rewrite lookup_insert_ne.
Qed.

Lemma entryKeys_cons (U : UnicodeTables) (ek ev : value)
    (r : list (value * value)) :
  entryKeys U ((ek, ev) :: r)
  = match ek with
    | VString _ key => strings_ToLower U key :: entryKeys U r
    | _ => entryKeys U r
    end.
Proof. by destruct ek. Qed.

Lemma lastEntry_None (U : UnicodeTables) (k : gostring)
    (entries : list (value * value)) :
  k ∉ entryKeys U entries -> lastEntry U k entries = None.
Proof.
  induction entries as [|[ek ev] r IH]; [done|].
  rewrite entryKeys_cons. intros H. cbn [lastEntry].
  destruct ek; try (by rewrite (IH H)).
  apply not_elem_of_cons in H as [Hk Hr]. rewrite (IH Hr). simpl.
  by rewrite bool_decide_false.
Qed.

Lemma lastEntry_NoDup (U : UnicodeTables) (entries : list (value * value))
    (tk : gotype) (key : gostring) (v : value) :
  NoDup (entryKeys U entries) ->
  (VString tk key, v) ∈ entries ->
  lastEntry U (strings_ToLower U key) entries = Some v.
Proof.
  induction entries as [|[ek ev] r IH]; [by intros _ ?%elem_of_nil|].
  rewrite entryKeys_cons. intros Hnd [[= <- <-]|Hin]%elem_of_cons.
  - apply NoDup_cons in Hnd as [Hk _]. cbn [lastEntry].
    rewrite (lastEntry_None U _ r Hk). simpl. by rewrite bool_decide_true.
  - assert (Hnd' : NoDup (entryKeys U r)).
    { destruct ek; try done. by apply NoDup_cons in Hnd as [_ ?]. }
    cbn [lastEntry]. by rewrite (IH Hnd' Hin).
Qed.

(** X9, the lookup of a map parameter: for a map with string keys the
    lookup is built without an error, and a name resolves, whatever its
    letter case, to the value of the entry whose key has the same
    lower-case form, provided no two keys of the map have the same
    lower-case form (else the entry iterated last wins); a name whose
    lower-case form is that of no key resolves to nothing. *)
Theorem map_lookup_ignores_case (U : UnicodeTables) (t kt : gotype)
    (entries : list (value * value)) :
  Key t = Some kt -> Kind kt = reflect.String ->
  exists lut,
    buildParamLookup U (VMap t entries) = Returns (lut, None)
    /\ (forall nm, lookup_ U lut nm
                   = lastEntry U (strings_ToLower U nm) entries)
    /\ (forall nm, strings_ToLower U nm ∉ entryKeys U entries ->
                   lookup_ U lut nm = None)
    /\ (NoDup (entryKeys U entries) ->
        forall tk key v nm,
          (VString tk key, v) ∈ entries ->
          strings_ToLower U nm = strings_ToLower U key ->
          lookup_ U lut nm = Some v).
Proof.
  intros Hk Hs. eexists. cbn [buildParamLookup]. rewrite Hk, Hs. simpl.
  split; [done|].
  assert (Hall : forall nm,
    lookup_ U (foldl (fun (m : gmap gostring value) (kv : value * value) =>
                        match kv.1 with
                        | VString _ key => <[strings_ToLower U key := kv.2]> m
                        | _ => m
                        end) ∅ entries) nm
    = lastEntry U (strings_ToLower U nm) entries).
  { intros nm. unfold lookup_. rewrite foldl_entries_lookup.
    by destruct (lastEntry U (strings_ToLower U nm) entries). }
  split; [done|]. split.
  - intros nm Hn. rewrite Hall. by apply lastEntry_None.
  - intros Hnd tk key v nm Hin Hnm. rewrite Hall, Hnm.
    by eapply lastEntry_NoDup.
Qed.

Lemma map_lookup_ignores_case_witness :
  exists lut,
    buildParamLookup asciiTables
      (VMap (TMap tString TInterface)
         [(VString tString (str "Id"), VInt tInt 7)])
    = Returns (lut, None)
    /\ lookup_ asciiTables lut (str "ID") = Some (VInt tInt 7)
    /\ lookup_ asciiTables lut (str "name") = None.
Proof.
  destruct (map_lookup_ignores_case asciiTables (TMap tString TInterface)
              tString [(VString tString (str "Id"), VInt tInt 7)])
    as (lut & Hl & _ & Hnone & Hsome); [reflexivity|reflexivity|].
  exists lut. split; [exact Hl|]. split.
  - apply (Hsome (NoDup_singleton _)
             tString (str "Id") (VInt tInt 7) (str "ID")).
    + apply list_elem_of_here.
    + vm_compute. reflexivity.
  - apply Hnone. by intros [=]%list_elem_of_singleton.
Defined.

(** ** Positional arguments *)

(** X10, positional arguments on an accepted query: when the arguments
    are not a single bindable value and the extractor accepts the query
    (no region of it is unterminated), [Rebind] returns, for every
    dialect and any budget above the length of the query, without an
    error: the arguments are the ones given, and the text is the query
    in which question marks (those it replaces; one inside a literal or
    a comment stays) have become the markers of the dialect, numbered
    1, 2, ... in their order, every other byte in its place.
    [NamedExec] hands exactly this text and these arguments to the
    driver. *)
Theorem Rebind_positional_returns {S R : Type} (U : UnicodeTables)
    (fuel : nat) (q : gostring) (ph : Placeholder) (params : list value)
    (toks : list nameToken) (e : Execer S R) (db : S) :
  positionalArgs params ->
  findNamedParams U q = (toks, None) ->
  (length q < fuel)%nat ->
  exists s,
    Rebind U fuel q ph params = Returns (s, params, None)
    /\ renumbered ph 1 q s
    /\ NamedExec U fuel e ph db q params
       = Returns (ExecContext e db s params).
Proof.
  intros Hpos Hf Hfuel.
  assert (Hs : exists s, rewritePlaceholders fuel q ph = Returns s
                         /\ renumbered ph 1 q s).
  { assert (Hloop : forall ph', exists s,
              rewritePlaceholders_loop fuel q ph' 0 1 [] = Returns s
              /\ renumbered ph' 1 q s).
    { intros ph'.
      destruct (rewriter_returns_after_extractor U q ph' toks (length q) 0 []
                  1 [] fuel ltac:(lia) Hf ltac:(lia)) as [s Hs].
      exists s. split; [done|].
      destruct (rewritePlaceholders_loop_stable q ph' fuel 0 1 [] s
                  ltac:(lia) Hs) as (r & -> & Hren & _).
      by rewrite drop_0 in Hren. }
    destruct ph; simpl; try apply Hloop.
    exists q. split; [done|apply renumbered_refl]. }
  destruct Hs as (s & Hs & Hren). exists s.
  assert (Hr : Rebind U fuel q ph params = Returns (s, params, None)).
  { unfold Rebind. destruct params as [|p [|p' params]]; simpl in Hpos;
      rewrite ?Hpos, Hs; done. }
  split; [done|]. split; [done|].
  unfold NamedExec. by rewrite Hr.
Qed.

Lemma Rebind_positional_returns_witness :
  exists s,
    Rebind asciiTables 64 (str "a = ? AND b = '?' AND c = ?") PlaceholderAtP
      [VInt tInt 1; VInt tInt 2]
    = Returns (s, [VInt tInt 1; VInt tInt 2], None)
    /\ renumbered PlaceholderAtP 1 (str "a = ? AND b = '?' AND c = ?") s
    /\ NamedExec asciiTables 64
         {| ExecContext := fun (db : nat) (_ : gostring) (args : list value) =>
                             (S db, inl (length args) : nat + sqlError) |}
         PlaceholderAtP 0%nat (str "a = ? AND b = '?' AND c = ?")
         [VInt tInt 1; VInt tInt 2]
       = Returns (1%nat, inl 2%nat).
Proof.
  destruct (Rebind_positional_returns asciiTables 64
              (str "a = ? AND b = '?' AND c = ?") PlaceholderAtP
              [VInt tInt 1; VInt tInt 2] []
              {| ExecContext := fun (db : nat) (_ : gostring)
                                    (args : list value) =>
                                  (S db, inl (length args) : nat + sqlError) |}
              0%nat)
    as (s & Hr & Hren & Hx); [exact I|vm_compute; reflexivity|simpl; lia|].
  exists s. split; [exact Hr|]. split; [exact Hren|exact Hx].
Defined.

(** ** The field index of a struct type *)

Lemma derefPtr_id (t : gotype) : Kind t <> reflect.Pointer -> derefPtr t = t.
Proof.
  destruct t as [k|n u s|e|e|n e|k e|fs|]; simpl; try done.
  intros Hk. destruct (reflect.eqb (Kind u) reflect.Pointer) eqn:E; [|done].
  by apply reflect_eqb_eq in E.
Qed.

Lemma Fields_derefPtr_named n u s :
  Fields (derefPtr (TNamed n u s)) = Fields (derefPtr u).
Proof.
  simpl. destruct (reflect.eqb (Kind u) reflect.Pointer) eqn:E; [done|].
  simpl. rewrite derefPtr_id; [done|]. intros Hk. by rewrite Hk in E.
Qed.

Lemma fieldTypeByPath_app (root t0 : gotype) (base rest : list nat) :
  fieldTypeByPath root base = Some t0 ->
  fieldTypeByPath root (base ++ rest) = fieldTypeByPath t0 rest.
Proof.
  revert root. induction base as [|i base IH]; intros root; simpl.
  { by intros [= ->]. }
  destruct (Fields (derefPtr root) !! i) as [[sf t]|]; [apply IH|done].
Qed.

Lemma lowerByte_not_upper (c : ascii) : isUpperByte (lowerByte c) = false.
Proof. by destruct c as [[] [] [] [] [] [] [] []]. Qed.

Lemma toLowerAscii_lower (s : gostring) :
  existsb isUpperByte (toLowerAscii s) = false.
Proof.
  rewrite toLowerAscii_map. induction s as [|c s IH]; [done|].
  rewrite fmap_cons. simpl. by rewrite lowerByte_not_upper, IH.
Qed.

Lemma walk_indexOf (root t : gotype) :
  forall base fl idx t0,
    fieldTypeByPath root base = Some t0 ->
    Fields (derefPtr t0) = Fields (derefPtr t) ->
    indexOf root idx ->
    indexOf root (walk t base fl idx)
    /\ (forall n p, idx !! n = Some p -> walk t base fl idx !! n = Some p).
Proof.
  induction t as [k|n u s IHu|e IHe|e IHe|n e IHe|k e IHk IHe|fs IHfs|]
    using gotype_fields_ind; intros base fl idx t0 Hb Hf Hi;
    try (simpl; split; [done|by intros]).
  - apply (IHu base fl idx t0); try done. by rewrite Hf, Fields_derefPtr_named.
  - by apply (IHe base fl idx t0).
  - rewrite walk_TStruct. simpl in Hf.
    assert (Hall : forall k x, fs !! k = Some x ->
                     Fields (derefPtr t0) !! (0 + k)%nat = Some x)
      by (intros k x; by rewrite Hf).
    clear Hf. revert Hi Hall. generalize 0%nat. revert idx.
    induction IHfs as [|[sf ft] fs IHft _ IH]; intros idx i Hi Hall; simpl.
    { split; [done|by intros]. }
    assert (Hnext : forall k x, fs !! k = Some x ->
                      Fields (derefPtr t0) !! (S i + k)%nat = Some x).
    { intros k x Hk. replace (S i + k)%nat with (i + S k)%nat by lia.
      by apply Hall. }
    assert (Hhere : Fields (derefPtr t0) !! i = Some (sf, ft)).
    { replace i with (i + 0)%nat by lia. by apply Hall. }
    assert (Hpath : fieldTypeByPath root (base ++ [i]) = Some ft).
    { rewrite (fieldTypeByPath_app root t0 base [i] Hb). simpl. by rewrite Hhere. }
    destruct (negb (bool_decide (PkgPath sf = [])) && negb (Anonymous sf));
      [by apply IH|].
    destruct (parseTag (Tag_db sf)) as [[name inline] omit].
    destruct omit; [by apply IH|].
    destruct ((inline || _) && isStruct ft).
    + simpl in IHft.
      destruct (IHft (base ++ [i]) inline idx ft Hpath eq_refl Hi) as [Hi1 Hm1].
      destruct (IH (walk ft (base ++ [i]) inline idx) (S i) Hi1 Hnext)
        as [Hi2 Hm2].
      split; [done|]. intros n p Hn. by apply Hm2, Hm1.
    + set (lc := toLowerAscii _). destruct (idx !! lc) eqn:Elc; [by apply IH|].
      unfold fieldIndex in *.
      destruct (IH (<[lc := base ++ [i]]> idx) (S i)) as [Hi2 Hm2]; [|done|].
      { intros n p Hn. unfold fieldIndex in *.
        destruct (decide (n = lc)) as [->|N].
        - rewrite lookup_insert_eq in Hn. injection Hn as <-.
          split; [apply toLowerAscii_lower|]. split; [by destruct base|].
          by rewrite Hpath.
        - rewrite lookup_insert_ne in Hn by done. by apply Hi. }
      split; [done|]. intros n p Hn. apply Hm2. unfold fieldIndex in *.
      rewrite lookup_insert_ne; [done|]. intros <-. by rewrite Elc in Hn.
Qed.

Lemma buildStructIndex_indexOf (rt : gotype) : indexOf rt (buildStructIndex rt).
Proof.
  by apply (walk_indexOf rt rt [] false ∅ rt).
Qed.

Lemma fieldSteps_total (rt : gotype) (idx : fieldIndex) (cols : list gostring) :
  indexOf rt idx ->
  exists sts, fieldSteps rt idx cols = Some sts /\ length sts = length cols.
Proof.
  intros Hi. induction cols as [|c cols (sts & IH & Hlen)]; simpl.
  { by exists []. }
  rewrite IH. destruct (idx !! c) as [fp|] eqn:Ec.
  - destruct (Hi c fp Ec) as (_ & _ & [ft Hft]).
    unfold makeFieldStep. rewrite Hft.
    destruct (implementsScanner ft); [eexists; split; [done|simpl; lia]|].
    destruct (pickIndirect ft) as [[ct pf]|]; eexists; (split; [done|simpl; lia]).
  - eexists. split; [done|simpl; lia].
Qed.

(** X11, the field index of a struct type: every key of the index that
    [buildStructIndex] builds is free of upper-case ASCII letters (it is
    its own [toLowerAscii]), every path is not empty and leads to a
    field of the type, so that [makeFieldStep] gives it a step, and the
    paths of two different keys lead to different fields. *)
Theorem struct_index_wellformed (rt : gotype) (n : gostring) (p : list nat) :
  buildStructIndex rt !! n = Some p ->
  toLowerAscii n = n
  /\ p <> []
  /\ is_Some (fieldTypeByPath rt p)
  /\ is_Some (makeFieldStep rt p)
  /\ (forall n' p', buildStructIndex rt !! n' = Some p' -> n <> n' ->
        disjointPaths p p' = true).
Proof.
  intros Hn. destruct (buildStructIndex_indexOf rt n p Hn) as (Hl & Hp & [ft Hft]).
  split; [unfold toLowerAscii; by rewrite Hl|]. split; [done|].
  split; [by eexists|]. split.
  - unfold makeFieldStep. rewrite Hft. destruct (implementsScanner ft); [done|].
    by destruct (pickIndirect ft) as [[ct pf]|].
  - intros n' p' Hn' Hne.
    by apply (buildStructIndex_pathsApart rt n n' p p').
Qed.

Lemma struct_index_wellformed_witness :
  toLowerAscii (str "c") = str "c"
  /\ [1%nat] <> []
  /\ is_Some (fieldTypeByPath tAC [1%nat])
  /\ is_Some (makeFieldStep tAC [1%nat])
  /\ (forall n' p', buildStructIndex tAC !! n' = Some p' -> str "c" <> n' ->
        disjointPaths [1%nat] p' = true).
Proof.
  apply (struct_index_wellformed tAC (str "c") [1%nat]).
  vm_compute. reflexivity.
Defined.

(** ** The plans of the cache *)

Lemma fieldSteps_length rt idx cols sts :
  fieldSteps rt idx cols = Some sts -> length sts = length cols.
Proof.
  intros H. apply fieldSteps_stepFor in H.
  symmetry. by eapply Forall2_length.
Qed.

Lemma getPlan_planOf (m m' : Mapper) rt cols h r k p :
  getPlan m rt cols h = Returns (m', r) ->
  (k, p) ∈ planCache m' ->
  (k, p) ∈ planCache m \/ planOf k p.
Proof.
  unfold getPlan. destruct (loadPlan m _); [by intros [= <- <-]; left|].
  destruct (isStruct rt) eqn:Es.
  - pose proof (structIndex_planCache m rt) as Hc.
    destruct (structIndex m rt) as [m1 fi]. simpl in Hc.
    destruct (fieldSteps rt fi cols) as [sts|] eqn:Ef; [|done].
    apply fieldSteps_length in Ef.
    intros [= <- <-]. simpl. rewrite Hc. intros [[= -> ->]|?]%elem_of_cons.
    + right. by split_and!.
    + by left.
  - destruct (implementsScanner rt) eqn:Ei;
      destruct (bool_decide (length cols = 1%nat)) eqn:El; simpl;
      try (by intros [= <- <-]; left);
      apply bool_decide_eq_true in El;
      intros [= <- <-]; simpl; intros [[= -> ->]|?]%elem_of_cons;
      (by left) || (right; by split_and!).
Qed.

Lemma reachable_planOf (m : Mapper) :
  reachable m -> forall k p, (k, p) ∈ planCache m -> planOf k p.
Proof.
  induction 1 as [|m rt cols h m' r _ IH Hg|m rt _ IH]; intros k p Hin.
  - by apply elem_of_nil in Hin.
  - destruct (getPlan_planOf _ _ _ _ _ _ _ _ Hg Hin); [by apply IH|done].
  - rewrite structIndex_planCache in Hin. by apply IH.
Qed.

(** X12, a cached plan is a plan of its key: in a mapper reached from
    [NewMapper] by calls of [getPlan] and [structIndex], whatever plan
    [getPlan] returns for a type and a list of columns, from the cache
    or newly built, is a plan of that type with one step for each
    column, and [destPtrs] makes of it one destination for each column.
    The cache may hold the plan of other columns of the same hash, but
    never one of another type or another number of columns. *)
Theorem plan_has_one_step_per_column (m m' : Mapper) (rt0 : gotype)
    (cols : list gostring) (h : Z) (p : plan) :
  reachable m ->
  getPlan m rt0 cols h = Returns (m', inl p) ->
  rt p = rt0
  /\ length (steps p) = length cols
  /\ plan_isStruct p = isStruct rt0
  /\ plan_isScan p = implementsScanner rt0
  /\ (forall root ds fs st,
        destPtrs p root = Some (ds, fs, st) -> length ds = length cols).
Proof.
  intros Hm Hg.
  assert (Hin : (({| key_rt := rt0; key_hash := h; key_ncols := length cols |}, p)
                 ∈ planCache m')).
  { unfold getPlan in Hg.
    destruct (loadPlan m _) as [p0|] eqn:Hl.
    - injection Hg as <- <-.
      apply (load_Some planKey_eqb _ _ _ planKey_eqb_eq) in Hl. exact Hl.
    - destruct (isStruct rt0).
      + destruct (structIndex m rt0) as [m1 fi].
        destruct (fieldSteps rt0 fi cols); [|done].
        injection Hg as <- <-. simpl. apply list_elem_of_here.
      + destruct (implementsScanner rt0);
          destruct (negb (bool_decide (length cols = 1%nat))); try done;
          injection Hg as <- <-; simpl; apply list_elem_of_here. }
  assert (Hm' : reachable m') by (by eapply reach_getPlan).
  destruct (reachable_planOf m' Hm' _ _ Hin) as (Hrt & Hlen & Hs & Hsc).
  simpl in *. split_and!; try done.
  intros root ds fs st Hd. unfold destPtrs in Hd.
  destruct (plan_isStruct p).
  - apply structDests_spec in Hd as (_ & Hl & _). by rewrite Hl.
  - rewrite <- Hlen. destruct (steps p) as [|s [|s' rest]] eqn:Est; [done| |].
    + destruct (kind s); simpl in Hd.
      * by injection Hd as <- _ _.
      * by injection Hd as <- _ _.
      * destruct (convTo s); [|done]. destruct (post s); [|done].
        by injection Hd as <- _ _.
      * by injection Hd as <- _ _.
    + exfalso.
      assert (Hns : isStruct (key_rt {| key_rt := rt0; key_hash := h;
                                        key_ncols := length cols |}) = false)
        by (simpl; by rewrite <- Hs).
      destruct (reachable_scalarPlans m' Hm' _ _ Hin Hns) as [Hone _].
      simpl in Hone. rewrite Hone in Hlen. simpl in Hlen. lia.
Qed.

Lemma plan_has_one_step_per_column_witness :
  exists m' p,
    getPlan NewMapper tAC [str "a"; str "x"; str "c"] 0 = Returns (m', inl p)
    /\ length (steps p) = 3%nat
    /\ (forall root ds fs st,
          destPtrs p root = Some (ds, fs, st) -> length ds = 3%nat).
Proof.
  eexists _, _. split; [vm_compute; reflexivity|].
  match goal with
  | |- length (steps ?p) = _ /\ _ =>
    destruct (plan_has_one_step_per_column NewMapper _ tAC
                [str "a"; str "x"; str "c"] 0 p reach_new eq_refl)
      as (_ & Hlen & _ & _ & Hd)
  end.
  split; [exact Hlen|exact Hd].
Defined.

(** X13, no failure on a struct type whose field index is cached: in
    such a mapper, for a struct type (a pointer to a struct type
    included) whose field index the mapper already holds, [getPlan]
    returns a plan for every list of columns; it reports no error,
    never panics and builds no index, because every path of the cached
    index leads to a field.  A column that the index does not have gets
    a step that drops it.  Nothing is said of the construction of the
    index itself, which in the code need not return: [walk] has no bound
    and no set of visited types, and a struct type that embeds a pointer
    to itself has no [gotype]. *)
Theorem getPlan_struct_returns (m : Mapper) (rt0 : gotype) (idx : fieldIndex)
    (cols : list gostring) (h : Z) :
  reachable m -> isStruct rt0 = true -> loadIndex m rt0 = Some idx ->
  exists m' p, getPlan m rt0 cols h = Returns (m', inl p)
    /\ reachable m'
    /\ structIndexCache m' = structIndexCache m
    /\ (forall i c, cols !! i = Some c -> idx !! c = None ->
          loadPlan m {| key_rt := rt0; key_hash := h; key_ncols := length cols |}
            = None ->
          kind <$> steps p !! i = Some stepDrop).
Proof.
  intros Hm Hs Hidx.
  assert (Hbuilt : idx = buildStructIndex rt0).
  { apply (load_Some gotype_eqb _ _ _ gotype_eqb_eq) in Hidx.
    by apply (reachable_indexCache m Hm rt0). }
  assert (Hret : exists m' p, getPlan m rt0 cols h = Returns (m', inl p)
    /\ structIndexCache m' = structIndexCache m
    /\ (loadPlan m {| key_rt := rt0; key_hash := h; key_ncols := length cols |}
          = None ->
        fieldSteps rt0 idx cols = Some (steps p))).
  { unfold getPlan. destruct (loadPlan m _) as [p0|]; [by eexists _, _|].
    rewrite Hs. unfold structIndex. rewrite Hidx.
    destruct (fieldSteps_total rt0 idx cols) as (sts & -> & _).
    { rewrite Hbuilt. apply buildStructIndex_indexOf. }
    by eexists _, _. }
  destruct Hret as (m' & p & Hg & Hcache & Hsteps). exists m', p.
  split; [done|]. split; [by eapply reach_getPlan|]. split; [done|].
  intros i c Hc Hnone Hl.
  pose proof (fieldSteps_stepFor _ _ _ _ (Hsteps Hl)) as Hall.
  destruct (Forall2_lookup_l _ _ _ _ _ Hall Hc) as (s & Hsi & Hstep).
  unfold stepFor in Hstep. unfold fieldIndex in *. rewrite Hnone in Hstep.
  rewrite Hsi. by subst s.
Qed.

Lemma getPlan_struct_returns_witness :
  exists m' p,
    getPlan (structIndex NewMapper (TPtr tAC)).1 (TPtr tAC)
      [str "a"; str "x"; str "c"] 0
    = Returns (m', inl p)
    /\ structIndexCache m' = [(TPtr tAC, buildStructIndex (TPtr tAC))]
    /\ kind <$> steps p !! 1%nat = Some stepDrop.
Proof.
  destruct (getPlan_struct_returns (structIndex NewMapper (TPtr tAC)).1
              (TPtr tAC) (buildStructIndex (TPtr tAC))
              [str "a"; str "x"; str "c"] 0
              (reach_structIndex _ _ reach_new) eq_refl eq_refl)
    as (m' & p & Hg & _ & Hcache & Hdrop).
  exists m', p. split; [exact Hg|]. split; [exact Hcache|].
  apply (Hdrop 1%nat (str "x")); reflexivity.
Defined.

(** ** Integer destinations of every width *)

Lemma peelPointers_derefPtr (t : gotype) : (peelPointers t).1 = derefPtr t.
Proof.
  induction t as [k|n u s IHu|e IHe|e IHe|n e IHe|k e IHk IHe|fs IHfs|]
    using gotype_fields_ind; simpl; try done.
  - by destruct (reflect.eqb (Kind u) reflect.Pointer).
  - by destruct (peelPointers e).
Qed.

Lemma peelPointers_id (t : gotype) :
  Kind t <> reflect.Pointer -> peelPointers t = (t, 0%nat).
Proof.
  destruct t as [k|n u s|e|e|n e|k e|fs|]; simpl; try done.
  intros Hk. destruct (reflect.eqb (Kind u) reflect.Pointer) eqn:E; [|done].
  by apply reflect_eqb_eq in E.
Qed.

Lemma zeroAs_typeOf (tag t : gotype) :
  Kind t <> reflect.Interface -> typeOf (zeroAs tag t) = Some tag.
Proof.
  induction t as [k|n u s IHu|e IHe|e IHe|n e IHe|k e IHk IHe|fs IHfs|]
    using gotype_fields_ind; simpl; try done.
  intros _. destruct (isIntKind k || isUintKind k); [done|]. by destruct k.
Qed.


Lemma isIntKind_facts (k : reflect.Kind) :
  isIntKind k = true ->
  k <> reflect.Pointer /\ k <> reflect.Interface /\ k <> reflect.String
  /\ reflect.eqb k reflect.Struct = false.
Proof. by destruct k. Qed.


Lemma peelPointers_zero (t under : gotype) :
  peelPointers t = (under, 0%nat) -> Kind under = Kind t.
Proof.
  induction t as [k|n u s IHu|e IHe|e IHe|n e IHe|k e IHk IHe|fs IHfs|]
    using gotype_fields_ind; simpl; try (by intros [= <-]).
  - destruct (reflect.eqb (Kind u) reflect.Pointer); [done|by intros [= <-]].
  - by destruct (peelPointers e).
Qed.

(** What [pickIndirect] tests, by the kind behind the pointers when that
    kind is no pointer: with no pointer in front the type is its own
    base, with one it differs from its base. *)
Lemma pickIndirect_peeled (t under : gotype) (n : nat) :
  peelPointers t = (under, n) ->
  Kind under <> reflect.Pointer -> Kind under <> reflect.String ->
  (n = 0%nat /\ t = under /\ gotype_eqb t (derefPtr t) = true
   \/ (0 < n)%nat /\ gotype_eqb t (derefPtr t) = false)
  /\ gotype_eqb (derefPtr t) tString = false
  /\ derefPtr t = under.
Proof.
  intros Hp Hk Hstr.
  assert (Hd : derefPtr t = under) by (by rewrite <- peelPointers_derefPtr, Hp).
  split; [|split; [|done]].
  - destruct (gotype_eqb t (derefPtr t)) eqn:E.
    + left. apply gotype_eqb_eq in E. rewrite Hd in E. subst t.
      rewrite (peelPointers_id under Hk) in Hp. by injection Hp as <-.
    + right. split; [|done]. destruct n as [|n]; [|lia].
      apply peelPointers_zero in Hp. rewrite Hp in Hk.
      rewrite (derefPtr_id t Hk), gotype_eqb_refl in E. done.
  - destruct (gotype_eqb (derefPtr t) tString) eqn:E; [|done].
    apply gotype_eqb_eq in E. rewrite Hd in E. destruct Hstr. by rewrite E.
Qed.

Lemma pickIndirect_int (t under : gotype) (n : nat) (x : Z) :
  peelPointers t = (under, n) -> isIntKind (Kind under) = true ->
  exists pf,
    pickIndirect t = Some (tInt64, pf)
    /\ forall tt, applyPost pf t (VInt tt x)
        = Some (assignWithPointers
                  (VInt under (wrapSigned (intBits (Kind under)) x)) under t n).
Proof.
  intros Hp Hi. destruct (isIntKind_facts _ Hi) as (Kp & Ki & Ks & Kst).
  destruct (pickIndirect_peeled t under n Hp Kp Ks)
    as ([(-> & -> & He)|[Hn He]] & Hstr & Hd);
    unfold pickIndirect; rewrite Hstr, He, ?Hd, ?Hi, ?Hp, ?Kst, ?Hi; simpl.
  - eexists. split; [done|]. intros tt. simpl. unfold setInt. by rewrite Hi.
  - eexists. split; [done|]. intros tt. simpl. unfold setInt. by rewrite Hi.
Qed.




(** ** Allocation along a path *)

Lemma updatePath_cons (i : nat) (rest : list nat) (f : value -> option value)
    (v : value) :
  updatePath (i :: rest) f v
  = match v with
    | VPtr t None =>
      s ← newTarget t; s' ← fieldUpdate i (updatePath rest f) s;
      Some (VPtr t (Some s'))
    | VPtr t (Some s) =>
      s' ← fieldUpdate i (updatePath rest f) s; Some (VPtr t (Some s'))
    | _ => fieldUpdate i (updatePath rest f) v
    end.
Proof. by destruct v as [| | | |t [s|]| | | | |]. Qed.

Lemma readPath_cons (i : nat) (rest : list nat) (v : value) :
  readPath (i :: rest) v
  = match v with
    | VPtr _ (Some s) => fieldRead i (readPath rest) s
    | VPtr _ None => None
    | _ => fieldRead i (readPath rest) v
    end.
Proof. by destruct v as [| | | |t [s|]| | | | |]. Qed.

Lemma fieldUpdate_Some (i : nat) (g : value -> option value) (s s' : value) :
  fieldUpdate i g s = Some s' ->
  exists t vals x x',
    s = VStruct t vals /\ vals !! i = Some x /\ g x = Some x'
    /\ s' = VStruct t (<[i := x']> vals).
Proof.
  destruct s as [| | | | | | | |t vals|]; try done. simpl.
  destruct (vals !! i) as [x|] eqn:Ex; simpl; [|done].
  destruct (g x) as [x'|] eqn:Eg; simpl; [|done]. intros [= <-].
  by exists t, vals, x, x'.
Qed.

Lemma allocLast_allocated (v v' : value) :
  allocLast v = Some v' -> isNilPointer v' = false /\ allocLast v' = Some v'.
Proof.
  destruct v as [| | | |t [x|]| | | | |]; simpl; try (by intros [= <-]).
  destruct (newTarget t); simpl; [|done]. by intros [= <-].
Qed.

Lemma allocLast_id (v : value) : isNilPointer v = false -> allocLast v = Some v.
Proof. by destruct v as [| | | |t [x|]| | | | |]. Qed.

(** A walk that has allocated the pointers of a path finds them
    allocated: a second walk changes nothing. *)
Lemma updatePath_again (fp : list nat) (f : value -> option value) :
  (forall x x', f x = Some x' -> f x' = Some x') ->
  forall v v', updatePath fp f v = Some v' -> updatePath fp f v' = Some v'.
Proof.
  intros Hf. induction fp as [|i rest IH]; intros v v'; [apply Hf|].
  assert (Hs : forall s s', fieldUpdate i (updatePath rest f) s = Some s' ->
                 fieldUpdate i (updatePath rest f) s' = Some s'
                 /\ exists t vals, s' = VStruct t vals).
  { intros s s' (t & vals & x & x' & -> & Hx & Hg & ->)%fieldUpdate_Some.
    split; [|by eauto]. simpl.
    rewrite list_lookup_insert_eq by (by eapply lookup_lt_Some). simpl.
    rewrite (IH x x' Hg). simpl. by rewrite list_insert_insert_eq. }
  rewrite updatePath_cons. intros H.
  assert (Hptr : forall t s s', fieldUpdate i (updatePath rest f) s = Some s' ->
            updatePath (i :: rest) f (VPtr t (Some s')) = Some (VPtr t (Some s'))).
  { intros t s s' [Hu _]%Hs. rewrite updatePath_cons. by rewrite Hu. }
  destruct v as [| | | |t [s|]| | | | |];
    try (destruct (Hs _ _ H) as [Hu (t' & vals' & ->)];
         by rewrite updatePath_cons).
  - destruct (fieldUpdate i (updatePath rest f) s) as [s'|] eqn:Es;
      simpl in H; [|done]. injection H as <-. by eapply Hptr.
  - destruct (newTarget t) as [s|]; simpl in H; [|done].
    destruct (fieldUpdate i (updatePath rest f) s) as [s'|] eqn:Es;
      simpl in H; [|done]. injection H as <-. by eapply Hptr.
Qed.

(** After the walk the field at the end of the path is there to read. *)
Lemma updatePath_readPath (fp : list nat) (f : value -> option value) :
  forall v v', updatePath fp f v = Some v' ->
    exists x x', f x = Some x' /\ readPath fp v' = Some x'.
Proof.
  induction fp as [|i rest IH]; intros v v'; [by eauto|].
  assert (Hs : forall s s', fieldUpdate i (updatePath rest f) s = Some s' ->
                 (exists x x', f x = Some x'
                               /\ fieldRead i (readPath rest) s' = Some x')
                 /\ exists t vals, s' = VStruct t vals).
  { intros s s' (t & vals & x & x' & -> & Hx & Hg & ->)%fieldUpdate_Some.
    split; [|by eauto]. simpl.
    rewrite list_lookup_insert_eq by (by eapply lookup_lt_Some). simpl.
    by apply (IH x x'). }
  rewrite updatePath_cons. intros H.
  destruct v as [| | | |t [s|]| | | | |];
    try (destruct (Hs _ _ H) as [Hu (t' & vals' & ->)];
         by rewrite readPath_cons).
  - destruct (fieldUpdate i (updatePath rest f) s) as [s'|] eqn:Es;
      simpl in H; [|done]. injection H as <-. rewrite readPath_cons.
    by destruct (Hs _ _ Es).
  - destruct (newTarget t) as [s|]; simpl in H; [|done].
    destruct (fieldUpdate i (updatePath rest f) s) as [s'|] eqn:Es;
      simpl in H; [|done]. injection H as <-. rewrite readPath_cons.
    by destruct (Hs _ _ Es).
Qed.

(** A path that is allocated already is left as it is. *)
Lemma updatePath_allocated (fp : list nat) (f : value -> option value) :
  forall v y, readPath fp v = Some y -> f y = Some y ->
    updatePath fp f v = Some v.
Proof.
  induction fp as [|i rest IH]; intros v y; [by intros [= ->]|].
  assert (Hs : forall s, fieldRead i (readPath rest) s = Some y -> f y = Some y ->
                 fieldUpdate i (updatePath rest f) s = Some s).
  { intros s Hr Hy. destruct s as [| | | | | | | |t vals|]; try done.
    simpl in *. destruct (vals !! i) as [x|] eqn:Ex; simpl in *; [|done].
    rewrite (IH x y Hr Hy). simpl. by rewrite list_insert_id. }
  rewrite readPath_cons, updatePath_cons. intros Hr Hy.
  destruct v as [| | | |t [s|]| | | | |]; try (by apply Hs); [|done].
  by rewrite (Hs s Hr Hy).
Qed.

(** A walk that [reflect] allowed is allowed again on the value it
    left, and reaches a field with the same flags. *)
Lemma flagsByPath_again (fp : list nat) :
  forall fl v v' fl',
    flagsByPath fl fp v = Some fl' ->
    updatePath fp allocLast v = Some v' ->
    flagsByPath fl fp v' = Some fl'.
Proof.
  induction fp as [|i rest IH]; intros fl v v' fl' Hf Hu.
  { destruct v as [| | | |t [x|]| | | | |]; simpl in *;
      try (by injection Hu as <-).
    destruct (isRO fl) eqn:Ero; [done|].
    destruct (newTarget t); simpl in Hu; [|done]. by injection Hu as <-. }
  assert (Hs : forall s s',
    match s with
    | VStruct t vals =>
      '(sf, _) ← Fields t !! i; x ← vals !! i;
      flagsByPath (fieldFlags fl sf) rest x
    | _ => None
    end = Some fl' ->
    fieldUpdate i (updatePath rest allocLast) s = Some s' ->
    match s' with
    | VStruct t vals =>
      '(sf, _) ← Fields t !! i; x ← vals !! i;
      flagsByPath (fieldFlags fl sf) rest x
    | _ => None
    end = Some fl' /\ exists t vals, s' = VStruct t vals).
  { intros s s' Hfl (t & vals & x & x' & -> & Hx & Hg & ->)%fieldUpdate_Some.
    split; [|by eauto].
    destruct (Fields t !! i) as [[sf ft]|]; simpl in *; [|done].
    rewrite Hx in Hfl. simpl in Hfl.
    rewrite list_lookup_insert_eq by (by eapply lookup_lt_Some). simpl.
    by apply (IH _ x). }
  rewrite updatePath_cons in Hu.
  destruct v as [| | | |t [s|]| | | | |];
    try (match type of Hu with
         | fieldUpdate _ _ ?s = _ =>
           destruct (Hs s _ Hf Hu) as [Hu' (t' & vals' & ->)]; exact Hu'
         end).
  - destruct (fieldUpdate i (updatePath rest allocLast) s) as [s'|] eqn:Es;
      simpl in Hu; [|done]. injection Hu as <-.
    by destruct (Hs s _ Hf Es).
  - simpl in Hf. destruct (isRO fl); [done|].
    destruct (newTarget t) as [s|]; simpl in Hu, Hf; [|done].
    destruct (fieldUpdate i (updatePath rest allocLast) s) as [s'|] eqn:Es;
      simpl in Hu; [|done]. injection Hu as <-.
    by destruct (Hs s _ Hf Es).
Qed.

(** X15, allocating along a path: when [fieldByPathAlloc] reaches the
    field of a path, the field is there to read in the value it leaves
    behind and is no nil pointer; a second call on that value changes
    nothing, so a pointer allocated for one column is not allocated
    again for another; and a value in which the field can be read and
    is no nil pointer is left exactly as it is. *)
Theorem fieldByPathAlloc_once (root root' : value) (fp : list nat) :
  fieldByPathAlloc root fp = Some root' ->
  (exists y, readPath fp root' = Some y /\ isNilPointer y = false)
  /\ fieldByPathAlloc root' fp = Some root'
  /\ (forall y, readPath fp root = Some y -> isNilPointer y = false ->
        root' = root).
Proof.
  unfold fieldByPathAlloc.
  destruct (flagsByPath noRO fp root) as [fl|] eqn:Hfl; [|done].
  intros H. split; [|split].
  - destruct (updatePath_readPath fp allocLast root root' H) as (x & y & Hy & Hr).
    exists y. split; [done|]. by apply allocLast_allocated in Hy as [? _].
  - rewrite (flagsByPath_again fp _ _ _ _ Hfl H).
    apply (updatePath_again fp allocLast) with (v := root); [|done].
    intros x x' Hx. by apply allocLast_allocated in Hx as [_ ?].
  - intros y Hr Hy.
    rewrite (updatePath_allocated fp allocLast root y Hr (allocLast_id y Hy)) in H.
    by injection H as <-.
Qed.

Lemma fieldByPathAlloc_once_witness :
  (exists y,
     readPath [0%nat; 1%nat]
       (VStruct (TStruct [(embeddedField "AC" EmptyString, TPtr tAC)])
          [VPtr (TPtr tAC) (Some (VStruct tAC [VInt tInt64 0; VInt tInt64 0]))])
     = Some y /\ isNilPointer y = false)
  /\ fieldByPathAlloc
       (VStruct (TStruct [(embeddedField "AC" EmptyString, TPtr tAC)])
          [VPtr (TPtr tAC) (Some (VStruct tAC [VInt tInt64 0; VInt tInt64 0]))])
       [0%nat; 1%nat]
     = Some (VStruct (TStruct [(embeddedField "AC" EmptyString, TPtr tAC)])
               [VPtr (TPtr tAC)
                  (Some (VStruct tAC [VInt tInt64 0; VInt tInt64 0]))]).
Proof.
  destruct (fieldByPathAlloc_once
              (VStruct (TStruct [(embeddedField "AC" EmptyString, TPtr tAC)])
                 [VPtr (TPtr tAC) None])
              (VStruct (TStruct [(embeddedField "AC" EmptyString, TPtr tAC)])
                 [VPtr (TPtr tAC)
                    (Some (VStruct tAC [VInt tInt64 0; VInt tInt64 0]))])
              [0%nat; 1%nat])
    as (Hr & Ha & _); [vm_compute; reflexivity|].
  split; [exact Hr|exact Ha].
Defined.

(** ** The parts of a tag *)

Lemma splitComma_plain (cur : gostring) :
  ","%char ∉ cur -> splitComma cur = [cur].
Proof.
  induction cur as [|c cur IH]; [done|]. intros Hn.
  apply not_elem_of_cons in Hn as [Hc Hn]. simpl.
  rewrite bool_decide_false by done. by rewrite (IH Hn).
Qed.

Lemma splitComma_comma (cur r : gostring) :
  ","%char ∉ cur -> splitComma (cur ++ ","%char :: r) = cur :: splitComma r.
Proof.
  induction cur as [|c cur IH]; [done|]. intros Hn.
  apply not_elem_of_cons in Hn as [Hc Hn]. simpl.
  rewrite bool_decide_false by done. by rewrite (IH Hn).
Qed.

Lemma parseTag_loop_parts (tag : gostring) (fuel i start : nat)
    (name : gostring) (inline : bool) :
  (start <= i <= length tag)%nat ->
  (length tag - i < fuel)%nat ->
  ","%char ∉ take (i - start) (drop start tag) ->
  parseTag_loop fuel tag i start name inline
  = foldl tagPart (name, inline) (splitComma (drop start tag)).
Proof.
  revert i start name inline.
  induction fuel as [|fuel IH]; intros i start name inline Hi Hf Hn; [lia|].
  simpl. rewrite bool_decide_true by lia.
  assert (Hend : forall st : gostring * bool,
            match fuel with
            | O => st
            | S _ => st
            end = st) by (by destruct fuel).
  assert (Hstop : forall s nm il,
            parseTag_loop fuel tag (length tag + 1) s nm il = (nm, il)).
  { intros s nm il. destruct fuel; [done|]. simpl.
    by rewrite bool_decide_false by lia. }
  destruct (decide (i = length tag)) as [->|Hlt].
  - rewrite bool_decide_true by done. simpl.
    assert (Hall : take (length tag - start) (drop start tag) = drop start tag).
    { apply take_ge. rewrite length_drop. lia. }
    rewrite Hall in *. rewrite (splitComma_plain _ Hn). simpl.
    unfold tagPart. simpl.
    case_bool_decide; [by rewrite Hstop|].
    destruct (negb (bool_decide (drop start tag = [])) && bool_decide (name = []));
      by rewrite Hstop.
  - rewrite bool_decide_false by done. simpl.
    destruct (tag !! i) as [c|] eqn:Ec.
    2:{ apply lookup_ge_None in Ec. lia. }
    assert (Hsplit : drop start tag
                     = take (i - start) (drop start tag) ++ c :: drop (S i) tag).
    { rewrite <- (take_drop (i - start) (drop start tag)) at 1. f_equal.
      rewrite drop_drop. replace (start + (i - start))%nat with i by lia.
      by apply drop_S. }
    unfold byteIs. rewrite Ec. case_bool_decide as Hc.
    + subst c. replace (i + 1)%nat with (S i) by lia.
      assert (Hsc : splitComma (drop start tag)
                    = take (i - start) (drop start tag)
                      :: splitComma (drop (S i) tag)).
      { rewrite <- (splitComma_comma _ _ Hn). f_equal. exact Hsplit. }
      rewrite Hsc. simpl.
      assert (Hrec : forall nm il,
                parseTag_loop fuel tag (S i) (S i) nm il
                = foldl tagPart (nm, il) (splitComma (drop (S i) tag))).
      { intros nm il. apply IH; [lia|lia|].
        rewrite Nat.sub_diag, take_0. apply not_elem_of_nil. }
      unfold tagPart at 2. simpl.
      case_bool_decide; [apply Hrec|].
      destruct (negb (bool_decide (take (i - start) (drop start tag) = []))
                && bool_decide (name = [])); apply Hrec.
    + replace (i + 1)%nat with (S i) by lia. apply IH; [lia|lia|].
      replace (S i - start)%nat with (S (i - start)) by lia.
      rewrite (take_S_r _ _ c).
      2:{ rewrite lookup_drop. by replace (start + (i - start))%nat with i by lia. }
      rewrite not_elem_of_app. split; [done|].
      rewrite not_elem_of_cons. split; [congruence|apply not_elem_of_nil].
Qed.

Lemma foldl_tagPart (parts : list gostring) (name : gostring) (inline : bool) :
  foldl tagPart (name, inline) parts
  = (if bool_decide (name = []) then hd [] (filter namePart parts) else name,
     inline || bool_decide (str "inline" ∈ parts)).
Proof.
  revert name inline. induction parts as [|p parts IH]; intros name inline.
  { simpl. rewrite orb_false_r. case_bool_decide; by subst. }
  cbn [foldl]. destruct (tagPart (name, inline) p) as [nm il] eqn:E.
  rewrite IH. unfold tagPart in E. cbn [fst snd] in E.
  destruct (decide (p = str "inline")) as [->|Hp].
  - rewrite bool_decide_true in E by done. injection E as <- <-.
    rewrite filter_cons, decide_False by (intros [_ ?]; done).
    f_equal. rewrite (bool_decide_true (_ ∈ _ :: _)) by apply list_elem_of_here.
    by rewrite orb_true_r.
  - rewrite (bool_decide_false (p = _)) in E by done.
    assert (Hin : bool_decide (str "inline" ∈ p :: parts)
                  = bool_decide (str "inline" ∈ parts)).
    { apply bool_decide_ext. rewrite elem_of_cons.
      split; [intros [?|?]; [congruence|done]|by right]. }
    rewrite Hin. destruct (decide (p = [])) as [->|Hne].
    + rewrite (bool_decide_true ([] = [])) in E by done. simpl in E.
      injection E as <- <-.
      by rewrite filter_cons, decide_False by (intros [? _]; done).
    + rewrite (bool_decide_false (p = [])) in E by done. simpl in E.
      rewrite filter_cons, decide_True by done. simpl.
      destruct (decide (name = [])) as [->|Hnm].
      * rewrite !(bool_decide_true ([] = [])) in * by done.
        injection E as <- <-. by rewrite bool_decide_false.
      * rewrite !(bool_decide_false (name = [])) in * by done.
        injection E as <- <-. by rewrite bool_decide_false.
Qed.

(** X16, the parts of a tag: [parseTag] omits the field for the tag
    [-] alone; for every other tag it splits the tag at its commas,
    sets [inline] exactly when some part is the word [inline], and takes
    as the name the first part that is neither empty nor that word (no
    name if there is none), so that the order of the parts does not
    matter and parts after the name are ignored. *)
Theorem parseTag_parts (tag : gostring) :
  parseTag tag
  = if bool_decide (tag = str "-") then ([], false, true)
    else (hd [] (filter namePart (splitComma tag)),
          bool_decide (str "inline" ∈ splitComma tag), false).
Proof.
  unfold parseTag. case_bool_decide; [done|].
  case_bool_decide as He.
  { subst tag. simpl. do 2 f_equal. }
  rewrite (parseTag_loop_parts tag (S (length tag)) 0 0 [] false);
    [|lia|lia|rewrite take_0; apply not_elem_of_nil].
  rewrite drop_0, foldl_tagPart. by rewrite bool_decide_true.
Qed.

(** ** The bytes behind the hash of the columns *)

Lemma fnvWrite_app (h : Z) (a b : gostring) :
  fnvWrite h (a ++ b) = fnvWrite (fnvWrite h a) b.
Proof. unfold fnvWrite. by rewrite foldl_app. Qed.

Lemma hashColumns_bytes (cols : list gostring) :
  hashColumns cols = fnvWrite fnvOffset64 (hashedBytes cols).
Proof.
  unfold hashColumns. generalize fnvOffset64.
  induction cols as [|c cols IH]; intros h; [done|].
  cbn [foldl hashedBytes flat_map]. rewrite IH.
  by rewrite !fnvWrite_app.
Qed.

Lemma terminated_inj (c1 c2 s1 s2 : gostring) :
  nul ∉ c1 -> nul ∉ c2 ->
  c1 ++ nul :: s1 = c2 ++ nul :: s2 -> c1 = c2 /\ s1 = s2.
Proof.
  revert c2. induction c1 as [|a c1 IH]; intros [|b c2] H1 H2; simpl.
  - by intros [= ->].
  - intros [= <- _]. by apply not_elem_of_cons in H2 as [? _].
  - intros [= -> _]. by apply not_elem_of_cons in H1 as [? _].
  - intros [= -> H]. apply not_elem_of_cons in H1 as [_ H1].
    apply not_elem_of_cons in H2 as [_ H2].
    destruct (IH c2 H1 H2 H) as [-> ->]. done.
Qed.

Lemma hashedBytes_inj (cols1 cols2 : list gostring) :
  Forall (fun c => nul ∉ c) cols1 -> Forall (fun c => nul ∉ c) cols2 ->
  hashedBytes cols1 = hashedBytes cols2 -> cols1 = cols2.
Proof.
  intros H1. revert cols2.
  induction H1 as [|c1 cols1 Hc1 _ IH]; intros cols2 H2;
    destruct H2 as [|c2 cols2 Hc2 H2]; try done.
  - cbn [hashedBytes flat_map]. rewrite <- app_assoc. by destruct c2.
  - cbn [hashedBytes flat_map]. rewrite <- app_assoc. by destruct c1.
  - cbn [hashedBytes flat_map]. rewrite <- !app_assoc. simpl. intros H.
    destruct (terminated_inj _ _ _ _ Hc1 Hc2 H) as [-> Hs].
    f_equal. by apply IH.
Qed.

Lemma getPlan_cached (m m' : Mapper) rt0 cols h p :
  getPlan m rt0 cols h = Returns (m', inl p) ->
  loadPlan m' {| key_rt := rt0; key_hash := h; key_ncols := length cols |}
  = Some p.
Proof.
  unfold getPlan.
  destruct (loadPlan m _) as [p0|] eqn:Hl.
  { by intros [= <- <-]. }
  assert (Hput : forall m0 p1,
    loadPlan {| planCache := ({| key_rt := rt0; key_hash := h;
                                 key_ncols := length cols |}, p1) :: planCache m0;
                structIndexCache := structIndexCache m0 |}
             {| key_rt := rt0; key_hash := h; key_ncols := length cols |}
    = Some p1).
  { intros m0 p1. unfold loadPlan. simpl. by rewrite planKey_eqb_refl. }
  destruct (isStruct rt0).
  - destruct (structIndex m rt0) as [m1 idx].
    destruct (fieldSteps rt0 idx cols) as [sts|]; [|done].
    intros [= <- <-]. by rewrite Hput.
  - destruct (implementsScanner rt0);
      destruct (negb _) eqn:E; intros [= <- <-]; by rewrite Hput.
Qed.

(** X17, what the key of a plan sees of the columns: the hash is
    FNV-1a over the columns' bytes, each column followed by a zero byte.
    Two lists of as many columns with the same such bytes have one key:
    after [getPlan] has answered for the first, it answers the second
    with the plan of the first and stores nothing.  Lists whose names
    hold no zero byte have the same bytes only when they are the same
    list. *)
Theorem plan_key_sees_bytes (m m' : Mapper) (rt0 : gotype)
    (cols1 cols2 : list gostring) (p : plan) :
  length cols1 = length cols2 ->
  hashedBytes cols1 = hashedBytes cols2 ->
  getPlan m rt0 cols1 (hashColumns cols1) = Returns (m', inl p) ->
  hashColumns cols1 = fnvWrite fnvOffset64 (hashedBytes cols1)
  /\ hashColumns cols2 = hashColumns cols1
  /\ getPlan m' rt0 cols2 (hashColumns cols2) = Returns (m', inl p)
  /\ (Forall (fun c => nul ∉ c) cols1 -> Forall (fun c => nul ∉ c) cols2 ->
      cols1 = cols2).
Proof.
  intros Hlen Hb Hg. split; [apply hashColumns_bytes|].
  assert (Hh : hashColumns cols2 = hashColumns cols1)
    by (by rewrite !hashColumns_bytes, Hb).
  split; [done|]. split.
  - apply getPlan_cached in Hg. unfold getPlan.
    by rewrite Hh, <- Hlen, Hg.
  - intros H1 H2. by apply hashedBytes_inj.
Qed.

Lemma plan_key_sees_bytes_witness :
  exists m' p,
    getPlan NewMapper tAC columnsA_B0C (hashColumns columnsA_B0C)
    = Returns (m', inl p)
    /\ hashColumns columnsA0B_C = hashColumns columnsA_B0C
    /\ getPlan m' tAC columnsA0B_C (hashColumns columnsA0B_C)
       = Returns (m', inl p).
Proof.
  eexists _, _. split; [vm_compute; reflexivity|].
  match goal with
  | |- _ /\ getPlan ?m' _ _ _ = Returns (_, inl ?p) =>
    destruct (plan_key_sees_bytes NewMapper m' tAC columnsA_B0C columnsA0B_C p
                eq_refl eq_refl)
      as (_ & Hh & Hg & _); [vm_compute; reflexivity|]
  end.
  split; [exact Hh|exact Hg].
Defined.

(** ** Quoted literals *)

(** The loop of the quote skippers on a body that is closed: it stops
    behind the closing quote. *)
Lemma skipQuoted_closed (qc : ascii) (e : bindError) (fuel : nat)
    (s : gostring) (i : nat) (body rest : gostring) :
  byteZ qc < 0x80 -> unclosed qc body ->
  drop i s = body ++ qc :: rest ->
  head rest <> Some qc ->
  (length body < fuel)%nat ->
  skipQuoted_loop qc e fuel s i = ((i + length body + 1)%nat, None).
Proof.
  intros Hq. revert i body.
  induction fuel as [|fuel IH]; intros i body Hu Hd Hr Hf; [lia|].
  simpl.
  assert (Hlen : (i + length body + 1 + length rest = length s)%nat).
  { apply (f_equal length) in Hd. rewrite length_drop, length_app in Hd.
    simpl in Hd. lia. }
  rewrite bool_decide_true by lia.
  destruct (drop i s) as [|c0 t] eqn:Ed; [by destruct body|].
  destruct (DecodeRune_spec c0 t) as (Hw & Hascii & Hhigh).
  pose proof (drop_cons_lookup _ _ _ _ Ed) as (Hl0 & Hd1 & _).
  destruct (decide (byteZ c0 < 0x80)) as [Hlow|Hge].
  - rewrite (Hascii Hlow).
    destruct Hu as [|c body' Hne Hbody|body' Hbody]; simpl in Hd, Hlen, Hf.
    + injection Hd as -> ->. unfold rune. rewrite Z.eqb_refl.
      replace (i + 1)%nat with (S i) by lia.
      assert (Hno : bool_decide (S i < length s)%nat && byteIs s (S i) qc = false).
      { destruct rest as [|c rest]; simpl in *.
        - rewrite bool_decide_false by lia. done.
        - apply andb_false_iff. right. unfold byteIs.
          assert (H1 : s !! S i = Some c).
          { assert (H0 : drop (S i) s !! 0%nat = Some c) by (by rewrite Hd1).
            rewrite lookup_drop in H0. by rewrite Nat.add_0_r in H0. }
          rewrite H1. apply bool_decide_false. intros ->. done. }
      rewrite Hno. do 2 f_equal. simpl. lia.
    + injection Hd as -> ->.
      assert ((byteZ c =? rune qc) = false) as ->.
      { apply Z.eqb_neq. intros Heq. by apply byteZ_inj in Heq. }
      replace (i + 1)%nat with (S i) by lia.
      rewrite (IH (S i) body' Hbody Hd1 Hr) by (simpl in Hf; lia).
      do 2 f_equal. simpl. lia.
    + injection Hd as -> ->. unfold rune. rewrite Z.eqb_refl.
      replace (i + 1)%nat with (S i) by lia.
      pose proof (drop_cons_lookup _ _ _ _ Hd1) as (Hl1 & Hd2 & Hlt).
      unfold byteIs. rewrite Hl1.
      rewrite !bool_decide_true by first [done|lia]. simpl.
      match goal with
      | |- context [skipQuoted_loop qc e fuel s ?n] =>
        replace n with (S (S i)) by lia
      end.
      rewrite (IH (S (S i)) body' Hbody Hd2 Hr) by (simpl in Hf; lia).
      do 2 f_equal. simpl. lia.
  - destruct (Hhigh ltac:(lia)) as [Hrr Hall].
    destruct (DecodeRuneInString (c0 :: t)) as [r w]. simpl in *.
    assert ((r =? rune qc) = false) as -> by (apply Z.eqb_neq; unfold rune; lia).
    assert (Hnq : Forall (fun c => c <> qc) (take w (body ++ qc :: rest))).
    { rewrite <- Hd. eapply Forall_impl; [exact Hall|]. simpl. intros c Hc ->. lia. }
    assert (Hwb : (w <= length body)%nat).
    { destruct (decide (w <= length body)%nat) as [|Hgt]; [done|exfalso].
      rewrite Forall_lookup in Hnq. apply (Hnq (length body) qc); [|done].
      rewrite lookup_take_lt by lia.
      by rewrite lookup_app_r, Nat.sub_diag by lia. }
    rewrite take_app_le in Hnq by done.
    assert (Hu' : unclosed qc (drop w body)).
    { apply (unclosed_drop qc (take w body)); [done|]. by rewrite take_drop. }
    rewrite (IH (i + w)%nat (drop w body) Hu').
    + do 2 f_equal. rewrite length_drop. lia.
    + rewrite <- drop_drop, Ed, Hd. by rewrite drop_app_le.
    + done.
    + rewrite length_drop. lia.
Qed.

(** X18, quoted literals are left alone: where a literal opens in single
    quotes, double quotes or backticks and is closed (inside it a
    doubled quote stands for a quote), one iteration of the extractor
    steps over the whole literal without making a token, and one
    iteration of the rewriter copies the literal as it is and keeps its
    counter: a colon name or a question mark inside the literal is no
    parameter. *)
Theorem quoted_literal_untouched (U : UnicodeTables) (q : gostring)
    (ph : Placeholder) (i arg : nat) (out : gostring)
    (toks : list nameToken) (qc : ascii) (body rest : gostring) :
  qc = "'"%char \/ qc = dquote \/ qc = "`"%char ->
  drop i q = qc :: body ++ qc :: rest ->
  unclosed qc body ->
  head rest <> Some qc ->
  findNamedParams_body U q i toks
  = Continue ((i + length body + 2)%nat, toks)
  /\ rewritePlaceholders_body q ph i arg out
     = Continue ((i + length body + 2)%nat, arg, out ++ qc :: body ++ [qc]).
Proof.
  intros Hqc Hd Hu Hr.
  pose proof (drop_cons_lookup _ _ _ _ Hd) as (Hl0 & Hd1 & Hlt).
  assert (Hq : byteZ qc < 0x80)
    by (destruct Hqc as [-> | [-> | ->]]; by vm_compute).
  assert (Hlen : (i + length body + 2 + length rest = length q)%nat).
  { apply (f_equal length) in Hd. rewrite length_drop in Hd. simpl in Hd.
    rewrite length_app in Hd. simpl in Hd. lia. }
  assert (Hskip : forall e,
            skipQuoted_loop qc e (length q) q (i + 1)
            = ((i + length body + 2)%nat, None)).
  { intros e. replace (i + length body + 2)%nat
      with (i + 1 + length body + 1)%nat by lia.
    apply (skipQuoted_closed qc e (length q) q (i + 1) body rest); try done.
    - by replace (i + 1)%nat with (S i) by lia.
    - lia. }
  assert (Hslice : slice q i (i + length body + 2) = Some (qc :: body ++ [qc])).
  { rewrite slice_Some by lia. f_equal. rewrite Hd.
    replace (i + length body + 2 - i)%nat with (S (length body + 1)) by lia.
    simpl. f_equal. rewrite take_app_add' by done. by simpl. }
  unfold findNamedParams_body, rewritePlaceholders_body.
  rewrite bool_decide_true by done.
  rewrite (decode_ascii_drop q i qc _ Hd Hq). cbv zeta.
  unfold skipSingleQuoted, skipDoubleQuoted, skipBacktickQuoted.
  destruct Hqc as [-> | [-> | ->]]; simpl (_ =? _); cbv iota;
    rewrite Hskip; simpl; by rewrite Hslice.
Qed.

Lemma quoted_literal_untouched_witness :
  findNamedParams_body asciiTables (str "a = '?:x''' AND b = :y") 4 []
  = Continue (11%nat, [])
  /\ rewritePlaceholders_body (str "a = '?:x''' AND b = :y") PlaceholderDollar
       4 1 (str "a = ")
     = Continue (11%nat, 1%nat, str "a = '?:x'''").
Proof.
  apply (quoted_literal_untouched asciiTables (str "a = '?:x''' AND b = :y")
           PlaceholderDollar 4 1 (str "a = ") [] "'"%char (str "?:x''")
           (str " AND b = :y")).
  - by left.
  - reflexivity.
  - repeat (first [apply unclosed_nil | apply unclosed_doubled
                   | apply unclosed_other; [discriminate|]]).
  - discriminate.
Defined.

(** ** The lookup of a struct parameter *)

Lemma structFields_flat (U : UnicodeTables) (fs : list (StructField * gotype)) :
  Forall (fun ft => Anonymous ft.1 = false) fs ->
  forall vals dst,
    NoDup (flatEntries U fs vals).*1 ->
    (forall k, k ∈ (flatEntries U fs vals).*1 -> dst !! k = None) ->
    structFields U dst fs vals
    = Returns (list_to_map (flatEntries U fs vals) ∪ dst, None).
Proof.
  induction 1 as [|[f ft] fs Hf _ IH]; intros vals dst Hnd Hfresh.
  { destruct vals; simpl; by rewrite (left_id_L ∅ (∪)). }
  destruct vals as [|fv vals]; [simpl; by rewrite (left_id_L ∅ (∪))|].
  simpl in Hf. cbn [structFields flatEntries] in *. rewrite Hf.
  unfold paramKey in *. rewrite andb_true_r.
  destruct (bool_decide (PkgPath f = [])) eqn:Ep; simpl in *; [|by apply IH].
  destruct (bool_decide (Tag_db f = ["-"%char])); [by apply IH|].
  set (key := strings_ToLower U _) in *.
  rewrite fmap_cons in Hnd, Hfresh. simpl in Hnd, Hfresh.
  apply NoDup_cons in Hnd as [Hk Hnd].
  rewrite (Hfresh key) by apply list_elem_of_here.
  rewrite IH; [|done|].
  - do 2 f_equal. rewrite list_to_map_cons, <- insert_union_l.
    symmetry. apply insert_union_r.
    by apply not_elem_of_list_to_map_1.
  - intros k Hin. rewrite lookup_insert_ne by (intros <-; done).
    apply Hfresh. by apply list_elem_of_further.
Qed.

(** X19, the lookup of a struct parameter: for a struct without embedded
    fields whose keys differ, the lookup is built without an error and
    holds exactly the exported fields that are not tagged [-], each
    under its tag, or under its name when it has no tag, in lower case;
    a name in any letter case resolves to the value of the field whose
    key is its lower-case form. *)
Theorem struct_lookup_by_tag_or_name (U : UnicodeTables) (t : gotype)
    (vals : list value) :
  Forall (fun ft => Anonymous ft.1 = false) (Fields t) ->
  NoDup (flatEntries U (Fields t) vals).*1 ->
  buildParamLookup U (VStruct t vals)
  = Returns (list_to_map (flatEntries U (Fields t) vals), None)
  /\ (forall k v nm,
        (k, v) ∈ flatEntries U (Fields t) vals ->
        strings_ToLower U nm = k ->
        lookup_ U (list_to_map (flatEntries U (Fields t) vals)) nm = Some v)
  /\ (forall nm,
        strings_ToLower U nm ∉ (flatEntries U (Fields t) vals).*1 ->
        lookup_ U (list_to_map (flatEntries U (Fields t) vals)) nm = None).
Proof.
  intros Hflat Hnd. split; [|split].
  - cbn [buildParamLookup]. rewrite addStructFields_VStruct.
    rewrite (structFields_flat U (Fields t) Hflat vals ∅ Hnd)
      by (intros; apply lookup_empty).
    by rewrite (right_id_L ∅ (∪)).
  - intros k v nm Hin <-. unfold lookup_.
    by apply elem_of_list_to_map_1.
  - intros nm Hn. unfold lookup_. by apply not_elem_of_list_to_map_1.
Qed.

Lemma struct_lookup_by_tag_or_name_witness :
  buildParamLookup asciiTables scenarioParams
  = Returns (list_to_map (flatEntries asciiTables (Fields tP)
                            [VInt tInt 9; VSlice (TSlice tInt) [VInt tInt 1]]),
             None)
  /\ lookup_ asciiTables
       (list_to_map (flatEntries asciiTables (Fields tP)
                       [VInt tInt 9; VSlice (TSlice tInt) [VInt tInt 1]]))
       (str "ARR")
     = Some (VSlice (TSlice tInt) [VInt tInt 1]).
Proof.
  destruct (struct_lookup_by_tag_or_name asciiTables tP
              [VInt tInt 9; VSlice (TSlice tInt) [VInt tInt 1]])
    as (Hb & Hsome & _).
  - repeat constructor.
  - vm_compute. repeat constructor; rewrite ?list_elem_of_singleton;
      try apply not_elem_of_nil; discriminate.
  - split; [exact Hb|].
    apply (Hsome (str "arr")); [|vm_compute; reflexivity].
    vm_compute. apply list_elem_of_further, list_elem_of_here.
Defined.

(** ** Comments *)

Lemma lookup_drop_app {A} (s : list A) (i : nat) (pre rest : list A) (c : A) :
  drop i s = pre ++ c :: rest -> s !! (i + length pre)%nat = Some c.
Proof.
  intros H. rewrite <- lookup_drop, H.
  by rewrite lookup_app_r, Nat.sub_diag by lia.
Qed.

(** A line comment ends behind the first line feed, or with the text. *)
Lemma skipLineComment_loop_closed (fuel : nat) (s : gostring) (i : nat)
    (body rest : gostring) :
  lf ∉ body -> drop i s = body ++ lf :: rest -> (length body < fuel)%nat ->
  skipLineComment_loop fuel s i = (i + length body + 1)%nat.
Proof.
  revert i body. induction fuel as [|fuel IH]; intros i body Hn Hd Hf; [lia|].
  simpl.
  assert (Hlen : (i + length body + 1 + length rest = length s)%nat).
  { apply (f_equal length) in Hd. rewrite length_drop, length_app in Hd.
    simpl in Hd. lia. }
  rewrite bool_decide_true by lia. unfold byteIs.
  destruct body as [|c body]; simpl in *.
  - apply drop_cons_lookup in Hd as (-> & _ & _).
    rewrite bool_decide_true by done. lia.
  - apply not_elem_of_cons in Hn as [Hc Hn].
    apply drop_cons_lookup in Hd as (-> & Hd & _).
    rewrite bool_decide_false by done.
    replace (i + 1)%nat with (S i) by lia.
    rewrite (IH (S i) body Hn Hd) by lia. lia.
Qed.

Lemma skipLineComment_loop_open (fuel : nat) (s : gostring) (i : nat) :
  lf ∉ drop i s -> (length s - i <= fuel)%nat ->
  skipLineComment_loop fuel s i = Nat.max i (length s).
Proof.
  revert i. induction fuel as [|fuel IH]; intros i Hn Hf; simpl; [lia|].
  case_bool_decide as Hi; [|lia]. unfold byteIs.
  destruct (drop i s) as [|c t] eqn:Hd.
  { apply (f_equal length) in Hd. rewrite length_drop in Hd. simpl in Hd. lia. }
  apply not_elem_of_cons in Hn as [Hc Hn].
  apply drop_cons_lookup in Hd as (-> & Hd & _).
  rewrite bool_decide_false by done.
  replace (i + 1)%nat with (S i) by lia.
  rewrite IH; [lia|by rewrite Hd|lia].
Qed.

(** A block comment ends behind the first [*/]. *)
Lemma skipBlockComment_loop_closed (fuel : nat) (s : gostring) (i : nat)
    (body rest : gostring) :
  absent (str "*/") (body ++ ["*"%char]) ->
  drop i s = body ++ "*"%char :: "/"%char :: rest ->
  (length body < fuel)%nat ->
  skipBlockComment_loop fuel s i = ((i + length body + 2)%nat, None).
Proof.
  revert i body. induction fuel as [|fuel IH]; intros i body Hn Hd Hf; [lia|].
  simpl.
  assert (Hlen : (i + length body + 2 + length rest = length s)%nat).
  { apply (f_equal length) in Hd. rewrite length_drop, length_app in Hd.
    simpl in Hd. lia. }
  rewrite bool_decide_true by lia. unfold byteIs.
  destruct body as [|c body]; simpl in *.
  - apply drop_cons_lookup in Hd as (-> & Hd & _).
    apply drop_cons_lookup in Hd as (Hl & _ & _).
    replace (i + 1)%nat with (S i) by lia. rewrite Hl.
    rewrite !bool_decide_true by done. simpl. do 2 f_equal. lia.
  - apply drop_cons_lookup in Hd as (-> & Hd & _).
    assert (Hcont : bool_decide (c = "*"%char)
                    && match s !! (i + 1)%nat with
                       | Some c' => bool_decide (c' = "/"%char)
                       | None => false
                       end = false).
    { apply andb_false_iff. destruct (decide (c = "*"%char)) as [->|Hc];
        [right|left; by apply bool_decide_false].
      replace (i + 1)%nat with (S i) by lia.
      destruct body as [|d body]; simpl in Hd.
      - apply drop_cons_lookup in Hd as (-> & _ & _). by apply bool_decide_false.
      - apply drop_cons_lookup in Hd as (-> & _ & _). apply bool_decide_false.
        intros ->. by apply (Hn [] (body ++ ["*"%char])). }
    rewrite Hcont. replace (i + 1)%nat with (S i) by lia.
    rewrite (IH (S i) body) by first [by eapply absent_tail|done|lia].
    do 2 f_equal. lia.
Qed.

(** X20, comments are stepped over: where a line comment opens, ended
    by a line feed or by the end of the query, or a block comment that
    [*/] closes, one iteration of the extractor goes to the byte behind
    the comment without making a token, and one iteration of the
    rewriter copies the comment as it is and keeps its counter: a colon
    name or a question mark inside a comment is no parameter. *)
Theorem comment_untouched (U : UnicodeTables) (q : gostring)
    (ph : Placeholder) (i arg : nat) (out : gostring)
    (toks : list nameToken) (body rest : gostring) :
  (lf ∉ body ->
   drop i q = "-"%char :: "-"%char :: body ++ lf :: rest ->
   findNamedParams_body U q i toks
   = Continue ((i + length body + 3)%nat, toks)
   /\ rewritePlaceholders_body q ph i arg out
      = Continue ((i + length body + 3)%nat, arg,
                  out ++ "-"%char :: "-"%char :: body ++ [lf]))
  /\ (lf ∉ body ->
      drop i q = "-"%char :: "-"%char :: body ->
      findNamedParams_body U q i toks = Continue (length q, toks)
      /\ rewritePlaceholders_body q ph i arg out
         = Continue (length q, arg, out ++ "-"%char :: "-"%char :: body))
  /\ (absent (str "*/") (body ++ ["*"%char]) ->
      drop i q = "/"%char :: "*"%char :: body ++ "*"%char :: "/"%char :: rest ->
      findNamedParams_body U q i toks
      = Continue ((i + length body + 4)%nat, toks)
      /\ rewritePlaceholders_body q ph i arg out
         = Continue ((i + length body + 4)%nat, arg,
                     out ++ "/"%char :: "*"%char :: body ++ [ "*"%char; "/"%char ])).
Proof.
  split; [|split].
  - intros Hn Hd.
    pose proof (drop_cons_lookup _ _ _ _ Hd) as (Hl0 & Hd1 & Hlt).
    pose proof (drop_cons_lookup _ _ _ _ Hd1) as (Hl1 & Hd2 & Hlt1).
    assert (Hlen : (i + length body + 3 + length rest = length q)%nat).
    { apply (f_equal length) in Hd. rewrite length_drop in Hd. simpl in Hd.
      rewrite length_app in Hd. simpl in Hd. lia. }
    assert (Hskip : skipLineComment q (i + 2) = (i + length body + 3)%nat).
    { unfold skipLineComment.
      rewrite (skipLineComment_loop_closed (length q) q (i + 2) body rest);
        [lia|done| |lia].
      by replace (i + 2)%nat with (S (S i)) by lia. }
    assert (Hslice : slice q i (i + length body + 3)
                     = Some ("-"%char :: "-"%char :: body ++ [lf])).
    { rewrite slice_Some by lia. f_equal. rewrite Hd.
      replace (i + length body + 3 - i)%nat with (S (S (length body + 1))) by lia.
      simpl. do 2 f_equal. rewrite take_app_add' by done. by simpl. }
    unfold findNamedParams_body, rewritePlaceholders_body.
    rewrite bool_decide_true by done.
    rewrite (decode_ascii_drop q i "-" _ Hd) by (by vm_compute). cbv zeta.
    rewrite Hd. simpl (_ =? _). cbv iota.
    change (hasPrefix ("-"%char :: "-"%char :: body ++ lf :: rest) (str "--"))
      with (hasPrefix ("-"%char :: "-"%char :: body ++ lf :: rest)
              ["-"%char; "-"%char]).
    rewrite hasPrefix_two. simpl (_ && _).
    by rewrite Hskip, Hslice.
  - intros Hn Hd.
    pose proof (drop_cons_lookup _ _ _ _ Hd) as (Hl0 & Hd1 & Hlt).
    pose proof (drop_cons_lookup _ _ _ _ Hd1) as (Hl1 & Hd2 & Hlt1).
    assert (Hlen : (i + length body + 2 = length q)%nat).
    { apply (f_equal length) in Hd. rewrite length_drop in Hd. simpl in Hd. lia. }
    assert (Hskip : skipLineComment q (i + 2) = length q).
    { unfold skipLineComment. rewrite skipLineComment_loop_open; [lia| |lia].
      replace (i + 2)%nat with (S (S i)) by lia. by rewrite Hd2. }
    assert (Hslice : slice q i (length q)
                     = Some ("-"%char :: "-"%char :: body)).
    { rewrite slice_Some by lia. f_equal. rewrite Hd.
      apply take_ge. simpl. lia. }
    unfold findNamedParams_body, rewritePlaceholders_body.
    rewrite bool_decide_true by done.
    rewrite (decode_ascii_drop q i "-" _ Hd) by (by vm_compute). cbv zeta.
    rewrite Hd. simpl (_ =? _). cbv iota.
    change (hasPrefix ("-"%char :: "-"%char :: body) (str "--"))
      with (hasPrefix ("-"%char :: "-"%char :: body) ["-"%char; "-"%char]).
    rewrite hasPrefix_two. simpl (_ && _).
    by rewrite Hskip, Hslice.
  - intros Hn Hd.
    pose proof (drop_cons_lookup _ _ _ _ Hd) as (Hl0 & Hd1 & Hlt).
    pose proof (drop_cons_lookup _ _ _ _ Hd1) as (Hl1 & Hd2 & Hlt1).
    assert (Hlen : (i + length body + 4 + length rest = length q)%nat).
    { apply (f_equal length) in Hd. rewrite length_drop in Hd. simpl in Hd.
      rewrite length_app in Hd. simpl in Hd. lia. }
    assert (Hskip : skipBlockComment q (i + 2)
                    = ((i + length body + 4)%nat, None)).
    { unfold skipBlockComment.
      rewrite (skipBlockComment_loop_closed (length q) q (i + 2) body rest);
        [f_equal; lia|done| |lia].
      by replace (i + 2)%nat with (S (S i)) by lia. }
    assert (Hslice : slice q i (i + length body + 4)
                     = Some ("/"%char :: "*"%char :: body
                             ++ [ "*"%char; "/"%char ])).
    { rewrite slice_Some by lia. f_equal. rewrite Hd.
      replace (i + length body + 4 - i)%nat with (S (S (length body + 2))) by lia.
      simpl. do 2 f_equal. rewrite take_app_add' by done. by simpl. }
    unfold findNamedParams_body, rewritePlaceholders_body.
    rewrite bool_decide_true by done.
    rewrite (decode_ascii_drop q i "/" _ Hd) by (by vm_compute). cbv zeta.
    rewrite Hd. simpl (_ =? _). cbv iota.
    change (hasPrefix ("/"%char :: "*"%char :: body
                       ++ "*"%char :: "/"%char :: rest) (str "/*"))
      with (hasPrefix ("/"%char :: "*"%char :: body
                       ++ "*"%char :: "/"%char :: rest) ["/"%char; "*"%char]).
    rewrite hasPrefix_two. simpl (_ && _).
    rewrite Hskip. cbn [fst]. by rewrite Hslice.
Qed.

Lemma comment_untouched_witness :
  (findNamedParams_body asciiTables (str "a -- :x ?" ++ lf :: str "b") 2 []
   = Continue (10%nat, [])
   /\ rewritePlaceholders_body (str "a -- :x ?" ++ lf :: str "b")
        PlaceholderDollar 2 1 (str "a ")
      = Continue (10%nat, 1%nat, str "a -- :x ?" ++ [lf]))
  /\ (findNamedParams_body asciiTables (str "a /* :x ? */ b") 2 []
      = Continue (12%nat, [])
      /\ rewritePlaceholders_body (str "a /* :x ? */ b") PlaceholderDollar 2 1
           (str "a ")
         = Continue (12%nat, 1%nat, str "a /* :x ? */")).
Proof.
  split.
  - destruct (comment_untouched asciiTables (str "a -- :x ?" ++ lf :: str "b")
                PlaceholderDollar 2 1 (str "a ") [] (str " :x ?") (str "b"))
      as (Hl & _ & _).
    apply Hl; [|reflexivity].
    intros Hin. repeat (apply elem_of_cons in Hin as [Hin|Hin]; [discriminate|]).
    by apply elem_of_nil in Hin.
  - destruct (comment_untouched asciiTables (str "a /* :x ? */ b")
                PlaceholderDollar 2 1 (str "a ") [] (str " :x ? ") (str " b"))
      as (_ & _ & Hb).
    apply Hb; [|reflexivity].
    intros a b Hab.
    apply (f_equal (fun x => existsb (fun c => (byteZ c =? 47)) x)) in Hab.
    rewrite existsb_app in Hab. simpl in Hab.
    rewrite existsb_app in Hab. simpl in Hab.
    by rewrite orb_true_r in Hab.
Defined.

(** ** One column into one field *)

Lemma zeroAs_fields (tag t : gotype) :
  Fields t <> [] -> zeroAs tag t = VStruct tag (zeroFields t).
Proof.
  induction t as [k|n u s IHu|e IHe|e IHe|n e IHe|k e IHk IHe|fs IHfs|]
    using gotype_fields_ind; simpl; try done.
  intros _. f_equal. unfold zeroFields. simpl. clear IHfs.
  induction fs as [|[sf ft] fs IH]; [done|]. rewrite fmap_cons. by f_equal.
Qed.

Lemma Fields_Kind (t : gotype) :
  Fields t <> [] -> Kind t = reflect.Struct.
Proof.
  induction t as [k|n u s IHu|e IHe|e IHe|n e IHe|k e IHk IHe|fs IHfs|]
    using gotype_fields_ind; simpl; done.
Qed.

(** The plan of one column that names the field [i] of a struct type. *)
Lemma getPlan_one_field (m : Mapper) (rt0 : gotype) (c : gostring) (i : nat)
    (s : step) :
  reachable m -> isStruct rt0 = true -> cachedPlanFits m rt0 [c] ->
  buildStructIndex rt0 !! c = Some [i] ->
  makeFieldStep rt0 [i] = Some s ->
  exists m' pl,
    getPlan m rt0 [c] (hashColumns [c]) = Returns (m', inl pl)
    /\ plan_isStruct pl = true /\ steps pl = [s].
Proof.
  intros Hm Hs Hfit Hidx Hstep.
  assert (Hfs : fieldSteps rt0 (buildStructIndex rt0) [c] = Some [s]).
  { simpl. unfold fieldIndex in *. by rewrite Hidx, Hstep. }
  unfold getPlan. destruct (loadPlan m _) as [p|] eqn:Hl.
  - destruct (Hfit p Hl) as [Hp Hsteps]. exists m, p.
    split; [done|]. split; [done|]. rewrite Hfs in Hsteps. by injection Hsteps.
  - rewrite Hs. pose proof (structIndex_reachable m rt0 Hm) as Hi.
    destruct (structIndex m rt0) as [m1 idx]. simpl in Hi. subst idx.
    rewrite Hfs. by eexists _, _.
Qed.

(** X21, one column into one field: in a scan of one column that names
    a field of the struct type itself (not one of an embedded struct),
    where the cache holds no plan of other columns under the key and the
    field is no pointer and no interface.  When the field is exported,
    the value returned is the zero struct with that one field set: to
    the number wrapped to the field's width when the field has an
    integer kind and is no scanner (through a temporary of type
    [int64]), and to what [rows.Scan] makes of the column when the field
    is scanned directly (a scanner, or a type that [pickIndirect] does
    not handle).  When the field is not exported, which in the field
    index only an embedded field can be, the scan panics: in the
    conversion after [rows.Scan] for the integer kinds, and before
    [rows.Scan], whatever the column holds, for a field scanned
    directly. *)
Theorem scan_one_field conv (m : Mapper) (rt0 : gotype) (col : gostring)
    (i : nat) (sf : StructField) (ft : gotype) :
  reachable m ->
  cachedPlanFits m rt0 [normalizeColAscii col] ->
  buildStructIndex rt0 !! normalizeColAscii col = Some [i] ->
  Fields rt0 !! i = Some (sf, ft) ->
  Kind ft <> reflect.Pointer -> Kind ft <> reflect.Interface ->
  (PkgPath sf = [] ->
   (forall x,
      implementsScanner ft = false -> isIntKind (Kind ft) = true ->
      conv (zeroValue tInt64) (VInt tInt64 x) = Some (VInt tInt64 x) ->
      exists m',
        scanWithMapper conv m rt0
          {| Columns := Some [col]; Values := [VInt tInt64 x] |}
        = Returns (m',
                   (VStruct rt0
                      (<[i := VInt ft (wrapSigned (intBits (Kind ft)) x)]>
                         (zeroFields rt0)), None)))
   /\ (forall src v,
         implementsScanner ft = true \/ pickIndirect ft = None ->
         conv (zeroValue ft) src = Some v ->
         exists m',
           scanWithMapper conv m rt0
             {| Columns := Some [col]; Values := [src] |}
           = Returns (m', (VStruct rt0 (<[i := v]> (zeroFields rt0)), None))))
  /\ (PkgPath sf <> [] ->
      (forall x,
         implementsScanner ft = false -> isIntKind (Kind ft) = true ->
         conv (zeroValue tInt64) (VInt tInt64 x) = Some (VInt tInt64 x) ->
         scanWithMapper conv m rt0
           {| Columns := Some [col]; Values := [VInt tInt64 x] |}
         = Panics)
      /\ (forall src,
            implementsScanner ft = true \/ pickIndirect ft = None ->
            scanWithMapper conv m rt0
              {| Columns := Some [col]; Values := [src] |}
            = Panics)).
Proof.
  intros Hm Hfit Hidx Hfield Kp Ki.
  assert (Hne : Fields rt0 <> []) by (intros E; by rewrite E in Hfield).
  pose proof (Fields_Kind rt0 Hne) as Hk.
  assert (Hd : derefPtr rt0 = rt0) by (apply derefPtr_id; by rewrite Hk).
  assert (Hs : isStruct rt0 = true) by (unfold isStruct; by rewrite Hd, Hk).
  assert (Hz : zeroValue rt0 = VStruct rt0 (zeroFields rt0))
    by (by apply zeroAs_fields).
  assert (Hzi : zeroFields rt0 !! i = Some (zeroValue ft)).
  { unfold zeroFields. by rewrite list_lookup_fmap, Hfield. }
  assert (Hft : fieldTypeByPath rt0 [i] = Some ft).
  { simpl. by rewrite Hd, Hfield. }
  assert (Hnil : isNilPointer (zeroValue ft) = false).
  { unfold zeroValue. pose proof (zeroAs_typeOf ft ft Ki) as Ht.
    destruct (zeroAs ft ft) as [| | | |t [y|]| | | | |] eqn:Ez; try done.
    simpl in Ht. injection Ht as ->.
    exfalso. clear -Ez Kp. revert Ez. generalize ft at 1 3.
    induction ft as [k|n u s IHu|e IHe|e IHe|n e IHe|k e IHk IHe|fs IHfs|]
      using gotype_fields_ind; intros tag; simpl; try done.
    - destruct (isIntKind k || isUintKind k); [done|]. by destruct k.
    - by apply IHu. }
  assert (Hflags : flagsByPath noRO [i] (VStruct rt0 (zeroFields rt0))
                   = Some (fieldFlags noRO sf)).
  { cbn [flagsByPath]. rewrite Hfield. cbn [mbind option_bind].
    rewrite Hzi. cbn [mbind option_bind].
    by destruct (zeroValue ft) as [| | | |t [y|]| | | | |]. }
  assert (Halloc : fieldByPathAlloc (VStruct rt0 (zeroFields rt0)) [i]
                   = Some (VStruct rt0 (zeroFields rt0))).
  { unfold fieldByPathAlloc. rewrite Hflags. simpl. rewrite Hzi. simpl.
    rewrite (allocLast_id _ Hnil). simpl. by rewrite list_insert_id. }
  assert (Hro : readOnlyAt (VStruct rt0 (zeroFields rt0)) [i]
                = negb (bool_decide (PkgPath sf = []))).
  { unfold readOnlyAt. rewrite Hflags. unfold isRO, fieldFlags. simpl.
    destruct (bool_decide (PkgPath sf = [])); [done|]. simpl.
    by destruct (Anonymous sf). }
  assert (Hindirect : forall x,
    implementsScanner ft = false -> isIntKind (Kind ft) = true ->
    conv (zeroValue tInt64) (VInt tInt64 x) = Some (VInt tInt64 x) ->
    exists m',
      scanWithMapper conv m rt0
        {| Columns := Some [col]; Values := [VInt tInt64 x] |}
      = if bool_decide (PkgPath sf = [])
        then Returns (m',
               (VStruct rt0
                  (<[i := VInt ft (wrapSigned (intBits (Kind ft)) x)]>
                     (zeroFields rt0)), None))
        else Panics).
  { intros x Hsc Hint Hconv.
    destruct (pickIndirect_int ft ft 0 x (peelPointers_id ft Kp) Hint)
      as (pf & Hpick & Hpost).
    destruct (getPlan_one_field m rt0 (normalizeColAscii col) i
                {| kind := stepIndirect; fpath := [i]; convTo := Some tInt64;
                   post := Some pf |} Hm Hs Hfit Hidx)
      as (m' & pl & Hg & Hps & Hst).
    { unfold makeFieldStep. by rewrite Hft, Hsc, Hpick. }
    exists m'. unfold scanWithMapper. simpl. rewrite Hg. simpl.
    unfold destPtrs. rewrite Hps, Hst, Hz. simpl.
    rewrite lookup_insert_eq. simpl. rewrite Hconv. simpl.
    rewrite lookup_insert_eq. simpl. rewrite Halloc. simpl.
    rewrite Hro. destruct (bool_decide (PkgPath sf = [])); [|done]. simpl.
    rewrite Hzi. simpl.
    assert (Ht : typeOf (zeroValue ft) = Some ft) by (by apply zeroAs_typeOf).
    rewrite Ht. simpl.
    rewrite (Hpost tInt64). simpl. done. }
  assert (Hdirect : forall src,
    implementsScanner ft = true \/ pickIndirect ft = None ->
    exists m',
      scanWithMapper conv m rt0 {| Columns := Some [col]; Values := [src] |}
      = if bool_decide (PkgPath sf = [])
        then match conv (zeroValue ft) src with
             | Some v =>
               Returns (m', (VStruct rt0 (<[i := v]> (zeroFields rt0)), None))
             | None => Returns (m', (zeroValue rt0, Some ErrRowsScan))
             end
        else Panics).
  { intros src Hdir.
    destruct (getPlan_one_field m rt0 (normalizeColAscii col) i
                {| kind := stepDirect; fpath := [i]; convTo := None;
                   post := None |} Hm Hs Hfit Hidx)
      as (m' & pl & Hg & Hps & Hst).
    { unfold makeFieldStep. rewrite Hft.
      destruct Hdir as [-> | Hpick]; [done|].
      rewrite Hpick. by destruct (implementsScanner ft). }
    exists m'. unfold scanWithMapper. simpl. rewrite Hg. simpl.
    unfold destPtrs. rewrite Hps, Hst, Hz.
    cbn [structDests kind fpath s_root]. rewrite Halloc. simpl.
    rewrite Hro. destruct (bool_decide (PkgPath sf = [])); [|done]. simpl.
    rewrite Hzi. simpl. by destruct (conv (zeroValue ft) src). }
  split; intros Hpkg.
  - split.
    + intros x Hsc Hint Hconv.
      destruct (Hindirect x Hsc Hint Hconv) as [m' Hr]. exists m'.
      by rewrite bool_decide_true in Hr.
    + intros src v Hdir Hconv. destruct (Hdirect src Hdir) as [m' Hr].
      exists m'. by rewrite bool_decide_true, Hconv in Hr.
  - split.
    + intros x Hsc Hint Hconv.
      destruct (Hindirect x Hsc Hint Hconv) as [m' Hr].
      by rewrite bool_decide_false in Hr.
    + intros src Hdir. destruct (Hdirect src Hdir) as [m' Hr].
      by rewrite bool_decide_false in Hr.
Qed.

Lemma scan_one_field_witness :
  ((exists m',
      scanWithMapper scanSameType NewMapper
        (TNamed (str "R")
           (TStruct [(exportedField "N" "n", TBasic reflect.Int8);
                     (exportedField "Ok" "ok", TBasic reflect.Bool)]) false)
        {| Columns := Some [str "N"]; Values := [VInt tInt64 200] |}
      = Returns (m',
                 (VStruct
                    (TNamed (str "R")
                       (TStruct [(exportedField "N" "n", TBasic reflect.Int8);
                                 (exportedField "Ok" "ok", TBasic reflect.Bool)])
                       false)
                    [VInt (TBasic reflect.Int8) (-56);
                     VBool (TBasic reflect.Bool) false], None)))
   /\ (exists m',
         scanWithMapper scanAny NewMapper
           (TNamed (str "R")
              (TStruct [(exportedField "N" "n", TBasic reflect.Int8);
                        (exportedField "Ok" "ok", TBasic reflect.Bool)]) false)
           {| Columns := Some [str "ok"];
              Values := [VBool (TBasic reflect.Bool) true] |}
         = Returns (m',
                    (VStruct
                       (TNamed (str "R")
                          (TStruct [(exportedField "N" "n", TBasic reflect.Int8);
                                    (exportedField "Ok" "ok", TBasic reflect.Bool)])
                          false)
                       [VInt (TBasic reflect.Int8) 0;
                        VBool (TBasic reflect.Bool) true], None))))
  /\ scanWithMapper scanSameType NewMapper
       (TNamed (str "R")
          (TStruct [(embeddedField "myint" "main",
                     TNamed (str "myint") (TBasic reflect.Int) false)]) false)
       {| Columns := Some [str "myint"]; Values := [VInt tInt64 7] |}
     = Panics.
Proof.
  split; [split|].
  - destruct (scan_one_field scanSameType NewMapper
                (TNamed (str "R")
                   (TStruct [(exportedField "N" "n", TBasic reflect.Int8);
                             (exportedField "Ok" "ok", TBasic reflect.Bool)])
                   false)
                (str "N") 0 (exportedField "N" "n") (TBasic reflect.Int8)
                reach_new)
      as [Hexp _]; try done.
    destruct (Hexp eq_refl) as [Hint _].
    exact (Hint 200 eq_refl eq_refl eq_refl).
  - destruct (scan_one_field scanAny NewMapper
                (TNamed (str "R")
                   (TStruct [(exportedField "N" "n", TBasic reflect.Int8);
                             (exportedField "Ok" "ok", TBasic reflect.Bool)])
                   false)
                (str "ok") 1 (exportedField "Ok" "ok") (TBasic reflect.Bool)
                reach_new)
      as [Hexp _]; try done.
    destruct (Hexp eq_refl) as [_ Hdir].
    exact (Hdir (VBool (TBasic reflect.Bool) true)
             (VBool (TBasic reflect.Bool) true) (or_intror eq_refl) eq_refl).
  - refine (proj1
              (proj2
                 (scan_one_field scanSameType NewMapper
                    (TNamed (str "R")
                       (TStruct [(embeddedField "myint" "main",
                                  TNamed (str "myint") (TBasic reflect.Int)
                                    false)])
                       false)
                    (str "myint") 0 (embeddedField "myint" "main")
                    (TNamed (str "myint") (TBasic reflect.Int) false)
                    reach_new _ _ _ _ _) _)
              7 eq_refl eq_refl eq_refl); done.
Defined.

(** ** Dollar-quoted bodies *)

(** [strings.Index] finds the first place of the text searched. *)
Lemma strings_Index_first (sub init body rest : gostring) (l : ascii) :
  sub = init ++ [l] -> absent sub (body ++ init) ->
  strings_Index (body ++ sub ++ rest) sub = Some (length body).
Proof.
  intros Hsub. induction body as [|c body IH]; intros Ha.
  - simpl. assert (Hp : hasPrefix (sub ++ rest) sub = true)
      by (apply hasPrefix_app; by eexists).
    destruct (sub ++ rest) eqn:E; simpl; by rewrite Hp.
  - assert (Hp : hasPrefix ((c :: body) ++ sub ++ rest) sub = false).
    { destruct (hasPrefix _ sub) eqn:E; [exfalso|done].
      apply hasPrefix_app in E as [t Ht].
      apply (Ha [] (drop (length sub) ((c :: body) ++ init))). simpl.
      rewrite <- (take_drop (length sub) ((c :: body) ++ init)) at 1.
      f_equal.
      assert (Hlen : (length sub <= length ((c :: body) ++ init))%nat).
      { rewrite Hsub, !length_app. simpl. lia. }
      apply (f_equal (take (length sub))) in Ht.
      rewrite take_app_length in Ht.
      assert (Hre : (c :: body) ++ sub ++ rest
                    = ((c :: body) ++ init) ++ l :: rest).
      { rewrite Hsub at 1. by rewrite <- !app_assoc. }
      rewrite Hre, take_app_le in Ht by done. exact Ht. }
    cbn [strings_Index app]. simpl in Hp. rewrite Hp.
    rewrite IH by (by eapply absent_tail). done.
Qed.

(** A dollar-quoted body that is closed ends behind its closing tag. *)
Lemma skipDollarQuoted_closed (s : gostring) (i : nat)
    (tag body rest : gostring) :
  Forall tagByte tag ->
  drop i s
  = "$"%char :: tag ++ "$"%char :: body ++ "$"%char :: tag ++ "$"%char :: rest ->
  absent ("$"%char :: tag ++ ["$"%char]) (body ++ "$"%char :: tag) ->
  skipDollarQuoted s i
  = ((i + length body + 2 * length tag + 4)%nat, true, None).
Proof.
  intros Ht Hd Ha. unfold skipDollarQuoted.
  pose proof (drop_cons_lookup _ _ _ _ Hd) as (Hl0 & Hd1 & Hlt).
  unfold byteIs at 1. rewrite Hl0, bool_decide_true by done. simpl.
  assert (Hlen : length s
                 = (i + (4 + 2 * length tag + length body + length rest))%nat).
  { apply (f_equal length) in Hd. rewrite length_drop in Hd. simpl in Hd.
    repeat (rewrite length_app in Hd; simpl in Hd). lia. }
  replace (i + 1)%nat with (S i) by lia.
  rewrite (tagEnd_loop_run (length s) s (S i) tag _ Hd1 Ht) by lia.
  assert (Hd2 : drop (S i + length tag) s
                = "$"%char :: body ++ "$"%char :: tag ++ "$"%char :: rest).
  { rewrite <- drop_drop, Hd1, drop_app_length. done. }
  pose proof (drop_cons_lookup _ _ _ _ Hd2) as (Hl2 & Hd3 & _).
  unfold byteIs. rewrite Hl2.
  rewrite bool_decide_false, bool_decide_true by first [done|lia]. simpl.
  replace (S (i + length tag + 1)) with (S (S i + length tag)) by lia.
  assert (Htag : take (S (S i + length tag) - i) (drop i s)
                 = "$"%char :: tag ++ [ "$"%char ]).
  { rewrite Hd. replace (S (S i + length tag) - i)%nat
      with (S (length tag + 1)) by lia.
    simpl. f_equal. rewrite take_app_ge by lia.
    replace (length tag + 1 - length tag)%nat with 1%nat by lia.
    simpl. by rewrite take_0. }
  rewrite Htag, Hd3.
  assert (Hidx : strings_Index (body ++ "$"%char :: tag ++ "$"%char :: rest)
                   ("$"%char :: tag ++ [ "$"%char ]) = Some (length body)).
  { replace (body ++ "$"%char :: tag ++ "$"%char :: rest)
      with (body ++ ("$"%char :: tag ++ [ "$"%char ]) ++ rest)
      by (simpl; by rewrite <- app_assoc).
    by apply (strings_Index_first _ ("$"%char :: tag) body rest "$"%char). }
  rewrite Hidx. do 2 f_equal. simpl. rewrite length_app. simpl. lia.
Qed.

(** X22, dollar-quoted bodies are left alone: where a body opens between
    two dollar tags (a tag of letters, digits and underscores, possibly
    empty, between two dollar signs) and the same tag closes it, one
    iteration of the extractor goes to the byte behind the closing tag
    without making a token, and one iteration of the rewriter copies
    the tags and the body as they are and keeps its counter. *)
Theorem dollar_quoted_untouched (U : UnicodeTables) (q : gostring)
    (ph : Placeholder) (i arg : nat) (out : gostring)
    (toks : list nameToken) (tag body rest : gostring) :
  Forall tagByte tag ->
  drop i q
  = "$"%char :: tag ++ "$"%char :: body ++ "$"%char :: tag ++ "$"%char :: rest ->
  absent ("$"%char :: tag ++ ["$"%char]) (body ++ "$"%char :: tag) ->
  findNamedParams_body U q i toks
  = Continue ((i + length body + 2 * length tag + 4)%nat, toks)
  /\ rewritePlaceholders_body q ph i arg out
     = Continue ((i + length body + 2 * length tag + 4)%nat, arg,
                 out ++ "$"%char :: tag ++ "$"%char :: body
                     ++ "$"%char :: tag ++ ["$"%char]).
Proof.
  intros Ht Hd Ha.
  pose proof (skipDollarQuoted_closed q i tag body rest Ht Hd Ha) as Hskip.
  pose proof (drop_cons_lookup _ _ _ _ Hd) as (Hl0 & Hd1 & Hlt).
  assert (Hlen : length q
                 = (i + (4 + 2 * length tag + length body + length rest))%nat).
  { apply (f_equal length) in Hd. rewrite length_drop in Hd. simpl in Hd.
    repeat (rewrite length_app in Hd; simpl in Hd). lia. }
  assert (Hslice : slice q i (i + length body + 2 * length tag + 4)
                   = Some ("$"%char :: tag ++ "$"%char :: body
                           ++ "$"%char :: tag ++ ["$"%char])).
  { rewrite slice_Some by lia. f_equal. rewrite Hd.
    replace ("$"%char :: tag ++ "$"%char :: body
             ++ "$"%char :: tag ++ "$"%char :: rest)
      with (("$"%char :: tag ++ "$"%char :: body
             ++ "$"%char :: tag ++ ["$"%char]) ++ rest).
    2:{ simpl. f_equal. rewrite <- !app_assoc. simpl. f_equal. f_equal.
        rewrite <- !app_assoc. simpl. do 2 f_equal. by rewrite <- app_assoc. }
    apply take_app_length'. simpl.
    repeat (rewrite length_app; simpl). lia. }
  unfold findNamedParams_body, rewritePlaceholders_body.
  rewrite bool_decide_true by done.
  rewrite (decode_ascii_drop q i "$" _ Hd) by (by vm_compute). cbv zeta.
  simpl (_ =? _). cbv iota. rewrite Hskip. cbn [fst snd andb].
  by rewrite Hslice.
Qed.

Lemma dollar_quoted_untouched_witness :
  findNamedParams_body asciiTables (str "a $t$ :x ? $t$ b") 2 []
  = Continue (14%nat, [])
  /\ rewritePlaceholders_body (str "a $t$ :x ? $t$ b") PlaceholderDollar 2 1
       (str "a ")
     = Continue (14%nat, 1%nat, str "a $t$ :x ? $t$").
Proof.
  apply (dollar_quoted_untouched asciiTables (str "a $t$ :x ? $t$ b")
           PlaceholderDollar 2 1 (str "a ") [] (str "t") (str " :x ? ")
           (str " b")).
  - constructor; [split; [discriminate|reflexivity]|constructor].
  - reflexivity.
  - intros a b Hab.
    apply (f_equal (fun x => length (filter (fun c => c = "$"%char) x))) in Hab.
    rewrite !filter_app, !length_app in Hab.
    remember (length (filter (fun c => c = "$"%char) a)) as na.
    remember (length (filter (fun c => c = "$"%char) b)) as nb.
    clear -Hab.
    match type of Hab with
    | ?l = (?n1 + (?x + ?n2))%nat =>
      let l' := eval vm_compute in l in
      let x' := eval vm_compute in x in
      change (l' = (n1 + (x' + n2))%nat) in Hab
    end.
    lia.
Defined.

(** ** All the rows of a result (query.go, get.go) *)

Lemma extends_refl (m : Mapper) : extends m m.
Proof. by split. Qed.

Lemma extends_trans (m1 m2 m3 : Mapper) :
  extends m1 m2 -> extends m2 m3 -> extends m1 m3.
Proof. intros [H1 H2] [H3 H4]. split; intros; [by apply H3, H1|by apply H4, H2]. Qed.

Lemma structIndex_extends (m : Mapper) (rt0 : gotype) :
  extends m (structIndex m rt0).1.
Proof.
  unfold structIndex. destruct (loadIndex m rt0) as [fi|] eqn:Hl; [by split|].
  split; [done|]. intros t fi Ht. unfold loadIndex in *. simpl.
  destruct (gotype_eqb rt0 t) eqn:E; [|done].
  apply gotype_eqb_eq in E as ->. by rewrite Hl in Ht.
Qed.

Lemma getPlan_extends (m m' : Mapper) rt0 cols h r :
  getPlan m rt0 cols h = Returns (m', r) -> extends m m'.
Proof.
  unfold getPlan. destruct (loadPlan m _) as [p0|] eqn:Hl.
  { intros [= <- _]. apply extends_refl. }
  assert (Hput : forall m1 p,
    extends m m1 -> planCache m1 = planCache m ->
    extends m {| planCache := ({| key_rt := rt0; key_hash := h;
                                  key_ncols := length cols |}, p) :: planCache m1;
                 structIndexCache := structIndexCache m1 |}).
  { intros m1 p [_ Hi] Hc. split; [|exact Hi].
    intros k p1 Hk. unfold loadPlan in *. simpl. rewrite Hc.
    destruct (planKey_eqb _ k) eqn:E; [|done].
    apply planKey_eqb_eq in E as <-. by rewrite Hl in Hk. }
  destruct (isStruct rt0).
  - pose proof (structIndex_extends m rt0) as He.
    pose proof (structIndex_planCache m rt0) as Hc.
    destruct (structIndex m rt0) as [m1 idx]. simpl in *.
    destruct (fieldSteps rt0 idx cols) as [sts|]; [|done].
    intros [= <- _]. by apply Hput.
  - destruct (implementsScanner rt0);
      destruct (negb _); intros [= <- _];
      first [apply extends_refl | by apply Hput; [apply extends_refl|]].
Qed.

Lemma scanWithMapper_extends conv (m m' : Mapper) rt0 rows x :
  scanWithMapper conv m rt0 rows = Returns (m', x) -> extends m m'.
Proof.
  unfold scanWithMapper. destruct (Columns rows) as [cols|].
  2:{ intros [= <- _]. apply extends_refl. }
  case_bool_decide; [intros [= <- _]; apply extends_refl|].
  destruct (getPlan m rt0 _ _) as [[m1 r]| |] eqn:Hg; simpl; [|done|done].
  apply getPlan_extends in Hg. destruct r as [pl|err]; [|by intros [= <- _]].
  destruct (destPtrs pl _) as [[[dests finals] st]|]; [|done].
  destruct (rowsScan conv dests _ st) as [st1|]; [|by intros [= <- _]].
  destruct (cleanup finals st1); [by intros [= <- _]|done].
Qed.

(** What a scan has returned, a scan with caches that hold its plan
    returns too, and leaves these caches as they are. *)
Lemma scanWithMapper_later conv (m m1 m2 : Mapper) rt0 cols vals v :
  scanWithMapper conv m rt0 {| Columns := cols; Values := vals |}
  = Returns (m1, (v, None)) ->
  extends m1 m2 -> scansTo conv m2 rt0 cols vals v.
Proof.
  unfold scansTo, scanWithMapper. simpl. destruct cols as [cols|]; [|done].
  case_bool_decide; [done|].
  destruct (getPlan m rt0 _ _) as [[m1' r]| |] eqn:Hg; simpl; [|done|done].
  destruct r as [pl|err]; [|done]. intros Hs [Hext _].
  assert (m1' = m1) as ->.
  { destruct (destPtrs pl _) as [[[dests finals] st]|]; [|done].
    destruct (rowsScan conv dests _ st) as [st1|]; [|done].
    destruct (cleanup finals st1); [by injection Hs|done]. }
  apply getPlan_cached, Hext in Hg.
  unfold getPlan at 1. rewrite Hg. simpl.
  destruct (destPtrs pl _) as [[[dests finals] st]|]; [|done].
  destruct (rowsScan conv dests _ st) as [st1|]; [|done].
  destruct (cleanup finals st1); [|done]. by injection Hs as <-.
Qed.

Lemma scanRows_spec conv (m m' : Mapper) rt0 own cols data acc out :
  scanRows conv m rt0 own cols data acc = Returns (m', (out, None)) ->
  extends m m'
  /\ exists vs, out = acc ++ vs /\ scansInTurn conv m' rt0 own cols data vs.
Proof.
  revert m cols acc. induction data as [|row data IH]; intros m cols acc; simpl.
  { intros [= <- <-]. split; [apply extends_refl|]. exists [].
    by rewrite app_nil_r. }
  destruct (scanWithMapper conv m rt0 _) as [[m1 [v e]]| |] eqn:Hs; simpl;
    [|done|done].
  destruct e; [done|]. intros (Hext & vs & -> & Hall)%IH.
  split; [by eapply extends_trans; [eapply scanWithMapper_extends|]|].
  exists (v :: vs). split; [by rewrite <- app_assoc|].
  split; [by eapply scanWithMapper_later|done].
Qed.

Lemma scansInTurn_length conv m rt0 own cols data vs :
  scansInTurn conv m rt0 own cols data vs -> length vs = length data.
Proof.
  revert cols vs. induction data as [|row data IH]; intros cols [|v vs]; simpl;
    try done.
  intros [_ H]. f_equal. by eapply IH.
Qed.

(** A scan reads the names through [normalizeColAscii]. *)
Lemma scanWithMapper_names conv (m : Mapper) rt0 cs1 cs2 vals :
  normalizeColAscii <$> cs1 = normalizeColAscii <$> cs2 ->
  scanWithMapper conv m rt0 {| Columns := Some cs1; Values := vals |}
  = scanWithMapper conv m rt0 {| Columns := Some cs2; Values := vals |}.
Proof.
  intros H. unfold scanWithMapper. simpl.
  assert (length cs1 = length cs2) as ->
    by (apply (f_equal length) in H; by rewrite !length_fmap in H).
  by rewrite H.
Qed.

(** The names as one scan reads them and as the next scan reads them. *)
Lemma stableNames_next (own : bool) (cols cols' : option (list gostring)) :
  stableNames own cols ->
  columnsAfterScan true cols' = columnsAfterScan true cols ->
  columnsAfterScan true (columnsAfterScan own cols')
  = columnsAfterScan true cols.
Proof.
  intros Hst Hsame. destruct own; [|done].
  destruct Hst as [?|Hst]; [done|]. rewrite Hsame.
  destruct cols as [cs|]; [|done]. simpl. f_equal. by apply Hst.
Qed.

Lemma scanWithMapper_same_names conv (m : Mapper) rt0 cols cols' vals :
  columnsAfterScan true cols' = columnsAfterScan true cols ->
  scanWithMapper conv m rt0 {| Columns := cols'; Values := vals |}
  = scanWithMapper conv m rt0 {| Columns := cols; Values := vals |}.
Proof.
  destruct cols as [cs|], cols' as [cs'|]; simpl; try done.
  intros [= H]. by apply scanWithMapper_names.
Qed.

Lemma scansInTurn_stable conv m rt0 own cols cols' data vs :
  stableNames own cols ->
  columnsAfterScan true cols' = columnsAfterScan true cols ->
  scansInTurn conv m rt0 own cols' data vs ->
  Forall2 (scansTo conv m rt0 cols) data vs.
Proof.
  intros Hst. revert cols' vs.
  induction data as [|row data IH]; intros cols' [|v vs] Hsame; simpl; try done.
  intros [Hrow Hrest]. constructor.
  - unfold scansTo in *. by rewrite <- (scanWithMapper_same_names _ _ _ _ cols').
  - apply (IH (columnsAfterScan own cols')); [|done]. by apply stableNames_next.
Qed.

Lemma scanRows_mapper conv (m m' : Mapper) rt0 own cols cols' data acc r :
  stableNames own cols ->
  columnsAfterScan true cols' = columnsAfterScan true cols ->
  (forall vals m'' y,
     scanWithMapper conv m rt0 {| Columns := cols; Values := vals |}
       = Returns (m'', y) -> m'' = m) ->
  scanRows conv m rt0 own cols' data acc = Returns (m', r) -> m' = m.
Proof.
  intros Hn Hsame Hst. revert cols' Hsame acc.
  induction data as [|row data IH]; intros cols' Hsame acc; simpl.
  { by intros [= <- _]. }
  rewrite (scanWithMapper_same_names _ _ _ cols cols') by done.
  destruct (scanWithMapper conv m rt0 _) as [[m1 [v e]]| |] eqn:Hs; simpl;
    [|done|done].
  apply Hst in Hs as ->. destruct e; [by intros [= <- _]|].
  apply IH. by apply stableNames_next.
Qed.

(** X3, [Query] returns all the rows or none: whenever it returns, the
    values are none at all or as many as the result has rows; when it
    returns without an error, the values are the scans of the rows, one
    per row in their order, as the caches that the call leaves behind
    scan them, each row under the column names as the scans before it
    have left them: [scanWithMapper] writes the normalised names into
    the slice of [rows.Columns()], so with a driver that keeps this
    slice the row [k] reads names normalised [k] times more.  Where this
    changes no name (the driver makes a slice at every call, or no label
    is wrapped twice), every row is scanned under the columns of the
    result. *)
Theorem Query_all_rows_or_none {S : Type} conv (q : Querier S)
    (mapper mapper' : option Mapper) (rt0 : gotype) (db db' : S)
    (query : gostring) (args out : list value) (err : option sqlError) :
  Query conv q mapper rt0 db query args = Returns (db', mapper', (out, err)) ->
  (out = []
   \/ exists rows, QueryContext q db query args = (db', inl rows)
                   /\ length out = length (rows_data rows))
  /\ (err = None ->
      exists rows m,
        QueryContext q db query args = (db', inl rows) /\ mapper' = Some m
        /\ rows_err rows = None
        /\ scansInTurn conv m rt0 (rows_own_names rows) (rows_columns rows)
             (rows_data rows) out
        /\ (stableNames (rows_own_names rows) (rows_columns rows) ->
            Forall2 (scansTo conv m rt0 (rows_columns rows))
              (rows_data rows) out)).
Proof.
  unfold Query. destruct (QueryContext q db query args) as [db1 [rows|e]].
  2:{ intros [= <- <- <- <-]. split; [by left|done]. }
  destruct (scanRows conv _ rt0 _ _ _ []) as [[m [vs [e|]]]| |] eqn:Hs; simpl;
    [| |done|done].
  { intros [= <- <- <- <-]. split; [by left|done]. }
  destruct (scanRows_spec _ _ _ _ _ _ _ _ _ Hs) as (_ & vs' & -> & Hall).
  simpl in *. destruct (rows_err rows) as [ne|] eqn:Hne.
  { intros [= <- <- <- <-]. split; [by left|done]. }
  intros [= <- <- <- <-]. split.
  - right. exists rows. split; [done|]. by eapply scansInTurn_length.
  - intros _. exists rows, m. split_and!; try done.
    intros Hst. by eapply scansInTurn_stable.
Qed.

Lemma Query_all_rows_or_none_witness :
  exists m,
    Query scanAny (constantRows twiceWrappedRows) None tN tt
      (str "SELECT n") []
    = Returns (tt, Some m, ([VStruct tN [VInt tInt64 0];
                             VStruct tN [VInt tInt64 2]], None))
    /\ scansTo scanAny m tN (Some [str "[[n]]"]) [VInt tInt64 1]
         (VStruct tN [VInt tInt64 0])
    /\ scansTo scanAny m tN (Some [str "[n]"]) [VInt tInt64 2]
         (VStruct tN [VInt tInt64 2]).
Proof.
  assert (E : exists m,
    Query scanAny (constantRows twiceWrappedRows) None tN tt
      (str "SELECT n") []
    = Returns (tt, Some m, ([VStruct tN [VInt tInt64 0];
                             VStruct tN [VInt tInt64 2]], None)))
    by (vm_compute; eauto).
  destruct E as [m E]. exists m. split; [exact E|].
  destruct (Query_all_rows_or_none _ _ _ _ _ _ _ _ _ _ _ E) as [_ H].
  destruct (H eq_refl) as (rows & m0 & Hq & [= <-] & _ & Hall & _).
  injection Hq as <-. simpl in Hall.
  destruct Hall as (H1 & H2 & _). split; [exact H1|exact H2].
Defined.

(** X4, [Get] returns the first of the values that [Query] returns: when
    [Query] returns values without an error, [Get] on the same database
    returns the first of them, with the error that [rows.Close()]
    reports after one row; the caches it leaves behind are those of the
    scan of the first row, which the caches that [Query] leaves behind
    hold, and are the same caches where the later rows read the same
    names. *)
Theorem Get_first_of_Query {S : Type} conv (q : Querier S)
    (mapper mapper' : option Mapper) (rt0 : gotype) (db db' : S)
    (query : gostring) (args : list value) (v : value) (vs : list value) :
  Query conv q mapper rt0 db query args
    = Returns (db', mapper', (v :: vs, None)) ->
  exists rows mg mq,
    QueryContext q db query args = (db', inl rows)
    /\ mapper' = Some mq
    /\ Get conv q mapper rt0 db query args
       = Returns (db', Some mg, (v, rows_close rows 1))
    /\ extends mg mq
    /\ (stableNames (rows_own_names rows) (rows_columns rows) -> mg = mq).
Proof.
  unfold Query, Get. destruct (QueryContext q db query args) as [db1 [rows|e]];
    [|done].
  destruct (rows_data rows) as [|row data]; simpl.
  { by destruct (rows_err rows). }
  destruct (scanWithMapper conv _ rt0 _) as [[m1 [v1 e]]| |] eqn:Hs; simpl;
    [|done|done].
  destruct e; [done|].
  destruct (scanWithMapper_again _ _ _ _ _ _ _ Hs) as [_ Hst].
  destruct (scanRows conv m1 rt0 _ _ data [v1]) as [[m [out [e|]]]| |] eqn:Hr;
    simpl; [done| |done|done].
  destruct (scanRows_spec _ _ _ _ _ _ _ _ _ Hr) as (Hext & vs' & -> & _).
  destruct (rows_err rows); [done|].
  intros [= <- <- <- <- _]. exists rows, m1, m. split_and!; try done.
  intros Hn. symmetry.
  eapply (scanRows_mapper conv m1 m rt0 (rows_own_names rows)
            (rows_columns rows)
            (columnsAfterScan (rows_own_names rows) (rows_columns rows))
            data [v1]); [exact Hn| |exact Hst|exact Hr].
  destruct (rows_own_names rows); [|done].
  destruct Hn as [?|Hn]; [done|].
  destruct (rows_columns rows) as [cs|]; [|done]. simpl. f_equal. by apply Hn.
Qed.

Lemma Get_first_of_Query_witness :
  exists mg mq,
    Query scanAny (constantRows twiceWrappedRows) None tN tt
      (str "SELECT n") []
    = Returns (tt, Some mq, ([VStruct tN [VInt tInt64 0];
                              VStruct tN [VInt tInt64 2]], None))
    /\ Get scanAny (constantRows twiceWrappedRows) None tN tt
         (str "SELECT n") []
       = Returns (tt, Some mg, (VStruct tN [VInt tInt64 0], None))
    /\ extends mg mq.
Proof.
  assert (E : exists mq,
    Query scanAny (constantRows twiceWrappedRows) None tN tt
      (str "SELECT n") []
    = Returns (tt, Some mq, ([VStruct tN [VInt tInt64 0];
                              VStruct tN [VInt tInt64 2]], None)))
    by (vm_compute; eauto).
  destruct E as [mq E].
  destruct (Get_first_of_Query _ _ _ _ _ _ _ _ _ _ _ E)
    as (rows & mg & mq' & Hq & [= <-] & Hg & Hext & _).
  injection Hq as <-. exists mg, mq. split; [exact E|]. split; [exact Hg|exact Hext].
Defined.

(** ** Unterminated regions in the positional path *)

(** Where a region opens that nothing closes, the rewriter discards the
    skipper's error and goes on from the offset 0 that the skipper
    returned: at offset 0 it copies nothing and stays, further on the
    slice [query[i:0]] panics. *)
Lemma rewritePlaceholders_body_unterminated (q : gostring) (ph : Placeholder)
    (i arg : nat) (out : gostring) (e : bindError) :
  opensUnterminated q i e ->
  rewritePlaceholders_body q ph i arg out
  = if bool_decide (i = 0%nat) then Continue (0%nat, arg, out)
    else Break Panics.
Proof.
  intros Ho. unfold rewritePlaceholders_body.
  assert (Hslice : match slice q i 0 with
                   | Some seg => Continue (0%nat, arg, out ++ seg)
                   | None => Break Panics
                   end
                   = if bool_decide (i = 0%nat)
                     then Continue (0%nat, arg, out)
                     else (Break Panics
                           : loopStep (nat * nat * gostring) (run gostring))).
  { unfold slice. case_bool_decide as Hi.
    - assert (i = 0%nat) as -> by lia. rewrite bool_decide_true by done.
      simpl. by rewrite app_nil_r.
    - rewrite bool_decide_false; [done|]. intros ->. apply Hi. lia. }
  destruct Ho as [qc e body Hin Hd Hu|body Hd Ha|tag body Hd Ht Ha].
  - pose proof (drop_cons_lookup _ _ _ _ Hd) as (_ & Hd1 & Hlt).
    rewrite bool_decide_true by done.
    replace (i + 1)%nat with (S i) in * by lia.
    apply elem_of_cons in Hin as [[= -> ->]|Hin];
      [|apply elem_of_cons in Hin as [[= -> ->]|Hin];
        [|apply list_elem_of_singleton in Hin as [= -> ->]]];
      rewrite (decode_ascii_drop q i _ body Hd) by done;
      eval_rune_tests;
      unfold skipSingleQuoted, skipDoubleQuoted, skipBacktickQuoted;
      replace (i + 1)%nat with (S i) by lia;
      rewrite skipQuoted_unclosed by (done || by rewrite Hd1);
      exact Hslice.
  - pose proof (drop_cons_lookup _ _ _ _ Hd) as (_ & Hd1 & Hlt).
    pose proof (drop_cons_lookup _ _ _ _ Hd1) as (_ & Hd2 & _).
    rewrite bool_decide_true by done.
    rewrite (decode_ascii_drop q i _ _ Hd) by done.
    eval_rune_tests.
    assert (hasPrefix (drop i q) (str "/*") = true) as ->
      by (apply hasPrefix_app; by eexists).
    unfold skipBlockComment.
    replace (i + 2)%nat with (S (S i)) by lia.
    rewrite skipBlockComment_absent by (by rewrite Hd2).
    exact Hslice.
  - pose proof (drop_cons_lookup _ _ _ _ Hd) as (_ & _ & Hlt).
    rewrite bool_decide_true by done.
    rewrite (decode_ascii_drop q i _ _ Hd) by done.
    eval_rune_tests.
    rewrite (skipDollarQuoted_absent q i tag body) by done.
    exact Hslice.
Qed.

(** The iterations of a run use one unit of the budget each, and at
    most one for every byte they pass. *)
Lemma rewriterRun_fuel (q : gostring) (ph : Placeholder)
    (st st' : nat * nat * gostring) :
  rewriterRun q ph st st' ->
  (st.1.1 <= st'.1.1)%nat
  /\ forall fuel, exists fuel',
       (fuel' <= fuel)%nat /\ (fuel <= fuel' + (st'.1.1 - st.1.1))%nat
       /\ rewritePlaceholders_loop fuel q ph st.1.1 st.1.2 st.2
          = rewritePlaceholders_loop fuel' q ph st'.1.1 st'.1.2 st'.2.
Proof.
  induction 1 as [[[i arg] out]|i arg out j arg' out' st Hb Hlt _ [Hle IH]];
    simpl in *.
  { split; [lia|]. intros fuel. exists fuel. split_and!; [lia|lia|done]. }
  split; [lia|]. intros [|fuel].
  - exists 0%nat. split_and!; [lia|lia|done].
  - destruct (IH fuel) as (fuel' & H1 & H2 & H3). exists fuel'.
    split_and!; [lia|lia|]. simpl. by rewrite Hb.
Qed.

(** X2, an unterminated region in the positional path: with arguments
    that are not one bindable value and a dialect other than the
    question mark, when the rewriter's scan comes to an offset where a
    single-quoted literal, a double-quoted or backtick-quoted
    identifier, a block comment or a dollar-quoted block opens and is
    not closed, [Rebind] returns nothing, whatever the iteration
    budget: when the region opens at offset 0 the loop stays at offset
    0 for ever, and when it opens further on the loop slices
    [query[i:0]] and panics (given a budget above that offset). *)
Theorem positional_unterminated_no_result (U : UnicodeTables) (q : gostring)
    (ph : Placeholder) (params : list value) (i arg : nat) (out : gostring)
    (e : bindError) :
  positionalArgs params -> ph <> PlaceholderQuestion ->
  rewriterRun q ph (0%nat, 1%nat, []) (i, arg, out) ->
  opensUnterminated q i e ->
  (forall fuel r, Rebind U fuel q ph params <> Returns r)
  /\ (i = 0%nat -> forall fuel, Rebind U fuel q ph params = OutOfFuel)
  /\ ((0 < i)%nat -> forall fuel, (i < fuel)%nat ->
        Rebind U fuel q ph params = Panics).
Proof.
  intros Hpos Hph Hrun Ho.
  assert (Hreb : forall fuel,
    Rebind U fuel q ph params
    = run_bind (rewritePlaceholders_loop fuel q ph 0 1 [])
        (fun s => Returns (s, params, None))).
  { intros fuel. unfold Rebind, rewritePlaceholders.
    destruct params as [|p [|p' rest]]; simpl in Hpos; try rewrite Hpos;
      by destruct ph. }
  assert (Hstay : i = 0%nat -> forall fuel,
    rewritePlaceholders_loop fuel q ph i arg out = OutOfFuel).
  { intros -> fuel. induction fuel as [|fuel IH]; [done|]. simpl.
    by rewrite (rewritePlaceholders_body_unterminated q ph 0 arg out e Ho). }
  assert (Hpanic : (0 < i)%nat -> forall fuel,
    rewritePlaceholders_loop (S fuel) q ph i arg out = Panics).
  { intros Hi fuel. simpl.
    rewrite (rewritePlaceholders_body_unterminated q ph i arg out e Ho).
    by rewrite bool_decide_false by lia. }
  destruct (rewriterRun_fuel q ph _ _ Hrun) as [_ Hfuel]. simpl in Hfuel.
  split; [|split].
  - intros fuel r. rewrite Hreb.
    destruct (Hfuel fuel) as (fuel' & _ & _ & ->).
    destruct (decide (i = 0%nat)) as [Hi|Hi].
    + by rewrite (Hstay Hi).
    + destruct fuel' as [|fuel']; [done|]. by rewrite Hpanic by lia.
  - intros Hi fuel. rewrite Hreb.
    destruct (Hfuel fuel) as (fuel' & _ & _ & ->). by rewrite (Hstay Hi).
  - intros Hi fuel Hf. rewrite Hreb.
    destruct (Hfuel fuel) as (fuel' & H1 & H2 & ->).
    destruct fuel' as [|fuel']; [lia|]. by rewrite Hpanic.
Qed.

Lemma positional_unterminated_no_result_witness :
  (forall fuel,
     Rebind asciiTables fuel (str "'abc") PlaceholderDollar [] = OutOfFuel)
  /\ (forall fuel, (1 < fuel)%nat ->
        Rebind asciiTables fuel (str "x'abc") PlaceholderDollar [] = Panics).
Proof.
  assert (Hu : unclosed "'"%char (str "abc")).
  { repeat (apply unclosed_other; [discriminate|]). constructor. }
  split.
  - destruct (positional_unterminated_no_result asciiTables (str "'abc")
                PlaceholderDollar [] 0 1 [] ErrUnterminatedSingle)
      as (_ & Hhang & _).
    + exact I.
    + discriminate.
    + apply run_refl.
    + apply (opens_quote _ _ "'"%char _ (str "abc"));
        [apply list_elem_of_here|reflexivity|exact Hu].
    + exact (Hhang eq_refl).
  - destruct (positional_unterminated_no_result asciiTables (str "x'abc")
                PlaceholderDollar [] 1 1 (str "x") ErrUnterminatedSingle)
      as (_ & _ & Hpanic).
    + exact I.
    + discriminate.
    + eapply run_step; [reflexivity|lia|apply run_refl].
    + apply (opens_quote _ _ "'"%char _ (str "abc"));
        [apply list_elem_of_here|reflexivity|exact Hu].
    + apply Hpanic. lia.
Defined.

(** ** The regions and the question marks of a text (C4) *)

(** A text behind an opening quote is closed at one place or nowhere. *)
Lemma quote_closed_or_not (qc : ascii) (t : gostring) :
  unclosed qc t
  \/ exists body rest,
       t = body ++ qc :: rest /\ unclosed qc body /\ head rest <> Some qc.
Proof.
  assert (H : forall n t, (length t <= n)%nat ->
    unclosed qc t
    \/ exists body rest,
         t = body ++ qc :: rest /\ unclosed qc body /\ head rest <> Some qc);
    [|by apply (H (length t))].
  clear t. induction n as [|n IH]; intros t Hn.
  { destruct t; [left; constructor|simpl in Hn; lia]. }
  destruct t as [|c t]; [left; constructor|]. simpl in Hn.
  destruct (decide (c = qc)) as [->|Hc].
  - destruct t as [|c' t].
    { right. exists [], []. split_and!; [done|constructor|done]. }
    destruct (decide (c' = qc)) as [->|Hc'].
    + simpl in Hn.
      destruct (IH t ltac:(lia)) as [Hu|(body & rest & -> & Hu & Hr)].
      * left. by constructor.
      * right. exists (qc :: qc :: body), rest.
        split_and!; [done|by constructor|done].
    + right. exists [], (c' :: t). split_and!; [done|constructor|].
      simpl. by intros [= ->].
  - destruct (IH t ltac:(lia)) as [Hu|(body & rest & -> & Hu & Hr)].
    + left. by constructor.
    + right. exists (c :: body), rest.
      split_and!; [done|by constructor|done].
Qed.

(** A text occurs somewhere first or nowhere. *)
Lemma absent_or_first (sub init : gostring) (l : ascii) (s : gostring) :
  sub = init ++ [l] ->
  absent sub s
  \/ exists body rest, s = body ++ sub ++ rest /\ absent sub (body ++ init).
Proof.
  intros Hsub. induction s as [|c s IH].
  { left. intros a b Hab. apply (f_equal length) in Hab.
    rewrite Hsub, !length_app in Hab. simpl in Hab. lia. }
  destruct (hasPrefix (c :: s) sub) eqn:E.
  - apply hasPrefix_app in E as [t' Ht]. right. exists [], t'.
    split; [done|]. intros a b Hab. apply (f_equal length) in Hab.
    rewrite Hsub, !length_app in Hab. simpl in Hab.
    rewrite ?length_app in Hab. simpl in Hab. lia.
  - assert (Hnp : forall b, c :: s <> sub ++ b).
    { intros b Hb.
      assert (hasPrefix (c :: s) sub = true) by (apply hasPrefix_app; by eexists).
      congruence. }
    destruct IH as [Ha|(body & rest & -> & Ha)].
    + left. intros [|c' a] b Hab.
      * by apply (Hnp b).
      * injection Hab as _ Hab. by apply (Ha a b).
    + right. exists (c :: body), rest. split; [done|].
      intros [|c' a] b Hab.
      * apply (Hnp (b ++ l :: rest)). simpl in Hab.
        assert (Hs2 : sub ++ rest = init ++ l :: rest)
          by (rewrite Hsub; by rewrite <- app_assoc).
        rewrite Hs2, (app_assoc sub), <- Hab. simpl. by rewrite <- app_assoc.
      * injection Hab as _ Hab. by apply (Ha a b).
Qed.

Lemma tagLen_tagBytes (t : gostring) : Forall tagByte (take (tagLen t) t).
Proof.
  induction t as [|c t IH]; simpl; [constructor|].
  destruct (negb (bool_decide (c = "$"%char)) && isTagByte c) eqn:E;
    [|constructor].
  apply andb_true_iff in E as [E1 E2]. simpl. constructor; [|done].
  split; [|done]. apply negb_true_iff, bool_decide_eq_false in E1. done.
Qed.

Lemma tagLen_tag (tag rest : gostring) :
  Forall tagByte tag -> tagLen (tag ++ "$"%char :: rest) = length tag.
Proof.
  induction 1 as [|c tag [Hc1 Hc2] _ IH]; simpl.
  - done.
  - rewrite bool_decide_false, Hc2 by done. simpl. by rewrite IH.
Qed.

(** [skipDollarQuoted] says [ok] exactly where a tag opens. *)
Lemma dollarQuoted_opening (t : gostring) :
  (dollarQuoted t).1.2 = true ->
  exists tag rest,
    Forall tagByte tag /\ t = "$"%char :: tag ++ "$"%char :: rest.
Proof.
  unfold dollarQuoted. destruct t as [|c t]; [done|].
  case_bool_decide as Hc; simpl; [subst c|done].
  destruct (byteIs t (tagLen t) "$") eqn:Eb; simpl; [|done].
  intros _. exists (take (tagLen t) t), (drop (S (tagLen t)) t).
  split; [apply tagLen_tagBytes|]. f_equal.
  unfold byteIs in Eb. destruct (t !! tagLen t) as [c|] eqn:El; [|done].
  apply bool_decide_eq_true in Eb as ->.
  rewrite <- (take_drop (tagLen t) t) at 1. f_equal.
  by apply drop_S.
Qed.

Lemma slice_region (q : gostring) (i : nat) (reg rest : gostring) :
  (i <= length q)%nat -> drop i q = reg ++ rest ->
  slice q i (i + length reg) = Some reg.
Proof.
  intros Hi Hd.
  assert (Hlen : (i + length reg <= length q)%nat).
  { apply (f_equal length) in Hd. rewrite length_drop, length_app in Hd. lia. }
  rewrite slice_Some by lia. f_equal. rewrite Hd.
  replace (i + length reg - i)%nat with (length reg) by lia.
  by rewrite take_app_length.
Qed.

(** One iteration of the rewriter on a whole region: the region is
    copied and the counter kept. *)
Lemma rewritePlaceholders_body_region (q : gostring) (ph : Placeholder)
    (i arg : nat) (out reg rest : gostring) :
  skipRegion reg rest -> drop i q = reg ++ rest ->
  rewritePlaceholders_body q ph i arg out
  = Continue ((i + length reg)%nat, arg, out ++ reg).
Proof.
  intros Hreg Hd.
  assert (Hi : (i < length q)%nat).
  { apply (f_equal length) in Hd. rewrite length_app in Hd.
    destruct (decide (i < length q)%nat); [done|].
    rewrite drop_ge in Hd by lia. destruct Hreg; simpl in Hd; lia. }
  pose proof (slice_region q i reg rest ltac:(lia) Hd) as Hslice.
  assert (Hlen : (i + length reg + length rest = length q)%nat).
  { apply (f_equal length) in Hd. rewrite length_drop, length_app in Hd. lia. }
  unfold rewritePlaceholders_body. rewrite bool_decide_true by done.
  destruct Hreg as [qc body rest Hqc Hu Hr|body rest Hn|body Hn|body rest Ha
                   |tag body rest Ht Ha].
  - (* a quoted literal *)
    assert (Hd' : drop i q = qc :: body ++ qc :: rest)
      by (rewrite Hd; simpl; by rewrite <- app_assoc).
    pose proof (drop_cons_lookup _ _ _ _ Hd') as (_ & Hd1 & _).
    assert (Hq : byteZ qc < 0x80)
      by (destruct Hqc as [-> | [-> | ->]]; by vm_compute).
    simpl in Hlen, Hslice. rewrite length_app in Hlen, Hslice.
    simpl in Hlen, Hslice.
    assert (Hskip : forall e,
              skipQuoted_loop qc e (length q) q (i + 1)
              = ((i + S (length body + 1))%nat, None)).
    { intros e. replace (i + S (length body + 1))%nat
        with (i + 1 + length body + 1)%nat by lia.
      apply (skipQuoted_closed qc e (length q) q (i + 1) body rest); try done.
      - by replace (i + 1)%nat with (S i) by lia.
      - lia. }
    rewrite (decode_ascii_drop q i qc _ Hd' Hq). cbv zeta.
    unfold skipSingleQuoted, skipDoubleQuoted, skipBacktickQuoted.
    simpl length. rewrite length_app. simpl length.
    destruct Hqc as [-> | [-> | ->]]; simpl (_ =? _); cbv iota;
      rewrite Hskip; simpl; by rewrite Hslice.
  - (* a line comment that a line feed ends *)
    assert (Hd' : drop i q = "-"%char :: "-"%char :: body ++ lf :: rest)
      by (rewrite Hd; simpl; by rewrite <- app_assoc).
    pose proof (drop_cons_lookup _ _ _ _ Hd') as (_ & Hd1 & _).
    pose proof (drop_cons_lookup _ _ _ _ Hd1) as (_ & Hd2 & _).
    simpl in Hlen, Hslice. rewrite length_app in Hlen, Hslice.
    simpl in Hlen, Hslice.
    assert (Hskip : skipLineComment q (i + 2) = (i + S (S (length body + 1)))%nat).
    { unfold skipLineComment.
      rewrite (skipLineComment_loop_closed (length q) q (i + 2) body rest);
        [lia|done| |lia].
      by replace (i + 2)%nat with (S (S i)) by lia. }
    rewrite (decode_ascii_drop q i "-" _ Hd') by (by vm_compute). cbv zeta.
    rewrite Hd'. simpl (_ =? _). cbv iota.
    change (hasPrefix ("-"%char :: "-"%char :: body ++ lf :: rest) (str "--"))
      with (hasPrefix ("-"%char :: "-"%char :: body ++ lf :: rest)
              ["-"%char; "-"%char]).
    rewrite hasPrefix_two. simpl (_ && _).
    simpl length. rewrite length_app. simpl length.
    by rewrite Hskip, Hslice.
  - (* a line comment that the end of the query ends *)
    rewrite app_nil_r in Hd.
    pose proof (drop_cons_lookup _ _ _ _ Hd) as (_ & Hd1 & _).
    pose proof (drop_cons_lookup _ _ _ _ Hd1) as (_ & Hd2 & _).
    simpl in Hlen, Hslice.
    assert (Hskip : skipLineComment q (i + 2) = (i + S (S (length body)))%nat).
    { unfold skipLineComment. rewrite skipLineComment_loop_open; [lia| |lia].
      replace (i + 2)%nat with (S (S i)) by lia. by rewrite Hd2. }
    rewrite (decode_ascii_drop q i "-" _ Hd) by (by vm_compute). cbv zeta.
    rewrite Hd. simpl (_ =? _). cbv iota.
    change (hasPrefix ("-"%char :: "-"%char :: body) (str "--"))
      with (hasPrefix ("-"%char :: "-"%char :: body) ["-"%char; "-"%char]).
    rewrite hasPrefix_two. simpl (_ && _). simpl length.
    by rewrite Hskip, Hslice.
  - (* a block comment *)
    assert (Hd' : drop i q
                  = "/"%char :: "*"%char :: body ++ "*"%char :: "/"%char :: rest)
      by (rewrite Hd; simpl; by rewrite <- app_assoc).
    pose proof (drop_cons_lookup _ _ _ _ Hd') as (_ & Hd1 & _).
    pose proof (drop_cons_lookup _ _ _ _ Hd1) as (_ & Hd2 & _).
    simpl in Hlen, Hslice. rewrite length_app in Hlen, Hslice.
    simpl in Hlen, Hslice.
    assert (Hskip : skipBlockComment q (i + 2)
                    = ((i + S (S (length body + 2)))%nat, None)).
    { unfold skipBlockComment.
      rewrite (skipBlockComment_loop_closed (length q) q (i + 2) body rest);
        [f_equal; lia|done| |lia].
      by replace (i + 2)%nat with (S (S i)) by lia. }
    rewrite (decode_ascii_drop q i "/" _ Hd') by (by vm_compute). cbv zeta.
    rewrite Hd'. simpl (_ =? _). cbv iota.
    change (hasPrefix ("/"%char :: "*"%char :: body
                       ++ "*"%char :: "/"%char :: rest) (str "/*"))
      with (hasPrefix ("/"%char :: "*"%char :: body
                       ++ "*"%char :: "/"%char :: rest) ["/"%char; "*"%char]).
    rewrite hasPrefix_two. simpl (_ && _).
    simpl length. rewrite length_app. simpl length.
    rewrite Hskip. cbn [fst]. by rewrite Hslice.
  - (* a dollar-quoted body *)
    assert (Hd' : drop i q
                  = "$"%char :: tag ++ "$"%char :: body
                    ++ "$"%char :: tag ++ "$"%char :: rest).
    { rewrite Hd. simpl. f_equal. rewrite <- !app_assoc. simpl. do 2 f_equal.
      rewrite <- !app_assoc. simpl. do 2 f_equal. by rewrite <- app_assoc. }
    pose proof (skipDollarQuoted_closed q i tag body rest Ht Hd' Ha) as Hskip.
    assert (Hl : length ("$"%char :: tag ++ "$"%char :: body
                         ++ "$"%char :: tag ++ ["$"%char])
                 = (length body + 2 * length tag + 4)%nat).
    { simpl. repeat (rewrite length_app; simpl). lia. }
    rewrite Hl in Hslice |- *.
    replace (i + (length body + 2 * length tag + 4))%nat
      with (i + length body + 2 * length tag + 4)%nat in Hslice |- * by lia.
    rewrite (decode_ascii_drop q i "$" _ Hd') by (by vm_compute). cbv zeta.
    simpl (_ =? _). cbv iota. rewrite Hskip. cbn [fst snd andb].
    by rewrite Hslice.
Qed.

Lemma skipDollarQuoted_ok (q : gostring) (i : nat) :
  (i <= length q)%nat ->
  (skipDollarQuoted q i).1.2 = (dollarQuoted (drop i q)).1.2.
Proof.
  intros Hi.
  pose proof (skipDollarQuoted_dollarQuoted (take i q) (drop i q)) as Hsd.
  rewrite take_drop, length_take_le in Hsd by lia. rewrite Hsd.
  by destruct (dollarQuoted (drop i q)) as [[j [|]] [e|]].
Qed.

Lemma dollarQuoted_tag (tag rest : gostring) :
  Forall tagByte tag ->
  (dollarQuoted ("$"%char :: tag ++ "$"%char :: rest)).1.2 = true.
Proof.
  intros Ht. unfold dollarQuoted. simpl negb. cbv iota.
  rewrite (tagLen_tag tag rest Ht). unfold byteIs.
  rewrite list_lookup_middle by done. rewrite bool_decide_true by done.
  simpl negb. cbv iota. cbv zeta.
  by destruct (strings_Index _ _).
Qed.

(** One iteration on a byte that is no question mark and opens no
    region: the byte is copied. *)
Lemma rewritePlaceholders_body_single (q : gostring) (ph : Placeholder)
    (i arg : nat) (out : gostring) (c : ascii) (t : gostring) :
  drop i q = c :: t -> byteZ c < 0x80 -> c <> "?"%char ->
  ~ opensRegion (c :: t) ->
  rewritePlaceholders_body q ph i arg out = Continue (S i, arg, out ++ [c]).
Proof.
  intros Hd Hc Hq Hno.
  pose proof (drop_cons_lookup _ _ _ _ Hd) as (_ & _ & Hi).
  assert (Hslice : slice q i (i + 1) = Some [c]).
  { apply (slice_region q i [c] t); [lia|done]. }
  assert (Hne : forall qc, quoteByte qc -> (byteZ c =? rune qc) = false).
  { intros qc Hqc. apply Z.eqb_neq. intros E. apply byteZ_inj in E. subst c.
    apply Hno. left. by exists qc, t. }
  assert (Hline : ((byteZ c =? rune "-") && hasPrefix (drop i q) (str "--"))
                  = false).
  { apply andb_false_iff.
    destruct (Z.eqb_spec (byteZ c) (rune "-")) as [E|]; [right|by left].
    apply byteZ_inj in E. subst c.
    destruct (hasPrefix (drop i q) (str "--")) eqn:Ep; [exfalso|done].
    apply hasPrefix_app in Ep as [t' Ht']. rewrite Hd in Ht'.
    apply Hno. right; left. by exists t'. }
  assert (Hblock : ((byteZ c =? rune "/") && hasPrefix (drop i q) (str "/*"))
                   = false).
  { apply andb_false_iff.
    destruct (Z.eqb_spec (byteZ c) (rune "/")) as [E|]; [right|by left].
    apply byteZ_inj in E. subst c.
    destruct (hasPrefix (drop i q) (str "/*")) eqn:Ep; [exfalso|done].
    apply hasPrefix_app in Ep as [t' Ht']. rewrite Hd in Ht'.
    apply Hno. right; right; left. by exists t'. }
  assert (Hdollar : ((byteZ c =? rune "$") && (skipDollarQuoted q i).1.2)
                    = false).
  { apply andb_false_iff.
    destruct (Z.eqb_spec (byteZ c) (rune "$")) as [E|]; [right|by left].
    rewrite skipDollarQuoted_ok by lia. rewrite Hd.
    destruct (dollarQuoted (c :: t)).1.2 eqn:Eo; [exfalso|done].
    apply dollarQuoted_opening in Eo as (tag & rest & Ht & Heq).
    apply Hno. right; right; right. by exists tag, rest. }
  assert (Hquest : (byteZ c =? rune "?") = false).
  { apply Z.eqb_neq. intros E. by apply byteZ_inj in E. }
  unfold rewritePlaceholders_body. rewrite bool_decide_true by done.
  rewrite (decode_ascii_drop q i c t Hd Hc). cbv zeta.
  rewrite (Hne "'"%char) by (by left).
  rewrite (Hne dquote) by (right; by left).
  rewrite (Hne "`"%char) by (right; by right).
  rewrite Hline, Hblock, Hdollar, Hquest, Hslice.
  by replace (i + 1)%nat with (S i) by lia.
Qed.

(** One iteration on a byte that is no ASCII byte: the bytes that
    [DecodeRuneInString] takes as one rune are copied, and none of
    them is an ASCII byte. *)
Lemma rewritePlaceholders_body_high (q : gostring) (ph : Placeholder)
    (i arg : nat) (out : gostring) (c : ascii) (t : gostring) :
  drop i q = c :: t -> 0x80 <= byteZ c ->
  exists w,
    (1 <= w)%nat /\ (i + w <= length q)%nat
    /\ Forall (fun c => 0x80 <= byteZ c) (take w (c :: t))
    /\ rewritePlaceholders_body q ph i arg out
       = Continue ((i + w)%nat, arg, out ++ take w (c :: t)).
Proof.
  intros Hd Hc.
  pose proof (drop_cons_lookup _ _ _ _ Hd) as (_ & _ & Hi).
  destruct (DecodeRune_spec c t) as (_ & _ & Hhigh).
  destruct (Hhigh Hc) as [Hr Hall].
  pose proof (DecodeRune_drop q i Hi) as [Hw1 Hw2].
  exists (DecodeRuneInString (c :: t)).2. rewrite <- Hd.
  split; [done|]. split; [done|]. split; [by rewrite Hd|].
  apply rewritePlaceholders_body_plain; [done|]. rewrite Hd.
  unfold rewriterTrigger.
  repeat match goal with
         | |- context [?r =? rune ?k] =>
           let H := fresh in
           assert (H : (r =? rune k) = false)
             by (apply Z.eqb_neq; intros E; rewrite E in Hr;
                 vm_compute in Hr; by apply Hr);
           rewrite H; clear H
         end.
  done.
Qed.

Lemma high_plain (c : ascii) (t : gostring) :
  0x80 <= byteZ c -> c <> "?"%char /\ ~ opensRegion (c :: t).
Proof.
  intros Hc. split.
  - intros ->. vm_compute in Hc. by apply Hc.
  - intros [(qc & rest & Hqc & E)|[(rest & E)|[(rest & E)|(tag & rest & _ & E)]]];
      injection E as -> _; try (vm_compute in Hc; by apply Hc).
    destruct Hqc as [-> | [-> | ->]]; vm_compute in Hc; by apply Hc.
Qed.

Lemma rewritten_high (ph : Placeholder) (arg : nat) (seg t r : gostring) :
  Forall (fun c => 0x80 <= byteZ c) seg ->
  rewritten ph arg t r -> rewritten ph arg (seg ++ t) (seg ++ r).
Proof.
  induction 1 as [|c seg Hc _ IH]; intros Hr; [done|]. simpl.
  destruct (high_plain c (seg ++ t) Hc) as [H1 H2].
  apply rewritten_plain; [done|done|by apply IH].
Qed.

(** What stands at the head of a text: a question mark, a whole
    region, the opening of a region that is not closed, or a byte that
    opens none. *)
Lemma head_cases (c : ascii) (t : gostring) :
  c = "?"%char
  \/ (exists reg rest, c :: t = reg ++ rest /\ skipRegion reg rest)
  \/ (exists e, forall q i, drop i q = c :: t -> opensUnterminated q i e)
  \/ (c <> "?"%char /\ ~ opensRegion (c :: t)).
Proof.
  destruct (decide (c = "?"%char)) as [|Hq]; [by left|]. right.
  assert (Hquote : forall e,
    (c, e) ∈ [("'"%char, ErrUnterminatedSingle);
              (dquote, ErrUnterminatedDouble);
              ("`"%char, ErrUnterminatedBacktick)] ->
    quoteByte c ->
    (exists reg rest, c :: t = reg ++ rest /\ skipRegion reg rest)
    \/ (exists e, forall q i, drop i q = c :: t -> opensUnterminated q i e)
    \/ (c <> "?"%char /\ ~ opensRegion (c :: t))).
  { intros e Hin Hqc.
    destruct (quote_closed_or_not c t) as [Hu|(body & rest & -> & Hu & Hr)].
    - right; left. exists e. intros q i Hd.
      by apply (opens_quote q i c e t).
    - left. exists (c :: body ++ [c]), rest.
      split; [simpl; by rewrite <- app_assoc|by constructor]. }
  destruct (decide (c = "'"%char)) as [->|H1].
  { apply (Hquote ErrUnterminatedSingle); [apply list_elem_of_here|by left]. }
  destruct (decide (c = dquote)) as [->|H2].
  { apply (Hquote ErrUnterminatedDouble);
      [apply list_elem_of_further, list_elem_of_here|right; by left]. }
  destruct (decide (c = "`"%char)) as [->|H3].
  { apply (Hquote ErrUnterminatedBacktick);
      [do 2 apply list_elem_of_further; apply list_elem_of_here
      |right; by right]. }
  clear Hquote.
  assert (Hnq : ~ quoteByte c) by (by intros [-> | [-> | ->]]).
  destruct (decide (c = "-"%char)) as [->|H4].
  { destruct t as [|c' t'].
    { right; right. split; [done|].
      intros [(qc & rest & Hqc & E)|[(rest & E)|[(rest & E)|(tag & rest & _ & E)]]];
        try discriminate. injection E as <- _. by apply Hnq. }
    destruct (decide (c' = "-"%char)) as [->|Hc'].
    - left. destruct (decide (lf ∈ t')) as [Hin|Hnin].
      + apply list_elem_of_split_l in Hin as (body & rest & -> & Hb).
        exists ("-"%char :: "-"%char :: body ++ [lf]), rest.
        split; [simpl; by rewrite <- app_assoc|by constructor].
      + exists ("-"%char :: "-"%char :: t'), [].
        split; [by rewrite app_nil_r|by constructor].
    - right; right. split; [done|].
      intros [(qc & rest & Hqc & E)|[(rest & E)|[(rest & E)|(tag & rest & _ & E)]]];
        try discriminate.
      + injection E as <- _. by apply Hnq.
      + injection E as ->. by apply Hc'. }
  destruct (decide (c = "/"%char)) as [->|H5].
  { destruct t as [|c' t'].
    { right; right. split; [done|].
      intros [(qc & rest & Hqc & E)|[(rest & E)|[(rest & E)|(tag & rest & _ & E)]]];
        try discriminate. injection E as <- _. by apply Hnq. }
    destruct (decide (c' = "*"%char)) as [->|Hc'].
    - destruct (absent_or_first (str "*/") ["*"%char] "/"%char t' eq_refl)
        as [Ha|(body & rest & -> & Ha)].
      + right; left. exists ErrUnterminatedBlockComment. intros q i Hd.
        by apply (opens_block q i t').
      + left. exists ("/"%char :: "*"%char :: body ++ ["*"%char; "/"%char]), rest.
        split; [simpl; by rewrite <- app_assoc|by constructor].
    - right; right. split; [done|].
      intros [(qc & rest & Hqc & E)|[(rest & E)|[(rest & E)|(tag & rest & _ & E)]]];
        try discriminate.
      + injection E as <- _. by apply Hnq.
      + injection E as ->. by apply Hc'. }
  destruct (decide (c = "$"%char)) as [->|H6].
  { destruct (dollarQuoted ("$"%char :: t)).1.2 eqn:Eo.
    - apply dollarQuoted_opening in Eo as (tag & rest0 & Ht & [= ->]).
      destruct (absent_or_first ("$"%char :: tag ++ ["$"%char]) ("$"%char :: tag)
                  "$"%char rest0 eq_refl) as [Ha|(body & rest & -> & Ha)].
      + right; left. exists ErrUnterminatedDollar. intros q i Hd.
        by apply (opens_dollar q i tag rest0).
      + left. exists ("$"%char :: tag ++ "$"%char :: body
                      ++ "$"%char :: tag ++ ["$"%char]), rest.
        split; [|by constructor].
        simpl. f_equal. rewrite <- !app_assoc. simpl. do 2 f_equal.
        rewrite <- !app_assoc. simpl. do 2 f_equal. by rewrite <- app_assoc.
    - right; right. split; [done|].
      intros [(qc & rest & Hqc & E)|[(rest & E)|[(rest & E)|(tag & rest & Ht & E)]]];
        try discriminate.
      + injection E as <- _. by apply Hnq.
      + injection E as ->. by rewrite dollarQuoted_tag in Eo. }
  right; right. split; [done|].
  intros [(qc & rest & Hqc & E)|[(rest & E)|[(rest & E)|(tag & rest & _ & E)]]];
    injection E as -> _; done.
Qed.

(** What the rewriter adds to [out] from the index [i] on, when it
    returns: the rest of the query, its regions copied and the question
    marks outside them replaced. *)
Lemma rewritePlaceholders_loop_rewritten (q : gostring) (ph : Placeholder)
    (fuel i arg : nat) (out res : gostring) :
  (i <= length q)%nat ->
  rewritePlaceholders_loop fuel q ph i arg out = Returns res ->
  exists r, res = out ++ r /\ rewritten ph arg (drop i q) r.
Proof.
  revert i arg out. induction fuel as [|fuel IH]; intros i arg out Hi H; [done|].
  simpl in H. destruct (drop i q) as [|c t] eqn:Hd.
  { assert (length q <= i)%nat.
    { apply (f_equal length) in Hd. rewrite length_drop in Hd. simpl in Hd. lia. }
    rewrite rewritePlaceholders_body_end in H by done. injection H as <-.
    exists []. split; [by rewrite app_nil_r|constructor]. }
  pose proof (drop_cons_lookup _ _ _ _ Hd) as (_ & Hd1 & Hlt).
  destruct (head_cases c t)
    as [->|[(reg & rest & Heq & Hreg)|[(e & Ho)|(Hq & Hno)]]].
  - (* a question mark *)
    rewrite (body_question q ph i arg out t Hd) in H.
    assert (Hi' : (i + 1 <= length q)%nat) by lia.
    destruct (IH _ _ _ Hi' H) as (r & -> & Hr).
    exists (marker ph arg ++ r). split; [by rewrite app_assoc|].
    replace (i + 1)%nat with (S i) in Hr by lia. rewrite Hd1 in Hr.
    replace (arg + 1)%nat with (S arg) in Hr by lia. by constructor.
  - (* a region *)
    rewrite Heq in Hd.
    rewrite (rewritePlaceholders_body_region q ph i arg out reg rest Hreg Hd) in H.
    assert (Hlen : (i + length reg + length rest = length q)%nat).
    { apply (f_equal length) in Hd. rewrite length_drop, length_app in Hd. lia. }
    assert (Hi' : (i + length reg <= length q)%nat) by lia.
    destruct (IH _ _ _ Hi' H) as (r & -> & Hr).
    exists (reg ++ r). split; [by rewrite app_assoc|].
    rewrite <- drop_drop, Hd, drop_app_length in Hr. rewrite Heq.
    by constructor.
  - (* a region that is not closed *)
    rewrite (rewritePlaceholders_body_unterminated q ph i arg out e (Ho q i Hd))
      in H.
    case_bool_decide as Hi0; [|done]. subst i.
    destruct (IH _ _ _ Hi H) as (r & -> & Hr). rewrite Hd in Hr.
    by exists r.
  - (* any other byte *)
    destruct (decide (byteZ c < 0x80)) as [Hc|Hc].
    + rewrite (rewritePlaceholders_body_single q ph i arg out c t Hd Hc Hq Hno)
        in H.
      assert (Hi' : (S i <= length q)%nat) by lia.
      destruct (IH _ _ _ Hi' H) as (r & -> & Hr).
      exists (c :: r). split; [by rewrite <- app_assoc|].
      rewrite Hd1 in Hr. by constructor.
    + destruct (rewritePlaceholders_body_high q ph i arg out c t Hd ltac:(lia))
        as (w & Hw1 & Hw2 & Hall & Hb).
      rewrite Hb in H.
      destruct (IH _ _ _ Hw2 H) as (r & -> & Hr).
      exists (take w (c :: t) ++ r). split; [by rewrite app_assoc|].
      rewrite <- drop_drop, Hd in Hr.
      rewrite <- (take_drop w (c :: t)) at 1. by apply rewritten_high.
Qed.

(** *** The regions of a text are read in one way only *)

Lemma unclosed_split_unique (qc : ascii) (body body' rest rest' : gostring) :
  unclosed qc body -> unclosed qc body' ->
  head rest <> Some qc -> head rest' <> Some qc ->
  body ++ qc :: rest = body' ++ qc :: rest' ->
  body = body' /\ rest = rest'.
Proof.
  intros Hu. revert body'.
  induction Hu as [|c body Hc Hu IH|body Hu IH]; intros body' Hu' Hr Hr' E.
  - destruct Hu' as [|c' b' Hc' Hu'|b' Hu']; simpl in E.
    + by injection E as ->.
    + injection E as -> _. done.
    + injection E as ->. done.
  - destruct Hu' as [|c' b' Hc' Hu'|b' Hu']; simpl in E.
    + injection E as -> _. done.
    + injection E as -> E. destruct (IH b' Hu' Hr Hr' E) as [-> ->]. done.
    + injection E as -> _. done.
  - destruct Hu' as [|c' b' Hc' Hu'|b' Hu']; simpl in E.
    + injection E as <-. done.
    + injection E as <- _. done.
    + injection E as E. destruct (IH b' Hu' Hr Hr' E) as [-> ->]. done.
Qed.

Lemma first_not_later (sub init : gostring) (l : ascii)
    (body body' rest rest' : gostring) :
  sub = init ++ [l] -> absent sub (body' ++ init) ->
  body ++ sub ++ rest = body' ++ sub ++ rest' ->
  (length body' <= length body)%nat.
Proof.
  intros Hsub Ha E.
  destruct (decide (length body' <= length body)%nat) as [|Hlt]; [done|].
  exfalso.
  assert (Hlen : (length (body ++ sub) <= length (body' ++ init))%nat).
  { rewrite !length_app, Hsub, length_app. simpl. lia. }
  assert (E' : (body ++ sub) ++ rest = (body' ++ init) ++ l :: rest').
  { rewrite <- !app_assoc, E, Hsub, <- !app_assoc. done. }
  apply (f_equal (take (length (body ++ sub)))) in E'.
  rewrite take_app_length, take_app_le in E' by done.
  apply (Ha body (drop (length (body ++ sub)) (body' ++ init))).
  rewrite <- (take_drop (length (body ++ sub)) (body' ++ init)) at 1.
  by rewrite <- E', <- app_assoc.
Qed.

Lemma first_unique (sub init : gostring) (l : ascii)
    (body body' rest rest' : gostring) :
  sub = init ++ [l] ->
  absent sub (body ++ init) -> absent sub (body' ++ init) ->
  body ++ sub ++ rest = body' ++ sub ++ rest' ->
  body = body' /\ rest = rest'.
Proof.
  intros Hsub Ha Ha' E.
  pose proof (first_not_later sub init l body body' rest rest' Hsub Ha' E).
  pose proof (first_not_later sub init l body' body rest' rest Hsub Ha (eq_sym E)).
  apply app_inj_1 in E as [-> E]; [|lia]. split; [done|].
  by apply app_inv_head in E.
Qed.

Lemma notin_absent (x : ascii) (l : gostring) : x ∉ l -> absent [x] (l ++ []).
Proof.
  intros Hx a b E. apply Hx. rewrite app_nil_r in E. rewrite E.
  apply elem_of_app. right. apply list_elem_of_here.
Qed.

Lemma tag_unique (tag tag' rest rest' : gostring) :
  Forall tagByte tag -> Forall tagByte tag' ->
  tag ++ "$"%char :: rest = tag' ++ "$"%char :: rest' ->
  tag = tag' /\ rest = rest'.
Proof.
  intros Ht Ht' E.
  assert (Hlen : length tag = length tag').
  { rewrite <- (tagLen_tag tag rest Ht), <- (tagLen_tag tag' rest' Ht').
    by rewrite E. }
  apply app_inj_1 in E as [-> E]; [|done]. by injection E as ->.
Qed.

Lemma skipRegion_head (reg t : gostring) :
  skipRegion reg t ->
  opensRegion (reg ++ t)
  /\ exists c reg', reg = c :: reg' /\ c <> "?"%char.
Proof.
  intros [qc body rest Hqc Hu Hr|body rest Hn|body Hn|body rest Ha
         |tag body rest Ht Ha].
  - split; [left; by eexists _, _|]. eexists _, _. split; [done|].
    by destruct Hqc as [-> | [-> | ->]].
  - split; [right; left; by eexists|]. by eexists _, _.
  - split; [right; left; by eexists|]. by eexists _, _.
  - split; [right; right; left; by eexists|]. by eexists _, _.
  - split; [|by eexists _, _]. right; right; right.
    exists tag, (body ++ "$"%char :: tag ++ ["$"%char] ++ rest).
    split; [done|]. simpl. f_equal. rewrite <- !app_assoc. simpl. do 2 f_equal.
    rewrite <- !app_assoc. simpl. do 2 f_equal. by rewrite <- app_assoc.
Qed.

Lemma skipRegion_unique (reg t reg' t' : gostring) :
  skipRegion reg t -> skipRegion reg' t' -> reg ++ t = reg' ++ t' ->
  reg = reg' /\ t = t'.
Proof.
  intros H1 H2 E.
  destruct H1 as [qc body rest Hqc Hu Hr|body rest Hn|body Hn|body rest Ha
                 |tag body rest Ht Ha];
    destruct H2 as [qc' body' rest' Hqc' Hu' Hr'|body' rest' Hn'|body' Hn'
                   |body' rest' Ha'|tag' body' rest' Ht' Ha'];
    simpl in E;
    try (injection E as -> _; by destruct Hqc as [Hq | [Hq | Hq]]);
    try (injection E as <- _; by destruct Hqc' as [Hq | [Hq | Hq]]);
    try discriminate.
  - (* two quoted literals *)
    injection E as -> E. rewrite <- !app_assoc in E. simpl in E.
    destruct (unclosed_split_unique _ _ _ _ _ Hu Hu' Hr Hr' E) as [-> ->].
    done.
  - (* two line comments with their line feeds *)
    injection E as E. rewrite <- !app_assoc in E.
    destruct (first_unique [lf] [] lf body body' rest rest' eq_refl
                (notin_absent _ _ Hn) (notin_absent _ _ Hn') E) as [-> ->].
    done.
  - (* a line feed against the end of the text *)
    injection E as E. exfalso. apply Hn'. rewrite app_nil_r in E.
    rewrite <- E, <- app_assoc. apply elem_of_app. right.
    apply list_elem_of_here.
  - injection E as E. exfalso. apply Hn. rewrite app_nil_r in E.
    rewrite E, <- app_assoc. apply elem_of_app. right.
    apply list_elem_of_here.
  - injection E as E. rewrite !app_nil_r in E. by subst.
  - (* two block comments *)
    injection E as E. rewrite <- !app_assoc in E.
    destruct (first_unique (str "*/") ["*"%char] "/"%char body body' rest rest'
                eq_refl Ha Ha' E) as [-> ->].
    done.
  - (* two dollar-quoted bodies *)
    injection E as E. rewrite <- !app_assoc in E. simpl in E.
    destruct (tag_unique _ _ _ _ Ht Ht' E) as [-> E'].
    rewrite <- !app_assoc in E'. simpl in E'.
    assert (E2 : body ++ ("$"%char :: tag' ++ ["$"%char]) ++ rest
                 = body' ++ ("$"%char :: tag' ++ ["$"%char]) ++ rest').
    { exact E'. }
    destruct (first_unique ("$"%char :: tag' ++ ["$"%char]) ("$"%char :: tag')
                "$"%char body body' rest rest' eq_refl Ha Ha' E2) as [-> ->].
    done.
Qed.

Lemma rewritten_inv (ph : Placeholder) (arg : nat) (t r : gostring) :
  rewritten ph arg t r ->
  (t = [] /\ r = [])
  \/ (exists reg t0 r0,
        t = reg ++ t0 /\ r = reg ++ r0 /\ skipRegion reg t0
        /\ rewritten ph arg t0 r0)
  \/ (exists t0 r0,
        t = "?"%char :: t0 /\ r = marker ph arg ++ r0
        /\ rewritten ph (S arg) t0 r0)
  \/ (exists c t0 r0,
        t = c :: t0 /\ r = c :: r0 /\ c <> "?"%char
        /\ ~ opensRegion (c :: t0) /\ rewritten ph arg t0 r0).
Proof.
  destruct 1 as [arg|arg reg t r Hreg Hr|arg t r Hr|arg c t r Hc Hno Hr].
  - by left.
  - right; left. by eexists _, _, _.
  - right; right; left. by eexists _, _.
  - right; right; right. by eexists _, _, _.
Qed.

(** The text that [rewritten] gives is the only one. *)
Lemma rewritten_functional (ph : Placeholder) (arg : nat) (t r r' : gostring) :
  rewritten ph arg t r -> rewritten ph arg t r' -> r = r'.
Proof.
  intros H. revert r'.
  induction H as [arg|arg reg t r Hreg Hr IH|arg t r Hr IH|arg c t r Hc Hno Hr IH];
    intros r' H'; apply rewritten_inv in H';
    destruct H' as [[E ->]|[(reg' & t' & r0 & E & -> & Hreg' & Hr')
                   |[(t' & r0 & E & -> & Hr')
                    |(c' & t' & r0 & E & -> & Hc' & Hno' & Hr')]]].
  - done.
  - destruct (skipRegion_head _ _ Hreg') as [_ (c & reg0 & -> & _)].
    discriminate.
  - discriminate.
  - discriminate.
  - destruct (skipRegion_head _ _ Hreg) as [_ (c & reg0 & -> & _)].
    discriminate.
  - destruct (skipRegion_unique _ _ _ _ Hreg Hreg' E) as [<- <-].
    f_equal. by apply IH.
  - destruct (skipRegion_head _ _ Hreg) as [_ (c & reg0 & -> & Hq)].
    injection E as -> _. done.
  - destruct (skipRegion_head _ _ Hreg) as [Ho _]. rewrite E in Ho. done.
  - discriminate.
  - destruct (skipRegion_head _ _ Hreg') as [_ (c & reg0 & -> & Hq)].
    injection E as <- _. done.
  - injection E as <-. f_equal. by apply IH.
  - injection E as <- _. done.
  - discriminate.
  - destruct (skipRegion_head _ _ Hreg') as [Ho _]. rewrite <- E in Ho. done.
  - injection E as -> _. done.
  - injection E as <- <-. f_equal. by apply IH.
Qed.

Lemma rewritten_renumbered (ph : Placeholder) (arg : nat) (t r : gostring) :
  rewritten ph arg t r -> renumbered ph arg t r.
Proof.
  induction 1 as [arg|arg reg t r Hreg Hr IH|arg t r Hr IH|arg c t r Hc Hno Hr IH].
  - constructor.
  - by apply renumbered_app.
  - by constructor.
  - by constructor.
Qed.

(** C4 (as amended): whenever the rewriter returns, its output is the
    query read from the left in which the regions (quoted literals,
    line and block comments, dollar-quoted bodies) are copied as they
    stand, the question marks outside the regions are replaced by the
    markers of the dialect, numbered from 1 in their order, and every
    other byte is in its place; no other text is that, and under the
    question dialect the output is the query itself.  Unless the
    dialect is the dollar dialect, the rewriter run on that output
    returns it unchanged. *)
Theorem C4_rewriting_stable (fuel : nat) (q s : gostring) (ph : Placeholder) :
  rewritePlaceholders fuel q ph = Returns s ->
  renumbered ph 1 q s
  /\ (ph = PlaceholderQuestion -> s = q)
  /\ (ph <> PlaceholderQuestion ->
      rewritten ph 1 q s /\ forall s', rewritten ph 1 q s' -> s' = s)
  /\ (ph <> PlaceholderDollar ->
      forall fuel', (length s < fuel')%nat ->
        rewritePlaceholders fuel' s ph = Returns s).
Proof.
  intros H.
  assert (Hloop : rewritePlaceholders_loop fuel q ph 0 1 [] = Returns s ->
    renumbered ph 1 q s
    /\ rewritten ph 1 q s
    /\ (ph <> PlaceholderDollar ->
        forall fuel', (length s < fuel')%nat ->
          rewritePlaceholders_loop fuel' s ph 0 1 [] = Returns s)).
  { intros Hl.
    destruct (rewritePlaceholders_loop_stable q ph fuel 0 1 [] s ltac:(lia) Hl)
      as (r & -> & Hren & Hst).
    destruct (rewritePlaceholders_loop_rewritten q ph fuel 0 1 [] _
                ltac:(lia) Hl) as (r' & Hr' & Hrew).
    simpl in Hr'. subst r'. simpl. split; [done|]. split; [done|].
    intros Hph fuel' Hf. exact (Hst Hph [] 1%nat [] fuel' Hf). }
  destruct ph;
    try (destruct (Hloop H) as (H1 & H2 & H3);
         split; [done|]; split; [done|];
         split; [intros _; split; [done|];
                 intros s' Hs'; by apply (rewritten_functional _ _ _ _ _ Hs')|];
         intros Hph fuel' Hf; by apply H3).
  simpl in H. injection H as <-.
  split; [apply renumbered_refl|]. split; [done|]. split; [done|]. done.
Qed.

Lemma C4_rewriting_stable_witness :
  rewritePlaceholders 64 (str "a = ? AND b = '?' AND c = ? -- ?") PlaceholderAtP
    = Returns (str "a = @p1 AND b = '?' AND c = @p2 -- ?")
  /\ rewritten PlaceholderAtP 1 (str "a = ? AND b = '?' AND c = ? -- ?")
       (str "a = @p1 AND b = '?' AND c = @p2 -- ?")
  /\ rewritePlaceholders 64 (str "a = @p1 AND b = '?' AND c = @p2 -- ?")
       PlaceholderAtP
     = Returns (str "a = @p1 AND b = '?' AND c = @p2 -- ?").
Proof.
  assert (H : rewritePlaceholders 64 (str "a = ? AND b = '?' AND c = ? -- ?")
                PlaceholderAtP
              = Returns (str "a = @p1 AND b = '?' AND c = @p2 -- ?"))
    by (vm_compute; reflexivity).
  split; [exact H|].
  destruct (C4_rewriting_stable _ _ _ _ H) as (_ & _ & Hrew & Hstable).
  split.
  - apply Hrew. discriminate.
  - apply Hstable; [discriminate|]. vm_compute. lia.
Defined.

(** Under the dollar dialect the marker [$1] before a dollar sign opens
    a dollar quote in the second pass, which then ends in what was a
    line comment and replaces the question mark behind it. *)
Lemma C4_counterexample_dollar_second_pass :
  rewritePlaceholders 64 (str "?$ --$1$ ?") PlaceholderDollar
    = Returns (str "$1$ --$1$ ?")
  /\ rewritePlaceholders 64 (str "$1$ --$1$ ?") PlaceholderDollar
     = Returns (str "$1$ --$1$ $1").
Proof. split; vm_compute; reflexivity. Qed.
